(** * Schedule manager: interval tree and per-day schedule index

    A shallow embedding of [schedule_manager/core.py].  The interval tree is
    a red-black tree of heap-allocated [IntervalNode] objects linked by
    [left], [right] and [parent] references; it is modelled over an explicit
    store of nodes, so that reference identity, the field-wise equality that
    [@dataclass] generates for [IntervalNode], and in-place mutation are all
    visible. *)

From Stdlib Require Import ZArith Lia List Bool Ascii.
From stdpp Require Import gmap strings list sorting.

Open Scope Z_scope.

(** ** Outcomes of running Python code *)

(** The exceptions the code can raise, by Python class; the constructors of
    [ValueError] and [RuntimeError] are told apart by the message the code
    attaches. *)
Inductive exn :=
  | RecursionError
  | AttributeError
  | KeyError
  | TypeError
  | OverflowError
  | ValueError_strptime
  | ValueError_format        (* "Неверный формат данных" *)
  | ValueError_date          (* "Неверный формат даты" *)
  | ValueError_time          (* "Неверный формат времени" *)
  | ValueError_order         (* "Время начала должно быть меньше времени окончания" *)
  | ValueError_duration      (* "Продолжительность должна быть положительной" *)
  | RuntimeError_not_loaded  (* "Данные не загружены" *)
  | RuntimeError_no_day.     (* "Рабочий день для даты ... не найден" *)

(** A call returns a value, raises, or is still running when the fuel given
    to its [while] loops is used up. *)
Inductive res (A : Type) :=
  | Ok (a : A)
  | Raise (e : exn)
  | OutOfFuel.
Arguments Ok {A} a.
Arguments Raise {A} e.
Arguments OutOfFuel {A}.

(** Code that mutates an object of type [S]: the state is returned on every
    outcome, since a raised exception leaves the mutations made so far. *)
Definition M (S A : Type) : Type := S -> res A * S.

Definition ret {S A} (a : A) : M S A := fun s => (Ok a, s).
Definition raise {S A} (e : exn) : M S A := fun s => (Raise e, s).
Definition out_of_fuel {S A} : M S A := fun s => (OutOfFuel, s).
Definition bind {S A B} (m : M S A) (k : A -> M S B) : M S B :=
  fun s =>
    match m s with
    | (Ok a, s') => k a s'
    | (Raise e, s') => (Raise e, s')
    | (OutOfFuel, s') => (OutOfFuel, s')
    end.
Definition lift {S A} (r : S -> res A) : M S A := fun s => (r s, s).

Declare Scope py_scope.
Delimit Scope py_scope with py.
Notation "x <- m ;; k" := (bind m (fun x => k))
  (at level 100, m at next level, right associativity) : py_scope.
Notation "m ;;; k" := (bind m (fun _ => k))
  (at level 100, right associativity) : py_scope.
Open Scope py_scope.

(** ** Interval tree: data *)

Inductive Color := RED | BLACK.

Definition Color_eqb (c d : Color) : bool :=
  match c, d with
  | RED, RED | BLACK, BLACK => true
  | _, _ => false
  end.

(** A reference: [None] is Python's [None], [Some a] the object at address
    [a] of the tree's store. *)
Definition ref := option nat.

Record IntervalNode := mkNode {
  start : Z;
  end_ : Z;
  slot_id : Z;
  max_end : Z;
  left : ref;
  right : ref;
  parent : ref;
  color : Color
}.

(** [IntervalNode(start, end, slot_id, max_end, color=...)] with
    [__post_init__]. *)
Definition new_IntervalNode (s e i m : Z) (c : Color) : IntervalNode :=
  mkNode s e i (if m =? 0 then e else m) None None None c.

Definition set_max_end (m : Z) (n : IntervalNode) : IntervalNode :=
  mkNode (start n) (end_ n) (slot_id n) m (left n) (right n) (parent n) (color n).
Definition set_left (p : ref) (n : IntervalNode) : IntervalNode :=
  mkNode (start n) (end_ n) (slot_id n) (max_end n) p (right n) (parent n) (color n).
Definition set_right (p : ref) (n : IntervalNode) : IntervalNode :=
  mkNode (start n) (end_ n) (slot_id n) (max_end n) (left n) p (parent n) (color n).
Definition set_parent (p : ref) (n : IntervalNode) : IntervalNode :=
  mkNode (start n) (end_ n) (slot_id n) (max_end n) (left n) (right n) p (color n).
Definition set_color (c : Color) (n : IntervalNode) : IntervalNode :=
  mkNode (start n) (end_ n) (slot_id n) (max_end n) (left n) (right n) (parent n) c.

Definition overlaps_with (n : IntervalNode) (s e : Z) : bool :=
  negb ((end_ n <=? s) || (start n >=? e)).

(** The sentinel [self.nil = IntervalNode(0, 0, -1, 0, color=Color.BLACK)]
    lives at address 0 of every tree's store. *)
Definition nil_node : IntervalNode := new_IntervalNode 0 0 (-1) 0 BLACK.
Definition nil : nat := 0%nat.

Record IntervalTree := mkTree {
  nodes : gmap nat IntervalNode;   (* the objects, by address *)
  next : nat;                      (* the next fresh address *)
  root : ref;
  size : Z
}.

(** [IntervalTree()] *)
Definition new_IntervalTree : IntervalTree :=
  mkTree {[ nil := nil_node ]} 1%nat None 0.

Definition node_at (t : IntervalTree) (a : nat) : IntervalNode :=
  default nil_node (nodes t !! a).

(** ** Interval tree: primitive accesses *)

(** [p.f]: attribute access, which raises on [None]. *)
Definition rd {A} (f : IntervalNode -> A) (p : ref) : M IntervalTree A :=
  fun t =>
    match p with
    | None => (Raise AttributeError, t)
    | Some a => (Ok (f (node_at t a)), t)
    end.

(** [p.f = v] *)
Definition wr (upd : IntervalNode -> IntervalNode) (p : ref) : M IntervalTree unit :=
  fun t =>
    match p with
    | None => (Raise AttributeError, t)
    | Some a =>
        (Ok tt, mkTree (<[a := upd (node_at t a)]> (nodes t)) (next t) (root t) (size t))
    end.

Definition get_root : M IntervalTree ref := fun t => (Ok (root t), t).
Definition set_root (p : ref) : M IntervalTree unit :=
  fun t => (Ok tt, mkTree (nodes t) (next t) p (size t)).

(** Allocation of a fresh object. *)
Definition alloc (n : IntervalNode) : M IntervalTree ref :=
  fun t =>
    (Ok (Some (next t)),
     mkTree (<[next t := n]> (nodes t)) (S (next t)) (root t) (size t)).

(** ** Equality of nodes

    [IntervalNode] is a [@dataclass], so [a == b] is not reference identity:
    the generated [__eq__] compares the tuples of fields
    [(start, end, slot_id, max_end, left, right, parent, color)].  Tuple
    comparison goes through the fields in order, takes two identical objects
    as equal without calling [__eq__], stops at the first difference, and
    calls [__eq__] again on [left], [right] and [parent] when they are two
    different nodes.  [rl] bounds the depth of these nested calls: Python
    raises [RecursionError] beyond its recursion limit. *)
Fixpoint node_eq (rl : nat) (h : gmap nat IntervalNode) (a b : nat) : res bool :=
  if decide (a = b) then Ok true else
  match rl with
  | O => Raise RecursionError
  | S rl' =>
      let x := default nil_node (h !! a) in
      let y := default nil_node (h !! b) in
      let ref_eq (p q : ref) : res bool :=
        match p, q with
        | None, None => Ok true
        | Some a', Some b' => node_eq rl' h a' b'
        | _, _ => Ok false
        end in
      if negb (start x =? start y) then Ok false else
      if negb (end_ x =? end_ y) then Ok false else
      if negb (slot_id x =? slot_id y) then Ok false else
      if negb (max_end x =? max_end y) then Ok false else
      match ref_eq (left x) (left y) with
      | Ok true =>
          match ref_eq (right x) (right y) with
          | Ok true =>
              match ref_eq (parent x) (parent y) with
              | Ok true => Ok (Color_eqb (color x) (color y))
              | r => r
              end
          | r => r
          end
      | r => r
      end
  end.

(** [p == q] on references. *)
Definition ref_eq (rl : nat) (h : gmap nat IntervalNode) (p q : ref) : res bool :=
  match p, q with
  | None, None => Ok true
  | Some a, Some b => node_eq rl h a b
  | _, _ => Ok false
  end.

Definition py_eq (rl : nat) (p q : ref) : M IntervalTree bool :=
  lift (fun t => ref_eq rl (nodes t) p q).
Definition py_ne (rl : nat) (p q : ref) : M IntervalTree bool :=
  b <- py_eq rl p q;; ret (negb b).

Definition is_None (p : ref) : bool :=
  match p with None => true | Some _ => false end.

(** ** Interval tree: operations *)

Section IntervalTree_methods.

(** The recursion limit of the interpreter. *)
Variable rl : nat.

Definition _update_max_end (node : ref) : M IntervalTree unit :=
  if is_None node then ret tt else
  is_nil <- py_eq rl node (Some nil);;
  if is_nil then ret tt else
  e <- rd end_ node;;
  wr (set_max_end e) node;;;
  l <- rd left node;;
  has_l <- (if is_None l then ret false else py_ne rl l (Some nil));;
  (if has_l then
     m <- rd max_end node;;
     lm <- rd max_end l;;
     wr (set_max_end (Z.max m lm)) node
   else ret tt);;;
  r <- rd right node;;
  has_r <- (if is_None r then ret false else py_ne rl r (Some nil));;
  (if has_r then
     m <- rd max_end node;;
     rm <- rd max_end r;;
     wr (set_max_end (Z.max m rm)) node
   else ret tt).

Definition _left_rotate (x : ref) : M IntervalTree unit :=
  if is_None x then ret tt else
  xr <- rd right x;;
  if is_None xr then ret tt else
  y <- rd right x;;
  yl <- rd left y;;
  wr (set_right yl) x;;;
  yl <- rd left y;;
  c <- py_ne rl yl (Some nil);;
  (if c then wr (set_parent x) yl else ret tt);;;
  xp <- rd parent x;;
  wr (set_parent xp) y;;;
  xp <- rd parent x;;
  at_root <- (if is_None xp then ret true else py_eq rl xp (Some nil));;
  (if at_root then set_root y
   else
     xpl <- rd left xp;;
     is_left <- py_eq rl x xpl;;
     if is_left then wr (set_left y) xp else wr (set_right y) xp);;;
  wr (set_left x) y;;;
  wr (set_parent y) x;;;
  _update_max_end x;;;
  _update_max_end y.

Definition _right_rotate (y : ref) : M IntervalTree unit :=
  if is_None y then ret tt else
  yl <- rd left y;;
  if is_None yl then ret tt else
  x <- rd left y;;
  xr <- rd right x;;
  wr (set_left xr) y;;;
  xr <- rd right x;;
  c <- py_ne rl xr (Some nil);;
  (if c then wr (set_parent y) xr else ret tt);;;
  yp <- rd parent y;;
  wr (set_parent yp) x;;;
  yp <- rd parent y;;
  at_root <- (if is_None yp then ret true else py_eq rl yp (Some nil));;
  (if at_root then set_root x
   else
     ypr <- rd right yp;;
     is_right <- py_eq rl y ypr;;
     if is_right then wr (set_right x) yp else wr (set_left x) yp);;;
  wr (set_right y) x;;;
  wr (set_parent x) y;;;
  _update_max_end y;;;
  _update_max_end x.

(** The condition of the [while] of [_insert_fixup]. *)
Definition fixup_cond (node : ref) : M IntervalTree bool :=
  p <- rd parent node;;
  if is_None p then ret false else
  real <- py_ne rl p (Some nil);;
  if negb real then ret false else
  c <- rd color p;;
  ret (Color_eqb c RED).

(** One pass through the body of the [while] of [_insert_fixup]; the
    result is the new value of the local variable [node]. *)
Definition fixup_body (node : ref) : M IntervalTree ref :=
  p <- rd parent node;;
  g <- rd parent p;;
  on_left <- (if is_None g then ret true else gl <- rd left g;; py_eq rl p gl);;
  if on_left then
    uncle <- (if is_None g then ret (Some nil) else rd right g);;
    uncle_red <- (if is_None uncle then ret false
                  else c <- rd color uncle;; ret (Color_eqb c RED));;
    if uncle_red then
      wr (set_color BLACK) p;;;
      wr (set_color BLACK) uncle;;;
      g <- (p <- rd parent node;; rd parent p);;
      if is_None g then ret node
      else wr (set_color RED) g;;; ret g
    else
      pr <- (p <- rd parent node;; rd right p);;
      zig <- py_eq rl node pr;;
      node <- (if zig then
                 p <- rd parent node;; _left_rotate p;;; ret p
               else ret node);;
      p <- rd parent node;;
      (if is_None p then ret tt
       else
         wr (set_color BLACK) p;;;
         g <- rd parent p;;
         if is_None g then ret tt
         else wr (set_color RED) g;;; _right_rotate g);;;
      ret node
  else
    uncle <- (if is_None g then ret (Some nil) else rd left g);;
    uncle_red <- (if is_None uncle then ret false
                  else c <- rd color uncle;; ret (Color_eqb c RED));;
    if uncle_red then
      wr (set_color BLACK) p;;;
      wr (set_color BLACK) uncle;;;
      g <- (p <- rd parent node;; rd parent p);;
      if is_None g then ret node
      else wr (set_color RED) g;;; ret g
    else
      pl <- (p <- rd parent node;; rd left p);;
      zag <- py_eq rl node pl;;
      node <- (if zag then
                 p <- rd parent node;; _right_rotate p;;; ret p
               else ret node);;
      p <- rd parent node;;
      (if is_None p then ret tt
       else
         wr (set_color BLACK) p;;;
         g <- rd parent p;;
         if is_None g then ret tt
         else wr (set_color RED) g;;; _left_rotate g);;;
      ret node.

Fixpoint fixup_loop (fuel : nat) (node : ref) : M IntervalTree unit :=
  go <- fixup_cond node;;
  if go then
    match fuel with
    | O => out_of_fuel
    | S fuel' => node' <- fixup_body node;; fixup_loop fuel' node'
    end
  else ret tt.

Definition _insert_fixup (fuel : nat) (node : ref) : M IntervalTree unit :=
  if is_None node then ret tt else
  fixup_loop fuel node;;;
  r <- get_root;;
  if is_None r then ret tt else wr (set_color BLACK) r.

(** The condition [p is not None and p != self.nil] of the two loops of
    [insert]. *)
Definition is_real (p : ref) : M IntervalTree bool :=
  if is_None p then ret false else py_ne rl p (Some nil).

(** The descent of [insert]; the result is the final value of [parent]. *)
Fixpoint descend (fuel : nat) (new_node current parent : ref) : M IntervalTree ref :=
  go <- is_real current;;
  if go then
    match fuel with
    | O => out_of_fuel
    | S fuel' =>
        _update_max_end current;;;
        ns <- rd start new_node;;
        cs <- rd start current;;
        next_ <- (if ns <=? cs then rd left current else rd right current);;
        descend fuel' new_node next_ current
    end
  else ret parent.

(** The second loop of [insert]: [max_end] of the new node and of all its
    ancestors. *)
Fixpoint update_ancestors (fuel : nat) (node : ref) : M IntervalTree unit :=
  go <- is_real node;;
  if go then
    match fuel with
    | O => out_of_fuel
    | S fuel' =>
        _update_max_end node;;;
        p <- rd parent node;;
        update_ancestors fuel' p
    end
  else ret tt.

Definition incr_size : M IntervalTree unit :=
  fun t => (Ok tt, mkTree (nodes t) (next t) (root t) (size t + 1)).

Definition insert (fuel : nat) (s e i : Z) : M IntervalTree unit :=
  new_node <- alloc (new_IntervalNode s e i e RED);;
  wr (set_left (Some nil)) new_node;;;
  wr (set_right (Some nil)) new_node;;;
  wr (set_parent (Some nil)) new_node;;;
  current <- get_root;;
  parent_ <- descend fuel new_node current (Some nil);;
  wr (set_parent parent_) new_node;;;
  at_root <- (b <- py_eq rl parent_ (Some nil);;
              if b then ret true else ret (is_None parent_));;
  (if at_root then set_root new_node
   else
     ns <- rd start new_node;;
     ps <- rd start parent_;;
     if ns <=? ps then wr (set_left new_node) parent_
     else wr (set_right new_node) parent_);;;
  update_ancestors fuel new_node;;;
  _insert_fixup fuel new_node;;;
  incr_size.

(** The inner function [search] of [find_overlapping]; [depth] is what is
    left of the recursion limit, [acc] the list [result]. *)
Fixpoint search (depth : nat) (s e : Z) (node : ref) (acc : list Z)
  : M IntervalTree (list Z) :=
  match depth with
  | O => raise RecursionError
  | S depth' =>
      real <- is_real node;;
      if negb real then ret acc else
      hit <- rd (fun n => overlaps_with n s e) node;;
      n_id <- rd slot_id node;;
      let acc := if hit then acc ++ [n_id] else acc in
      l <- rd left node;;
      go_l <- (real_l <- is_real l;;
               if negb real_l then ret false
               else lm <- rd max_end l;; ret (lm >? s));;
      acc <- (if go_l then search depth' s e l acc else ret acc);;
      r <- rd right node;;
      go_r <- (real_r <- is_real r;;
               if negb real_r then ret false
               else n_start <- rd start node;; ret (n_start <? e));;
      if go_r then search depth' s e r acc else ret acc
  end.

Definition find_overlapping (s e : Z) : M IntervalTree (list Z) :=
  r <- get_root;;
  if is_None r then ret [] else search rl s e r [].

(** The inner function [inorder] of [get_all_intervals]. *)
Fixpoint inorder (depth : nat) (node : ref) (acc : list (Z * Z * Z))
  : M IntervalTree (list (Z * Z * Z)) :=
  match depth with
  | O => raise RecursionError
  | S depth' =>
      real <- is_real node;;
      if negb real then ret acc else
      l <- rd left node;;
      acc <- inorder depth' l acc;;
      n_start <- rd start node;;
      n_end <- rd end_ node;;
      n_id <- rd slot_id node;;
      r <- rd right node;;
      inorder depth' r (acc ++ [(n_start, n_end, n_id)])
  end.

End IntervalTree_methods.

(** [sorted] on a list of [(start, end, slot_id)] tuples: Python compares
    tuples lexicographically. *)
Definition tuple_le (x y : Z * Z * Z) : Prop :=
  let '(s1, e1, i1) := x in
  let '(s2, e2, i2) := y in
  s1 < s2 \/ (s1 = s2 /\ (e1 < e2 \/ (e1 = e2 /\ i1 <= i2))).

#[global] Instance tuple_le_dec : RelDecision tuple_le.
Proof.
  intros [[s1 e1] i1] [[s2 e2] i2]. unfold tuple_le.
  apply _.
Defined.

Definition sorted (l : list (Z * Z * Z)) : list (Z * Z * Z) :=
  merge_sort tuple_le l.

Definition get_all_intervals (rl : nat) : M IntervalTree (list (Z * Z * Z)) :=
  r <- get_root;;
  result <- (if is_None r then ret [] else inorder rl rl r []);;
  ret (sorted result).

Definition is_empty (rl : nat) : M IntervalTree bool :=
  r <- get_root;;
  if is_None r then ret true else py_eq rl r (Some nil).

(** A sequence of calls [tree.insert(s, e, i)], one per element of [ops]
    in order (the loop of [_build_indexes] over the slots of one date). *)
Fixpoint insert_all (rl fuel : nat) (ops : list (Z * Z * Z)) : M IntervalTree unit :=
  match ops with
  | [] => ret tt
  | (s, e, i) :: ops' => insert rl fuel s e i;;; insert_all rl fuel ops'
  end.


(** * Dates and times of day *)

(** [datetime.date] and, for the values that [strptime(.., '%H:%M').time()]
    and [datetime.time(hour=.., minute=..)] build, [datetime.time]: seconds
    and microseconds are always zero. *)
Record date := mkDate { d_year : Z; d_month : Z; d_day : Z }.
Record time := mkTime { hour : Z; minute : Z }.

Definition date_eqb (a b : date) : bool :=
  (d_year a =? d_year b) && (d_month a =? d_month b) && (d_day a =? d_day b).

(** Comparison of [datetime.time] objects: by hour, then by minute. *)
Definition time_ltb (a b : time) : bool :=
  (hour a <? hour b) || ((hour a =? hour b) && (minute a <? minute b)).
Definition time_leb (a b : time) : bool := negb (time_ltb b a).

Definition is_leap (y : Z) : bool :=
  (y mod 4 =? 0) && (negb (y mod 100 =? 0) || (y mod 400 =? 0)).

Definition days_in_month (y m : Z) : Z :=
  if m =? 2 then (if is_leap y then 29 else 28)
  else if (m =? 4) || (m =? 6) || (m =? 9) || (m =? 11) then 30
  else 31.

(** What the constructors of [datetime] accept ([MINYEAR = 1],
    [MAXYEAR = 9999]). *)
Definition valid_date (d : date) : bool :=
  (1 <=? d_year d) && (d_year d <=? 9999) &&
  (1 <=? d_month d) && (d_month d <=? 12) &&
  (1 <=? d_day d) && (d_day d <=? days_in_month (d_year d) (d_month d)).

Definition valid_time (t : time) : bool :=
  (0 <=? hour t) && (hour t <=? 23) && (0 <=? minute t) && (minute t <=? 59).

(** ** [strptime]

    [_strptime] turns the format into a regular expression and matches it
    at the start of the string; text left after the match is an error.  The
    strings of the model are made of characters below 256, among which the
    digits of [\d] are ['0'] to ['9'].  An alternative of a directive is
    tried only if the ones before it do not match: where an earlier
    alternative matches two digits and the separator that follows does not,
    a later alternative takes one digit and finds the second one in place
    of the separator, so no later alternative succeeds either. *)

Definition digit (c : ascii) : option Z :=
  let n := Z.of_N (N_of_ascii c) in
  if (48 <=? n) && (n <=? 57) then Some (n - 48) else None.

(** Two digits [a], [b] with [p a b]; the value is [10 * a + b]. *)
Definition pat2 (p : Z -> Z -> bool) (s : string) : option (Z * string) :=
  match s with
  | String c1 (String c2 rest) =>
      match digit c1, digit c2 with
      | Some a, Some b => if p a b then Some (10 * a + b, rest) else None
      | _, _ => None
      end
  | _ => None
  end.

(** One digit [a] with [p a]. *)
Definition pat1 (p : Z -> bool) (s : string) : option (Z * string) :=
  match s with
  | String c1 rest =>
      match digit c1 with
      | Some a => if p a then Some (a, rest) else None
      | None => None
      end
  | _ => None
  end.

(** A space, then one digit [a] with [p a]. *)
Definition pat_sp1 (p : Z -> bool) (s : string) : option (Z * string) :=
  match s with
  | String c rest => if Ascii.eqb c " "%char then pat1 p rest else None
  | _ => None
  end.

Definition alt (f g : string -> option (Z * string)) (s : string)
  : option (Z * string) :=
  match f s with
  | Some r => Some r
  | None => g s
  end.

(** [%Y]: [\d\d\d\d]. *)
Definition re_Y (s : string) : option (Z * string) :=
  match pat2 (fun _ _ => true) s with
  | Some (hi, rest) =>
      match pat2 (fun _ _ => true) rest with
      | Some (lo, rest') => Some (100 * hi + lo, rest')
      | None => None
      end
  | None => None
  end.

(** [%m]: [1[0-2]|0[1-9]|[1-9]]. *)
Definition re_m : string -> option (Z * string) :=
  alt (pat2 (fun a b => (a =? 1) && (b <=? 2)))
 (alt (pat2 (fun a b => (a =? 0) && (1 <=? b)))
      (pat1 (fun a => 1 <=? a))).

(** [%d]: [3[0-1]|[1-2]\d|0[1-9]|[1-9]| [1-9]]. *)
Definition re_d : string -> option (Z * string) :=
  alt (pat2 (fun a b => (a =? 3) && (b <=? 1)))
 (alt (pat2 (fun a b => (1 <=? a) && (a <=? 2)))
 (alt (pat2 (fun a b => (a =? 0) && (1 <=? b)))
 (alt (pat1 (fun a => 1 <=? a))
      (pat_sp1 (fun a => 1 <=? a))))).

(** [%H]: [2[0-3]|[0-1]\d|\d]. *)
Definition re_H : string -> option (Z * string) :=
  alt (pat2 (fun a b => (a =? 2) && (b <=? 3)))
 (alt (pat2 (fun a b => a <=? 1))
      (pat1 (fun _ => true))).

(** [%M]: [[0-5]\d|\d]. *)
Definition re_M : string -> option (Z * string) :=
  alt (pat2 (fun a b => a <=? 5))
      (pat1 (fun _ => true)).

(** One given character. *)
Definition lit (c : ascii) (s : string) : option string :=
  match s with
  | String c' rest => if Ascii.eqb c' c then Some rest else None
  | _ => None
  end.

(** [datetime.datetime.strptime(s, '%Y-%m-%d').date()]; [None] stands for
    the [ValueError] of [strptime]. *)
Definition strptime_date (s : string) : option date :=
  match re_Y s with
  | Some (y, s1) =>
      match lit "-" s1 with
      | Some s2 =>
          match re_m s2 with
          | Some (m, s3) =>
              match lit "-" s3 with
              | Some s4 =>
                  match re_d s4 with
                  | Some (d, EmptyString) =>
                      if valid_date (mkDate y m d) then Some (mkDate y m d) else None
                  | _ => None
                  end
              | None => None
              end
          | None => None
          end
      | None => None
      end
  | None => None
  end.

(** [datetime.datetime.strptime(s, '%H:%M').time()]. *)
Definition strptime_time (s : string) : option time :=
  match re_H s with
  | Some (h, s1) =>
      match lit ":" s1 with
      | Some s2 =>
          match re_M s2 with
          | Some (m, EmptyString) => Some (mkTime h m)
          | _ => None
          end
      | None => None
      end
  | None => None
  end.

(** ** [strftime] *)

Definition digit_char (n : Z) : ascii := ascii_of_N (Z.to_N (48 + n)).

Definition pad2 (n : Z) (rest : string) : string :=
  String (digit_char (n / 10)) (String (digit_char (n mod 10)) rest).

(** The year as the C library writes [%Y]: in decimal, without leading
    zeros, so that the year 999 is written with three digits.  The years of
    a [datetime.date] are 1..9999. *)
Definition year_str (y : Z) (rest : string) : string :=
  if y <? 10 then String (digit_char y) rest
  else if y <? 100 then pad2 y rest
  else if y <? 1000 then String (digit_char (y / 100)) (pad2 (y mod 100) rest)
  else pad2 (y / 100) (pad2 (y mod 100) rest).

(** [d.strftime('%Y-%m-%d')]. *)
Definition strftime_date (d : date) : string :=
  year_str (d_year d)
    (String "-" (pad2 (d_month d) (String "-" (pad2 (d_day d) EmptyString)))).

(** [t.strftime('%H:%M')]. *)
Definition strftime_time (t : time) : string :=
  pad2 (hour t) (String ":" (pad2 (minute t) EmptyString)).

(** * The records of the schedule *)

(** A [ValueError] that the [datetime] module itself raises. *)
Definition ValueError_datetime : exn := ValueError_strptime.

(** Code that raises or returns, without a state. *)
Definition res_bind {A B} (r : res A) (k : A -> res B) : res B :=
  match r with
  | Ok a => k a
  | Raise e => Raise e
  | OutOfFuel => OutOfFuel
  end.

(** [data[key]] on a dictionary in which the key may be missing. *)
Definition get_item {A} (o : option A) : res A :=
  match o with
  | Some a => Ok a
  | None => Raise KeyError
  end.

Definition or_ValueError {A} (o : option A) : res A :=
  match o with
  | Some a => Ok a
  | None => Raise ValueError_datetime
  end.

(** A list comprehension [[f(x) for x in xs]]: the first exception ends it. *)
Fixpoint map_res {A B} (f : A -> res B) (xs : list A) : res (list B) :=
  match xs with
  | [] => Ok []
  | x :: xs' =>
      res_bind (f x) (fun y => res_bind (map_res f xs') (fun ys => Ok (y :: ys)))
  end.

(** The dictionaries that [from_dict] reads and [to_dict] builds: the keys
    ['id'], ['date'], ['start'], ['end'] (and ['day_id']), each present or
    not. *)
Record DayDict := mkDayDict {
  dd_id : option Z;
  dd_date : option string;
  dd_start : option string;
  dd_end : option string
}.

Record SlotDict := mkSlotDict {
  sd_id : option Z;
  sd_day_id : option Z;
  sd_start : option string;
  sd_end : option string
}.

Record Day := mkDay {
  Day_id : Z;
  Day_date : date;
  Day_start : time;
  Day_end : time
}.

Record TimeSlot := mkTimeSlot {
  TimeSlot_id : Z;
  TimeSlot_day_id : Z;
  TimeSlot_start : time;
  TimeSlot_end : time
}.

(** [Day.from_dict]: the arguments are evaluated in the order written. *)
Definition Day_from_dict (data : DayDict) : res Day :=
  res_bind (get_item (dd_id data)) (fun i =>
  res_bind (get_item (dd_date data)) (fun ds =>
  res_bind (or_ValueError (strptime_date ds)) (fun d =>
  res_bind (get_item (dd_start data)) (fun ss =>
  res_bind (or_ValueError (strptime_time ss)) (fun s =>
  res_bind (get_item (dd_end data)) (fun es =>
  res_bind (or_ValueError (strptime_time es)) (fun e =>
  Ok (mkDay i d s e)))))))).

Definition Day_to_dict (d : Day) : DayDict :=
  mkDayDict (Some (Day_id d)) (Some (strftime_date (Day_date d)))
    (Some (strftime_time (Day_start d))) (Some (strftime_time (Day_end d))).

(** [Day.is_working_time]: [self.start <= time <= self.end]. *)
Definition Day_is_working_time (d : Day) (t : time) : bool :=
  time_leb (Day_start d) t && time_leb t (Day_end d).

Definition TimeSlot_from_dict (data : SlotDict) : res TimeSlot :=
  res_bind (get_item (sd_id data)) (fun i =>
  res_bind (get_item (sd_day_id data)) (fun di =>
  res_bind (get_item (sd_start data)) (fun ss =>
  res_bind (or_ValueError (strptime_time ss)) (fun s =>
  res_bind (get_item (sd_end data)) (fun es =>
  res_bind (or_ValueError (strptime_time es)) (fun e =>
  Ok (mkTimeSlot i di s e))))))).

Definition TimeSlot_to_dict (s : TimeSlot) : SlotDict :=
  mkSlotDict (Some (TimeSlot_id s)) (Some (TimeSlot_day_id s))
    (Some (strftime_time (TimeSlot_start s))) (Some (strftime_time (TimeSlot_end s))).

Definition TimeSlot_duration_minutes (s : TimeSlot) : Z :=
  let start_minutes := hour (TimeSlot_start s) * 60 + minute (TimeSlot_start s) in
  let end_minutes := hour (TimeSlot_end s) * 60 + minute (TimeSlot_end s) in
  end_minutes - start_minutes.

(** [TimeSlot.overlaps_with]:
    [not (self.end <= other.start or self.start >= other.end)]. *)
Definition TimeSlot_overlaps_with (s other : TimeSlot) : bool :=
  negb (time_leb (TimeSlot_end s) (TimeSlot_start other)
        || time_leb (TimeSlot_end other) (TimeSlot_start s)).

(** * [ScheduleManager] *)

Record ScheduleManager := mkManager {
  days : list Day;
  timeslots : list TimeSlot;
  day_by_date : gmap string Day;
  day_by_id : gmap Z Day;
  interval_trees : gmap string IntervalTree
}.

(** [ScheduleManager()] *)
Definition new_ScheduleManager : ScheduleManager :=
  mkManager [] [] ∅ ∅ ∅.

Definition gets {S A} (f : S -> A) : M S A := fun s => (Ok (f s), s).

Definition lift_res {S A} (r : res A) : M S A := fun s => (r, s).

Definition set_days (ds : list Day) : M ScheduleManager unit :=
  fun m => (Ok tt, mkManager ds (timeslots m) (day_by_date m) (day_by_id m)
                     (interval_trees m)).

Definition set_timeslots (ts : list TimeSlot) : M ScheduleManager unit :=
  fun m => (Ok tt, mkManager (days m) ts (day_by_date m) (day_by_id m)
                     (interval_trees m)).

Definition set_trees (trees : gmap string IntervalTree) (m : ScheduleManager)
  : ScheduleManager :=
  mkManager (days m) (timeslots m) (day_by_date m) (day_by_id m) trees.

(** A method called on the tree object [self.interval_trees[key]]; what it
    does to the object stays done if it raises. *)
Definition with_tree {A} (key : string) (f : M IntervalTree A) : M ScheduleManager A :=
  fun m =>
    match interval_trees m !! key with
    | Some t => let '(r, t') := f t in (r, set_trees (<[key := t']> (interval_trees m)) m)
    | None => (Raise KeyError, m)
    end.

(** A [for] loop without [break]. *)
Fixpoint for_each {S X} (body : X -> M S unit) (xs : list X) : M S unit :=
  match xs with
  | [] => ret tt
  | x :: xs' => body x;;; for_each body xs'
  end.

Definition _time_to_minutes (t : time) : Z := hour t * 60 + minute t.

(** [datetime.time(hour=minutes // 60, minute=minutes % 60)]: the
    arguments are first converted to C [int]s, which raises [OverflowError]
    for an hour outside -2^31..2^31-1 (the minute is in 0..59); then the
    constructor refuses an hour outside 0..23 with a [ValueError]. *)
Definition _minutes_to_time (minutes : Z) : res time :=
  let h := minutes / 60 in
  if (h <? -2147483648) || (2147483647 <? h) then Raise OverflowError
  else
    let t := mkTime h (minutes mod 60) in
    if valid_time t then Ok t else Raise ValueError_datetime.

(** The three [clear()] of [_build_indexes]. *)
Definition clear_indexes : M ScheduleManager unit :=
  fun m => (Ok tt, mkManager (days m) (timeslots m) ∅ ∅ ∅).

(** The body of the loop over the days. *)
Definition index_day (day : Day) : M ScheduleManager unit :=
  fun m =>
    let date_str := strftime_date (Day_date day) in
    (Ok tt, mkManager (days m) (timeslots m)
              (<[date_str := day]> (day_by_date m))
              (<[Day_id day := day]> (day_by_id m))
              (interval_trees m)).

(** The body of the loop over the slots. *)
Definition index_slot (rl fuel : nat) (slot : TimeSlot) : M ScheduleManager unit :=
  day <- gets (fun m => day_by_id m !! TimeSlot_day_id slot);;
  match day with
  | None => ret tt
  | Some day =>
      let date_str := strftime_date (Day_date day) in
      known <- gets (fun m => bool_decide (is_Some (interval_trees m !! date_str)));;
      (if known then ret tt
       else fun m => (Ok tt, set_trees (<[date_str := new_IntervalTree]> (interval_trees m)) m));;;
      let start_minutes := _time_to_minutes (TimeSlot_start slot) in
      let end_minutes := _time_to_minutes (TimeSlot_end slot) in
      with_tree date_str (insert rl fuel start_minutes end_minutes (TimeSlot_id slot))
  end.

Definition _build_indexes (rl fuel : nat) : M ScheduleManager unit :=
  clear_indexes;;;
  ds <- gets days;;
  for_each index_day ds;;;
  ts <- gets timeslots;;
  for_each (index_slot rl fuel) ts.

(** [except (KeyError, ValueError) as e: raise ValueError("Неверный формат
    данных: ...")]; the other exceptions pass. *)
Definition is_KeyError_or_ValueError (e : exn) : bool :=
  match e with
  | KeyError | ValueError_strptime | ValueError_format | ValueError_date
  | ValueError_time | ValueError_order | ValueError_duration => true
  | _ => false
  end.

Definition except_format {S A} (body : M S A) : M S A :=
  fun s =>
    match body s with
    | (Raise e, s') =>
        if is_KeyError_or_ValueError e then (Raise ValueError_format, s')
        else (Raise e, s')
    | r => r
    end.

Definition set_data (rl fuel : nat) (days_in : list DayDict) (timeslots_in : list SlotDict)
  : M ScheduleManager unit :=
  except_format
    (ds <- lift_res (map_res Day_from_dict days_in);;
     set_days ds;;;
     ts <- lift_res (map_res TimeSlot_from_dict timeslots_in);;
     set_timeslots ts;;;
     _build_indexes rl fuel).

Definition _get_day_by_date (d : date) : M ScheduleManager (option Day) :=
  gets (fun m => day_by_date m !! strftime_date d).

Definition _parse_date (date_str : string) : res date :=
  match strptime_date date_str with
  | Some d => Ok d
  | None => Raise ValueError_date
  end.

Definition _parse_time (time_str : string) : res time :=
  match strptime_time time_str with
  | Some t => Ok t
  | None => Raise ValueError_time
  end.

(** [self._minutes_to_time(m).strftime('%H:%M')] *)
Definition minutes_str (m : Z) : res string :=
  res_bind (_minutes_to_time m) (fun t => Ok (strftime_time t)).

Definition pair_str (p : Z * Z) : res (string * string) :=
  res_bind (minutes_str (fst p)) (fun a =>
  res_bind (minutes_str (snd p)) (fun b => Ok (a, b))).

(** [not tree or tree.is_empty()] for [tree = self.interval_trees.get(key)]. *)
Definition no_tree_or_empty (rl : nat) (key : string) : M ScheduleManager bool :=
  tree <- gets (fun m => interval_trees m !! key);;
  match tree with
  | None => ret true
  | Some _ => with_tree key (is_empty rl)
  end.

Definition get_busy_intervals (rl : nat) (date_str : string)
  : M ScheduleManager (list (string * string)) :=
  ds <- gets days;;
  match ds with
  | [] => raise RuntimeError_not_loaded
  | _ =>
      d <- lift_res (_parse_date date_str);;
      day <- _get_day_by_date d;;
      match day with
      | None => raise RuntimeError_no_day
      | Some day =>
          none <- no_tree_or_empty rl date_str;;
          if none then ret []
          else
            intervals <- with_tree date_str (get_all_intervals rl);;
            lift_res (map_res (fun '(s, e, _) => pair_str (s, e)) intervals)
      end
  end.

(** The loop of [get_free_time] over the intervals: the gaps found and the
    final [current_time]. *)
Fixpoint gaps_loop (intervals : list (Z * Z * Z)) (current_time : Z) (gaps : list (Z * Z))
  : list (Z * Z) * Z :=
  match intervals with
  | [] => (gaps, current_time)
  | (s, e, _) :: rest =>
      let gaps := if current_time <? s then gaps ++ [(current_time, s)] else gaps in
      gaps_loop rest (Z.max current_time e) gaps
  end.

Definition get_free_time (rl : nat) (date_str : string)
  : M ScheduleManager (list (string * string)) :=
  ds <- gets days;;
  match ds with
  | [] => raise RuntimeError_not_loaded
  | _ =>
      d <- lift_res (_parse_date date_str);;
      day <- _get_day_by_date d;;
      match day with
      | None => raise RuntimeError_no_day
      | Some day =>
          let day_start := _time_to_minutes (Day_start day) in
          let day_end := _time_to_minutes (Day_end day) in
          none <- no_tree_or_empty rl date_str;;
          if none then
            ret [(strftime_time (Day_start day), strftime_time (Day_end day))]
          else
            intervals <- with_tree date_str (get_all_intervals rl);;
            let '(gaps, current_time) := gaps_loop intervals day_start [] in
            let gaps := if current_time <? day_end
                        then gaps ++ [(current_time, day_end)] else gaps in
            lift_res (map_res pair_str gaps)
      end
  end.

Definition is_time_available (rl : nat) (date_str start_time_str end_time_str : string)
  : M ScheduleManager bool :=
  ds <- gets days;;
  match ds with
  | [] => raise RuntimeError_not_loaded
  | _ =>
      d <- lift_res (_parse_date date_str);;
      start_time <- lift_res (_parse_time start_time_str);;
      end_time <- lift_res (_parse_time end_time_str);;
      if time_leb end_time start_time then raise ValueError_order
      else
        day <- _get_day_by_date d;;
        match day with
        | None => raise RuntimeError_no_day
        | Some day =>
            if time_ltb start_time (Day_start day) || time_ltb (Day_end day) end_time
            then ret false
            else
              none <- no_tree_or_empty rl date_str;;
              if none then ret true
              else
                let start_minutes := _time_to_minutes start_time in
                let end_minutes := _time_to_minutes end_time in
                overlapping <- with_tree date_str
                                 (find_overlapping rl start_minutes end_minutes);;
                ret (length overlapping =? 0)%nat
        end
  end.

(** The loop of [find_free_slot], which returns from inside. *)
Fixpoint first_fit (duration_minutes : Z) (free_intervals : list (string * string))
  : res (option string) :=
  match free_intervals with
  | [] => Ok None
  | (start_str, end_str) :: rest =>
      res_bind (_parse_time start_str) (fun start_time =>
      res_bind (_parse_time end_str) (fun end_time =>
      let interval_duration := _time_to_minutes end_time - _time_to_minutes start_time in
      if interval_duration >=? duration_minutes then Ok (Some start_str)
      else first_fit duration_minutes rest))
  end.

Definition find_free_slot (rl : nat) (date_str : string) (duration_minutes : Z)
  : M ScheduleManager (option string) :=
  if duration_minutes <=? 0 then raise ValueError_duration
  else
    free_intervals <- get_free_time rl date_str;;
    lift_res (first_fit duration_minutes free_intervals).

(** * What the indexes hold *)

(** The key of a day in [day_by_date] and [interval_trees]. *)
Definition date_key (d : Day) : string := strftime_date (Day_date d).

(** The two dictionaries after the loop over the days [ds]: a later day
    replaces an earlier one of the same date, or of the same id. *)
Definition date_index (ds : list Day) : gmap string Day :=
  foldl (fun acc d => <[date_key d := d]> acc) ∅ ds.

Definition id_index (ds : list Day) : gmap Z Day :=
  foldl (fun acc d => <[Day_id d := d]> acc) ∅ ds.

(** The interval that is inserted for a slot. *)
Definition slot_interval (s : TimeSlot) : Z * Z * Z :=
  (_time_to_minutes (TimeSlot_start s), _time_to_minutes (TimeSlot_end s), TimeSlot_id s).

(** The date key under which a slot is filed, if its [day_id] is that of a
    day. *)
Definition slot_key (ids : gmap Z Day) (s : TimeSlot) : option string :=
  date_key <$> ids !! TimeSlot_day_id s.

(** The intervals of the slots of [ts] that are filed under [key], in the
    order of [ts]. *)
Definition slots_of (ids : gmap Z Day) (key : string) (ts : list TimeSlot)
  : list (Z * Z * Z) :=
  slot_interval <$> filter (fun s => slot_key ids s = Some key) ts.

(** A record that [from_dict] refuses. *)
Definition malformed {A B} (f : A -> res B) (x : A) : Prop :=
  forall y, f x <> Ok y.

(** The minutes [x] of a half-open range. *)
Definition in_range (p : Z * Z) (x : Z) : Prop := fst p <= x < snd p.

(** Half-open overlap of two minute ranges. *)
Definition ranges_overlap (p q : Z * Z) : Prop :=
  ~ (snd p <= fst q \/ fst p >= snd q).

(** The gaps that [get_free_time] computes for a day from [day_start] to
    [day_end] and the intervals [ivs]. *)
Definition free_gaps (ivs : list (Z * Z * Z)) (day_start day_end : Z) : list (Z * Z) :=
  let '(gaps, current_time) := gaps_loop ivs day_start [] in
  if current_time <? day_end then gaps ++ [(current_time, day_end)] else gaps.

(** The minutes of the first and last of a pair of times as text. *)
Definition strs_of (p : Z * Z) (q : string * string) : Prop :=
  pair_str p = Ok q.

(** What a failing [from_dict] raises. *)
Definition from_dict_exn (e : exn) : Prop := e = KeyError \/ e = ValueError_datetime.

(** The trees [trees] are those that the loop of [_build_indexes] over the
    slots [ts] builds: one for every date key that has a slot, holding the
    intervals of the slots of that key, inserted in the order of [ts]. *)
Definition trees_hold (rl fuel : nat) (ids : gmap Z Day)
    (trees : gmap string IntervalTree) (ts : list TimeSlot) : Prop :=
  forall key,
    match trees !! key with
    | Some t =>
        slots_of ids key ts <> [] /\
        insert_all rl fuel (slots_of ids key ts) new_IntervalTree = (Ok tt, t)
    | None => slots_of ids key ts = []
    end.

(** The dates and times of a record are ones that [datetime] can hold. *)
Definition well_formed_day (d : Day) : Prop :=
  valid_date (Day_date d) = true /\ valid_time (Day_start d) = true /\
  valid_time (Day_end d) = true.

Definition well_formed_slot (s : TimeSlot) : Prop :=
  valid_time (TimeSlot_start s) = true /\ valid_time (TimeSlot_end s) = true.

(** The state of a manager whose indexes were built from its days and
    slots. *)
Definition loaded (rl fuel : nat) (m : ScheduleManager) : Prop :=
  Forall well_formed_day (days m) /\ Forall well_formed_slot (timeslots m) /\
  day_by_date m = date_index (days m) /\ day_by_id m = id_index (days m) /\
  trees_hold rl fuel (id_index (days m)) (interval_trees m) (timeslots m).

(** The intervals of the loaded slots that are filed under the key [key]. *)
Definition date_intervals (m : ScheduleManager) (key : string) : list (Z * Z * Z) :=
  slots_of (day_by_id m) key (timeslots m).

(** The start and end of an interval. *)
Definition iv_range (iv : Z * Z * Z) : Z * Z := (fst (fst iv), snd (fst iv)).

(** The free ranges of a day, in minutes, as [get_free_time] finds them for
    the date string [key]: the whole day when no slot is filed under
    [key]. *)
Definition free_minutes (m : ScheduleManager) (key : string) (day : Day) : list (Z * Z) :=
  let day_start := _time_to_minutes (Day_start day) in
  let day_end := _time_to_minutes (Day_end day) in
  if decide (date_intervals m key = []) then [(day_start, day_end)]
  else free_gaps (sorted (date_intervals m key)) day_start day_end.

(** The first of the gaps that lasts [duration_minutes] or more. *)
Definition first_gap (duration_minutes : Z) (gaps : list (Z * Z)) : option (Z * Z) :=
  List.find (fun g => snd g - fst g >=? duration_minutes) gaps.

(** The minutes of the day. *)
Definition day_minutes (p : Z * Z) : Prop :=
  0 <= fst p <= 1439 /\ 0 <= snd p <= 1439.

(** * The data of the tests *)

(** The fixture [sample_data] of [tests/conftest.py]. *)
Definition sample_days : list DayDict :=
  [ mkDayDict (Some 1) (Some "2024-01-15"%string) (Some "09:00"%string) (Some "17:00"%string);
    mkDayDict (Some 2) (Some "2024-01-16"%string) (Some "10:00"%string) (Some "18:00"%string) ].

Definition sample_timeslots : list SlotDict :=
  [ mkSlotDict (Some 1) (Some 1) (Some "09:00"%string) (Some "10:30"%string);
    mkSlotDict (Some 2) (Some 1) (Some "14:00"%string) (Some "15:30"%string);
    mkSlotDict (Some 3) (Some 2) (Some "11:00"%string) (Some "12:00"%string) ].

(** The fixture [populated_schedule_manager], run with the recursion limit
    of CPython, 1000, and as much fuel for the loops. *)
Definition populated_schedule_manager : ScheduleManager :=
  snd (set_data 1000 1000 sample_days sample_timeslots new_ScheduleManager).


(** * Specification-level view of the store

    The proofs relate the store of a tree to a purely functional picture of
    it: a binary tree that records, for every node, its address and the
    value of each of its fields.  Nothing below is executed by the code. *)

(** ** Trees and zippers *)

Definition key : Type := Z * Z * Z.
Definition k_start (k : key) : Z := k.1.1.
Definition k_end (k : key) : Z := k.1.2.
Definition k_id (k : key) : Z := k.2.

Inductive tree :=
  | E
  | T (c : Color) (l : tree) (a : nat) (k : key) (m : Z) (r : tree).

(** A frame of a zipper: a node seen from one of its children. [L] means the
    hole is the left child, and [f_sib] is then the right subtree. *)
Inductive dir := L | R.

Record frame := F {
  f_dir : dir;
  f_color : Color;
  f_addr : nat;
  f_key : key;
  f_max : Z;
  f_sib : tree
}.

Definition fill (f : frame) (t : tree) : tree :=
  match f_dir f with
  | L => T (f_color f) t (f_addr f) (f_key f) (f_max f) (f_sib f)
  | R => T (f_color f) (f_sib f) (f_addr f) (f_key f) (f_max f) t
  end.

(** The nearest ancestor comes first. *)
Fixpoint plug (ctx : list frame) (t : tree) : tree :=
  match ctx with
  | [] => t
  | f :: ctx' => plug ctx' (fill f t)
  end.

Definition top_m (t : tree) : option Z :=
  match t with
  | E => None
  | T _ _ _ _ m _ => Some m
  end.

Definition is_T (t : tree) : bool :=
  match t with E => false | T _ _ _ _ _ _ => true end.

Definition root_ref (t : tree) : ref :=
  match t with
  | E => Some nil
  | T _ _ a _ _ _ => Some a
  end.

Definition root_of (t : tree) : ref :=
  match t with
  | E => None
  | T _ _ a _ _ _ => Some a
  end.

Definition t_color (t : tree) : Color :=
  match t with
  | E => BLACK
  | T c _ _ _ _ _ => c
  end.

Definition ctx_par (ctx : list frame) : ref :=
  match ctx with
  | [] => Some nil
  | f :: _ => Some (f_addr f)
  end.

(** ** Representation in the store *)

Definition node_of (c : Color) (l : tree) (k : key) (m : Z) (r : tree) (par : ref)
  : IntervalNode :=
  mkNode (k_start k) (k_end k) (k_id k) m (root_ref l) (root_ref r) par c.

Fixpoint rep (h : gmap nat IntervalNode) (t : tree) (par : ref) : Prop :=
  match t with
  | E => True
  | T c l a k m r =>
      h !! a = Some (node_of c l k m r par) /\ rep h l (Some a) /\ rep h r (Some a)
  end.

Definition frame_node (f : frame) (child : ref) (par : ref) : IntervalNode :=
  match f_dir f with
  | L => mkNode (k_start (f_key f)) (k_end (f_key f)) (k_id (f_key f)) (f_max f)
           child (root_ref (f_sib f)) par (f_color f)
  | R => mkNode (k_start (f_key f)) (k_end (f_key f)) (k_id (f_key f)) (f_max f)
           (root_ref (f_sib f)) child par (f_color f)
  end.

Fixpoint repc (h : gmap nat IntervalNode) (ctx : list frame) (child : ref) : Prop :=
  match ctx with
  | [] => True
  | f :: ctx' =>
      h !! f_addr f = Some (frame_node f child (ctx_par ctx')) /\
      rep h (f_sib f) (Some (f_addr f)) /\
      repc h ctx' (Some (f_addr f))
  end.

Fixpoint addrs (t : tree) : gset nat :=
  match t with
  | E => ∅
  | T _ l a _ _ r => {[a]} ∪ addrs l ∪ addrs r
  end.

Fixpoint addrs_ctx (ctx : list frame) : gset nat :=
  match ctx with
  | [] => ∅
  | f :: ctx' => {[f_addr f]} ∪ addrs (f_sib f) ∪ addrs_ctx ctx'
  end.

(** Every node has its own address, none has the sentinel's. *)
Fixpoint wf (t : tree) : Prop :=
  match t with
  | E => True
  | T _ l a _ _ r =>
      a ≠ nil /\ (a ∉ addrs l) /\ (a ∉ addrs r) /\ addrs l ## addrs r /\ wf l /\ wf r
  end.

Fixpoint wf_ctx (ctx : list frame) : Prop :=
  match ctx with
  | [] => True
  | f :: ctx' =>
      f_addr f ≠ nil /\ (f_addr f ∉ addrs (f_sib f)) /\ (f_addr f ∉ addrs_ctx ctx') /\
      addrs (f_sib f) ## addrs_ctx ctx' /\ wf (f_sib f) /\ wf_ctx ctx'
  end.

(** The tree object [t] holds the tree [tr], [n] is its [size], and [ext]
    are objects of the store that are not (yet) linked into the tree. *)
Definition Rep (t : IntervalTree) (tr : tree) (n : Z) (ext : gmap nat IntervalNode)
  : Prop :=
  nodes t !! nil = Some nil_node /\
  rep (nodes t) tr (Some nil) /\
  wf tr /\
  (forall a, a ∈ addrs tr -> (a < next t)%nat) /\
  root t = root_of tr /\
  (size t = n /\ (nil < next t)%nat) /\
  (forall b nd, ext !! b = Some nd ->
     nodes t !! b = Some nd /\ b ∉ addrs tr /\ b ≠ nil /\ (b < next t)%nat).

(** ** Partial correctness of monadic code *)

Definition wp {S A} (m : M S A) (Q : A -> S -> Prop) (s : S) : Prop :=
  match m s with
  | (Ok a, s') => Q a s'
  | _ => True
  end.

(** ** The operations on the functional picture *)

Definition opt_max (m : Z) (t : tree) : Z :=
  match t with
  | E => m
  | T _ _ _ _ m' _ => Z.max m m'
  end.

Definition upd_m (k : key) (l r : tree) : Z :=
  opt_max (opt_max (k_end k) l) r.

Definition upd (t : tree) : tree :=
  match t with
  | E => E
  | T c l a k _ r => T c l a k (upd_m k l r) r
  end.

Definition paint (c : Color) (t : tree) : tree :=
  match t with
  | E => E
  | T _ l a k m r => T c l a k m r
  end.

Definition rotL (t : tree) : tree :=
  match t with
  | T c al x kx mx (T c' be y ky my ga) =>
      upd (T c' (upd (T c al x kx mx be)) y ky my ga)
  | _ => t
  end.

Definition rotR (t : tree) : tree :=
  match t with
  | T c (T c' al x kx mx be) y ky my ga =>
      upd (T c' al x kx mx (upd (T c be y ky my ga)))
  | _ => t
  end.

Fixpoint ctx_root (ctx : list frame) (r : ref) : ref :=
  match ctx with
  | [] => r
  | f :: ctx' => ctx_root ctx' (Some (f_addr f))
  end.

(** What [a == b] needs of two different nodes to come out [True]: the two
    are leaves that agree on every other field. *)
Definition twins (x y : IntervalNode) : Prop :=
  left x = Some nil /\ right x = Some nil /\
  left y = Some nil /\ right y = Some nil /\
  start x = start y /\ end_ x = end_ y /\ slot_id x = slot_id y /\
  max_end x = max_end y /\ color x = color y.

(** The children of the node at [a] point back to it. *)
Definition child_ok (h : gmap nat IntervalNode) (a : nat) (p : ref) : Prop :=
  match p with
  | None => False
  | Some c =>
      c = nil \/ exists n, h !! c = Some n /\ parent n = Some a /\ is_Some (left n)
  end.

(** The store [h0] with the objects listed in [cs] overwritten. *)
Definition over (h0 : gmap nat IntervalNode) (cs : list (nat * IntervalNode))
  : gmap nat IntervalNode :=
  foldr (fun p acc => <[p.1 := p.2]> acc) h0 cs.

(** A sibling that would compare equal to a node of colour [c], key [k] and
    cached maximum [m] whose children are both the sentinel. *)
Definition twin_tree (c : Color) (k : key) (m : Z) (s : tree) : Prop :=
  exists a, s = T c E a k m E.

(** The comparison [x == x.parent.left] (or [.right]) of a rotation, made
    when [x] is on the other side [d], cannot mistake [x] for its sibling. *)
Definition no_twin (d : dir) (ctx : list frame) (c : Color) (k : key) (m : Z)
    (l r : tree) : Prop :=
  match ctx with
  | f :: _ => f_dir f = d -> l = E -> r = E -> ~ twin_tree c k m (f_sib f)
  | [] => True
  end.

(** The store after the parent reference of the root of [s] is set to
    [np], and after the child reference of the nearest frame of [ctx] is set
    to [child]. *)
Definition reparent_store (s : tree) (np : nat) (h : gmap nat IntervalNode)
  : gmap nat IntervalNode :=
  match s with
  | E => h
  | T c l a k m r => <[a := node_of c l k m r (Some np)]> h
  end.

Definition link_store (ctx : list frame) (child : ref) (h : gmap nat IntervalNode)
  : gmap nat IntervalNode :=
  match ctx with
  | [] => h
  | f :: ctx' => <[f_addr f := frame_node f child (ctx_par ctx')]> h
  end.

(** ** Rebalancing, on the functional picture *)

Definition f_paint (c : Color) (f : frame) : frame :=
  F (f_dir f) c (f_addr f) (f_key f) (f_max f) (f_sib f).

Definition f_paint_sib (c : Color) (f : frame) : frame :=
  F (f_dir f) (f_color f) (f_addr f) (f_key f) (f_max f) (paint c (f_sib f)).

(** Red uncle: parent and uncle become black, the grandparent red. *)
Definition recolor (fp fg : frame) (sub : tree) : tree :=
  fill (f_paint RED (f_paint_sib BLACK fg)) (fill (f_paint BLACK fp) sub).

(** Black uncle: one or two rotations. *)
Definition rotate_fix (fp fg : frame) (sub : tree) : tree :=
  match f_dir fg with
  | L =>
      let p' := match f_dir fp with R => rotL (fill fp sub) | L => fill fp sub end in
      rotR (fill (f_paint RED fg) (paint BLACK p'))
  | R =>
      let p' := match f_dir fp with L => rotR (fill fp sub) | R => fill fp sub end in
      rotL (fill (f_paint RED fg) (paint BLACK p'))
  end.

Fixpoint fixup (ctx : list frame) (sub : tree) {struct ctx} : tree :=
  match ctx with
  | fp :: fg :: ctx2 =>
      match f_color fp with
      | BLACK => plug ctx sub
      | RED =>
          match t_color (f_sib fg) with
          | RED => fixup ctx2 (recolor fp fg sub)
          | BLACK => plug ctx2 (rotate_fix fp fg sub)
          end
      end
  | _ => plug ctx sub
  end.

(** ** Red-black invariants *)

Definition black (c : Color) : nat :=
  match c with BLACK => 1%nat | RED => 0%nat end.

Fixpoint bh (t : tree) : nat :=
  match t with
  | E => 0%nat
  | T c l _ _ _ _ => (bh l + black c)%nat
  end.

Fixpoint rb (t : tree) : Prop :=
  match t with
  | E => True
  | T c l _ _ _ r =>
      rb l /\ rb r /\ bh l = bh r /\
      (c = RED -> t_color l = BLACK /\ t_color r = BLACK)
  end.

(** A context that can take a subtree of black height [h] and root colour
    [c] and give a red-black tree with a black root. *)
Fixpoint rb_ctx (ctx : list frame) (h : nat) (c : Color) : Prop :=
  match ctx with
  | [] => c = BLACK
  | f :: ctx' =>
      rb (f_sib f) /\ bh (f_sib f) = h /\
      (f_color f = RED -> c = BLACK /\ t_color (f_sib f) = BLACK) /\
      rb_ctx ctx' (h + black (f_color f))%nat (f_color f)
  end.

(** The same, except that the subtree may be red under a red parent. *)
Definition fix_ctx (ctx : list frame) (h : nat) : Prop :=
  match ctx with
  | [] => True
  | f :: ctx' =>
      rb (f_sib f) /\ bh (f_sib f) = h /\
      (f_color f = RED -> t_color (f_sib f) = BLACK) /\
      rb_ctx ctx' (h + black (f_color f))%nat (f_color f)
  end.

Definition fix_inv (ctx : list frame) (sub : tree) : Prop :=
  t_color sub = RED /\ rb sub /\ fix_ctx ctx (bh sub).

(** ** Small helpers of the proofs *)


Definition root_addr (t : tree) : gset nat :=
  match t with E => ∅ | T _ _ a _ _ _ => {[a]} end.

Definition par_addr (ctx : list frame) : gset nat :=
  match ctx with [] => ∅ | f :: _ => {[f_addr f]} end.

Definition flip (d : dir) : dir := match d with L => R | R => L end.

(** The same tree, seen from the sibling. *)
Definition swap (f : frame) (sub : tree) : frame :=
  F (flip (f_dir f)) (f_color f) (f_addr f) (f_key f) (f_max f) sub.

Definition top_red (ctx : list frame) : bool :=
  match ctx with
  | f :: _ => Color_eqb (f_color f) RED
  | [] => false
  end.

(** ** Insertion, on the functional picture *)

(** The descent: the path from the root to the place of the new node, with
    the cached maxima that [_update_max_end] writes on the way. *)
Fixpoint descend_abs (s : Z) (tr : tree) (ctx : list frame) : list frame :=
  match tr with
  | E => ctx
  | T c l b k _ r =>
      let m := upd_m k l r in
      if s <=? k_start k then descend_abs s l (F L c b k m r :: ctx)
      else descend_abs s r (F R c b k m l :: ctx)
  end.

(** A frame whose cached maximum is recomputed over the subtree [sub]. *)
Definition f_upd (f : frame) (sub : tree) : frame :=
  F (f_dir f) (f_color f) (f_addr f) (f_key f)
    (match f_dir f with
     | L => upd_m (f_key f) sub (f_sib f)
     | R => upd_m (f_key f) (f_sib f) sub
     end)
    (f_sib f).

(** The second loop of [insert], from the new node to the root. *)
Fixpoint refresh_ctx (ctx : list frame) (sub : tree) : list frame :=
  match ctx with
  | [] => []
  | f :: ctx' => f_upd f sub :: refresh_ctx ctx' (fill (f_upd f sub) sub)
  end.

Definition leaf (a : nat) (k : key) : tree := T RED E a k (k_end k) E.

Definition ins (tr : tree) (a : nat) (k : key) : tree :=
  let ctx := descend_abs (k_start k) tr [] in
  paint BLACK (fixup (refresh_ctx ctx (leaf a k)) (leaf a k)).

(** Every step of the path goes left exactly when the new start is not
    greater than the start of the node. *)
Definition path_ok (s : Z) (ctx : list frame) : Prop :=
  Forall (fun f => f_dir f = if s <=? k_start (f_key f) then L else R) ctx.

(** ** What the tree holds, and the invariants of its contents *)

(** The stored intervals [(start, end, slot_id)], in order of traversal. *)
Fixpoint elems (t : tree) : list key :=
  match t with
  | E => []
  | T _ l _ k _ r => elems l ++ k :: elems r
  end.

Fixpoint ctx_before (ctx : list frame) : list key :=
  match ctx with
  | [] => []
  | f :: ctx' =>
      ctx_before ctx' ++
      match f_dir f with
      | L => []
      | R => elems (f_sib f) ++ [f_key f]
      end
  end.

Fixpoint ctx_after (ctx : list frame) : list key :=
  match ctx with
  | [] => []
  | f :: ctx' =>
      match f_dir f with
      | L => f_key f :: elems (f_sib f)
      | R => []
      end ++ ctx_after ctx'
  end.

Definition start_le (x y : key) : Prop := k_start x <= k_start y.

(** Search-tree order with ties: the starts never decrease along the
    traversal. *)
Definition bst (t : tree) : Prop := StronglySorted start_le (elems t).

(** Every cached maximum is [max(end, left.max_end, right.max_end)], absent
    children left out. *)
Fixpoint mx_ok (t : tree) : Prop :=
  match t with
  | E => True
  | T _ l _ k m r => m = upd_m k l r /\ mx_ok l /\ mx_ok r
  end.


Definition rbt (t : tree) : Prop := rb t /\ t_color t = BLACK.

Definition Inv (t : tree) : Prop := rbt t /\ bst t /\ mx_ok t.

Fixpoint mx_ctx (ctx : list frame) (child : tree) : Prop :=
  match ctx with
  | [] => True
  | f :: ctx' =>
      top_m (fill f child) = top_m (upd (fill f child)) /\
      mx_ok (f_sib f) /\ mx_ctx ctx' (fill f child)
  end.

(** ** Queries, on the functional picture *)

Definition overlaps (k : key) (s e : Z) : bool :=
  negb ((k_end k <=? s) || (k_start k >=? e)).

Fixpoint search_abs (s e : Z) (t : tree) (acc : list Z) : list Z :=
  match t with
  | E => acc
  | T _ l _ k _ r =>
      let acc := if overlaps k s e then acc ++ [k_id k] else acc in
      let acc :=
        match top_m l with
        | Some lm => if lm >? s then search_abs s e l acc else acc
        | None => acc
        end in
      if is_T r && (k_start k <? e) then search_abs s e r acc else acc
  end.

Fixpoint height (t : tree) : nat :=
  match t with
  | E => 0%nat
  | T _ l _ _ _ r => S (Nat.max (height l) (height r))
  end.

Fixpoint nodes_count (t : tree) : nat :=
  match t with
  | E => 0%nat
  | T _ l _ _ _ r => S (nodes_count l + nodes_count r)
  end.

(** ** Sequences of insertions *)

(** The tree after the intervals [ops] were inserted, the new objects being
    allocated at the addresses [adrs]. *)
Fixpoint ins_all (tr : tree) (adrs : list nat) (ops : list key) : tree :=
  match adrs, ops with
  | a :: adrs', k :: ops' => ins_all (ins tr a k) adrs' ops'
  | _, _ => tr
  end.

(** The scan of every stored interval that [find_overlapping] is compared
    with: the identifiers of the intervals [(s', e', i)] with
    [not (e' <= s or s' >= e)]. *)
Definition brute_force (ops : list key) (s e : Z) : list Z :=
  map k_id (List.filter (fun k => overlaps k s e) ops).

(** ** The cached maxima, read in the store *)




(** The objects that are reached from a reference through [left] and
    [right], the sentinel excluded. *)
Inductive reach (h : gmap nat IntervalNode) : ref -> nat -> Prop :=
  | reach_here a : a ≠ nil -> reach h (Some a) a
  | reach_left a nd b :
      a ≠ nil -> h !! a = Some nd -> reach h (left nd) b -> reach h (Some a) b
  | reach_right a nd b :
      a ≠ nil -> h !! a = Some nd -> reach h (right nd) b -> reach h (Some a) b.

(** ** Total correctness of monadic code *)

(** The run returns, and its result and final state satisfy [Q]. *)
Definition twp {S A} (m : M S A) (Q : A -> S -> Prop) (s : S) : Prop :=
  match m s with
  | (Ok a, s') => Q a s'
  | _ => False
  end.

(** The interval of an object. *)
Definition node_key (n : IntervalNode) : key := (start n, end_ n, slot_id n).

(** The sibling on the side [d], if there is one, holds another interval
    than [k]. *)
Definition diff_key (d : dir) (ctx : list frame) (k : key) : Prop :=
  match ctx with
  | f :: _ =>
      f_dir f = d ->
      match f_sib f with
      | T _ _ _ ks _ _ => ks <> k
      | E => True
      end
  | [] => True
  end.


(** * Lemmas on the representation *)

Lemma plug_app ctx1 ctx2 t : plug (ctx1 ++ ctx2) t = plug ctx2 (plug ctx1 t).
Proof. revert t. induction ctx1 as [|f ctx1 IH]; intros t; simpl; auto. Qed.

Lemma addrs_fill f t : addrs (fill f t) = {[f_addr f]} ∪ addrs (f_sib f) ∪ addrs t.
Proof. unfold fill. destruct (f_dir f); simpl; set_solver. Qed.

Lemma addrs_plug ctx t : addrs (plug ctx t) = addrs t ∪ addrs_ctx ctx.
Proof.
  revert t. induction ctx as [|f ctx IH]; intros t; simpl.
  - set_solver.
  - rewrite IH, addrs_fill. set_solver.
Qed.

Lemma wf_fill f t :
  wf (fill f t) <->
  f_addr f ≠ nil /\ (f_addr f ∉ addrs (f_sib f)) /\ (f_addr f ∉ addrs t) /\
  addrs (f_sib f) ## addrs t /\ wf (f_sib f) /\ wf t.
Proof. unfold fill. destruct (f_dir f); simpl; intuition; set_solver. Qed.

Lemma wf_plug ctx t :
  wf (plug ctx t) <-> wf t /\ wf_ctx ctx /\ addrs t ## addrs_ctx ctx.
Proof.
  revert t. induction ctx as [|f ctx IH]; intros t; simpl.
  - intuition. set_solver.
  - rewrite IH, wf_fill, addrs_fill. intuition; set_solver.
Qed.

Lemma rep_fill h f t par :
  rep h (fill f t) par <->
  h !! f_addr f = Some (frame_node f (root_ref t) par) /\
  rep h (f_sib f) (Some (f_addr f)) /\ rep h t (Some (f_addr f)).
Proof.
  unfold fill, frame_node, node_of. destruct (f_dir f); simpl; intuition.
Qed.

Lemma root_ref_fill f t : root_ref (fill f t) = Some (f_addr f).
Proof. unfold fill. destruct (f_dir f); reflexivity. Qed.

Lemma rep_plug h ctx t :
  rep h (plug ctx t) (Some nil) <->
  rep h t (ctx_par ctx) /\ repc h ctx (root_ref t).
Proof.
  revert t. induction ctx as [|f ctx IH]; intros t; simpl.
  - intuition.
  - rewrite IH, rep_fill, root_ref_fill. intuition.
Qed.

Lemma rep_frame h h' t par :
  (forall a, a ∈ addrs t -> h' !! a = h !! a) -> rep h t par -> rep h' t par.
Proof.
  revert par. induction t as [|c l IHl a k m r IHr]; intros par Hh; simpl; auto.
  intros (Ha & Hl & Hr). split; [|split].
  - rewrite Hh; [done | set_solver].
  - apply IHl; [|done]. intros; apply Hh; set_solver.
  - apply IHr; [|done]. intros; apply Hh; set_solver.
Qed.

Lemma repc_frame h h' ctx child :
  (forall a, a ∈ addrs_ctx ctx -> h' !! a = h !! a) -> repc h ctx child -> repc h' ctx child.
Proof.
  revert child. induction ctx as [|f ctx IH]; intros child Hh; simpl; auto.
  intros (Ha & Hs & Hc). split; [|split].
  - rewrite Hh; [done | set_solver].
  - eapply rep_frame; [|done]. intros; apply Hh; set_solver.
  - apply IH; [|done]. intros; apply Hh; set_solver.
Qed.

(** A change of the parent reference of the root of a subtree. *)
Lemma rep_reparent h t par par' :
  wf t -> rep h t par ->
  rep (match t with
       | E => h
       | T c l a k m r => <[a := node_of c l k m r par']> h
       end) t par'.
Proof.
  destruct t as [|c l a k m r]; simpl; auto.
  intros (Ha & Hl & Hr & _) (Hn & Hrl & Hrr). split; [|split].
  - by rewrite lookup_insert_eq.
  - eapply rep_frame; [|done]. intros b Hb. rewrite lookup_insert_ne; [done|set_solver].
  - eapply rep_frame; [|done]. intros b Hb. rewrite lookup_insert_ne; [done|set_solver].
Qed.

(** ** Rules of the partial-correctness predicate *)

Lemma wp_ret {S A} (a : A) (Q : A -> S -> Prop) s : Q a s -> wp (ret a) Q s.
Proof. done. Qed.

Lemma wp_bind {S A B} (m : M S A) (k : A -> M S B) (Q : B -> S -> Prop) s :
  wp m (fun a s' => wp (k a) Q s') s -> wp (bind m k) Q s.
Proof. unfold wp, bind. destruct (m s) as [[a| |] s']; auto. Qed.

Lemma wp_mono {S A} (m : M S A) (Q Q' : A -> S -> Prop) s :
  wp m Q s -> (forall a s', Q a s' -> Q' a s') -> wp m Q' s.
Proof. unfold wp. destruct (m s) as [[a| |] s']; auto. Qed.

Lemma wp_elim {S A} (m : M S A) (Q : A -> S -> Prop) s a s' :
  wp m Q s -> m s = (Ok a, s') -> Q a s'.
Proof. unfold wp. intros H E. by rewrite E in H. Qed.

Lemma wp_raise {S A} e (Q : A -> S -> Prop) s : wp (raise e) Q s.
Proof. done. Qed.

Lemma wp_out_of_fuel {S A} (Q : A -> S -> Prop) s : wp out_of_fuel Q s.
Proof. done. Qed.

(** ** Equality of nodes *)

Lemma node_eq_refl rl h a : node_eq rl h a a = Ok true.
Proof. destruct rl; simpl; by rewrite decide_True. Qed.

Lemma Color_eqb_eq c d : Color_eqb c d = true <-> c = d.
Proof. destruct c, d; simpl; intuition congruence. Qed.

(** A node of the tree is never equal to the sentinel: the comparison stops
    at [left], which is [None] in the sentinel only. *)
Lemma node_eq_nil_r rl h a na :
  h !! nil = Some nil_node -> h !! a = Some na -> is_Some (left na) -> a ≠ nil ->
  node_eq (S rl) h a nil = Ok false.
Proof.
  intros Hnil Ha [l Hl] Hne. simpl. rewrite decide_False by done.
  rewrite Ha, Hnil. simpl.
  repeat (match goal with |- context [if ?b then _ else _] => destruct b end; try done).
  all: rewrite ?Hl; done.
Qed.

Lemma node_eq_nil_l rl h a na :
  h !! nil = Some nil_node -> h !! a = Some na -> is_Some (left na) -> a ≠ nil ->
  node_eq (S rl) h nil a = Ok false.
Proof.
  intros Hnil Ha [l Hl] Hne. simpl. rewrite decide_False by done.
  rewrite Ha, Hnil. simpl.
  repeat (match goal with |- context [if ?b then _ else _] => destruct b end; try done).
  all: rewrite ?Hl; done.
Qed.

Lemma ref_eq_children_inv h rl a b p q :
  h !! nil = Some nil_node ->
  child_ok h a p -> child_ok h b q -> a ≠ b ->
  match p, q with
  | None, None => Ok true
  | Some a', Some b' => node_eq rl h a' b'
  | _, _ => Ok false
  end = Ok true ->
  (p = Some nil /\ q = Some nil) \/
  (exists rl' p' q' n n', rl = S rl' /\ p = Some p' /\ h !! p' = Some n /\ h !! q' = Some n' /\
     parent n = Some a /\ node_eq rl' h a b = Ok true).
Proof.
  intros Hnil Hp Hq Hab Hpq.
  destruct p as [p|], q as [q|]; try done. simpl in Hp, Hq.
  destruct (decide (p = q)) as [->|Hne].
  - left. destruct Hp as [->|(n & Hn & Hpar & _)]; [done|].
    destruct Hq as [->|(n' & Hn' & Hpar' & _)]; [done|].
    rewrite Hn in Hn'. injection Hn' as <-. congruence.
  - destruct rl as [|rl']; simpl in Hpq; rewrite decide_False in Hpq by done; [done|].
    destruct Hp as [->|(n & Hn & Hpar & [ln Hln])].
    + exfalso. destruct Hq as [->|(n' & Hn' & Hpar' & [ln' Hln'])]; [done|].
      rewrite Hnil, Hn' in Hpq. simpl in Hpq.
      repeat (match type of Hpq with context [if ?b then _ else _] => destruct b end; try done).
      all: rewrite ?Hln' in Hpq; done.
    + destruct Hq as [->|(n' & Hn' & Hpar' & [ln' Hln'])].
      * exfalso. rewrite Hnil, Hn in Hpq. simpl in Hpq.
        repeat (match type of Hpq with context [if ?b then _ else _] => destruct b end; try done).
        all: rewrite ?Hln in Hpq; done.
      * right. rewrite Hn, Hn' in Hpq. simpl in Hpq.
        repeat (match type of Hpq with context [if negb ?b then _ else _] => destruct b; simpl in Hpq end; try done).
        rewrite Hpar, Hpar' in Hpq.
        repeat (match type of Hpq with context [match ?x with Ok _ => _ | Raise _ => _ | OutOfFuel => _ end] =>
                  destruct x as [[|]| |] eqn:?; try done end).
        exists rl', p, q, n, n'. repeat split; auto.
Qed.

Lemma node_eq_true_inv h :
  h !! nil = Some nil_node ->
  forall rl a b na nb,
  a ≠ b -> h !! a = Some na -> h !! b = Some nb ->
  child_ok h a (left na) -> child_ok h a (right na) ->
  child_ok h b (left nb) -> child_ok h b (right nb) ->
  node_eq rl h a b = Ok true ->
  twins na nb.
Proof.
  intros Hnil rl. induction rl as [rl IH] using lt_wf_ind.
  intros a b na nb Hab Ha Hb Hla Hra Hlb Hrb Heq.
  destruct rl as [|rl]; simpl in Heq; rewrite decide_False in Heq by done; [done|].
  rewrite Ha, Hb in Heq. simpl in Heq.
  destruct (start na =? start nb) eqn:E1; simpl in Heq; [|done].
  destruct (end_ na =? end_ nb) eqn:E2; simpl in Heq; [|done].
  destruct (slot_id na =? slot_id nb) eqn:E3; simpl in Heq; [|done].
  destruct (max_end na =? max_end nb) eqn:E4; simpl in Heq; [|done].
  (* a real child would send the comparison back to [a == b], which can
     only hold between leaves *)
  assert (Hreal : forall p' n, h !! p' = Some n -> parent n = Some a ->
            (left na = Some p' \/ right na = Some p') ->
            forall rl', (rl' < S rl)%nat -> node_eq rl' h a b = Ok true -> False).
  { intros p' n Hn Hpar Hor rl' Hlt Hrec.
    assert (Ht : twins na nb) by (eapply (IH rl'); eauto).
    destruct Ht as (Hl0 & Hr0 & _).
    assert (p' = nil) as -> by (destruct Hor; congruence).
    rewrite Hnil in Hn. injection Hn as <-. done. }
  destruct (match left na, left nb with
            | None, None => Ok true
            | Some a', Some b' => node_eq rl h a' b'
            | _, _ => Ok false
            end) as [[|]| |] eqn:EL; try done.
  destruct (match right na, right nb with
            | None, None => Ok true
            | Some a', Some b' => node_eq rl h a' b'
            | _, _ => Ok false
            end) as [[|]| |] eqn:ER; try done.
  destruct (match parent na, parent nb with
            | None, None => Ok true
            | Some a', Some b' => node_eq rl h a' b'
            | _, _ => Ok false
            end) as [[|]| |] eqn:EP; try done.
  apply (ref_eq_children_inv h rl a b) in EL; auto.
  apply (ref_eq_children_inv h rl a b) in ER; auto.
  destruct EL as [[HL1 HL2]|(rl' & p' & q' & n & n' & -> & Hp & Hn & _ & Hpar & Hrec)];
    [|exfalso; apply (Hreal p' n Hn Hpar (or_introl Hp) rl'); [lia|done]].
  destruct ER as [[HR1 HR2]|(rl' & p' & q' & n & n' & -> & Hp & Hn & _ & Hpar & Hrec)];
    [|exfalso; apply (Hreal p' n Hn Hpar (or_intror Hp) rl'); [lia|done]].
  injection Heq as Hc. apply Color_eqb_eq in Hc.
  unfold twins. repeat split; auto; lia.
Qed.

(** ** The representation of a tree with a focus *)

Lemma root_of_fill f t : root_of (fill f t) = Some (f_addr f).
Proof. unfold fill. destruct (f_dir f); reflexivity. Qed.

Lemma root_of_plug ctx t : root_of (plug ctx t) = ctx_root ctx (root_of t).
Proof.
  revert t. induction ctx as [|f ctx IH]; intros t; simpl; auto.
  by rewrite IH, root_of_fill.
Qed.

Lemma Rep_plug t ctx sub n ext :
  Rep t (plug ctx sub) n ext <->
  nodes t !! nil = Some nil_node /\
  rep (nodes t) sub (ctx_par ctx) /\
  repc (nodes t) ctx (root_ref sub) /\
  wf sub /\ wf_ctx ctx /\ addrs sub ## addrs_ctx ctx /\
  (forall a, a ∈ addrs sub ∪ addrs_ctx ctx -> (a < next t)%nat) /\
  root t = ctx_root ctx (root_of sub) /\
  (size t = n /\ (nil < next t)%nat) /\
  (forall b nd, ext !! b = Some nd ->
     nodes t !! b = Some nd /\ b ∉ addrs sub ∪ addrs_ctx ctx /\ b ≠ nil /\ (b < next t)%nat).
Proof.
  unfold Rep. rewrite rep_plug, wf_plug, root_of_plug.
  setoid_rewrite addrs_plug. intuition.
Qed.

Lemma Rep_focus t ctx c l a k m r n ext :
  Rep t (plug ctx (T c l a k m r)) n ext ->
  nodes t !! a = Some (node_of c l k m r (ctx_par ctx)).
Proof. rewrite Rep_plug. simpl. intuition. Qed.

Lemma wp_rd_focus {A} (f : IntervalNode -> A) t ctx c l a k m r n ext Q :
  Rep t (plug ctx (T c l a k m r)) n ext ->
  Q (f (node_of c l k m r (ctx_par ctx))) t ->
  wp (rd f (Some a)) Q t.
Proof.
  intros HR HQ. unfold wp, rd, node_at. by rewrite (Rep_focus _ _ _ _ _ _ _ _ _ _ HR).
Qed.

(** A write that changes the colour or the cached maximum of a node. *)
Lemma wp_wr_focus (u : IntervalNode -> IntervalNode) c' m' t ctx c l a k m r n ext Q :
  Rep t (plug ctx (T c l a k m r)) n ext ->
  u (node_of c l k m r (ctx_par ctx)) = node_of c' l k m' r (ctx_par ctx) ->
  (forall t', Rep t' (plug ctx (T c' l a k m' r)) n ext -> Q tt t') ->
  wp (wr u (Some a)) Q t.
Proof.
  intros HR Hu HQ. unfold wp, wr, node_at.
  rewrite (Rep_focus _ _ _ _ _ _ _ _ _ _ HR). simpl. apply HQ.
  apply Rep_plug in HR. apply Rep_plug. simpl in *.
  destruct HR as (Hnil & (Ha & Hl & Hr) & Hc & (Ha0 & Hal & Har & Hlr & Hwl & Hwr) & Hwc & Hd & Hnext & Hroot & Hsz & Hext).
  rewrite Hu.
  split; [rewrite lookup_insert_ne; done|].
  split; [split; [by rewrite lookup_insert_eq|split]|].
  - eapply rep_frame; [|done]. intros b Hb. rewrite lookup_insert_ne; [done|set_solver].
  - eapply rep_frame; [|done]. intros b Hb. rewrite lookup_insert_ne; [done|set_solver].
  - split; [eapply repc_frame; [|done]; intros b Hb; rewrite lookup_insert_ne; [done|set_solver]|].
    do 6 (split; [done|]).
    intros b nd Hb. destruct (Hext b nd Hb) as (H1 & H2 & H3 & H4).
    split; [|done]. rewrite lookup_insert_ne; [done|set_solver].
Qed.

(** ** Comparisons with the sentinel *)

Lemma wp_py_eq_refl rl p (Q : bool -> IntervalTree -> Prop) t :
  Q true t -> wp (py_eq rl p p) Q t.
Proof.
  intros HQ. unfold wp, py_eq, lift, ref_eq. destruct p as [a|]; [|done].
  by rewrite node_eq_refl.
Qed.

Lemma wp_py_eq_nil rl t ctx c l a k m r n ext (Q : bool -> IntervalTree -> Prop) :
  Rep t (plug ctx (T c l a k m r)) n ext ->
  Q false t ->
  wp (py_eq rl (Some a) (Some nil)) Q t.
Proof.
  intros HR HQ. unfold wp, py_eq, lift, ref_eq.
  pose proof (Rep_focus _ _ _ _ _ _ _ _ _ _ HR) as Ha.
  apply Rep_plug in HR. simpl in HR.
  destruct HR as (Hnil & _ & _ & (Ha0 & _) & _).
  destruct rl as [|rl].
  - simpl. by rewrite decide_False.
  - erewrite node_eq_nil_r; eauto. simpl. destruct l; eauto.
Qed.

Lemma wp_py_ne_nil rl t ctx c l a k m r n ext (Q : bool -> IntervalTree -> Prop) :
  Rep t (plug ctx (T c l a k m r)) n ext ->
  Q true t ->
  wp (py_ne rl (Some a) (Some nil)) Q t.
Proof.
  intros HR HQ. unfold py_ne. apply wp_bind. eapply wp_py_eq_nil; eauto.
Qed.


Lemma wp_is_real rl t ctx sub n ext (Q : bool -> IntervalTree -> Prop) :
  Rep t (plug ctx sub) n ext ->
  Q (is_T sub) t ->
  wp (is_real rl (root_ref sub)) Q t.
Proof.
  intros HR HQ. unfold is_real. destruct sub as [|c l a k m r]; simpl.
  - unfold py_ne. apply wp_bind. by apply wp_py_eq_refl.
  - eapply wp_py_ne_nil; eauto.
Qed.

Lemma wp_get_root t tr n ext (Q : ref -> IntervalTree -> Prop) :
  Rep t tr n ext -> Q (root_of tr) t -> wp get_root Q t.
Proof. intros (_ & _ & _ & _ & Hr & _) HQ. unfold wp, get_root. by rewrite Hr. Qed.

(** ** [_update_max_end] *)

Lemma wp_update_max_end rl t ctx sub n ext (Q : unit -> IntervalTree -> Prop) :
  Rep t (plug ctx sub) n ext ->
  (forall t', Rep t' (plug ctx (upd sub)) n ext -> Q tt t') ->
  wp (_update_max_end rl (root_ref sub)) Q t.
Proof.
  intros HR HQ. unfold _update_max_end.
  destruct sub as [|c l a k m r]; simpl.
  { apply wp_bind. apply wp_py_eq_refl. by apply HQ. }
  apply wp_bind. eapply wp_py_eq_nil; [exact HR|].
  apply wp_bind. eapply wp_rd_focus; [exact HR|].
  apply wp_bind. eapply (wp_wr_focus _ c (k_end k)); [exact HR|reflexivity|].
  clear t HR. intros t HR. simpl.
  apply wp_bind. eapply wp_rd_focus; [exact HR|]. simpl.
  (* the left child *)
  apply wp_bind.
  apply (wp_mono _ (fun b t' => t' = t /\ b = is_T l)).
  { destruct l as [|cl ll al kl ml rl']; simpl.
    - unfold py_ne. apply wp_bind. by apply wp_py_eq_refl.
    - eapply (wp_py_ne_nil _ _ (F L c a k (k_end k) r :: ctx)); [exact HR|done]. }
  intros b t' [-> ->].
  apply wp_bind.
  apply (wp_mono _ (fun _ t' => Rep t' (plug ctx (T c l a k (opt_max (k_end k) l) r)) n ext)).
  { destruct l as [|cl ll al kl ml rl']; simpl.
    - by apply wp_ret.
    - apply wp_bind. eapply wp_rd_focus; [exact HR|]. simpl.
      apply wp_bind. eapply (wp_rd_focus _ _ (F L c a k (k_end k) r :: ctx)); [exact HR|]. simpl.
      eapply (wp_wr_focus _ c (Z.max (k_end k) ml)); [exact HR|reflexivity|]. auto. }
  clear t HR. intros _ t HR.
  (* the right child *)
  apply wp_bind. eapply wp_rd_focus; [exact HR|]. simpl.
  apply wp_bind.
  apply (wp_mono _ (fun b t' => t' = t /\ b = is_T r)).
  { destruct r as [|cr lr ar kr mr rr]; simpl.
    - unfold py_ne. apply wp_bind. by apply wp_py_eq_refl.
    - eapply (wp_py_ne_nil _ _ (F R c a k (opt_max (k_end k) l) l :: ctx)); [exact HR|done]. }
  intros b t' [-> ->].
  destruct r as [|cr lr ar kr mr rr]; simpl.
  - apply wp_ret. by apply HQ.
  - apply wp_bind. eapply wp_rd_focus; [exact HR|]. simpl.
    apply wp_bind. eapply (wp_rd_focus _ _ (F R c a k (opt_max (k_end k) l) l :: ctx)); [exact HR|]. simpl.
    eapply (wp_wr_focus _ c (Z.max (opt_max (k_end k) l) mr)); [exact HR|reflexivity|]. auto.
Qed.

(** ** Reasoning on the raw store, for code that breaks the tree shape *)

Lemma over_lookup_out h0 cs a :
  a ∉ cs.*1 -> over h0 cs !! a = h0 !! a.
Proof.
  induction cs as [|[b nd] cs IH]; simpl; [done|].
  intros Hn. rewrite lookup_insert_ne by set_solver. apply IH. set_solver.
Qed.

Lemma over_lookup_in h0 cs i a nd :
  NoDup cs.*1 -> cs !! i = Some (a, nd) -> over h0 cs !! a = Some nd.
Proof.
  revert i. induction cs as [|[b nd'] cs IH]; intros i Hnd Hi; [done|].
  simpl in *. apply NoDup_cons in Hnd as [Hb Hnd].
  destruct i as [|i]; simpl in Hi.
  - injection Hi as -> ->. by rewrite lookup_insert_eq.
  - rewrite lookup_insert_ne; [by eapply IH|].
    intros ->. apply Hb. apply list_elem_of_fmap. exists (a, nd).
    split; [done|]. by eapply list_elem_of_lookup_2.
Qed.

Lemma over_insert h0 cs i a nd nd' :
  NoDup cs.*1 -> cs !! i = Some (a, nd) ->
  <[a := nd']> (over h0 cs) = over h0 (<[i := (a, nd')]> cs).
Proof.
  revert i. induction cs as [|[b nb] cs IH]; intros i Hnd Hi; [done|].
  simpl in *. apply NoDup_cons in Hnd as [Hb Hnd].
  destruct i as [|i]; simpl in Hi.
  - injection Hi as -> ->. simpl. by rewrite insert_insert_eq.
  - simpl. rewrite <- (IH i) by done.
    apply insert_insert_ne. intros ->. apply Hb.
    apply list_elem_of_fmap. exists (b, nd). split; [done|]. by eapply list_elem_of_lookup_2.
Qed.

Lemma fst_insert_cells (cs : list (nat * IntervalNode)) i a nd nd' :
  cs !! i = Some (a, nd) -> (<[i := (a, nd')]> cs).*1 = cs.*1.
Proof.
  intros Hi. rewrite list_fmap_insert. simpl.
  apply list_insert_id. rewrite list_lookup_fmap, Hi. done.
Qed.

Lemma over_id h0 cs :
  (forall a nd, (a, nd) ∈ cs -> h0 !! a = Some nd) -> over h0 cs = h0.
Proof.
  induction cs as [|[b nb] cs IH]; intros H; simpl; [done|].
  rewrite IH by (intros; apply H; set_solver).
  apply insert_id. apply H. set_solver.
Qed.

Lemma wp_rd_raw {A} (f : IntervalNode -> A) t h0 cs i a nd Q :
  nodes t = over h0 cs -> NoDup cs.*1 -> cs !! i = Some (a, nd) ->
  Q (f nd) t ->
  wp (rd f (Some a)) Q t.
Proof.
  intros Hh Hnd Hi HQ. unfold wp, rd, node_at.
  rewrite Hh. erewrite over_lookup_in; eauto.
Qed.

Lemma wp_wr_raw (u : IntervalNode -> IntervalNode) t h0 cs i a nd Q :
  nodes t = over h0 cs -> NoDup cs.*1 -> cs !! i = Some (a, nd) ->
  (forall t', nodes t' = over h0 (<[i := (a, u nd)]> cs) ->
     next t' = next t -> root t' = root t -> size t' = size t -> Q tt t') ->
  wp (wr u (Some a)) Q t.
Proof.
  intros Hh Hnd Hi HQ. unfold wp, wr, node_at.
  rewrite Hh. erewrite over_lookup_in; eauto. simpl.
  apply HQ; simpl; auto. by eapply over_insert.
Qed.

Lemma wp_set_root p t (Q : unit -> IntervalTree -> Prop) :
  (forall t', nodes t' = nodes t -> next t' = next t -> root t' = p ->
     size t' = size t -> Q tt t') ->
  wp (set_root p) Q t.
Proof. intros HQ. unfold wp, set_root. by apply HQ. Qed.

Lemma wp_py_eq_nil_raw rl t a na (Q : bool -> IntervalTree -> Prop) :
  nodes t !! nil = Some nil_node -> nodes t !! a = Some na ->
  is_Some (left na) -> a ≠ nil ->
  Q false t ->
  wp (py_eq rl (Some a) (Some nil)) Q t.
Proof.
  intros Hnil Ha Hl Hne HQ. unfold wp, py_eq, lift, ref_eq.
  destruct rl as [|rl].
  - simpl. by rewrite decide_False.
  - by erewrite node_eq_nil_r.
Qed.

Lemma wp_py_eq_diff_raw rl t a b na nb (Q : bool -> IntervalTree -> Prop) :
  nodes t !! nil = Some nil_node ->
  a ≠ b -> nodes t !! a = Some na -> nodes t !! b = Some nb ->
  child_ok (nodes t) a (left na) -> child_ok (nodes t) a (right na) ->
  child_ok (nodes t) b (left nb) -> child_ok (nodes t) b (right nb) ->
  ~ twins na nb ->
  Q false t ->
  wp (py_eq rl (Some a) (Some b)) Q t.
Proof.
  intros Hnil Hab Ha Hb H1 H2 H3 H4 Htw HQ. unfold wp, py_eq, lift, ref_eq.
  destruct (node_eq rl (nodes t) a b) as [[|]| |] eqn:Heq; auto.
  exfalso. apply Htw. eapply node_eq_true_inv; eauto.
Qed.

(** The root of a represented subtree is a well-formed child. *)
Lemma child_ok_root h s a :
  rep h s (Some a) -> child_ok h a (root_ref s).
Proof.
  destruct s as [|c l b k m r]; simpl; [by left|].
  intros (Hb & _). right. eexists. split; [done|]. simpl. split; [done|].
  destruct l; simpl; eauto.
Qed.

(** ** Rotations *)


Lemma Rep_rot_intro t t' ctx (old new : tree) (touched : gset nat) n ext :
  Rep t (plug ctx old) n ext ->
  addrs new = addrs old ->
  wf new ->
  touched ⊆ addrs old ∪ match ctx with [] => ∅ | f :: _ => {[f_addr f]} end ->
  rep (nodes t') new (ctx_par ctx) ->
  match ctx with
  | [] => root t' = root_of new
  | f :: ctx' =>
      nodes t' !! f_addr f = Some (frame_node f (root_ref new) (ctx_par ctx')) /\
      root t' = root t
  end ->
  (forall a, a ∉ touched -> nodes t' !! a = nodes t !! a) ->
  next t' = next t -> size t' = size t ->
  Rep t' (plug ctx new) n ext.
Proof.
  intros HR Haddr Hwf Htouch Hrep Hpar Hframe Hnext Hsize.
  apply Rep_plug in HR. apply Rep_plug.
  destruct HR as (Hnil & Hold & Hc & Hwo & Hwc & Hd & Hlt & Hroot & Hsz & Hext).
  assert (Hnil_t : nil ∉ touched).
  { intros Hin. apply Htouch in Hin. apply elem_of_union in Hin as [Hin|Hin].
    - clear -Hwo Hin. induction old; simpl in *; [set_solver|].
      destruct Hwo as (? & ? & ? & ? & ? & ?). set_solver.
    - destruct ctx as [|f ctx']; [set_solver|]. simpl in Hwc. set_solver. }
  split; [rewrite Hframe; done|].
  split; [done|].
  split.
  { destruct ctx as [|f ctx']; simpl in *; [done|].
    destruct Hc as (Hf & Hsib & Hc'). destruct Hpar as [Hp Hr].
    split; [done|]. split.
    - eapply rep_frame; [|done]. intros a Ha. apply Hframe.
      intros Hin. apply Htouch in Hin. set_solver.
    - eapply repc_frame; [|done]. intros a Ha. apply Hframe.
      intros Hin. apply Htouch in Hin. set_solver. }
  rewrite Haddr, Hnext, Hsize.
  do 4 (split; [done|]).
  split.
  { destruct ctx as [|f ctx']; simpl in *; [done|]. destruct Hpar as [_ ->]. done. }
  split; [done|].
  intros b nd Hb. destruct (Hext b nd Hb) as (H1 & H2 & H3 & H4).
  split; [|done]. rewrite Hframe; [done|].
  intros Hin. apply Htouch in Hin. destruct ctx; simpl in *; set_solver.
Qed.

(** ** Distinct addresses *)

Lemma notin_ne (X : gset nat) a b : a ∉ X -> b ∈ X -> a ≠ b.
Proof. intros H1 H2 ->. done. Qed.

Lemma disj_ne (X Y : gset nat) a b : X ## Y -> a ∈ X -> b ∈ Y -> a ≠ b.
Proof. intros H H1 H2 ->. by apply (H b). Qed.

(** Membership in a union, by search. *)
Ltac mem :=
  match goal with
  | |- _ ∈ {[ _ ]} => apply elem_of_singleton_2; reflexivity
  | |- _ ∈ _ ∪ _ => first [ apply elem_of_union_l; mem | apply elem_of_union_r; mem ]
  | |- _ ∈ _ => assumption
  end.

Ltac addr_ne :=
  match goal with
  | |- ?a ≠ ?b => first [ assumption | apply not_eq_sym; assumption ]
  | H : ?a ∉ ?X |- ?a ≠ ?b => apply (notin_ne X a b H); mem
  | H : ?b ∉ ?X |- ?a ≠ ?b => apply not_eq_sym; apply (notin_ne X b a H); mem
  | H : ?X ## ?Y |- ?a ≠ ?b => apply (disj_ne X Y a b H); mem
  | H : ?X ## ?Y |- ?a ≠ ?b => apply not_eq_sym; apply (disj_ne X Y b a H); mem
  end.

(** From [a ∈ X] among the hypotheses to a contradiction. *)
Ltac addr_false :=
  match goal with
  | H : ?a ∉ ?X |- False => apply H; mem
  | H : ?X ## ?Y |- False =>
      match goal with
      | _ : ?a ∈ _ |- _ => first [ apply (H a); mem ]
      end
  end.

Ltac addr_notin :=
  match goal with
  | |- _ ∉ ∅ => apply not_elem_of_empty
  | |- _ ∉ {[ _ ]} => apply not_elem_of_singleton_2; addr_ne
  | |- _ ∉ _ ∪ _ => apply not_elem_of_union; split; addr_notin
  | |- _ ∉ _ => first [ assumption | let Hin := fresh "Hin" in intros Hin; addr_false ]
  end.

Lemma NoDup_2 (x y : nat) : x ≠ y -> NoDup [x; y].
Proof.
  intros. repeat (apply NoDup_cons; split; [rewrite ?elem_of_cons, ?elem_of_nil; intuition congruence|]).
  apply NoDup_nil. done.
Qed.

Lemma NoDup_3 (x y b : nat) : x ≠ y -> x ≠ b -> y ≠ b -> NoDup [x; y; b].
Proof.
  intros. repeat (apply NoDup_cons; split; [rewrite ?elem_of_cons, ?elem_of_nil; intuition congruence|]).
  apply NoDup_nil. done.
Qed.

Lemma NoDup_4 (x y b p : nat) :
  x ≠ y -> x ≠ b -> x ≠ p -> y ≠ b -> y ≠ p -> b ≠ p -> NoDup [x; y; b; p].
Proof.
  intros. repeat (apply NoDup_cons; split; [rewrite ?elem_of_cons, ?elem_of_nil; intuition congruence|]).
  apply NoDup_nil. done.
Qed.

Arguments over : simpl never.

Lemma addrs_rotL c al x kx mx c' be y ky my ga :
  addrs (T c' (T c al x kx mx be) y ky my ga) =
  addrs (T c al x kx mx (T c' be y ky my ga)).
Proof. simpl. set_solver. Qed.

Lemma wf_rotL c al x kx mx c' be y ky my ga :
  wf (T c al x kx mx (T c' be y ky my ga)) ->
  wf (T c' (T c al x kx mx be) y ky my ga).
Proof. simpl. intros (? & ? & ? & ? & ? & ? & ? & ? & ? & ? & ?). repeat split; auto; set_solver. Qed.

Lemma addrs_rotR c al x kx mx c' be y ky my ga :
  addrs (T c' al x kx mx (T c be y ky my ga)) =
  addrs (T c (T c' al x kx mx be) y ky my ga).
Proof. simpl. set_solver. Qed.

Lemma wf_rotR c al x kx mx c' be y ky my ga :
  wf (T c (T c' al x kx mx be) y ky my ga) ->
  wf (T c' al x kx mx (T c be y ky my ga)).
Proof. simpl. intros (? & ? & ? & ? & (? & ? & ? & ? & ? & ?) & ?). repeat split; auto; set_solver. Qed.

Lemma is_Some_root_ref t : is_Some (root_ref t).
Proof. destruct t; simpl; eauto. Qed.

Lemma root_ref_nil_inv t : wf t -> root_ref t = Some nil -> t = E.
Proof. destruct t; simpl; [done|]. intros (? & _) [=]. done. Qed.


(** * The two rotations *)

Ltac raw_rd Hh Hnd :=
  first [ eapply (wp_rd_raw _ _ _ _ 0%nat); [exact Hh|exact Hnd|reflexivity|]
        | eapply (wp_rd_raw _ _ _ _ 1%nat); [exact Hh|exact Hnd|reflexivity|] ].

Ltac raw_wr Hh Hnd :=
  first [ eapply (wp_wr_raw _ _ _ _ 0%nat); [exact Hh|exact Hnd|reflexivity|]
        | eapply (wp_wr_raw _ _ _ _ 1%nat); [exact Hh|exact Hnd|reflexivity|] ].

(** A write to one of the tracked objects; the hypotheses [Hh], [Hn], [Hr],
    [Hs] on the current state are replaced by those on the new state. *)
Ltac raw_wr_step Hh Hnd Hn Hr Hs :=
  raw_wr Hh Hnd;
  let t' := fresh "t" in
  let Hh' := fresh "Hh" in
  let Hn' := fresh "Hn" in
  let Hr' := fresh "Hr" in
  let Hs' := fresh "Hs" in
  intros t' Hh' Hn' Hr' Hs';
  rewrite Hn in Hn'; rewrite Hr in Hr'; rewrite Hs in Hs';
  clear Hh Hn Hr Hs;
  rename Hh' into Hh; rename Hn' into Hn; rename Hr' into Hr; rename Hs' into Hs;
  simpl in Hh.

(** The current store at an address outside the tracked objects. *)
Ltac cells_out Hh :=
  rewrite Hh; rewrite over_lookup_out;
  [|simpl; rewrite ?not_elem_of_cons; repeat split; try addr_ne; apply not_elem_of_nil].

Ltac cells_in Hh Hnd :=
  rewrite Hh;
  first [ eapply (over_lookup_in _ _ 0%nat); [exact Hnd|reflexivity]
        | eapply (over_lookup_in _ _ 1%nat); [exact Hnd|reflexivity] ].

Lemma over_base_insert h0 cs b v :
  b ∉ cs.*1 -> <[b := v]> (over h0 cs) = over (<[b := v]> h0) cs.
Proof.
  induction cs as [|[a nd] cs IH]; intros Hb; [done|].
  unfold over in *. simpl in *. rewrite <- IH by set_solver.
  apply insert_insert_ne. set_solver.
Qed.

Lemma reparent_store_over s np h0 cs :
  (forall a, a ∈ root_addr s -> a ∉ cs.*1) ->
  reparent_store s np (over h0 cs) = over (reparent_store s np h0) cs.
Proof.
  destruct s as [|c l a k m r]; simpl; [done|].
  intros H. apply over_base_insert. apply H. set_solver.
Qed.

Lemma link_store_over ctx child h0 cs :
  (forall f ctx', ctx = f :: ctx' -> f_addr f ∉ cs.*1) ->
  link_store ctx child (over h0 cs) = over (link_store ctx child h0) cs.
Proof.
  destruct ctx as [|f ctx']; simpl; [done|].
  intros H. apply over_base_insert. by eapply H.
Qed.

Lemma reparent_store_ne s np h a :
  a ∉ root_addr s -> reparent_store s np h !! a = h !! a.
Proof.
  destruct s as [|c l b k m r]; simpl; [done|].
  intros H. apply lookup_insert_ne. set_solver.
Qed.


Lemma link_store_ne ctx child h a :
  a ∉ par_addr ctx ->
  link_store ctx child h !! a = h !! a.
Proof.
  destruct ctx as [|f ctx']; simpl; [done|].
  intros H. apply lookup_insert_ne. set_solver.
Qed.

Lemma root_addr_sub s : root_addr s ⊆ addrs s.
Proof. destruct s; simpl; set_solver. Qed.

Lemma rep_reparent_store h s par np :
  wf s -> rep h s par -> rep (reparent_store s np h) s (Some np).
Proof. intros Hw Hr. by apply (rep_reparent h s par (Some np)). Qed.

(** [if s.root != self.nil: s.root.parent = np] *)
Lemma wp_reparent rl t s par np (Q : unit -> IntervalTree -> Prop) :
  nodes t !! nil = Some nil_node -> rep (nodes t) s par -> wf s ->
  (forall t', nodes t' = reparent_store s np (nodes t) ->
     next t' = next t -> root t' = root t -> size t' = size t -> Q tt t') ->
  wp (c <- py_ne rl (root_ref s) (Some nil);;
      if c then wr (set_parent (Some np)) (root_ref s) else ret tt) Q t.
Proof.
  intros Hnil Hrep Hwf HQ. destruct s as [|c l a k m r]; simpl in *.
  - apply wp_bind. unfold py_ne. apply wp_bind. apply wp_py_eq_refl.
    apply wp_ret. simpl. apply wp_ret. destruct t. by apply HQ.
  - destruct Hrep as (Ha & _). destruct Hwf as (Ha0 & _).
    apply wp_bind. unfold py_ne. apply wp_bind.
    eapply wp_py_eq_nil_raw; [exact Hnil|exact Ha|apply is_Some_root_ref|done|].
    apply wp_ret. simpl.
    unfold wp, wr, node_at. rewrite Ha. simpl. by apply HQ.
Qed.

(** The end of a rotation around [x] that makes [y] take its place: the
    reference to [x] in its parent, or [self.root], is redirected to [y].
    [first] is the side that the code tests ([left] in [_left_rotate]). *)
Lemma wp_link_parent rl (first : dir) t ctx x y nx (Q : unit -> IntervalTree -> Prop) :
  nodes t !! nil = Some nil_node ->
  repc (nodes t) ctx (Some x) -> wf_ctx ctx -> x ∉ addrs_ctx ctx -> x ≠ nil ->
  nodes t !! x = Some nx ->
  child_ok (nodes t) x (left nx) -> child_ok (nodes t) x (right nx) ->
  (forall f ctx' c l s k m r, ctx = f :: ctx' -> f_dir f ≠ first ->
     f_sib f = T c l s k m r -> ~ twins nx (node_of c l k m r (Some (f_addr f)))) ->
  (forall t', nodes t' = link_store ctx (Some y) (nodes t) ->
     next t' = next t ->
     root t' = match ctx with [] => Some y | _ => root t end ->
     size t' = size t -> Q tt t') ->
  wp (at_root <- (if is_None (ctx_par ctx) then ret true
                  else py_eq rl (ctx_par ctx) (Some nil));;
      if at_root then set_root (Some y)
      else
        match first with
        | L =>
            xpl <- rd left (ctx_par ctx);;
            is_left <- py_eq rl (Some x) xpl;;
            if is_left then wr (set_left (Some y)) (ctx_par ctx)
            else wr (set_right (Some y)) (ctx_par ctx)
        | R =>
            xpr <- rd right (ctx_par ctx);;
            is_right <- py_eq rl (Some x) xpr;;
            if is_right then wr (set_right (Some y)) (ctx_par ctx)
            else wr (set_left (Some y)) (ctx_par ctx)
        end) Q t.
Proof.
  intros Hnil Hc Hwc Hxc Hx0 Hx Hcl Hcr Htw HQ.
  destruct ctx as [|[d cf p kp mp sp] ctx']; simpl in *.
  { apply wp_bind. apply wp_py_eq_refl. apply wp_set_root. intros. by apply HQ. }
  destruct Hc as (Hp & Hsp & Hc'). destruct Hwc as (Hp0 & Hpsp & Hpc & Hdsc & Hwsp & Hwc').
  assert (Hxp : x ≠ p) by (clear -Hxc; set_solver).
  assert (Hxs : x ∉ addrs sp) by (clear -Hxc; set_solver).
  apply wp_bind.
  eapply wp_py_eq_nil_raw; [exact Hnil|exact Hp| |done|].
  { destruct d; simpl; eauto using is_Some_root_ref. }
  (* the comparison of [x] with the child of the parent on the other side *)
  assert (Hsib : wp (py_eq rl (Some x) (root_ref sp)) (fun b t' => t' = t /\ b = false) t
                 \/ d = first).
  { assert (Hdec : d = first \/ d ≠ first) by (destruct d, first; auto; right; congruence).
    destruct Hdec as [|Hne]; [by right|left].
    destruct sp as [|cs ls s ks ms rs]; simpl.
    - eapply wp_py_eq_nil_raw; [exact Hnil|exact Hx| |done|done].
      clear -Hcl. destruct (left nx); simpl in *; [eauto|done].
    - simpl in Hsp. destruct Hsp as (Hs & Hls & Hrs).
      eapply wp_py_eq_diff_raw; [exact Hnil| |exact Hx|exact Hs|exact Hcl|exact Hcr| | | |done].
      + clear -Hxs. simpl in Hxs. set_solver.
      + simpl. by apply child_ok_root.
      + simpl. by apply child_ok_root.
      + eapply (Htw _ _ cs ls s ks ms rs); eauto. }
  assert (Hfin : forall u, u (frame_node (F d cf p kp mp sp) (Some x) (ctx_par ctx'))
                   = frame_node (F d cf p kp mp sp) (Some y) (ctx_par ctx') ->
                 wp (wr u (Some p)) Q t).
  { intros u Hu. unfold wp, wr, node_at. rewrite Hp. simpl. rewrite Hu. by apply HQ. }
  destruct first, d; simpl.
  - apply wp_bind. unfold wp at 1, rd, node_at. rewrite Hp. simpl.
    apply wp_bind. apply wp_py_eq_refl. by apply Hfin.
  - destruct Hsib as [Hsib|]; [|done].
    apply wp_bind. unfold wp at 1, rd, node_at. rewrite Hp. simpl.
    apply wp_bind. eapply wp_mono; [exact Hsib|]. intros b t' [-> ->]. by apply Hfin.
  - destruct Hsib as [Hsib|]; [|done].
    apply wp_bind. unfold wp at 1, rd, node_at. rewrite Hp. simpl.
    apply wp_bind. eapply wp_mono; [exact Hsib|]. intros b t' [-> ->]. by apply Hfin.
  - apply wp_bind. unfold wp at 1, rd, node_at. rewrite Hp. simpl.
    apply wp_bind. apply wp_py_eq_refl. by apply Hfin.
Qed.

Lemma wp_bind_assoc {S A B C} (m : M S A) (k : A -> M S B) (k' : B -> M S C) Q s :
  wp (bind (bind m k) k') Q s -> wp (bind m (fun a => bind (k a) k')) Q s.
Proof.
  unfold wp, bind. destruct (m s) as [[a| |] s1]; auto.
Qed.

Lemma par_addr_sub ctx : par_addr ctx ⊆ addrs_ctx ctx.
Proof. destruct ctx; simpl; set_solver. Qed.

Lemma wp_left_rotate rl t ctx c al x kx mx c' be y ky my ga n ext
    (Q : unit -> IntervalTree -> Prop) :
  Rep t (plug ctx (T c al x kx mx (T c' be y ky my ga))) n ext ->
  no_twin R ctx c kx mx al be ->
  (forall t', Rep t' (plug ctx (rotL (T c al x kx mx (T c' be y ky my ga)))) n ext ->
     Q tt t') ->
  wp (_left_rotate rl (Some x)) Q t.
Proof.
  intros HR Htw HQ.
  pose proof HR as HR0. apply Rep_plug in HR0. simpl in HR0.
  destruct HR0 as (Hnil & (Hx & Hal & Hy & Hbe & Hga) & Hc &
    (Hx0 & Hxal & Hxr & Hdal & Hwal & Hy0 & Hybe & Hyga & Hdbg & Hwbe & Hwga) &
    Hwc & Hd & Hlt & Hroot & Hsz & Hext).
  pose proof (root_addr_sub be) as Hrbe. pose proof (par_addr_sub ctx) as Hpsub.
  assert (Hxy : x ≠ y) by addr_ne.
  assert (Hxb : x ∉ root_addr be) by (clear -Hxr Hrbe; set_solver).
  assert (Hyb : y ∉ root_addr be) by (clear -Hybe Hrbe; set_solver).
  assert (Hxp : x ∉ addrs_ctx ctx) by (clear -Hd; set_solver).
  assert (Hyp : y ∉ addrs_ctx ctx) by (clear -Hd; set_solver).
  assert (Halp : addrs al ## addrs_ctx ctx) by (clear -Hd; set_solver).
  assert (Hbep : addrs be ## addrs_ctx ctx) by (clear -Hd; set_solver).
  assert (Hgap : addrs ga ## addrs_ctx ctx) by (clear -Hd; set_solver).
  assert (Halb : addrs al ## addrs be) by (clear -Hdal; set_solver).
  assert (Halg : addrs al ## addrs ga) by (clear -Hdal; set_solver).
  assert (Hnd : NoDup [x; y]) by (by apply NoDup_2).
  remember (nodes t) as h0 eqn:Eh.
  remember (next t) as n0 eqn:Hn. remember (root t) as r0 eqn:Hr.
  remember (size t) as s0 eqn:Hs. symmetry in Hn, Hr, Hs.
  pose proof Hn as Hn0. pose proof Hr as Hr0. pose proof Hs as Hs0.
  assert (Hh : nodes t = over h0
            [(x, node_of c al kx mx (T c' be y ky my ga) (ctx_par ctx));
             (y, node_of c' be ky my ga (Some x))]).
  { rewrite <- Eh. symmetry. apply over_id. intros a nd Ha.
    repeat (apply elem_of_cons in Ha as [Ha|Ha]; [injection Ha as -> ->; done|]).
    by apply elem_of_nil in Ha. }
  revert Hh Hn Hr Hs. generalize t at 1 2 3 4 5 as tc. intros tc Hh Hn Hr Hs.
  unfold _left_rotate. simpl is_None. cbv iota.
  apply wp_bind. raw_rd Hh Hnd. simpl.
  apply wp_bind. raw_rd Hh Hnd. simpl.
  apply wp_bind. raw_rd Hh Hnd. simpl.
  apply wp_bind. raw_wr_step Hh Hnd Hn Hr Hs.
  apply wp_bind. raw_rd Hh Hnd. simpl.
  (* the subtree that changes sides *)
  apply wp_bind_assoc. apply wp_bind.
  eapply (wp_reparent rl _ be (Some y) x).
  { cells_out Hh. exact Hnil. }
  { eapply rep_frame; [|exact Hbe]. intros a Ha. cells_out Hh. done. }
  { exact Hwbe. }
  intros t1 Hh1 Hn1 Hr1 Hs1.
  rewrite Hh, reparent_store_over in Hh1
    by (intros a Ha; simpl; rewrite !not_elem_of_cons; repeat split;
        [intros ->; done|intros ->; done|apply not_elem_of_nil]).
  rewrite Hn in Hn1. rewrite Hr in Hr1. rewrite Hs in Hs1.
  clear t0 Hh Hn Hr Hs.
  set (h1 := reparent_store be x h0) in *.
  apply wp_bind. raw_rd Hh1 Hnd. simpl.
  apply wp_bind. raw_wr_step Hh1 Hnd Hn1 Hr1 Hs1.
  apply wp_bind. raw_rd Hh1 Hnd. simpl.
  (* the link from the parent *)
  apply wp_bind_assoc. apply wp_bind.
  eapply (wp_link_parent rl L _ ctx x y).
  { cells_out Hh1. unfold h1. rewrite reparent_store_ne; [exact Hnil|].
    clear -Hwbe. destruct be; simpl in *; [set_solver|]. destruct Hwbe. set_solver. }
  { eapply repc_frame; [|exact Hc]. intros a Ha. cells_out Hh1.
    unfold h1. apply reparent_store_ne. clear -Ha Hbep Hrbe. set_solver. }
  { exact Hwc. }
  { exact Hxp. }
  { exact Hx0. }
  { cells_in Hh1 Hnd. }
  { simpl. apply child_ok_root. eapply rep_frame; [|exact Hal].
    intros a Ha. cells_out Hh1. unfold h1. apply reparent_store_ne.
    clear -Ha Halb Hrbe. set_solver. }
  { simpl. apply child_ok_root. eapply rep_frame; [|apply (rep_reparent_store h0 be (Some y) x Hwbe Hbe)].
    intros a Ha. cells_out Hh1. done. }
  { intros f ctx' cs ls s ks ms rs -> Hdir Hsib (Hl & Hr' & Hl2 & Hr2 & Hst & Hen & Hid & Hm & Hco).
    simpl in *. apply Htw.
    - destruct (f_dir f); congruence.
    - by apply root_ref_nil_inv.
    - by apply root_ref_nil_inv.
    - rewrite Hsib. destruct Hwc as (_ & _ & _ & _ & Hwsib & _).
      rewrite Hsib in Hwsib. simpl in Hwsib.
      destruct Hwsib as (_ & _ & _ & _ & Hwls & Hwrs).
      apply root_ref_nil_inv in Hl2; [|done]. apply root_ref_nil_inv in Hr2; [|done].
      subst ls rs c mx. exists s.
      destruct kx as [[? ?] ?], ks as [[? ?] ?]. unfold k_start, k_end, k_id in *.
      simpl in *. congruence. }
  intros t2 Hh2 Hn2 Hr2 Hs2.
  rewrite Hh1, link_store_over in Hh2
    by (intros f ctx' ->; simpl in *; rewrite !not_elem_of_cons; repeat split;
        [clear -Hxp; set_solver|clear -Hyp; set_solver|apply not_elem_of_nil]).
  rewrite Hn1 in Hn2. rewrite Hr1 in Hr2. rewrite Hs1 in Hs2.
  clear t0 Hh1 Hn1 Hr1 Hs1.
  set (h2 := link_store ctx (Some y) h1) in *.
  apply wp_bind. raw_wr_step Hh2 Hnd Hn2 Hr2 Hs2.
  apply wp_bind. raw_wr_step Hh2 Hnd Hn2 Hr2 Hs2.
  match type of Hh2 with nodes ?tt = _ => rename tt into tf end.
  assert (Hout : forall a, a ≠ x -> a ≠ y -> a ∉ root_addr be -> a ∉ par_addr ctx ->
            nodes tf !! a = h0 !! a).
  { intros a Hax Hay Hab Hap. cells_out Hh2. unfold h2, h1.
    by rewrite link_store_ne, reparent_store_ne. }
  assert (Hout1 : forall a, a ≠ x -> a ≠ y -> a ∉ par_addr ctx ->
            nodes tf !! a = h1 !! a).
  { intros a Hax Hay Hap. cells_out Hh2. unfold h2. by rewrite link_store_ne. }
  assert (HR' : Rep tf (plug ctx (T c' (T c al x kx mx be) y ky my ga)) n ext).
  { eapply (Rep_rot_intro t tf _ _ _ ({[x]} ∪ {[y]} ∪ root_addr be ∪ par_addr ctx));
      [exact HR|..].
    - apply addrs_rotL.
    - apply wf_rotL. simpl. repeat split; assumption.
    - simpl. fold (par_addr ctx). clear -Hrbe. set_solver.
    - simpl. split; [cells_in Hh2 Hnd|]. split; [split; [cells_in Hh2 Hnd|split]|].
      + eapply rep_frame; [|exact Hal]. intros a Ha. apply Hout.
        * addr_ne.
        * clear -Ha Hdal. set_solver.
        * clear -Ha Halb Hrbe. set_solver.
        * clear -Ha Halp Hpsub. set_solver.
      + eapply rep_frame; [|apply (rep_reparent_store h0 be (Some y) x Hwbe Hbe)].
        intros a Ha. apply Hout1.
        * clear -Ha Hxr. set_solver.
        * addr_ne.
        * clear -Ha Hbep Hpsub. set_solver.
      + eapply rep_frame; [|exact Hga]. intros a Ha. apply Hout.
        * clear -Ha Hxr. set_solver.
        * addr_ne.
        * clear -Ha Hdbg Hrbe. set_solver.
        * clear -Ha Hgap Hpsub. set_solver.
    - destruct ctx as [|f ctx']; simpl in *; [congruence|].
      split; [|congruence].
      rewrite Hh2, over_lookup_out
        by (simpl; rewrite !not_elem_of_cons; repeat split;
            [clear -Hxp; set_solver|clear -Hyp; set_solver|apply not_elem_of_nil]).
      unfold h2. simpl. by rewrite lookup_insert_eq.
    - intros a Ha. rewrite <- Eh. apply Hout; clear -Ha; set_solver.
    - congruence.
    - congruence. }
  apply wp_bind.
  eapply (wp_update_max_end rl _ (F L c' y ky my ga :: ctx) (T c al x kx mx be)); [exact HR'|].
  intros t6 HR6.
  eapply (wp_update_max_end rl _ ctx (T c' (upd (T c al x kx mx be)) y ky my ga)); [exact HR6|].
  intros t7 HR7. apply HQ. exact HR7.
Qed.

Lemma wp_right_rotate rl t ctx c al x kx mx c' be y ky my ga n ext
    (Q : unit -> IntervalTree -> Prop) :
  Rep t (plug ctx (T c (T c' al x kx mx be) y ky my ga)) n ext ->
  no_twin L ctx c ky my be ga ->
  (forall t', Rep t' (plug ctx (rotR (T c (T c' al x kx mx be) y ky my ga))) n ext ->
     Q tt t') ->
  wp (_right_rotate rl (Some y)) Q t.
Proof.
  intros HR Htw HQ.
  pose proof HR as HR0. apply Rep_plug in HR0. simpl in HR0.
  destruct HR0 as (Hnil & (Hy & (Hx & Hal & Hbe) & Hga) & Hc &
    (Hy0 & Hyl & Hyga & Hdlg & (Hx0 & Hxal & Hxbe & Hdab & Hwal & Hwbe) & Hwga) &
    Hwc & Hd & Hlt & Hroot & Hsz & Hext).
  pose proof (root_addr_sub be) as Hrbe. pose proof (par_addr_sub ctx) as Hpsub.
  assert (Hxy : x ≠ y) by (clear -Hyl; set_solver).
  assert (Hxb : x ∉ root_addr be) by (clear -Hxbe Hrbe; set_solver).
  assert (Hyb : y ∉ root_addr be) by (clear -Hyl Hrbe; set_solver).
  assert (Hxp : x ∉ addrs_ctx ctx) by (clear -Hd; set_solver).
  assert (Hyp : y ∉ addrs_ctx ctx) by (clear -Hd; set_solver).
  assert (Halp : addrs al ## addrs_ctx ctx) by (clear -Hd; set_solver).
  assert (Hbep : addrs be ## addrs_ctx ctx) by (clear -Hd; set_solver).
  assert (Hgap : addrs ga ## addrs_ctx ctx) by (clear -Hd; set_solver).
  assert (Hbeg : addrs be ## addrs ga) by (clear -Hdlg; set_solver).
  assert (Halg : addrs al ## addrs ga) by (clear -Hdlg; set_solver).
  assert (Hyal : y ∉ addrs al) by (clear -Hyl; set_solver).
  assert (Hybe : y ∉ addrs be) by (clear -Hyl; set_solver).
  assert (Hxga : x ∉ addrs ga) by (clear -Hdlg; set_solver).
  assert (Hnd : NoDup [x; y]) by (by apply NoDup_2).
  remember (nodes t) as h0 eqn:Eh.
  remember (next t) as n0 eqn:Hn. remember (root t) as r0 eqn:Hr.
  remember (size t) as s0 eqn:Hs. symmetry in Hn, Hr, Hs.
  pose proof Hn as Hn0. pose proof Hr as Hr0. pose proof Hs as Hs0.
  assert (Hh : nodes t = over h0
            [(x, node_of c' al kx mx be (Some y));
             (y, node_of c (T c' al x kx mx be) ky my ga (ctx_par ctx))]).
  { rewrite <- Eh. symmetry. apply over_id. intros a nd Ha.
    repeat (apply elem_of_cons in Ha as [Ha|Ha]; [injection Ha as -> ->; done|]).
    by apply elem_of_nil in Ha. }
  revert Hh Hn Hr Hs. generalize t at 1 2 3 4 5 as tc. intros tc Hh Hn Hr Hs.
  unfold _right_rotate. simpl is_None. cbv iota.
  apply wp_bind. raw_rd Hh Hnd. simpl.
  apply wp_bind. raw_rd Hh Hnd. simpl.
  apply wp_bind. raw_rd Hh Hnd. simpl.
  apply wp_bind. raw_wr_step Hh Hnd Hn Hr Hs.
  apply wp_bind. raw_rd Hh Hnd. simpl.
  (* the subtree that changes sides *)
  apply wp_bind_assoc. apply wp_bind.
  eapply (wp_reparent rl _ be (Some x) y).
  { cells_out Hh. exact Hnil. }
  { eapply rep_frame; [|exact Hbe]. intros a Ha. cells_out Hh. done. }
  { exact Hwbe. }
  intros t1 Hh1 Hn1 Hr1 Hs1.
  rewrite Hh, reparent_store_over in Hh1
    by (intros a Ha; simpl; rewrite !not_elem_of_cons; repeat split;
        [intros ->; done|intros ->; done|apply not_elem_of_nil]).
  rewrite Hn in Hn1. rewrite Hr in Hr1. rewrite Hs in Hs1.
  clear t0 Hh Hn Hr Hs.
  set (h1 := reparent_store be y h0) in *.
  apply wp_bind. raw_rd Hh1 Hnd. simpl.
  apply wp_bind. raw_wr_step Hh1 Hnd Hn1 Hr1 Hs1.
  apply wp_bind. raw_rd Hh1 Hnd. simpl.
  (* the link from the parent *)
  apply wp_bind_assoc. apply wp_bind.
  eapply (wp_link_parent rl R _ ctx y x).
  { cells_out Hh1. unfold h1. rewrite reparent_store_ne; [exact Hnil|].
    clear -Hwbe. destruct be; simpl in *; [set_solver|]. destruct Hwbe. set_solver. }
  { eapply repc_frame; [|exact Hc]. intros a Ha. cells_out Hh1.
    unfold h1. apply reparent_store_ne. clear -Ha Hbep Hrbe. set_solver. }
  { exact Hwc. }
  { exact Hyp. }
  { exact Hy0. }
  { cells_in Hh1 Hnd. }
  { simpl. apply child_ok_root.
    eapply rep_frame; [|apply (rep_reparent_store h0 be (Some x) y Hwbe Hbe)].
    intros a Ha. cells_out Hh1. done. }
  { simpl. apply child_ok_root. eapply rep_frame; [|exact Hga].
    intros a Ha. cells_out Hh1. unfold h1. apply reparent_store_ne.
    clear -Ha Hbeg Hrbe. set_solver. }
  { intros f ctx' cs ls s ks ms rs -> Hdir Hsib (Hl & Hr' & Hl2 & Hr2 & Hst & Hen & Hid & Hm & Hco).
    simpl in *. apply Htw.
    - destruct (f_dir f); congruence.
    - by apply root_ref_nil_inv.
    - by apply root_ref_nil_inv.
    - rewrite Hsib. destruct Hwc as (_ & _ & _ & _ & Hwsib & _).
      rewrite Hsib in Hwsib. simpl in Hwsib.
      destruct Hwsib as (_ & _ & _ & _ & Hwls & Hwrs).
      apply root_ref_nil_inv in Hl2; [|done]. apply root_ref_nil_inv in Hr2; [|done].
      subst ls rs c my. exists s.
      destruct ky as [[? ?] ?], ks as [[? ?] ?]. unfold k_start, k_end, k_id in *.
      simpl in *. congruence. }
  intros t2 Hh2 Hn2 Hr2 Hs2.
  rewrite Hh1, link_store_over in Hh2
    by (intros f ctx' ->; simpl in *; rewrite !not_elem_of_cons; repeat split;
        [clear -Hxp; set_solver|clear -Hyp; set_solver|apply not_elem_of_nil]).
  rewrite Hn1 in Hn2. rewrite Hr1 in Hr2. rewrite Hs1 in Hs2.
  clear t0 Hh1 Hn1 Hr1 Hs1.
  set (h2 := link_store ctx (Some x) h1) in *.
  apply wp_bind. raw_wr_step Hh2 Hnd Hn2 Hr2 Hs2.
  apply wp_bind. raw_wr_step Hh2 Hnd Hn2 Hr2 Hs2.
  match type of Hh2 with nodes ?tt = _ => rename tt into tf end.
  assert (Hout : forall a, a ≠ x -> a ≠ y -> a ∉ root_addr be -> a ∉ par_addr ctx ->
            nodes tf !! a = h0 !! a).
  { intros a Hax Hay Hab Hap. cells_out Hh2. unfold h2, h1.
    by rewrite link_store_ne, reparent_store_ne. }
  assert (Hout1 : forall a, a ≠ x -> a ≠ y -> a ∉ par_addr ctx ->
            nodes tf !! a = h1 !! a).
  { intros a Hax Hay Hap. cells_out Hh2. unfold h2. by rewrite link_store_ne. }
  assert (HR' : Rep tf (plug ctx (T c' al x kx mx (T c be y ky my ga))) n ext).
  { eapply (Rep_rot_intro t tf _ _ _ ({[x]} ∪ {[y]} ∪ root_addr be ∪ par_addr ctx));
      [exact HR|..].
    - apply addrs_rotR.
    - apply wf_rotR. simpl. repeat split; assumption.
    - simpl. fold (par_addr ctx). clear -Hrbe. set_solver.
    - simpl. split; [cells_in Hh2 Hnd|]. split; [|split; [cells_in Hh2 Hnd|split]].
      + eapply rep_frame; [|exact Hal]. intros a Ha. apply Hout.
        * addr_ne.
        * addr_ne.
        * clear -Ha Hdab Hrbe. set_solver.
        * clear -Ha Halp Hpsub. set_solver.
      + eapply rep_frame; [|apply (rep_reparent_store h0 be (Some x) y Hwbe Hbe)].
        intros a Ha. apply Hout1.
        * addr_ne.
        * addr_ne.
        * clear -Ha Hbep Hpsub. set_solver.
      + eapply rep_frame; [|exact Hga]. intros a Ha. apply Hout.
        * addr_ne.
        * addr_ne.
        * clear -Ha Hbeg Hrbe. set_solver.
        * clear -Ha Hgap Hpsub. set_solver.
    - destruct ctx as [|f ctx']; simpl in *; [congruence|].
      split; [|congruence].
      rewrite Hh2, over_lookup_out
        by (simpl; rewrite !not_elem_of_cons; repeat split;
            [clear -Hxp; set_solver|clear -Hyp; set_solver|apply not_elem_of_nil]).
      unfold h2. simpl. by rewrite lookup_insert_eq.
    - intros a Ha. rewrite <- Eh. apply Hout; clear -Ha; set_solver.
    - congruence.
    - congruence. }
  apply wp_bind.
  eapply (wp_update_max_end rl _ (F R c' x kx mx al :: ctx) (T c be y ky my ga)); [exact HR'|].
  intros t6 HR6.
  eapply (wp_update_max_end rl _ ctx (T c' al x kx mx (upd (T c be y ky my ga)))); [exact HR6|].
  intros t7 HR7. apply HQ. exact HR7.
Qed.


(** * [_insert_fixup] *)

(** ** Accesses to the frames of a zipper *)



Lemma fill_swap f sub : fill (swap f sub) (f_sib f) = fill f sub.
Proof. destruct f as [[] c a k m s]; reflexivity. Qed.

Lemma plug_swap f ctx sub : plug (swap f sub :: ctx) (f_sib f) = plug (f :: ctx) sub.
Proof. simpl. by rewrite fill_swap. Qed.

Lemma fill_T f sub :
  exists l r, fill f sub = T (f_color f) l (f_addr f) (f_key f) (f_max f) r /\
    frame_node f (root_ref sub) = node_of (f_color f) l (f_key f) (f_max f) r.
Proof. destruct f as [[] c a k m s]; simpl; eauto. Qed.

Lemma wp_rd_frame {A} (fn : IntervalNode -> A) t f ctx sub n ext Q :
  Rep t (plug (f :: ctx) sub) n ext ->
  Q (fn (frame_node f (root_ref sub) (ctx_par ctx))) t ->
  wp (rd fn (Some (f_addr f))) Q t.
Proof.
  intros HR HQ. simpl in HR. destruct (fill_T f sub) as (l & r & Hf & Hn).
  rewrite Hf in HR. rewrite Hn in HQ. eapply wp_rd_focus; eauto.
Qed.

Lemma wp_wr_frame_color c' t f ctx sub n ext (Q : unit -> IntervalTree -> Prop) :
  Rep t (plug (f :: ctx) sub) n ext ->
  (forall t', Rep t' (plug (f_paint c' f :: ctx) sub) n ext -> Q tt t') ->
  wp (wr (set_color c') (Some (f_addr f))) Q t.
Proof.
  intros HR HQ. simpl in *. destruct f as [[] c a k m s]; simpl in *.
  - eapply (wp_wr_focus _ c' m); [exact HR|reflexivity|]. exact HQ.
  - eapply (wp_wr_focus _ c' m); [exact HR|reflexivity|]. exact HQ.
Qed.

Lemma wp_wr_root_color c' t ctx sub n ext (Q : unit -> IntervalTree -> Prop) :
  Rep t (plug ctx sub) n ext -> is_T sub = true ->
  (forall t', Rep t' (plug ctx (paint c' sub)) n ext -> Q tt t') ->
  wp (wr (set_color c') (root_ref sub)) Q t.
Proof.
  intros HR HT HQ. destruct sub as [|c l a k m r]; [done|]. simpl.
  eapply (wp_wr_focus _ c' m); [exact HR|reflexivity|]. exact HQ.
Qed.

Lemma wp_wr_sib_color c' t f ctx sub n ext (Q : unit -> IntervalTree -> Prop) :
  Rep t (plug (f :: ctx) sub) n ext -> is_T (f_sib f) = true ->
  (forall t', Rep t' (plug (f_paint_sib c' f :: ctx) sub) n ext -> Q tt t') ->
  wp (wr (set_color c') (root_ref (f_sib f))) Q t.
Proof.
  intros HR HT HQ. rewrite <- plug_swap in HR.
  eapply wp_wr_root_color; [exact HR|exact HT|].
  intros t' HR'. apply HQ.
  change (paint c' (f_sib f)) with (f_sib (f_paint_sib c' f)) in HR'.
  change (swap f sub) with (swap (f_paint_sib c' f) sub) in HR'.
  by rewrite plug_swap in HR'.
Qed.

(** The colour of a child, which may be the sentinel. *)
Lemma wp_rd_color_root t ctx sub n ext (Q : Color -> IntervalTree -> Prop) :
  Rep t (plug ctx sub) n ext ->
  Q (t_color sub) t ->
  wp (rd color (root_ref sub)) Q t.
Proof.
  intros HR HQ. destruct sub as [|c l a k m r]; simpl in *.
  - destruct HR as (Hnil & _). unfold wp, rd, node_at. by rewrite Hnil.
  - eapply wp_rd_focus; eauto.
Qed.

(** [a == s] for a node [a] and its sibling [s], unless they are twins. *)
Lemma wp_py_eq_sib rl t f ctx c l a k m r n ext (Q : bool -> IntervalTree -> Prop) :
  Rep t (plug (f :: ctx) (T c l a k m r)) n ext ->
  ~ (l = E /\ r = E /\ twin_tree c k m (f_sib f)) ->
  Q false t ->
  wp (py_eq rl (Some a) (root_ref (f_sib f))) Q t.
Proof.
  intros HR Htw HQ.
  pose proof HR as HR0. apply Rep_plug in HR0. simpl in HR0.
  destruct HR0 as (Hnil & (Ha & Hl & Hr) & (Hf & Hsib & Hc) & (Ha0 & Hal & Har & Hdlr & Hwl & Hwr) &
    (Hf0 & Hfs & Hfc & Hdsc & Hws & Hwc) & Hd & _).
  destruct (f_sib f) as [|cs ls s ks ms rs] eqn:Es; simpl.
  - eapply wp_py_eq_nil; eauto.
  - simpl in Hsib. destruct Hsib as (Hs & Hls & Hrs).
    simpl in Hws. destruct Hws as (Hs0 & Hsl & Hsr & Hdls & Hwls & Hwrs).
    eapply wp_py_eq_diff_raw; [exact Hnil| |exact Ha|exact Hs| | | | | |exact HQ].
    + clear -Hd. simpl in Hd. set_solver.
    + simpl. by apply child_ok_root.
    + simpl. by apply child_ok_root.
    + simpl. by apply child_ok_root.
    + simpl. by apply child_ok_root.
    + intros (Hl1 & Hr1 & Hl2 & Hr2 & Hst & Hen & Hid & Hm & Hco). simpl in *.
      apply Htw.
      apply root_ref_nil_inv in Hl1; [|done]. apply root_ref_nil_inv in Hr1; [|done].
      apply root_ref_nil_inv in Hl2; [|done]. apply root_ref_nil_inv in Hr2; [|done].
      subst. repeat split. exists s.
      destruct k as [[? ?] ?], ks as [[? ?] ?]. unfold k_start, k_end, k_id in *.
      simpl in *. congruence.
Qed.

(** ** The loop condition *)


Lemma wp_fixup_cond rl t ctx sub n ext (Q : bool -> IntervalTree -> Prop) :
  Rep t (plug ctx sub) n ext -> is_T sub = true ->
  Q (top_red ctx) t ->
  wp (fixup_cond rl (root_ref sub)) Q t.
Proof.
  intros HR HT HQ. destruct sub as [|cn ln a kn mn rn]; [done|]. simpl.
  unfold fixup_cond.
  apply wp_bind. eapply wp_rd_focus; [exact HR|]. simpl.
  destruct ctx as [|f ctx']; simpl.
  - apply wp_bind. unfold py_ne. apply wp_bind. apply wp_py_eq_refl.
    apply wp_ret. simpl. by apply wp_ret.
  - apply wp_bind. unfold py_ne. apply wp_bind.
    simpl in HR. destruct (fill_T f (T cn ln a kn mn rn)) as (l & r & Hf & Hn).
    rewrite Hf in HR.
    eapply wp_py_eq_nil; [exact HR|]. apply wp_ret. simpl.
    apply wp_bind. eapply wp_rd_focus; [exact HR|]. simpl. by apply wp_ret.
Qed.

(** ** Facts on the invariants used by the simulation *)

Lemma twin_tree_bh c k m s : twin_tree c k m s -> c = RED -> bh s = 0%nat.
Proof. intros [a ->] ->. reflexivity. Qed.

Lemma no_twin_of_bh d ctx k m l r :
  match ctx with f :: _ => bh (f_sib f) ≠ 0%nat | [] => True end ->
  no_twin d ctx RED k m l r.
Proof.
  destruct ctx as [|f ctx']; simpl; [done|].
  intros Hbh _ _ _ Htw. apply Hbh. by eapply twin_tree_bh.
Qed.

Lemma no_twin_other_side d ctx c k m l r :
  match ctx with f :: _ => f_dir f ≠ d | [] => True end ->
  no_twin d ctx c k m l r.
Proof. destruct ctx as [|f ctx']; simpl; [done|]. intros H1 H2. done. Qed.

Lemma rb_ctx_fix_ctx ctx h c : rb_ctx ctx h c -> fix_ctx ctx h.
Proof. destruct ctx as [|f ctx']; simpl; [done|]. intuition. Qed.

Lemma rb_paint_black t : rb t -> rb (paint BLACK t).
Proof. destruct t; simpl; [done|]. intuition congruence. Qed.

Lemma bh_paint_black_red t :
  t_color t = RED -> bh (paint BLACK t) = S (bh t).
Proof. destruct t; simpl; [done|]. intros ->. simpl. lia. Qed.

Lemma t_color_fill f t : t_color (fill f t) = f_color f.
Proof. destruct f as [[] ? ? ? ? ?]; reflexivity. Qed.

Lemma fix_inv_recolor fp fg ctx2 sub :
  fix_inv (fp :: fg :: ctx2) sub ->
  f_color fp = RED -> t_color (f_sib fg) = RED ->
  fix_inv ctx2 (recolor fp fg sub).
Proof.
  intros (Hc & Hrb & Hrs & Hbs & Hcs & Hru & Hbu & Hcg & Hctx) Hp Hu.
  rewrite Hp in *. simpl in *.
  assert (Hg : f_color fg = BLACK).
  { destruct (f_color fg); [|done]. destruct Hcg; done. }
  rewrite Hg in Hctx. simpl in Hctx.
  specialize (Hcs eq_refl).
  unfold fix_inv, recolor.
  split; [by rewrite t_color_fill|].
  assert (Hpu : bh (paint BLACK (f_sib fg)) = S (bh sub)).
  { rewrite bh_paint_black_red by done. lia. }
  pose proof (rb_paint_black _ Hru) as Hrpu.
  assert (Hcpu : t_color (paint BLACK (f_sib fg)) = BLACK) by (by destruct (f_sib fg)).
  destruct fp as [[] cp p kp mp sp], fg as [[] cg g kg mg sg]; simpl in *; subst.
  all: split; [repeat split; auto; try lia; try congruence|].
  all: eapply rb_ctx_fix_ctx.
  all: match goal with H : rb_ctx _ ?h _ |- rb_ctx _ ?h' _ =>
         replace h' with h by lia; exact H end.
Qed.

Lemma fixup_top_black ctx sub : top_red ctx = false -> fixup ctx sub = plug ctx sub.
Proof.
  destruct ctx as [|fp [|fg ctx2]]; try reflexivity.
  simpl. intros H. destruct (f_color fp); [done|reflexivity].
Qed.

Lemma twin_tree_color c k m s : twin_tree c k m s -> t_color s = c.
Proof. by intros [a ->]. Qed.

(** ** One pass through the loop body *)

Lemma wp_fixup_body rl t fp fg ctx2 cn ln a kn mn rn n ext
    (Q : ref -> IntervalTree -> Prop) :
  Rep t (plug (fp :: fg :: ctx2) (T cn ln a kn mn rn)) n ext ->
  f_color fp = RED ->
  fix_inv (fp :: fg :: ctx2) (T cn ln a kn mn rn) ->
  (forall t' ctx' sub', Rep t' (plug ctx' sub') n ext -> is_T sub' = true ->
     fixup ctx' sub' = fixup (fp :: fg :: ctx2) (T cn ln a kn mn rn) ->
     (fix_inv ctx' sub' \/ top_red ctx' = false) ->
     Q (root_ref sub') t') ->
  wp (fixup_body rl (Some a)) Q t.
Proof.
  intros HR Hred Hinv HQ.
  pose proof Hinv as (Hc & Hrb & Hrs & Hbs & Hcs & Hru & Hbu & Hcg & Hctx).
  simpl in Hc. subst cn. rewrite Hred in Hcs, Hbu, Hcg, Hctx. simpl in Hbu, Hctx.
  specialize (Hcs eq_refl).
  assert (Hg : f_color fg = BLACK).
  { destruct (f_color fg); [|done]. destruct Hcg; done. }
  rewrite Hg in Hctx. simpl in Hctx.
  assert (Hbh2 : match ctx2 with f :: _ => bh (f_sib f) ≠ 0%nat | [] => True end).
  { destruct ctx2 as [|fgg ctx3]; [done|]. simpl in Hctx. destruct Hctx as (_ & -> & _). lia. }
  destruct fp as [dp cp p kp mp sp], fg as [dg cg g kg mg sg].
  simpl in Hred, Hg, Hrs, Hbs, Hcs, Hru, Hbu. subst cp cg.
  set (sub := T RED ln a kn mn rn) in *.
  set (fp := F dp RED p kp mp sp) in *.
  remember (fixup (fp :: F dg BLACK g kg mg sg :: ctx2) sub) as target eqn:Etarget.
  unfold fixup_body.
  apply wp_bind. eapply (wp_rd_focus _ _ (fp :: F dg BLACK g kg mg sg :: ctx2)); [exact HR|].
  cbn [parent node_of ctx_par f_addr fp].
  apply wp_bind. eapply (wp_rd_frame _ _ fp (F dg BLACK g kg mg sg :: ctx2) sub); [exact HR|].
  cbn [parent frame_node f_dir fp ctx_par f_addr is_None].
  assert (Hpar : parent (frame_node fp (root_ref sub) (Some g)) = Some g)
    by (unfold fp; destruct dp; reflexivity).
  rewrite Hpar. cbn [is_None].
  destruct dg.
  - (* the parent is the left child of the grandparent *)
    set (fg := F L BLACK g kg mg sg) in *.
    apply wp_bind. apply wp_bind.
    eapply (wp_rd_frame _ _ fg ctx2 (fill fp sub)); [exact HR|]. simpl.
    rewrite root_ref_fill. apply wp_py_eq_refl.
    apply wp_bind. eapply (wp_rd_frame _ _ fg ctx2 (fill fp sub)); [exact HR|]. simpl.
    apply wp_bind.
    apply (wp_mono _ (fun b t' => t' = t /\ b = Color_eqb (t_color sg) RED)).
    { destruct (is_Some_root_ref sg) as [u Hu]. rewrite Hu. simpl. rewrite <- Hu.
      apply wp_bind.
      eapply (wp_rd_color_root _ (swap fg (fill fp sub) :: ctx2) sg).
      { rewrite (plug_swap fg). exact HR. }
      by apply wp_ret. }
    intros b t' [-> ->].
    destruct (t_color sg) eqn:Hsg; simpl.
    + (* red uncle *)
      apply wp_bind.
      eapply (wp_wr_frame_color BLACK _ fp (fg :: ctx2) sub); [exact HR|].
      intros t1 HR1.
      apply wp_bind.
      eapply (wp_wr_sib_color BLACK _ fg ctx2 (fill (f_paint BLACK fp) sub)); [exact HR1| |].
      { simpl. by destruct sg. }
      intros t2 HR2.
      apply wp_bind. apply wp_bind.
      eapply (wp_rd_focus _ _ (f_paint BLACK fp :: f_paint_sib BLACK fg :: ctx2)); [exact HR2|].
      cbn [parent node_of ctx_par f_addr f_paint fp].
      eapply (wp_rd_frame _ _ (f_paint BLACK fp) (f_paint_sib BLACK fg :: ctx2) sub); [exact HR2|].
      assert (Hpar' : parent (frame_node (f_paint BLACK fp) (root_ref sub)
                         (ctx_par (f_paint_sib BLACK fg :: ctx2))) = Some g)
        by (unfold fp; destruct dp; reflexivity).
      rewrite Hpar'. cbn [is_None].
      apply wp_bind.
      eapply (wp_wr_frame_color RED _ (f_paint_sib BLACK fg) ctx2 (fill (f_paint BLACK fp) sub));
        [exact HR2|].
      intros t3 HR3. apply wp_ret.
      change (Some g) with (root_ref (recolor fp fg sub)).
      apply (HQ t3 ctx2 (recolor fp fg sub)).
      * exact HR3.
      * reflexivity.
      * rewrite Etarget. simpl. by rewrite Hsg.
      * left. by apply fix_inv_recolor.
    + (* black uncle *)
      apply wp_bind. apply wp_bind.
      eapply (wp_rd_focus _ _ (fp :: fg :: ctx2)); [exact HR|].
      cbn [parent node_of ctx_par f_addr fp].
      eapply (wp_rd_frame _ _ fp (fg :: ctx2) sub); [exact HR|].
      destruct dp; simpl.
      * (* the node is a left child: one rotation *)
        apply wp_bind.
        eapply (wp_py_eq_sib rl _ fp (fg :: ctx2)); [exact HR| |].
        { intros (_ & _ & Htw). apply twin_tree_color in Htw. simpl in Htw. congruence. }
        apply wp_bind. apply wp_ret.
        apply wp_bind. eapply (wp_rd_focus _ _ (fp :: fg :: ctx2)); [exact HR|]. simpl.
        apply wp_bind. apply wp_bind.
        eapply (wp_wr_frame_color BLACK _ fp (fg :: ctx2) sub); [exact HR|].
        intros t1 HR1.
        apply wp_bind.
        eapply (wp_rd_frame _ _ (f_paint BLACK fp) (fg :: ctx2) sub); [exact HR1|]. simpl.
        apply wp_bind.
        eapply (wp_wr_frame_color RED _ fg ctx2 (fill (f_paint BLACK fp) sub)); [exact HR1|].
        intros t2 HR2.
        eapply (wp_right_rotate rl _ ctx2 RED sub p kp mp BLACK sp g kg mg sg); [exact HR2| |].
        { by apply no_twin_of_bh. }
        intros t3 HR3. apply wp_ret.
        change (Some a) with (root_ref sub).
        apply (HQ t3 (F L BLACK p kp (upd_m kp sub (upd (T RED sp g kg mg sg)))
                        (upd (T RED sp g kg mg sg)) :: ctx2) sub).
        -- exact HR3.
        -- reflexivity.
        -- rewrite Etarget. rewrite fixup_top_black by reflexivity.
           simpl. by rewrite Hsg.
        -- by right.
      * (* the node is a right child: two rotations *)
        apply wp_bind. apply wp_py_eq_refl.
        apply wp_bind. apply wp_bind.
        eapply (wp_rd_focus _ _ (fp :: fg :: ctx2)); [exact HR|]. simpl.
        apply wp_bind.
        eapply (wp_left_rotate rl _ (fg :: ctx2) RED sp p kp mp RED ln a kn mn rn); [exact HR| |].
        { by apply no_twin_other_side. }
        intros t1 HR1. apply wp_ret.
        set (p1 := upd (T RED sp p kp mp ln)) in *.
        set (mn1 := upd_m kn p1 rn) in *.
        apply wp_bind.
        eapply (wp_rd_focus _ _ (F L RED a kn mn1 rn :: fg :: ctx2) RED sp p kp (upd_m kp sp ln) ln);
          [exact HR1|]. simpl.
        apply wp_bind. apply wp_bind.
        eapply (wp_wr_focus _ BLACK mn1 _ (fg :: ctx2) RED p1 a kn mn1 rn); [exact HR1|reflexivity|].
        intros t2 HR2.
        apply wp_bind.
        eapply (wp_rd_focus _ _ (fg :: ctx2) BLACK p1 a kn mn1 rn); [exact HR2|]. simpl.
        apply wp_bind.
        eapply (wp_wr_frame_color RED _ fg ctx2 (T BLACK p1 a kn mn1 rn)); [exact HR2|].
        intros t3 HR3.
        eapply (wp_right_rotate rl _ ctx2 RED p1 a kn mn1 BLACK rn g kg mg sg); [exact HR3| |].
        { by apply no_twin_of_bh. }
        intros t4 HR4. apply wp_ret.
        change (Some p) with (root_ref p1).
        apply (HQ t4 (F L BLACK a kn (upd_m kn p1 (upd (T RED rn g kg mg sg)))
                        (upd (T RED rn g kg mg sg)) :: ctx2) p1).
        -- exact HR4.
        -- reflexivity.
        -- rewrite Etarget. rewrite fixup_top_black by reflexivity.
           simpl. by rewrite Hsg.
        -- by right.
  - (* the parent is the right child of the grandparent *)
    set (fg := F R BLACK g kg mg sg) in *.
    apply wp_bind. apply wp_bind.
    eapply (wp_rd_frame _ _ fg ctx2 (fill fp sub)); [exact HR|]. simpl.
    apply (wp_mono _ (fun b t' => t' = t /\ b = false)).
    { destruct dp.
      - eapply (wp_py_eq_sib rl _ fg ctx2 RED sub p kp mp sp); [exact HR| |done].
        intros (Hsub & _). done.
      - eapply (wp_py_eq_sib rl _ fg ctx2 RED sp p kp mp sub); [exact HR| |done].
        intros (_ & Hsub & _). done. }
    intros b t' [-> ->].
    apply wp_bind. eapply (wp_rd_frame _ _ fg ctx2 (fill fp sub)); [exact HR|]. simpl.
    apply wp_bind.
    apply (wp_mono _ (fun b t' => t' = t /\ b = Color_eqb (t_color sg) RED)).
    { destruct (is_Some_root_ref sg) as [u Hu]. rewrite Hu. simpl. rewrite <- Hu.
      apply wp_bind.
      eapply (wp_rd_color_root _ (swap fg (fill fp sub) :: ctx2) sg).
      { rewrite (plug_swap fg). exact HR. }
      by apply wp_ret. }
    intros b t' [-> ->].
    destruct (t_color sg) eqn:Hsg; simpl.
    + (* red uncle *)
      apply wp_bind.
      eapply (wp_wr_frame_color BLACK _ fp (fg :: ctx2) sub); [exact HR|].
      intros t1 HR1.
      apply wp_bind.
      eapply (wp_wr_sib_color BLACK _ fg ctx2 (fill (f_paint BLACK fp) sub)); [exact HR1| |].
      { simpl. by destruct sg. }
      intros t2 HR2.
      apply wp_bind. apply wp_bind.
      eapply (wp_rd_focus _ _ (f_paint BLACK fp :: f_paint_sib BLACK fg :: ctx2)); [exact HR2|].
      cbn [parent node_of ctx_par f_addr f_paint fp].
      eapply (wp_rd_frame _ _ (f_paint BLACK fp) (f_paint_sib BLACK fg :: ctx2) sub); [exact HR2|].
      assert (Hpar' : parent (frame_node (f_paint BLACK fp) (root_ref sub)
                         (ctx_par (f_paint_sib BLACK fg :: ctx2))) = Some g)
        by (unfold fp; destruct dp; reflexivity).
      rewrite Hpar'. cbn [is_None].
      apply wp_bind.
      eapply (wp_wr_frame_color RED _ (f_paint_sib BLACK fg) ctx2 (fill (f_paint BLACK fp) sub));
        [exact HR2|].
      intros t3 HR3. apply wp_ret.
      change (Some g) with (root_ref (recolor fp fg sub)).
      apply (HQ t3 ctx2 (recolor fp fg sub)).
      * exact HR3.
      * reflexivity.
      * rewrite Etarget. simpl. by rewrite Hsg.
      * left. by apply fix_inv_recolor.
    + (* black uncle *)
      apply wp_bind. apply wp_bind.
      eapply (wp_rd_focus _ _ (fp :: fg :: ctx2)); [exact HR|].
      cbn [parent node_of ctx_par f_addr fp].
      eapply (wp_rd_frame _ _ fp (fg :: ctx2) sub); [exact HR|].
      destruct dp; simpl.
      * (* the node is a left child: two rotations *)
        apply wp_bind. apply wp_py_eq_refl.
        apply wp_bind. apply wp_bind.
        eapply (wp_rd_focus _ _ (fp :: fg :: ctx2)); [exact HR|]. simpl.
        apply wp_bind.
        eapply (wp_right_rotate rl _ (fg :: ctx2) RED ln a kn mn RED rn p kp mp sp); [exact HR| |].
        { by apply no_twin_other_side. }
        intros t1 HR1. apply wp_ret.
        set (p1 := upd (T RED rn p kp mp sp)) in *.
        set (mn1 := upd_m kn ln p1) in *.
        apply wp_bind.
        eapply (wp_rd_focus _ _ (F R RED a kn mn1 ln :: fg :: ctx2) RED rn p kp (upd_m kp rn sp) sp);
          [exact HR1|]. simpl.
        apply wp_bind. apply wp_bind.
        eapply (wp_wr_focus _ BLACK mn1 _ (fg :: ctx2) RED ln a kn mn1 p1); [exact HR1|reflexivity|].
        intros t2 HR2.
        apply wp_bind.
        eapply (wp_rd_focus _ _ (fg :: ctx2) BLACK ln a kn mn1 p1); [exact HR2|]. simpl.
        apply wp_bind.
        eapply (wp_wr_frame_color RED _ fg ctx2 (T BLACK ln a kn mn1 p1)); [exact HR2|].
        intros t3 HR3.
        eapply (wp_left_rotate rl _ ctx2 RED sg g kg mg BLACK ln a kn mn1 p1); [exact HR3| |].
        { by apply no_twin_of_bh. }
        intros t4 HR4. apply wp_ret.
        change (Some p) with (root_ref p1).
        apply (HQ t4 (F R BLACK a kn (upd_m kn (upd (T RED sg g kg mg ln)) p1)
                        (upd (T RED sg g kg mg ln)) :: ctx2) p1).
        -- exact HR4.
        -- reflexivity.
        -- rewrite Etarget. rewrite fixup_top_black by reflexivity.
           simpl. by rewrite Hsg.
        -- by right.
      * (* the node is a right child: one rotation *)
        apply wp_bind.
        eapply (wp_py_eq_sib rl _ fp (fg :: ctx2)); [exact HR| |].
        { intros (_ & _ & Htw). apply twin_tree_color in Htw. simpl in Htw. congruence. }
        apply wp_bind. apply wp_ret.
        apply wp_bind. eapply (wp_rd_focus _ _ (fp :: fg :: ctx2)); [exact HR|]. simpl.
        apply wp_bind. apply wp_bind.
        eapply (wp_wr_frame_color BLACK _ fp (fg :: ctx2) sub); [exact HR|].
        intros t1 HR1.
        apply wp_bind.
        eapply (wp_rd_frame _ _ (f_paint BLACK fp) (fg :: ctx2) sub); [exact HR1|]. simpl.
        apply wp_bind.
        eapply (wp_wr_frame_color RED _ fg ctx2 (fill (f_paint BLACK fp) sub)); [exact HR1|].
        intros t2 HR2.
        eapply (wp_left_rotate rl _ ctx2 RED sg g kg mg BLACK sp p kp mp sub); [exact HR2| |].
        { by apply no_twin_of_bh. }
        intros t3 HR3. apply wp_ret.
        change (Some a) with (root_ref sub).
        apply (HQ t3 (F R BLACK p kp (upd_m kp (upd (T RED sg g kg mg sp)) sub)
                        (upd (T RED sg g kg mg sp)) :: ctx2) sub).
        -- exact HR3.
        -- reflexivity.
        -- rewrite Etarget. rewrite fixup_top_black by reflexivity.
           simpl. by rewrite Hsg.
        -- by right.
Qed.

(** ** The loop and [_insert_fixup] *)

Lemma wp_fixup_loop rl fuel n ext (Q : unit -> IntervalTree -> Prop) :
  forall t ctx sub,
  Rep t (plug ctx sub) n ext -> is_T sub = true ->
  (fix_inv ctx sub \/ top_red ctx = false) ->
  (forall t', Rep t' (fixup ctx sub) n ext -> Q tt t') ->
  wp (fixup_loop rl fuel (root_ref sub)) Q t.
Proof.
  induction fuel as [|fuel IH]; intros t ctx sub HR HT Hinv HQ.
  - simpl. apply wp_bind. eapply wp_fixup_cond; [exact HR|exact HT|].
    destruct (top_red ctx) eqn:Htop; [apply wp_out_of_fuel|].
    apply wp_ret. apply HQ. by rewrite fixup_top_black.
  - simpl. apply wp_bind. eapply wp_fixup_cond; [exact HR|exact HT|].
    destruct (top_red ctx) eqn:Htop.
    2: { apply wp_ret. apply HQ. by rewrite fixup_top_black. }
    destruct Hinv as [Hinv|Hinv]; [|congruence].
    destruct ctx as [|fp rest]; [done|]. simpl in Htop.
    apply Color_eqb_eq in Htop.
    destruct rest as [|fg ctx2].
    { destruct Hinv as (_ & _ & _ & _ & _ & Hbad). simpl in Hbad. congruence. }
    destruct sub as [|cn ln a kn mn rn]; [done|].
    apply wp_bind. eapply wp_fixup_body; [exact HR|exact Htop|exact Hinv|].
    intros t' ctx' sub' HR' HT' Hfix Hinv'.
    eapply IH; [exact HR'|exact HT'|exact Hinv'|].
    intros t'' HR''. apply HQ. by rewrite <- Hfix.
Qed.

Lemma is_T_fill f t : is_T (fill f t) = true.
Proof. by destruct f as [[] ? ? ? ? ?]. Qed.

Lemma is_T_plug ctx t : is_T t = true -> is_T (plug ctx t) = true.
Proof.
  revert t. induction ctx as [|f ctx IH]; intros t Ht; simpl; [done|].
  apply IH, is_T_fill.
Qed.

Lemma is_T_upd t : is_T (upd t) = is_T t.
Proof. by destruct t. Qed.

Lemma is_T_rotL t : is_T t = true -> is_T (rotL t) = true.
Proof. destruct t as [|c l a k m [|c' l' a' k' m' r']]; simpl; done. Qed.

Lemma is_T_rotR t : is_T t = true -> is_T (rotR t) = true.
Proof. destruct t as [|c [|c' l' a' k' m' r'] a k m r]; simpl; done. Qed.

Lemma is_T_fixup ctx sub : is_T sub = true -> is_T (fixup ctx sub) = true.
Proof.
  revert sub. induction ctx as [ctx IH] using (induction_ltof1 _ (@length _)).
  unfold ltof in IH. intros sub Ht.
  destruct ctx as [|fp [|fg ctx2]]; simpl; [done|apply is_T_fill|].
  destruct (f_color fp).
  - destruct (t_color (f_sib fg)).
    + apply IH; [simpl; lia|]. unfold recolor. apply is_T_fill.
    + apply is_T_plug. unfold rotate_fix.
      destruct (f_dir fg); [apply is_T_rotR|apply is_T_rotL]; apply is_T_fill.
  - apply is_T_plug, is_T_fill.
Qed.

Lemma wp_insert_fixup rl fuel t ctx sub n ext (Q : unit -> IntervalTree -> Prop) :
  Rep t (plug ctx sub) n ext -> is_T sub = true ->
  fix_inv ctx sub ->
  (forall t', Rep t' (paint BLACK (fixup ctx sub)) n ext -> Q tt t') ->
  wp (_insert_fixup rl fuel (root_ref sub)) Q t.
Proof.
  intros HR HT Hinv HQ. unfold _insert_fixup.
  destruct (is_Some_root_ref sub) as [a Ha]. rewrite Ha. simpl. rewrite <- Ha.
  apply wp_bind. eapply wp_fixup_loop; [exact HR|exact HT|by left|].
  intros t1 HR1.
  apply wp_bind. eapply wp_get_root; [exact HR1|].
  pose proof (is_T_fixup ctx sub HT) as HT1.
  destruct (fixup ctx sub) as [|c l r k m rr] eqn:Efix; [done|]. simpl.
  eapply (wp_wr_focus _ BLACK m _ []); [exact HR1|reflexivity|]. exact HQ.
Qed.


(** * [insert] *)

(** ** The new node before it is linked *)

Lemma wp_rd_ext {A} (fn : IntervalNode -> A) t tr n ext a nd Q :
  Rep t tr n ext -> ext !! a = Some nd ->
  Q (fn nd) t ->
  wp (rd fn (Some a)) Q t.
Proof.
  intros (_ & _ & _ & _ & _ & _ & Hext) Ha HQ.
  destruct (Hext a nd Ha) as (Hn & _). unfold wp, rd, node_at. by rewrite Hn.
Qed.

Lemma wp_wr_ext (u : IntervalNode -> IntervalNode) t tr n ext a nd
    (Q : unit -> IntervalTree -> Prop) :
  Rep t tr n ext -> ext !! a = Some nd ->
  (forall t', Rep t' tr n (<[a := u nd]> ext) -> Q tt t') ->
  wp (wr u (Some a)) Q t.
Proof.
  intros (Hnil & Hrep & Hwf & Hlt & Hroot & Hsz & Hext) Ha HQ.
  destruct (Hext a nd Ha) as (Hn & Hnot & Ha0 & Halt).
  unfold wp, wr, node_at. rewrite Hn. simpl. apply HQ.
  unfold Rep. simpl. split; [by rewrite lookup_insert_ne|].
  split.
  { eapply rep_frame; [|exact Hrep]. intros b Hb. rewrite lookup_insert_ne; [done|].
    intros ->. done. }
  do 4 (split; [done|]).
  intros b nd' Hb. destruct (decide (a = b)) as [->|Hne].
  - rewrite lookup_insert_eq in Hb. injection Hb as <-.
    by rewrite lookup_insert_eq.
  - rewrite lookup_insert_ne in Hb by done. rewrite lookup_insert_ne by done.
    by apply Hext.
Qed.

Lemma wp_alloc nd t tr n ext (Q : ref -> IntervalTree -> Prop) :
  Rep t tr n ext ->
  (forall t', Rep t' tr n (<[next t := nd]> ext) -> ext !! next t = None ->
     Q (Some (next t)) t') ->
  wp (alloc nd) Q t.
Proof.
  intros (Hnil & Hrep & Hwf & Hlt & Hroot & (Hsz & Hpos) & Hext) HQ.
  unfold wp, alloc.
  assert (Hfresh : ext !! next t = None).
  { destruct (ext !! next t) as [nd'|] eqn:E; [|done].
    destruct (Hext _ _ E) as (_ & _ & _ & Hbad). lia. }
  apply HQ; [|exact Hfresh].
  unfold Rep. simpl. split; [rewrite lookup_insert_ne; [done|unfold nil in *; lia]|].
  split.
  { eapply rep_frame; [|exact Hrep]. intros b Hb. rewrite lookup_insert_ne; [done|].
    apply Hlt in Hb. lia. }
  split; [done|]. split; [intros b Hb; apply Hlt in Hb; lia|].
  split; [done|]. split; [split; [done|lia]|].
  intros b nd' Hb. destruct (decide (next t = b)) as [<-|Hne].
  - rewrite lookup_insert_eq in Hb. injection Hb as <-.
    rewrite lookup_insert_eq. repeat split; [|unfold nil in *; lia|lia].
    intros Hin. apply Hlt in Hin. lia.
  - rewrite lookup_insert_ne in Hb by done. rewrite lookup_insert_ne by done.
    destruct (Hext b nd' Hb) as (? & ? & ? & ?). repeat split; auto; lia.
Qed.

(** ** The descent *)

Lemma wp_descend rl fuel n ext a nd (Q : ref -> IntervalTree -> Prop) :
  ext !! a = Some nd ->
  forall sub ctx t,
  Rep t (plug ctx sub) n ext ->
  (forall t', Rep t' (plug (descend_abs (start nd) sub ctx) E) n ext ->
     Q (ctx_par (descend_abs (start nd) sub ctx)) t') ->
  wp (descend rl fuel (Some a) (root_ref sub) (ctx_par ctx)) Q t.
Proof.
  intros Ha. induction fuel as [|fuel IH]; intros sub ctx t HR HQ.
  - simpl. apply wp_bind. eapply wp_is_real; [exact HR|].
    destruct sub; simpl; [|apply wp_out_of_fuel]. apply wp_ret. by apply HQ.
  - simpl. apply wp_bind. eapply wp_is_real; [exact HR|].
    destruct sub as [|c l b k m r]; simpl.
    { apply wp_ret. by apply HQ. }
    apply wp_bind.
    eapply (wp_update_max_end rl _ ctx (T c l b k m r)); [exact HR|].
    intros t1 HR1. simpl in HR1.
    apply wp_bind. eapply wp_rd_ext; [exact HR1|exact Ha|].
    apply wp_bind. eapply wp_rd_focus; [exact HR1|]. simpl.
    apply wp_bind. simpl in HQ.
    destruct (start nd <=? k_start k) eqn:Hcmp.
    + eapply wp_rd_focus; [exact HR1|]. simpl.
      apply (IH l (F L c b k (upd_m k l r) r :: ctx)); [exact HR1|exact HQ].
    + eapply wp_rd_focus; [exact HR1|]. simpl.
      apply (IH r (F R c b k (upd_m k l r) l :: ctx)); [exact HR1|exact HQ].
Qed.

Lemma descend_path_ok s sub : forall ctx,
  path_ok s ctx -> path_ok s (descend_abs s sub ctx).
Proof.
  induction sub as [|c l IHl b k m r IHr]; intros ctx H; simpl; [done|].
  destruct (s <=? k_start k) eqn:Hcmp.
  - apply IHl. constructor; [simpl; by rewrite Hcmp|done].
  - apply IHr. constructor; [simpl; by rewrite Hcmp|done].
Qed.

(** ** Linking the new node *)

Lemma wp_link_new t f ctx a k m n ext (Q : unit -> IntervalTree -> Prop) :
  Rep t (plug (f :: ctx) E) n ext ->
  ext !! a = Some (node_of RED E k m E (Some (f_addr f))) ->
  (forall t', Rep t' (plug (f :: ctx) (T RED E a k m E)) n (delete a ext) -> Q tt t') ->
  wp (wr (match f_dir f with
          | L => set_left (Some a)
          | R => set_right (Some a)
          end) (Some (f_addr f))) Q t.
Proof.
  intros HR Ha HQ. apply Rep_plug in HR.
  destruct HR as (Hnil & _ & (Hf & Hsib & Hc) & _ & Hwc & _ & Hlt & Hroot & Hsz & Hext).
  pose proof Hwc as (Hf0 & Hfs & Hfc & Hdsc & Hws & Hwc').
  destruct (Hext a _ Ha) as (Hna & Hnot & Ha0 & Halt).
  simpl in Hnot.
  assert (Hap : a ≠ f_addr f) by (clear -Hnot; set_solver).
  unfold wp, wr, node_at. rewrite Hf. simpl. apply HQ.
  apply Rep_plug. simpl.
  assert (Hrec : match f_dir f with
                 | L => set_left (Some a)
                 | R => set_right (Some a)
                 end (frame_node f (Some nil) (ctx_par ctx)) =
                 frame_node f (Some a) (ctx_par ctx)).
  { unfold frame_node. destruct (f_dir f); reflexivity. }
  rewrite Hrec.
  split; [by rewrite lookup_insert_ne|].
  split; [split; [by rewrite lookup_insert_ne|done]|].
  split; [split; [by rewrite lookup_insert_eq|split]|].
  { eapply rep_frame; [|exact Hsib]. intros b Hb. rewrite lookup_insert_ne; [done|].
    intros <-. done. }
  { eapply repc_frame; [|exact Hc]. intros b Hb. rewrite lookup_insert_ne; [done|].
    intros <-. done. }
  split; [repeat split; auto; set_solver|].
  split; [done|].
  split; [clear -Hnot; set_solver|].
  split.
  { intros b Hb. apply elem_of_union in Hb as [Hb|Hb]; [|apply Hlt; set_solver].
    assert (b = a) as -> by (clear -Hb; set_solver). done. }
  split; [done|]. split; [done|].
  intros b nd Hb. apply lookup_delete_Some in Hb as [Hne Hb].
  destruct (Hext b nd Hb) as (H1 & H2 & H3 & H4). simpl in H2.
  split; [|split; [clear -H2 Hne; set_solver|done]].
  rewrite lookup_insert_ne; [done|]. clear -H2. set_solver.
Qed.

Lemma wp_link_root t a k m n ext (Q : unit -> IntervalTree -> Prop) :
  Rep t E n ext ->
  ext !! a = Some (node_of RED E k m E (Some nil)) ->
  (forall t', Rep t' (T RED E a k m E) n (delete a ext) -> Q tt t') ->
  wp (set_root (Some a)) Q t.
Proof.
  intros (Hnil & _ & _ & _ & _ & Hsz & Hext) Ha HQ.
  destruct (Hext a _ Ha) as (Hna & Hnot & Ha0 & Halt).
  unfold wp, set_root. apply HQ. unfold Rep. simpl.
  split; [done|]. split; [done|].
  split; [repeat split; auto; set_solver|].
  split; [intros b Hb; assert (b = a) as -> by (clear -Hb; set_solver); done|].
  split; [done|]. split; [done|].
  intros b nd Hb. apply lookup_delete_Some in Hb as [Hne Hb].
  destruct (Hext b nd Hb) as (H1 & H2 & H3 & H4).
  repeat split; auto. clear -Hne. set_solver.
Qed.

(** ** The cached maxima of the ancestors *)

Lemma fill_f_upd f sub : fill (f_upd f sub) sub = upd (fill f sub).
Proof. destruct f as [[] c a k m s]; reflexivity. Qed.

Lemma wp_update_ancestors_nil rl fuel t tr n ext (Q : unit -> IntervalTree -> Prop) :
  Rep t tr n ext -> Q tt t -> wp (update_ancestors rl fuel (Some nil)) Q t.
Proof.
  intros HR HQ.
  destruct fuel; simpl; (apply wp_bind; unfold is_real; simpl; unfold py_ne;
    apply wp_bind; apply wp_py_eq_refl; apply wp_ret; simpl; by apply wp_ret).
Qed.

Lemma wp_update_ancestors rl fuel n ext (Q : unit -> IntervalTree -> Prop) :
  forall ctx sub t,
  Rep t (plug ctx sub) n ext -> is_T sub = true ->
  (forall t', Rep t' (plug (refresh_ctx ctx (upd sub)) (upd sub)) n ext -> Q tt t') ->
  wp (update_ancestors rl fuel (root_ref sub)) Q t.
Proof.
  induction fuel as [|fuel IH]; intros ctx sub t HR HT HQ.
  - simpl. apply wp_bind. eapply wp_is_real; [exact HR|]. rewrite HT.
    apply wp_out_of_fuel.
  - simpl. apply wp_bind. eapply wp_is_real; [exact HR|]. rewrite HT.
    apply wp_bind. eapply wp_update_max_end; [exact HR|].
    intros t1 HR1.
    apply wp_bind.
    destruct sub as [|c l a k m r]; [done|].
    eapply wp_rd_focus; [exact HR1|]. simpl.
    destruct ctx as [|f ctx'].
    + simpl. eapply wp_update_ancestors_nil; [exact HR1|]. by apply HQ.
    + simpl ctx_par. rewrite <- (root_ref_fill f (upd (T c l a k m r))).
      apply (IH ctx' (fill f (upd (T c l a k m r)))); [exact HR1|apply is_T_fill|].
      intros t2 HR2. apply HQ. simpl refresh_ctx. simpl plug.
      rewrite fill_f_upd. exact HR2.
Qed.

(** ** The whole of [insert] *)

Lemma wp_descend_root rl fuel t tr n ext a nd (Q : ref -> IntervalTree -> Prop) :
  ext !! a = Some nd ->
  Rep t tr n ext ->
  (forall t', Rep t' (plug (descend_abs (start nd) tr []) E) n ext ->
     Q (ctx_par (descend_abs (start nd) tr [])) t') ->
  wp (descend rl fuel (Some a) (root_of tr) (Some nil)) Q t.
Proof.
  intros Ha HR HQ. destruct tr as [|c l b k m r].
  - simpl. destruct fuel; simpl; (apply wp_bind; apply wp_ret; apply wp_ret; by apply HQ).
  - apply (wp_descend rl fuel n ext a nd Q Ha (T c l b k m r) []); [exact HR|exact HQ].
Qed.

Lemma wp_incr_size t tr n ext (Q : unit -> IntervalTree -> Prop) :
  Rep t tr n ext ->
  (forall t', Rep t' tr (n + 1) ext -> Q tt t') ->
  wp incr_size Q t.
Proof.
  intros (Hnil & Hrep & Hwf & Hlt & Hroot & (Hsz & Hpos) & Hext) HQ.
  unfold wp, incr_size. apply HQ. unfold Rep. simpl.
  do 5 (split; [done|]). split; [split; [lia|done]|done].
Qed.

Lemma wp_insert rl fuel t tr n s e i (Q : unit -> IntervalTree -> Prop) :
  Rep t tr n ∅ ->
  fix_inv (refresh_ctx (descend_abs s tr []) (leaf (next t) (s, e, i)))
          (leaf (next t) (s, e, i)) ->
  (forall t', Rep t' (ins tr (next t) (s, e, i)) (n + 1) ∅ -> Q tt t') ->
  wp (insert rl fuel s e i) Q t.
Proof.
  intros HR Hinv HQ. unfold insert.
  set (a := next t) in *. set (k := (s, e, i)) in *.
  apply wp_bind. eapply wp_alloc; [exact HR|]. fold a. intros t1 HR1 _.
  apply wp_bind. eapply wp_wr_ext; [exact HR1|apply lookup_insert_eq|].
  clear t1 HR1. intros t1 HR1. rewrite insert_insert_eq in HR1.
  apply wp_bind. eapply wp_wr_ext; [exact HR1|apply lookup_insert_eq|].
  clear t1 HR1. intros t1 HR1. rewrite insert_insert_eq in HR1.
  apply wp_bind. eapply wp_wr_ext; [exact HR1|apply lookup_insert_eq|].
  clear t1 HR1. intros t1 HR1. rewrite insert_insert_eq in HR1.
  assert (Hnew : set_parent (Some nil) (set_right (Some nil) (set_left (Some nil)
                   (new_IntervalNode s e i e RED))) = node_of RED E k e E (Some nil)).
  { unfold new_IntervalNode, node_of. simpl. by destruct (e =? 0). }
  rewrite Hnew in HR1. clear Hnew.
  apply wp_bind. eapply wp_get_root; [exact HR1|].
  apply wp_bind.
  eapply (wp_descend_root rl fuel _ tr n _ a); [apply lookup_insert_eq|exact HR1|].
  simpl start. change (k_start k) with s.
  set (ctx := descend_abs s tr []) in *.
  assert (Hpath : path_ok s ctx) by (apply descend_path_ok; constructor).
  clear t1 HR1. intros t1 HR1.
  apply wp_bind. eapply wp_wr_ext; [exact HR1|apply lookup_insert_eq|].
  clear t1 HR1. intros t1 HR1. rewrite insert_insert_eq in HR1.
  change (set_parent (ctx_par ctx) (node_of RED E k e E (Some nil)))
    with (node_of RED E k e E (ctx_par ctx)) in HR1.
  assert (Hlinked : wp
    (at_root <- (b <- py_eq rl (ctx_par ctx) (Some nil);;
                 if b then ret true else ret (is_None (ctx_par ctx)));;
     if at_root then set_root (Some a)
     else
       ns <- rd start (Some a);;
       ps <- rd start (ctx_par ctx);;
       if ns <=? ps then wr (set_left (Some a)) (ctx_par ctx)
       else wr (set_right (Some a)) (ctx_par ctx))
    (fun _ t' => Rep t' (plug ctx (leaf a k)) n ∅) t1).
  { destruct ctx as [|f ctx'] eqn:Ectx.
    - simpl. apply wp_bind. apply wp_bind. apply wp_py_eq_refl. apply wp_ret.
      eapply wp_link_root; [exact HR1|apply lookup_insert_eq|].
      intros t' HR'. rewrite delete_insert_eq, delete_empty in HR'. exact HR'.
    - simpl ctx_par. apply wp_bind. apply wp_bind.
      destruct (fill_T f E) as (l & r & Hf & _).
      assert (HR1' : Rep t1 (plug ctx' (T (f_color f) l (f_addr f) (f_key f) (f_max f) r))
                       n (<[a:=node_of RED E k e E (Some (f_addr f))]> ∅)).
      { rewrite <- Hf. exact HR1. }
      eapply wp_py_eq_nil; [exact HR1'|]. apply wp_ret. simpl.
      apply wp_bind. eapply wp_rd_ext; [exact HR1|apply lookup_insert_eq|]. simpl.
      apply wp_bind. eapply wp_rd_focus; [exact HR1'|]. simpl.
      change (k_start k) with s.
      apply Forall_cons in Hpath as [Hdir _].
      assert (Hw : (if s <=? k_start (f_key f)
                    then wr (set_left (Some a)) (Some (f_addr f))
                    else wr (set_right (Some a)) (Some (f_addr f))) =
                   wr (match f_dir f with
                       | L => set_left (Some a)
                       | R => set_right (Some a)
                       end) (Some (f_addr f))).
      { rewrite Hdir. by destruct (s <=? k_start (f_key f)). }
      rewrite Hw.
      eapply (wp_link_new _ f ctx' a k e); [exact HR1|apply lookup_insert_eq|].
      intros t' HR'. rewrite delete_insert_eq, delete_empty in HR'. exact HR'. }
  apply wp_bind_assoc. apply wp_bind. eapply wp_mono; [exact Hlinked|]. clear HR1 Hlinked.
  clear t1. intros [] t1 HR1.
  apply wp_bind.
  eapply (wp_update_ancestors rl fuel n ∅ _ ctx (leaf a k)); [exact HR1|reflexivity|].
  change (upd (leaf a k)) with (leaf a k).
  clear t1 HR1. intros t1 HR1.
  apply wp_bind.
  eapply (wp_insert_fixup rl fuel _ (refresh_ctx ctx (leaf a k)) (leaf a k));
    [exact HR1|reflexivity|exact Hinv|].
  clear t1 HR1. intros t1 HR1.
  eapply wp_incr_size; [exact HR1|]. exact HQ.
Qed.


(** * Invariants of insertion, on the functional picture *)

(** ** Red-black shape *)

Lemma bh_fill f t :
  bh (f_sib f) = bh t -> bh (fill f t) = (bh t + black (f_color f))%nat.
Proof. destruct f as [[] c a k m s]; simpl; lia. Qed.

Lemma rb_fill f t :
  rb (fill f t) <->
  rb t /\ rb (f_sib f) /\ bh (f_sib f) = bh t /\
  (f_color f = RED -> t_color t = BLACK /\ t_color (f_sib f) = BLACK).
Proof. destruct f as [[] c a k m s]; simpl; intuition. Qed.

Lemma rb_plug ctx : forall t,
  rbt (plug ctx t) <-> rb t /\ rb_ctx ctx (bh t) (t_color t).
Proof.
  unfold rbt. induction ctx as [|f ctx IH]; intros t; simpl.
  - intuition.
  - rewrite IH, rb_fill, t_color_fill. split.
    + intros ((Ht & Hs & Hb & Hc) & Hctx). rewrite bh_fill in Hctx by done. intuition.
    + intros (Ht & Hs & Hb & Hc & Hctx). rewrite bh_fill by done. intuition.
Qed.

Lemma rb_ctx_descend s : forall sub ctx,
  rb sub -> rb_ctx ctx (bh sub) (t_color sub) ->
  rb_ctx (descend_abs s sub ctx) 0 BLACK.
Proof.
  induction sub as [|c l IHl b k m r IHr]; intros ctx Hrb Hctx; simpl in *; [done|].
  destruct Hrb as (Hl & Hr & Hb & Hc).
  destruct (s <=? k_start k).
  - apply IHl; [done|]. simpl. split; [done|]. split; [lia|]. split; [exact Hc|done].
  - apply IHr; [done|]. simpl. rewrite <- Hb. split; [done|]. split; [lia|].
    split; [intros Hred; destruct (Hc Hred); done|done].
Qed.

Lemma rb_ctx_refresh ctx : forall sub h c,
  rb_ctx (refresh_ctx ctx sub) h c <-> rb_ctx ctx h c.
Proof.
  induction ctx as [|f ctx IH]; intros sub h c; simpl; [done|].
  rewrite IH. done.
Qed.

Lemma fix_inv_leaf s tr a k :
  rbt tr -> fix_inv (refresh_ctx (descend_abs s tr []) (leaf a k)) (leaf a k).
Proof.
  intros [Hrb Hc]. unfold fix_inv. simpl.
  split; [done|]. split; [done|].
  eapply rb_ctx_fix_ctx. apply rb_ctx_refresh.
  apply rb_ctx_descend; [done|]. simpl. done.
Qed.

Lemma paint_black_id t : t_color t = BLACK -> paint BLACK t = t.
Proof. destruct t; simpl; [done|]. by intros ->. Qed.

Lemma rotate_fix_rb fp fg sub :
  t_color sub = RED -> rb sub ->
  f_color fp = RED -> rb (f_sib fp) -> bh (f_sib fp) = bh sub -> t_color (f_sib fp) = BLACK ->
  rb (f_sib fg) -> bh (f_sib fg) = bh sub -> t_color (f_sib fg) = BLACK ->
  rb (rotate_fix fp fg sub) /\ t_color (rotate_fix fp fg sub) = BLACK /\
  bh (rotate_fix fp fg sub) = S (bh sub).
Proof.
  intros Hc Hrb Hp Hrs Hbs Hcs Hru Hbu Hcu.
  destruct sub as [|cn ln a kn mn rn]; [done|]. simpl in Hc. subst cn.
  destruct Hrb as (Hrl & Hrr & Hbl & Hcl). destruct (Hcl eq_refl) as [Hcl1 Hcl2].
  destruct fp as [dp cp p kp mp sp], fg as [dg cg g kg mg sg]. simpl in *. subst cp.
  unfold rotate_fix. simpl.
  destruct dg, dp; simpl; repeat split; auto; try lia; try congruence.
Qed.

Lemma fixup_rb : forall ctx sub,
  fix_inv ctx sub -> rbt (paint BLACK (fixup ctx sub)).
Proof.
  intros ctx. induction ctx as [ctx IH] using (induction_ltof1 _ (@length _)).
  unfold ltof in IH. intros sub (Hc & Hrb & Hctx).
  destruct ctx as [|fp [|fg ctx2]].
  - simpl. split; [by apply rb_paint_black|]. destruct sub; done.
  - simpl in *. destruct Hctx as (Hrs & Hbs & Hcs & Hroot).
    rewrite paint_black_id by (by rewrite t_color_fill).
    split; [|by rewrite t_color_fill].
    apply rb_fill. rewrite Hroot. repeat split; auto; done.
  - simpl fixup. destruct (f_color fp) eqn:Hp.
    + destruct (t_color (f_sib fg)) eqn:Hu.
      * apply IH; [simpl; lia|]. apply fix_inv_recolor; [|done|done].
        split; [done|]. split; [done|]. exact Hctx.
      * simpl in Hctx. rewrite Hp in Hctx. simpl in Hctx.
        destruct Hctx as (Hrs & Hbs & Hcs & Hru & Hbu & Hcg & Hctx2).
        assert (Hg : f_color fg = BLACK).
        { destruct (f_color fg); [|done]. destruct Hcg; done. }
        rewrite Hg in Hctx2. simpl in Hctx2.
        destruct (rotate_fix_rb fp fg sub) as (H1 & H2 & H3); auto; try lia.
        assert (Hrbt : rbt (plug ctx2 (rotate_fix fp fg sub))).
        { apply rb_plug. split; [done|]. rewrite H2, H3.
          replace (S (bh sub)) with (bh sub + 0 + 1)%nat by lia. done. }
        rewrite paint_black_id by apply Hrbt. exact Hrbt.
    + assert (Hrbt : rbt (plug (fp :: fg :: ctx2) sub)).
      { apply rb_plug. split; [done|]. rewrite Hc.
        simpl in *. rewrite Hp in *. intuition. }
      rewrite paint_black_id by apply Hrbt. exact Hrbt.
Qed.

Lemma ins_rbt tr a k : rbt tr -> rbt (ins tr a k).
Proof. intros H. unfold ins. apply fixup_rb. by apply fix_inv_leaf. Qed.

(** ** The stored intervals *)

Lemma elems_fill f t :
  elems (fill f t) =
  match f_dir f with
  | L => elems t ++ f_key f :: elems (f_sib f)
  | R => elems (f_sib f) ++ f_key f :: elems t
  end.
Proof. by destruct f as [[] c a k m s]. Qed.

Lemma elems_plug ctx : forall t,
  elems (plug ctx t) = ctx_before ctx ++ elems t ++ ctx_after ctx.
Proof.
  induction ctx as [|f ctx IH]; intros t; simpl.
  - by rewrite app_nil_r.
  - rewrite IH, elems_fill. destruct (f_dir f); simpl.
    + by rewrite app_nil_r, <- !app_assoc.
    + by rewrite <- !app_assoc.
Qed.

Lemma elems_upd t : elems (upd t) = elems t.
Proof. by destruct t. Qed.

Lemma elems_paint c t : elems (paint c t) = elems t.
Proof. by destruct t. Qed.

Lemma elems_rotL t : elems (rotL t) = elems t.
Proof.
  destruct t as [|c l a k m [|c' l' a' k' m' r']]; simpl; try done.
  by rewrite <- app_assoc.
Qed.

Lemma elems_rotR t : elems (rotR t) = elems t.
Proof.
  destruct t as [|c [|c' l' a' k' m' r'] a k m r]; simpl; try done.
  by rewrite <- app_assoc.
Qed.

Lemma elems_plug_congr ctx t t' :
  elems t = elems t' -> elems (plug ctx t) = elems (plug ctx t').
Proof. intros H. by rewrite !elems_plug, H. Qed.

Lemma elems_fill_congr f t t' :
  elems t = elems t' -> elems (fill f t) = elems (fill f t').
Proof. intros H. by rewrite !elems_fill, H. Qed.

Lemma elems_recolor fp fg sub :
  elems (recolor fp fg sub) = elems (fill fg (fill fp sub)).
Proof.
  unfold recolor. rewrite !elems_fill. simpl. by rewrite elems_paint.
Qed.

Lemma elems_rotate_fix fp fg sub :
  elems (rotate_fix fp fg sub) = elems (fill fg (fill fp sub)).
Proof.
  unfold rotate_fix.
  destruct (f_dir fg) eqn:Hg; [rewrite elems_rotR|rewrite elems_rotL];
    rewrite !(elems_fill _ (paint _ _)), (elems_fill fg); simpl; rewrite Hg, elems_paint;
    destruct (f_dir fp); by rewrite ?elems_rotL, ?elems_rotR.
Qed.

Lemma elems_fixup : forall ctx sub, elems (fixup ctx sub) = elems (plug ctx sub).
Proof.
  intros ctx. induction ctx as [ctx IH] using (induction_ltof1 _ (@length _)).
  unfold ltof in IH. intros sub.
  destruct ctx as [|fp [|fg ctx2]]; try done.
  simpl fixup. destruct (f_color fp); [|done].
  destruct (t_color (f_sib fg)).
  - rewrite IH by (simpl; lia). simpl. apply elems_plug_congr, elems_recolor.
  - simpl. apply elems_plug_congr, elems_rotate_fix.
Qed.

Lemma ctx_before_refresh ctx : forall sub,
  ctx_before (refresh_ctx ctx sub) = ctx_before ctx.
Proof. induction ctx as [|f ctx IH]; intros sub; simpl; [done|]. by rewrite IH. Qed.

Lemma ctx_after_refresh ctx : forall sub,
  ctx_after (refresh_ctx ctx sub) = ctx_after ctx.
Proof. induction ctx as [|f ctx IH]; intros sub; simpl; [done|]. by rewrite IH. Qed.

Lemma elems_descend s : forall sub ctx,
  elems (plug (descend_abs s sub ctx) E) = elems (plug ctx sub).
Proof.
  induction sub as [|c l IHl b k m r IHr]; intros ctx; simpl; [done|].
  destruct (s <=? k_start k).
  - rewrite IHl. simpl. by apply elems_plug_congr.
  - rewrite IHr. simpl. by apply elems_plug_congr.
Qed.

(** The new interval is put at one place of the traversal, and nothing else
    moves. *)
Lemma elems_ins tr a k :
  exists l1 l2, elems tr = l1 ++ l2 /\ elems (ins tr a k) = l1 ++ k :: l2 /\
    l1 = ctx_before (descend_abs (k_start k) tr []) /\
    l2 = ctx_after (descend_abs (k_start k) tr []).
Proof.
  set (ctx := descend_abs (k_start k) tr []).
  exists (ctx_before ctx), (ctx_after ctx). split; [|split; [|done]].
  - pose proof (elems_descend (k_start k) tr []) as H. fold ctx in H.
    rewrite elems_plug in H. simpl in H. by rewrite <- H.
  - unfold ins. fold ctx. rewrite elems_paint, elems_fixup, elems_plug.
    by rewrite ctx_before_refresh, ctx_after_refresh.
Qed.

Lemma elems_ins_perm tr a k : elems (ins tr a k) ≡ₚ k :: elems tr.
Proof.
  destruct (elems_ins tr a k) as (l1 & l2 & -> & -> & _).
  by rewrite Permutation_middle.
Qed.

(** ** Search-tree order *)

Lemma path_bounds s ctx :
  path_ok s ctx ->
  StronglySorted start_le (ctx_before ctx ++ ctx_after ctx) ->
  Forall (fun x => k_start x <= s) (ctx_before ctx) /\
  Forall (fun x => s <= k_start x) (ctx_after ctx).
Proof.
  induction ctx as [|f ctx IH]; intros Hp Hs; simpl in *; [by split|].
  apply Forall_cons in Hp as [Hd Hp].
  destruct (s <=? k_start (f_key f)) eqn:Hcmp; rewrite Hd in *; simpl in *.
  - apply Z.leb_le in Hcmp. rewrite app_nil_r in *.
    apply StronglySorted_app in Hs as (H12 & Hs1 & Hs2).
    apply StronglySorted_cons in Hs2 as [Hk Hs2].
    apply StronglySorted_app in Hs2 as (H23 & Hs2 & Hs3).
    destruct IH as [IH1 IH2]; [done| |].
    { apply StronglySorted_app_2; [|done|done].
      intros x y Hx Hy. apply H12; set_solver. }
    split; [done|]. constructor; [done|].
    apply Forall_app. split; [|done].
    apply Forall_app in Hk as [Hk _]. eapply Forall_impl; [exact Hk|].
    unfold start_le. simpl. intros; lia.
  - apply Z.leb_gt in Hcmp. rewrite <- app_assoc in Hs.
    apply StronglySorted_app in Hs as (H12 & Hs1 & Hs2).
    apply StronglySorted_app in Hs2 as (H23 & Hs2 & Hs3).
    destruct IH as [IH1 IH2]; [done| |].
    { apply StronglySorted_app_2; [|done|done].
      intros x y Hx Hy. apply H12; set_solver. }
    split; [|done].
    apply Forall_app. split; [done|].
    apply StronglySorted_app in Hs2 as (Hsk & _ & _).
    apply Forall_app. split.
    + apply Forall_forall. intros x Hx.
      specialize (Hsk x (f_key f) Hx). unfold start_le in Hsk.
      assert (k_start x <= k_start (f_key f)) by (apply Hsk; set_solver). lia.
    + constructor; [lia|constructor].
Qed.

Lemma ins_bst tr a k : bst tr -> bst (ins tr a k).
Proof.
  unfold bst. intros Hs.
  destruct (elems_ins tr a k) as (l1 & l2 & Hel & -> & H1 & H2).
  rewrite Hel in Hs.
  assert (Hp : path_ok (k_start k) (descend_abs (k_start k) tr []))
    by (apply descend_path_ok; constructor).
  destruct (path_bounds _ _ Hp) as [Hb Ha]; [by rewrite <- H1, <- H2|].
  rewrite <- H1 in Hb. rewrite <- H2 in Ha.
  apply StronglySorted_app in Hs as (H12 & Hs1 & Hs2).
  apply StronglySorted_app_2; [|done|].
  - intros x y Hx Hy. rewrite Forall_forall in Hb, Ha.
    apply elem_of_cons in Hy as [->|Hy].
    + by apply Hb.
    + by apply H12.
  - constructor; [done|]. eapply Forall_impl; [exact Ha|]. done.
Qed.

(** ** Cached maxima *)

Lemma opt_max_top m t t' : top_m t = top_m t' -> opt_max m t = opt_max m t'.
Proof. destruct t, t'; simpl; congruence. Qed.

Lemma mx_fill f t :
  mx_ok (fill f t) <->
  mx_ok t /\ mx_ok (f_sib f) /\ top_m (fill f t) = top_m (upd (fill f t)).
Proof.
  destruct f as [[] c a k m s]; simpl; split; intros H; intuition; congruence.
Qed.

Lemma mx_plug ctx : forall t, mx_ok (plug ctx t) <-> mx_ok t /\ mx_ctx ctx t.
Proof.
  induction ctx as [|f ctx IH]; intros t; simpl; [intuition|].
  rewrite IH, mx_fill. intuition.
Qed.

Lemma top_m_fill_upd f t t' :
  top_m t = top_m t' ->
  top_m (upd (fill f t)) = top_m (upd (fill f t')).
Proof.
  intros H. destruct f as [[] c a k m s]; simpl; unfold upd_m.
  - by rewrite (opt_max_top _ t t').
  - by rewrite (opt_max_top _ t t').
Qed.

Lemma top_m_fill f t t' : top_m (fill f t) = top_m (fill f t').
Proof. by destruct f as [[] c a k m s]. Qed.

Lemma mx_ctx_congr ctx : forall t t',
  top_m t = top_m t' -> mx_ctx ctx t -> mx_ctx ctx t'.
Proof.
  induction ctx as [|f ctx IH]; intros t t' Ht; simpl; [done|].
  intros (H1 & H2 & H3). split; [|split; [done|]].
  - rewrite (top_m_fill f t' t), H1. by apply top_m_fill_upd.
  - eapply IH; [|exact H3]. apply top_m_fill.
Qed.

Lemma mx_plug_congr ctx t t' :
  mx_ok (plug ctx t) -> mx_ok t' -> top_m t = top_m t' -> mx_ok (plug ctx t').
Proof.
  rewrite !mx_plug. intros [_ Hc] Ht Htop. split; [done|]. by eapply mx_ctx_congr.
Qed.

Lemma mx_upd t : (forall c l a k m r, t = T c l a k m r -> mx_ok l /\ mx_ok r) -> mx_ok (upd t).
Proof. destruct t as [|c l a k m r]; simpl; [done|]. intros H. destruct (H _ _ _ _ _ _ eq_refl). auto. Qed.

Lemma mx_paint c t : mx_ok (paint c t) <-> mx_ok t.
Proof. by destruct t. Qed.

Lemma top_m_paint c t : top_m (paint c t) = top_m t.
Proof. by destruct t. Qed.

Lemma mx_rotL t : mx_ok t -> mx_ok (rotL t) /\ top_m (rotL t) = top_m t.
Proof.
  destruct t as [|c l a k m [|c' l' a' k' m' r']]; simpl; try done.
  intros (-> & Hl & -> & Hl' & Hr'). repeat split; auto.
  f_equal. unfold upd_m. simpl.
  destruct l, l', r'; simpl; lia.
Qed.

Lemma mx_rotR t : mx_ok t -> mx_ok (rotR t) /\ top_m (rotR t) = top_m t.
Proof.
  destruct t as [|c [|c' l' a' k' m' r'] a k m r]; simpl; try done.
  intros (-> & (-> & Hl' & Hr') & Hr). repeat split; auto.
  f_equal. unfold upd_m. simpl.
  destruct r, l', r'; simpl; lia.
Qed.

Lemma mx_recolor fp fg sub :
  mx_ok (fill fg (fill fp sub)) ->
  mx_ok (recolor fp fg sub) /\ top_m (recolor fp fg sub) = top_m (fill fg (fill fp sub)).
Proof.
  unfold recolor.
  destruct fp as [[] cp p kp mp sp], fg as [[] cg g kg mg sg]; simpl;
    intros H; (split; [|done]); destruct sg; simpl in *; intuition.
Qed.

Lemma mx_rotate_fix fp fg sub :
  mx_ok (fill fg (fill fp sub)) ->
  mx_ok (rotate_fix fp fg sub) /\
  top_m (rotate_fix fp fg sub) = top_m (fill fg (fill fp sub)).
Proof.
  intros H. apply mx_fill in H as (Hp & Hsg & Htop).
  unfold rotate_fix.
  assert (Hgen : forall p', mx_ok p' -> top_m p' = top_m (fill fp sub) ->
            mx_ok (fill (f_paint RED fg) (paint BLACK p')) /\
            top_m (fill (f_paint RED fg) (paint BLACK p')) = top_m (fill fg (fill fp sub))).
  { intros p' Hp' Ht. split.
    - apply mx_fill. split; [by apply mx_paint|]. split; [done|].
      assert (E1 : top_m (fill (f_paint RED fg) (paint BLACK p')) = top_m (fill fg (fill fp sub)))
        by (by destruct fg as [[] ? ? ? ? ?]).
      rewrite E1, Htop.
      destruct fg as [[] cg g kg mg sg]; simpl; unfold upd_m; f_equal;
        rewrite ?(opt_max_top _ (paint BLACK p') (fill fp sub)); try done;
        by rewrite top_m_paint.
    - by destruct fg as [[] ? ? ? ? ?]. }
  destruct (f_dir fg).
  - destruct (f_dir fp).
    + destruct (Hgen (fill fp sub)) as [H1 H2]; [done|done|].
      destruct (mx_rotR _ H1) as [H3 H4]. split; [done|congruence].
    + destruct (mx_rotL _ Hp) as [Hp1 Hp2].
      destruct (Hgen (rotL (fill fp sub))) as [H1 H2]; [done|done|].
      destruct (mx_rotR _ H1) as [H3 H4]. split; [done|congruence].
  - destruct (f_dir fp).
    + destruct (mx_rotR _ Hp) as [Hp1 Hp2].
      destruct (Hgen (rotR (fill fp sub))) as [H1 H2]; [done|done|].
      destruct (mx_rotL _ H1) as [H3 H4]. split; [done|congruence].
    + destruct (Hgen (fill fp sub)) as [H1 H2]; [done|done|].
      destruct (mx_rotL _ H1) as [H3 H4]. split; [done|congruence].
Qed.

Lemma mx_fixup : forall ctx sub, mx_ok (plug ctx sub) -> mx_ok (fixup ctx sub).
Proof.
  intros ctx. induction ctx as [ctx IH] using (induction_ltof1 _ (@length _)).
  unfold ltof in IH. intros sub Hm.
  destruct ctx as [|fp [|fg ctx2]]; try done.
  simpl fixup. destruct (f_color fp); [|done].
  simpl in Hm. pose proof Hm as Hm'. apply mx_plug in Hm' as [Hsub _].
  destruct (t_color (f_sib fg)).
  - apply IH; [simpl; lia|]. destruct (mx_recolor fp fg sub Hsub) as [H1 H2].
    eapply mx_plug_congr; [exact Hm|done|done].
  - destruct (mx_rotate_fix fp fg sub Hsub) as [H1 H2].
    eapply mx_plug_congr; [exact Hm|done|done].
Qed.

Lemma mx_refresh ctx : forall sub,
  mx_ok sub -> Forall (fun f => mx_ok (f_sib f)) ctx ->
  mx_ok (plug (refresh_ctx ctx sub) sub).
Proof.
  induction ctx as [|f ctx IH]; intros sub Hs Hc; simpl; [done|].
  apply Forall_cons in Hc as [Hf Hc].
  apply IH; [|done]. rewrite fill_f_upd.
  destruct f as [[] c a k m s]; simpl in *; auto.
Qed.

Lemma mx_descend s : forall sub ctx,
  mx_ok sub -> Forall (fun f => mx_ok (f_sib f)) ctx ->
  Forall (fun f => mx_ok (f_sib f)) (descend_abs s sub ctx).
Proof.
  induction sub as [|c l IHl b k m r IHr]; intros ctx Hs Hc; simpl; [done|].
  destruct Hs as (_ & Hl & Hr).
  destruct (s <=? k_start k); [apply IHl|apply IHr]; auto.
Qed.

Lemma ins_mx tr a k : mx_ok tr -> mx_ok (ins tr a k).
Proof.
  intros H. unfold ins. apply mx_paint. apply mx_fixup.
  apply mx_refresh; [by simpl|]. by apply mx_descend.
Qed.

Lemma ins_Inv tr a k : Inv tr -> Inv (ins tr a k).
Proof.
  intros (H1 & H2 & H3). split; [by apply ins_rbt|].
  split; [by apply ins_bst|by apply ins_mx].
Qed.


(** * Queries *)

(** ** Running read-only code *)

Lemma run_bind {S A B} (m : M S A) (k : A -> M S B) s a s' :
  m s = (Ok a, s') -> bind m k s = k a s'.
Proof. intros H. unfold bind. by rewrite H. Qed.

Lemma run_rd_focus {A} (f : IntervalNode -> A) t ctx c l a k m r n ext :
  Rep t (plug ctx (T c l a k m r)) n ext ->
  rd f (Some a) t = (Ok (f (node_of c l k m r (ctx_par ctx))), t).
Proof. intros HR. unfold rd, node_at. by rewrite (Rep_focus _ _ _ _ _ _ _ _ _ _ HR). Qed.

Lemma run_is_real rl t ctx sub n ext :
  Rep t (plug ctx sub) n ext ->
  is_real (S rl) (root_ref sub) t = (Ok (is_T sub), t).
Proof.
  intros HR. unfold is_real, py_ne, py_eq, lift, bind, ret.
  destruct sub as [|c l a k m r]; cbn [root_ref is_None is_T]; unfold ref_eq.
  - by rewrite node_eq_refl.
  - pose proof (Rep_focus _ _ _ _ _ _ _ _ _ _ HR) as Ha.
    apply Rep_plug in HR. simpl in HR.
    destruct HR as (Hnil & _ & _ & (Ha0 & _) & _).
    erewrite node_eq_nil_r; eauto. simpl. apply is_Some_root_ref.
Qed.

(** ** [find_overlapping] *)

Lemma run_search rl s e n ext : forall sub depth ctx acc t,
  Rep t (plug ctx sub) n ext ->
  (height sub < depth)%nat ->
  search (S rl) depth s e (root_ref sub) acc t = (Ok (search_abs s e sub acc), t).
Proof.
  induction sub as [|c l IHl a k m r IHr]; intros depth ctx acc t HR Hd.
  - destruct depth as [|depth]; [simpl in Hd; lia|]. simpl search.
    erewrite run_bind by (eapply (run_is_real rl _ ctx E); exact HR). done.
  - destruct depth as [|depth]; [simpl in Hd; lia|]. simpl in Hd.
    cbn [search].
    erewrite run_bind by (eapply (run_is_real rl _ ctx (T c l a k m r)); exact HR).
    cbn [is_T negb root_ref].
    erewrite run_bind by (eapply run_rd_focus; exact HR).
    erewrite run_bind by (eapply run_rd_focus; exact HR).
    erewrite run_bind by (eapply run_rd_focus; exact HR).
    cbn [left node_of slot_id].
    change (overlaps_with (node_of c l k m r (ctx_par ctx)) s e) with (overlaps k s e).
    set (acc1 := if overlaps k s e then acc ++ [k_id k] else acc).
    assert (HRl : Rep t (plug (F L c a k m r :: ctx) l) n ext) by exact HR.
    assert (HRr : Rep t (plug (F R c a k m l :: ctx) r) n ext) by exact HR.
    (* the left subtree *)
    assert (Hgo_l : (real_l <- is_real (S rl) (root_ref l);;
                     if negb real_l then ret false
                     else lm <- rd max_end (root_ref l);; ret (lm >? s)) t =
                    (Ok (match top_m l with Some lm => lm >? s | None => false end), t)).
    { erewrite run_bind by (eapply run_is_real; exact HRl).
      destruct l as [|cl ll al kl ml rl0]; [done|]. simpl.
      erewrite run_bind by (eapply run_rd_focus; exact HRl). done. }
    erewrite run_bind by exact Hgo_l. clear Hgo_l.
    set (acc2 := match top_m l with
                 | Some lm => if lm >? s then search_abs s e l acc1 else acc1
                 | None => acc1
                 end).
    assert (Hl : (if match top_m l with Some lm => lm >? s | None => false end
                  then search (S rl) depth s e (root_ref l) acc1 else ret acc1) t =
                 (Ok acc2, t)).
    { unfold acc2. destruct (top_m l) as [ml|]; [|done].
      destruct (ml >? s); [|done].
      eapply IHl; [exact HRl|lia]. }
    erewrite run_bind by exact Hl. clear Hl.
    erewrite run_bind by (eapply run_rd_focus; exact HR).
    cbn [right node_of].
    assert (Hgo_r : (real_r <- is_real (S rl) (root_ref r);;
                     if negb real_r then ret false
                     else n_start <- rd start (Some a);; ret (n_start <? e)) t =
                    (Ok (is_T r && (k_start k <? e)), t)).
    { erewrite run_bind by (eapply run_is_real; exact HRr).
      destruct r as [|cr lr ar kr mr rr]; [done|]. simpl.
      erewrite run_bind by (eapply run_rd_focus; exact HR). done. }
    erewrite run_bind by exact Hgo_r. clear Hgo_r.
    simpl search_abs. fold acc1. fold acc2.
    destruct (is_T r && (k_start k <? e)); [|done].
    eapply IHr; [exact HRr|lia].
Qed.

Lemma mx_bound t :
  mx_ok t ->
  match top_m t with
  | Some m => Forall (fun k => k_end k <= m) (elems t)
  | None => elems t = []
  end.
Proof.
  induction t as [|c l IHl a k m r IHr]; simpl; [done|].
  intros (-> & Hl & Hr). specialize (IHl Hl). specialize (IHr Hr).
  unfold upd_m. apply Forall_app. split; [|constructor].
  - destruct l as [|cl ll al kl ml rl0]; simpl in *; [constructor|].
    eapply Forall_impl; [exact IHl|]. simpl. intros x Hx. destruct r; simpl; lia.
  - destruct l, r; simpl; lia.
  - destruct r as [|cr lr ar kr mr rr]; simpl in *; [constructor|].
    eapply Forall_impl; [exact IHr|]. simpl. intros x Hx. destruct l; simpl; lia.
Qed.

Lemma filter_none {A} (f : A -> bool) l :
  Forall (fun x => f x = false) l -> List.filter f l = [].
Proof.
  induction 1 as [|x l Hx Hl IH]; simpl; [done|]. by rewrite Hx.
Qed.

Lemma bst_inv c l a k m r :
  bst (T c l a k m r) ->
  bst l /\ bst r /\ Forall (fun x => k_start k <= k_start x) (elems r).
Proof.
  unfold bst. simpl. intros H.
  apply StronglySorted_app in H as (_ & Hl & Hr).
  apply StronglySorted_cons in Hr as [Hk Hr]. done.
Qed.

(** The pruned search visits every stored interval that overlaps the query,
    each once. *)
Lemma search_abs_perm s e : forall t acc,
  bst t -> mx_ok t ->
  search_abs s e t acc ≡ₚ
  acc ++ map k_id (List.filter (fun k => overlaps k s e) (elems t)).
Proof.
  induction t as [|c l IHl a k m r IHr]; intros acc Hb Hm; simpl.
  { by rewrite app_nil_r. }
  destruct (bst_inv _ _ _ _ _ _ Hb) as (Hbl & Hbr & Hkr).
  destruct Hm as (Hmm & Hml & Hmr).
  rewrite List.filter_app, map_app. simpl.
  set (acc1 := if overlaps k s e then acc ++ [k_id k] else acc).
  set (fl := map k_id (List.filter (fun k0 => overlaps k0 s e) (elems l))).
  set (fr := map k_id (List.filter (fun k0 => overlaps k0 s e) (elems r))).
  assert (H1 : match top_m l with
               | Some lm => if lm >? s then search_abs s e l acc1 else acc1
               | None => acc1
               end ≡ₚ acc1 ++ fl).
  { pose proof (mx_bound l Hml) as Hbd.
    destruct (top_m l) as [ml|].
    - destruct (ml >? s) eqn:Hgt; [by apply IHl|].
      unfold fl. rewrite filter_none; [by rewrite app_nil_r|].
      eapply Forall_impl; [exact Hbd|]. simpl. intros x Hx.
      unfold overlaps. assert (k_end x <=? s = true) as -> by lia. done.
    - unfold fl. rewrite Hbd. simpl. by rewrite app_nil_r. }
  assert (H2 : forall acc2,
             (if is_T r && (k_start k <? e) then search_abs s e r acc2 else acc2)
             ≡ₚ acc2 ++ fr).
  { intros acc2. destruct (is_T r) eqn:Hr; simpl.
    - destruct (k_start k <? e) eqn:Hlt; [by apply IHr|].
      unfold fr. rewrite filter_none; [by rewrite app_nil_r|].
      eapply Forall_impl; [exact Hkr|]. simpl. intros x Hx.
      unfold overlaps. assert (k_start x >=? e = true) as -> by lia.
      by rewrite orb_true_r.
    - destruct r; [|done]. unfold fr. simpl. by rewrite app_nil_r. }
  rewrite H2, H1. unfold acc1.
  destruct (overlaps k s e); simpl.
  - rewrite <- !app_assoc. apply Permutation_app_head. 
    rewrite (Permutation_app_comm fl). simpl. 
    by rewrite <- Permutation_middle, (Permutation_app_comm fr).
  - by rewrite <- app_assoc.
Qed.

Lemma search_abs_spec s e t i :
  bst t -> mx_ok t ->
  i ∈ search_abs s e t [] <->
  exists k, k ∈ elems t /\ k_id k = i /\ overlaps k s e = true.
Proof.
  intros Hb Hm. rewrite (search_abs_perm s e t [] Hb Hm). simpl.
  rewrite list_elem_of_fmap. split.
  - intros (k & -> & Hk). apply list_elem_of_In, List.filter_In in Hk as [Hk Ho].
    exists k. by rewrite list_elem_of_In.
  - intros (k & Hk & <- & Ho). exists k. split; [done|].
    apply list_elem_of_In, List.filter_In. by rewrite <- list_elem_of_In.
Qed.

Lemma run_get_root t tr n ext :
  Rep t tr n ext -> get_root t = (Ok (root_of tr), t).
Proof. intros (_ & _ & _ & _ & Hr & _). unfold get_root. by rewrite Hr. Qed.

Lemma root_of_ref t : is_T t = true -> root_of t = root_ref t.
Proof. by destruct t. Qed.

Lemma run_find_overlapping rl t tr n ext s e :
  Rep t tr n ext -> (height tr < rl)%nat ->
  find_overlapping rl s e t = (Ok (search_abs s e tr []), t).
Proof.
  intros HR Hh. unfold find_overlapping.
  erewrite run_bind by (eapply run_get_root; exact HR).
  destruct tr as [|c l a k m r]; [done|].
  destruct rl as [|rl]; [lia|].
  apply (run_search rl s e n ext (T c l a k m r) (S rl) [] [] t HR Hh).
Qed.

(** ** [get_all_intervals] *)

Lemma run_inorder rl n ext : forall sub depth ctx acc t,
  Rep t (plug ctx sub) n ext ->
  (height sub < depth)%nat ->
  inorder (S rl) depth (root_ref sub) acc t = (Ok (acc ++ elems sub), t).
Proof.
  induction sub as [|c l IHl a k m r IHr]; intros depth ctx acc t HR Hd.
  - destruct depth as [|depth]; [simpl in Hd; lia|]. simpl inorder.
    erewrite run_bind by (eapply (run_is_real rl _ ctx E); exact HR).
    simpl. by rewrite app_nil_r.
  - destruct depth as [|depth]; [simpl in Hd; lia|]. simpl in Hd.
    cbn [inorder].
    erewrite run_bind by (eapply (run_is_real rl _ ctx (T c l a k m r)); exact HR).
    cbn [is_T negb root_ref].
    assert (HRl : Rep t (plug (F L c a k m r :: ctx) l) n ext) by exact HR.
    assert (HRr : Rep t (plug (F R c a k m l :: ctx) r) n ext) by exact HR.
    erewrite run_bind by (eapply run_rd_focus; exact HR). cbn [left node_of].
    erewrite run_bind by (eapply IHl; [exact HRl|lia]).
    erewrite run_bind by (eapply run_rd_focus; exact HR).
    erewrite run_bind by (eapply run_rd_focus; exact HR).
    erewrite run_bind by (eapply run_rd_focus; exact HR).
    erewrite run_bind by (eapply run_rd_focus; exact HR).
    cbn [right start end_ slot_id node_of].
    rewrite (IHr depth (F R c a k m l :: ctx)); [|exact HRr|lia].
    simpl. rewrite <- !app_assoc. simpl.
    by destruct k as [[? ?] ?].
Qed.

Lemma run_get_all_intervals rl t tr n ext :
  Rep t tr n ext -> (height tr < rl)%nat ->
  get_all_intervals rl t = (Ok (sorted (elems tr)), t).
Proof.
  intros HR Hh. unfold get_all_intervals.
  erewrite run_bind by (eapply run_get_root; exact HR).
  destruct tr as [|c l a k m r]; [done|].
  destruct rl as [|rl]; [lia|].
  cbn [root_of is_None].
  erewrite run_bind by (apply (run_inorder rl n ext (T c l a k m r) (S rl) [] [] t HR Hh)).
  done.
Qed.

Lemma run_is_empty rl t tr n ext :
  Rep t tr n ext -> is_empty (S rl) t = (Ok (negb (is_T tr)), t).
Proof.
  intros HR. unfold is_empty.
  erewrite run_bind by (eapply run_get_root; exact HR).
  destruct tr as [|c l a k m r]; [done|]. cbn [root_of is_None is_T negb].
  pose proof (run_is_real rl t [] (T c l a k m r) n ext HR) as H.
  unfold is_real, py_ne, py_eq, lift, bind, ret in *. cbn [root_ref is_None is_T] in H.
  destruct (ref_eq (S rl) (nodes t) (Some a) (Some nil)) as [[|]| |]; simpl in H; congruence.
Qed.

(** ** The height of a red-black tree *)

Lemma rb_height t :
  rb t -> (height t <= 2 * bh t + match t_color t with RED => 1 | BLACK => 0 end)%nat.
Proof.
  induction t as [|c l IHl a k m r IHr]; simpl; [lia|].
  intros (Hl & Hr & Hb & Hc). specialize (IHl Hl). specialize (IHr Hr).
  destruct c; simpl.
  - destruct (Hc eq_refl) as [Hcl Hcr]. rewrite Hcl in IHl. rewrite Hcr in IHr. lia.
  - destruct (t_color l), (t_color r); lia.
Qed.

Lemma rb_count t : rb t -> (2 ^ bh t <= nodes_count t + 1)%nat.
Proof.
  induction t as [|c l IHl a k m r IHr]; simpl; [lia|].
  intros (Hl & Hr & Hb & Hc). specialize (IHl Hl). specialize (IHr Hr).
  rewrite <- Hb in IHr.
  destruct c; simpl.
  - rewrite Nat.add_0_r. lia.
  - rewrite Nat.add_1_r. simpl. lia.
Qed.

Lemma nodes_count_elems t : nodes_count t = length (elems t).
Proof.
  induction t as [|c l IHl a k m r IHr]; simpl; [done|].
  rewrite length_app. simpl. lia.
Qed.

Lemma rbt_height t :
  rbt t -> (height t <= 2 * Nat.log2 (length (elems t) + 1))%nat.
Proof.
  intros [Hrb Hc]. pose proof (rb_height t Hrb) as Hh. rewrite Hc in Hh.
  pose proof (rb_count t Hrb) as Hn. rewrite nodes_count_elems in Hn.
  assert (bh t <= Nat.log2 (length (elems t) + 1))%nat.
  { rewrite <- (Nat.log2_pow2 (bh t)) by lia. by apply Nat.log2_le_mono. }
  lia.
Qed.


(** * Sequences of insertions *)

Lemma Rep_new : Rep new_IntervalTree E 0 ∅.
Proof.
  unfold Rep, new_IntervalTree. simpl.
  split; [apply lookup_singleton_eq|]. do 4 (split; [done|]).
  split; [split; [done|unfold nil; lia]|]. intros b nd Hb. by rewrite lookup_empty in Hb.
Qed.

Lemma Inv_E : Inv E.
Proof. repeat split; try done. constructor. Qed.

Lemma insert_all_cons rl fuel k ops t t' :
  insert_all rl fuel (k :: ops) t = (Ok tt, t') ->
  exists t1, insert rl fuel (k_start k) (k_end k) (k_id k) t = (Ok tt, t1) /\
             insert_all rl fuel ops t1 = (Ok tt, t').
Proof.
  destruct k as [[s e] i]. cbn [insert_all k_start k_end k_id fst snd]. unfold bind at 1.
  destruct (insert rl fuel s e i t) as [[[]| |] t1] eqn:E; [|done..].
  intros H. by exists t1.
Qed.

Lemma insert_all_Rep rl fuel : forall ops t tr n t',
  Rep t tr n ∅ -> rbt tr ->
  insert_all rl fuel ops t = (Ok tt, t') ->
  exists adrs, length adrs = length ops /\
    Rep t' (ins_all tr adrs ops) (n + Z.of_nat (length ops)) ∅.
Proof.
  induction ops as [|k ops IH]; intros t tr n t' HR Hrb Hrun.
  - simpl in Hrun. injection Hrun as <-. exists []. split; [done|].
    simpl. by rewrite Z.add_0_r.
  - apply insert_all_cons in Hrun as (t1 & H1 & H2).
    assert (HR1 : Rep t1 (ins tr (next t) k) (n + 1) ∅).
    { refine (wp_elim _ (fun _ t1 => Rep t1 (ins tr (next t) k) (n + 1) ∅) _ _ _ _ H1).
      destruct k as [[s e] i].
      apply (wp_insert rl fuel t tr n s e i); [exact HR| |done].
      by apply fix_inv_leaf. }
    destruct (IH t1 _ _ t' HR1 (ins_rbt _ _ _ Hrb) H2) as (adrs & Hlen & HR').
    exists (next t :: adrs). split; [simpl; by rewrite Hlen|].
    simpl ins_all. replace (n + Z.of_nat (length (k :: ops)))
      with (n + 1 + Z.of_nat (length ops)) by (simpl length; lia).
    exact HR'.
Qed.

Lemma ins_all_Inv : forall adrs ops tr, Inv tr -> Inv (ins_all tr adrs ops).
Proof.
  induction adrs as [|a adrs IH]; intros [|k ops] tr H; simpl; try done.
  by apply IH, ins_Inv.
Qed.

Lemma ins_all_elems : forall adrs ops tr,
  length adrs = length ops -> elems (ins_all tr adrs ops) ≡ₚ ops ++ elems tr.
Proof.
  induction adrs as [|a adrs IH]; intros [|k ops] tr Hlen; simpl in *; try done.
  rewrite IH by lia. rewrite elems_ins_perm. by rewrite Permutation_middle.
Qed.

(** What a tree object is after a sequence of successful insertions into a
    new tree: it holds a red-black tree of exactly the inserted intervals,
    ordered by start and with the cached maxima right. *)
Lemma insert_all_new rl fuel ops t :
  insert_all rl fuel ops new_IntervalTree = (Ok tt, t) ->
  exists tr, Rep t tr (Z.of_nat (length ops)) ∅ /\ Inv tr /\ elems tr ≡ₚ ops /\
    (height tr <= 2 * Nat.log2 (length ops + 1))%nat.
Proof.
  intros Hrun.
  destruct (insert_all_Rep rl fuel ops _ E 0 t Rep_new (proj1 Inv_E) Hrun)
    as (adrs & Hlen & HR).
  exists (ins_all E adrs ops). split; [exact HR|].
  pose proof (ins_all_Inv adrs ops E Inv_E) as HI.
  pose proof (ins_all_elems adrs ops E Hlen) as HP. simpl in HP. rewrite app_nil_r in HP.
  split; [exact HI|]. split; [exact HP|].
  pose proof (rbt_height _ (proj1 HI)) as Hh.
  by rewrite (Permutation_length HP) in Hh.
Qed.

Lemma brute_force_perm ops ops' s e :
  ops ≡ₚ ops' -> brute_force ops s e ≡ₚ brute_force ops' s e.
Proof.
  intros HP. unfold brute_force.
  apply Permutation_map. induction HP; simpl.
  - done.
  - destruct (overlaps x s e); [by constructor|done].
  - destruct (overlaps x s e), (overlaps y s e); try done; by constructor.
  - by etrans.
Qed.

Lemma elem_of_brute_force ops s e i :
  i ∈ brute_force ops s e <->
  exists s' e', (s', e', i) ∈ ops /\ ~ (e' <= s \/ s' >= e).
Proof.
  unfold brute_force. rewrite list_elem_of_fmap. split.
  - intros ([[s' e'] i'] & -> & Hk). apply list_elem_of_In, List.filter_In in Hk as [Hk Ho].
    exists s', e'. split; [by apply list_elem_of_In|].
    unfold overlaps, k_start, k_end in Ho. simpl in Ho. lia.
  - intros (s' & e' & Hk & Ho). exists (s', e', i). split; [done|].
    apply list_elem_of_In, List.filter_In. split; [by apply list_elem_of_In|].
    unfold overlaps, k_start, k_end. simpl. lia.
Qed.

(** The result of [find_overlapping] after a sequence of insertions. *)
Lemma find_overlapping_run rl fuel ops t s e :
  insert_all rl fuel ops new_IntervalTree = (Ok tt, t) ->
  (2 * Nat.log2 (length ops + 1) < rl)%nat ->
  exists ids, find_overlapping rl s e t = (Ok ids, t) /\ ids ≡ₚ brute_force ops s e.
Proof.
  intros Hrun Hrl. destruct (insert_all_new _ _ _ _ Hrun) as (tr & HR & HI & HP & Hh).
  exists (search_abs s e tr []). split.
  - apply (run_find_overlapping rl t tr _ ∅ s e HR). lia.
  - destruct HI as (_ & Hb & Hm). rewrite (search_abs_perm s e tr [] Hb Hm). simpl.
    by apply brute_force_perm.
Qed.

(** The result of [get_all_intervals] after a sequence of insertions. *)
Lemma get_all_intervals_run rl fuel ops t :
  insert_all rl fuel ops new_IntervalTree = (Ok tt, t) ->
  (2 * Nat.log2 (length ops + 1) < rl)%nat ->
  exists tr, elems tr ≡ₚ ops /\ bst tr /\
    get_all_intervals rl t = (Ok (sorted (elems tr)), t) /\
    inorder rl rl (root_ref tr) [] t = (Ok (elems tr), t) /\ root t = root_of tr.
Proof.
  intros Hrun Hrl. destruct (insert_all_new _ _ _ _ Hrun) as (tr & HR & HI & HP & Hh).
  exists tr. split; [exact HP|]. split; [apply HI|]. split.
  - apply (run_get_all_intervals rl t tr _ ∅ HR). lia.
  - split; [|apply HR]. destruct rl as [|rl]; [lia|].
    apply (run_inorder rl _ ∅ tr (S rl) [] [] t HR). lia.
Qed.

(** ** The cached maxima in the store *)





(** Every stored interval is at an object that is reached from the root. *)
Lemma reach_elems h : forall tr par k,
  rep h tr par -> wf tr -> k ∈ elems tr ->
  exists b nd, reach h (root_ref tr) b /\ h !! b = Some nd /\
    (start nd, end_ nd, slot_id nd) = k.
Proof.
  induction tr as [|c l IHl a k0 m r IHr]; intros par k Hrep Hwf Hk; simpl in *.
  - by apply elem_of_nil in Hk.
  - destruct Hrep as (Ha & Hl & Hr). destruct Hwf as (Ha0 & _ & _ & _ & Hwl & Hwr).
    apply elem_of_app in Hk as [Hk|Hk]; [|apply elem_of_cons in Hk as [->|Hk]].
    + destruct (IHl _ _ Hl Hwl Hk) as (b & nd & Hb & Hnd & Hkey).
      exists b, nd. split; [|done]. by eapply reach_left.
    + exists a, (node_of c l k0 m r par). split; [by constructor|]. split; [done|].
      by destruct k0 as [[? ?] ?].
    + destruct (IHr _ _ Hr Hwr Hk) as (b & nd & Hb & Hnd & Hkey).
      exists b, nd. split; [|done]. by eapply reach_right.
Qed.

(** ** The order of [sorted] *)

#[global] Instance tuple_le_trans : Transitive tuple_le.
Proof. intros [[? ?] ?] [[? ?] ?] [[? ?] ?]. unfold tuple_le. lia. Qed.

#[global] Instance tuple_le_total : Total tuple_le.
Proof. intros [[? ?] ?] [[? ?] ?]. unfold tuple_le. lia. Qed.

#[global] Instance tuple_le_antisymm : AntiSymm (=) tuple_le.
Proof.
  intros [[s1 e1] i1] [[s2 e2] i2]. unfold tuple_le. intros H1 H2.
  assert (s1 = s2) by lia. assert (e1 = e2) by lia. assert (i1 = i2) by lia.
  congruence.
Qed.

Lemma tuple_le_start x y : tuple_le x y -> k_start x <= k_start y.
Proof. destruct x as [[? ?] ?], y as [[? ?] ?]. unfold tuple_le, k_start. simpl. lia. Qed.

Lemma sorted_perm l l' : l ≡ₚ l' -> sorted l = sorted l'.
Proof.
  intros HP. unfold sorted.
  apply (Sorted_unique tuple_le); [apply Sorted_merge_sort, _..|].
  by rewrite !merge_sort_Permutation.
Qed.

(** A run whose outcome is known, with its final state. *)
Lemma run_ok {S A} (m : M S A) (s : S) (a : A) :
  fst (m s) = Ok a -> m s = (Ok a, snd (m s)).
Proof. destruct (m s) as [r s']. simpl. by intros ->. Qed.

Lemma sorted_by_start l :
  StronglySorted tuple_le l -> StronglySorted (fun x y => k_start x <= k_start y) l.
Proof.
  induction 1 as [|x l Hs IH Hall]; constructor; [exact IH|].
  eapply Forall_impl; [exact Hall|]. intros y. apply tuple_le_start.
Qed.


(** * The interval tree: queries after a sequence of insertions *)






(** C5, as stated, fails: the zero-length interval [(10, 10)] stored under
    identifier 1 is returned for the query range [(5, 15)], which strictly
    contains the point 10. *)
Lemma zero_length_is_returned :
  fst (insert_all 10 10 [(10, 10, 1)] new_IntervalTree) = Ok tt /\
  10 = 10 /\ 5 < 15 /\
  fst (find_overlapping 10 5 15 (snd (insert_all 10 10 [(10, 10, 1)] new_IntervalTree)))
  = Ok [1].
Proof. vm_compute. repeat split; reflexivity. Qed.

(** C5, amended. After any sequence [ops] of insertions that all
    returned, and for a recursion limit above the height bound of the tree,
    a stored zero-length interval [(p, p)] whose identifier [i] is not that
    of a different stored interval is returned by [find_overlapping(s, e)]
    exactly when [s < p < e]: it overlaps every range that strictly contains
    its point, and no other. *)
Theorem zero_length_overlap rl fuel ops t s e p i :
  insert_all rl fuel ops new_IntervalTree = (Ok tt, t) ->
  (2 * Nat.log2 (length ops + 1) < rl)%nat ->
  (p, p, i) ∈ ops ->
  (forall s' e', (s', e', i) ∈ ops -> s' = p /\ e' = p) ->
  exists ids, find_overlapping rl s e t = (Ok ids, t) /\ (i ∈ ids <-> s < p < e).
Proof.
  intros Hrun Hrl Hin Huniq.
  destruct (find_overlapping_run rl fuel ops t s e Hrun Hrl) as (ids & Hq & HP).
  exists ids. split; [exact Hq|].
  rewrite HP, elem_of_brute_force. split.
  - intros (s' & e' & Hk & Ho). destruct (Huniq s' e' Hk) as [-> ->]. lia.
  - intros Hp. exists p, p. split; [exact Hin|lia].
Qed.

Lemma zero_length_overlap_witness :
  exists ids,
    find_overlapping 10 5 15
      (snd (insert_all 10 10 [(10, 10, 1); (12, 14, 2)] new_IntervalTree))
    = (Ok ids, snd (insert_all 10 10 [(10, 10, 1); (12, 14, 2)] new_IntervalTree)) /\
    (1 ∈ ids <-> 5 < 10 < 15).
Proof.
  apply (zero_length_overlap 10 10 [(10, 10, 1); (12, 14, 2)]).
  - apply run_ok. vm_compute. reflexivity.
  - vm_compute. lia.
  - apply elem_of_cons. by left.
  - intros s' e' H.
    apply elem_of_cons in H as [H|H]; [injection H as -> ->; done|].
    apply elem_of_cons in H as [H|H]; [discriminate H|].
    by apply elem_of_nil in H.
Defined.

(** C6, as stated, fails on ties: after the insertions [(5, 10, 1)],
    [(5, 7, 2)], [(5, 8, 3)], all of start 5, [get_all_intervals] returns
    them ordered by end, which is neither the order of insertion nor the
    order in which the traversal [inorder] of the tree meets them. *)
Lemma ties_follow_neither_order :
  fst (insert_all 10 10 [(5, 10, 1); (5, 7, 2); (5, 8, 3)] new_IntervalTree) = Ok tt /\
  fst (get_all_intervals 10
         (snd (insert_all 10 10 [(5, 10, 1); (5, 7, 2); (5, 8, 3)] new_IntervalTree)))
  = Ok [(5, 7, 2); (5, 8, 3); (5, 10, 1)] /\
  fst (inorder 10 10
         (root (snd (insert_all 10 10 [(5, 10, 1); (5, 7, 2); (5, 8, 3)] new_IntervalTree)))
         []
         (snd (insert_all 10 10 [(5, 10, 1); (5, 7, 2); (5, 8, 3)] new_IntervalTree)))
  = Ok [(5, 8, 3); (5, 7, 2); (5, 10, 1)] /\
  [(5, 7, 2); (5, 8, 3); (5, 10, 1)] ≠ [(5, 10, 1); (5, 7, 2); (5, 8, 3)] /\
  [(5, 7, 2); (5, 8, 3); (5, 10, 1)] ≠ [(5, 8, 3); (5, 7, 2); (5, 10, 1)].
Proof.
  split; [vm_compute; reflexivity|]. split; [vm_compute; reflexivity|].
  split; [vm_compute; reflexivity|]. split; discriminate.
Qed.

(** C6, amended. After any sequence [ops] of insertions that all
    returned, and for a recursion limit above the height bound of the tree,
    [get_all_intervals] returns the stored triples sorted ascending in the
    lexicographic order of [(start, end, slot_id)] -- so ascending by start,
    equal starts ordered by end and then by identifier.  The result is
    [sorted ops]: it is the same for every order of the same insertions,
    and, the tree object being left as it was, for every repeated call. *)
Theorem get_all_intervals_sorted rl fuel ops t :
  insert_all rl fuel ops new_IntervalTree = (Ok tt, t) ->
  (2 * Nat.log2 (length ops + 1) < rl)%nat ->
  exists l, get_all_intervals rl t = (Ok l, t) /\
    l ≡ₚ ops /\ StronglySorted tuple_le l /\
    StronglySorted (fun x y => k_start x <= k_start y) l /\
    l = sorted ops.
Proof.
  intros Hrun Hrl.
  destruct (get_all_intervals_run rl fuel ops t Hrun Hrl) as (tr & HP & _ & Hq & _).
  exists (sorted (elems tr)). split; [exact Hq|].
  assert (Hs : StronglySorted tuple_le (sorted (elems tr))).
  { unfold sorted. apply StronglySorted_merge_sort; apply _. }
  split; [unfold sorted; by rewrite merge_sort_Permutation|].
  split; [exact Hs|]. split; [|by apply sorted_perm].
  by apply sorted_by_start.
Qed.

Lemma get_all_intervals_sorted_witness :
  exists l,
    get_all_intervals 10
      (snd (insert_all 10 10 [(5, 10, 1); (5, 7, 2); (2, 8, 3)] new_IntervalTree))
    = (Ok l, snd (insert_all 10 10 [(5, 10, 1); (5, 7, 2); (2, 8, 3)] new_IntervalTree)) /\
    l ≡ₚ [(5, 10, 1); (5, 7, 2); (2, 8, 3)] /\ StronglySorted tuple_le l /\
    StronglySorted (fun x y => k_start x <= k_start y) l /\
    l = sorted [(5, 10, 1); (5, 7, 2); (2, 8, 3)].
Proof.
  apply (get_all_intervals_sorted 10 10).
  - apply run_ok. vm_compute. reflexivity.
  - vm_compute. lia.
Defined.


(** * Parsing and printing of dates and times *)

Lemma digit_range c n : digit c = Some n -> 0 <= n <= 9.
Proof.
  unfold digit. destruct (_ && _) eqn:E; [|done]. intros [= <-]. lia.
Qed.

Lemma digit_digit_char n : 0 <= n <= 9 -> digit (digit_char n) = Some n.
Proof.
  intros H. destruct n as [|p|p]; [reflexivity| |lia].
  do 4 (try (destruct p as [p|p|]; try reflexivity; try lia)).
Qed.

Lemma pat2_pad2 p n rest :
  0 <= n <= 99 ->
  pat2 p (pad2 n rest) = if p (n / 10) (n mod 10) then Some (n, rest) else None.
Proof.
  intros H. unfold pat2, pad2.
  rewrite !digit_digit_char by (Z.div_mod_to_equations; lia).
  replace (10 * (n / 10) + n mod 10) with n by (Z.div_mod_to_equations; lia).
  done.
Qed.

Lemma pat2_inv p s v rest :
  pat2 p s = Some (v, rest) ->
  exists a b, 0 <= a <= 9 /\ 0 <= b <= 9 /\ p a b = true /\ v = 10 * a + b.
Proof.
  unfold pat2. destruct s as [|c1 [|c2 s]]; try done.
  destruct (digit c1) as [a|] eqn:Ea; [|done]. destruct (digit c2) as [b|] eqn:Eb; [|done].
  destruct (p a b) eqn:Ep; [|done]. intros [= <- <-].
  exists a, b. split; [by eapply digit_range|]. split; [by eapply digit_range|done].
Qed.

Lemma pat1_inv p s v rest :
  pat1 p s = Some (v, rest) -> 0 <= v <= 9 /\ p v = true.
Proof.
  unfold pat1. destruct s as [|c1 s]; [done|].
  destruct (digit c1) as [a|] eqn:Ea; [|done].
  destruct (p a) eqn:Ep; [|done]. intros [= <- <-]. split; [by eapply digit_range|done].
Qed.

Lemma alt_inv f g s r : alt f g s = Some r -> f s = Some r \/ g s = Some r.
Proof. unfold alt. destruct (f s); [intros [= <-]; by left|by right]. Qed.

(** ** Round trips of the directives *)

Lemma lit_String c rest : lit c (String c rest) = Some rest.
Proof. unfold lit. by rewrite Ascii.eqb_refl. Qed.

Lemma re_H_pad2 h rest : 0 <= h <= 23 -> re_H (pad2 h rest) = Some (h, rest).
Proof.
  intros H. unfold re_H, alt. rewrite !pat2_pad2 by lia.
  destruct ((h / 10 =? 2) && (h mod 10 <=? 3)) eqn:E1; [done|].
  destruct (h / 10 <=? 1) eqn:E2; [done|].
  exfalso. Z.div_mod_to_equations. lia.
Qed.

Lemma re_M_pad2 m rest : 0 <= m <= 59 -> re_M (pad2 m rest) = Some (m, rest).
Proof.
  intros H. unfold re_M, alt. rewrite !pat2_pad2 by lia.
  destruct (m / 10 <=? 5) eqn:E1; [done|].
  exfalso. Z.div_mod_to_equations. lia.
Qed.

Lemma re_Y_pad y rest :
  0 <= y <= 9999 -> re_Y (pad2 (y / 100) (pad2 (y mod 100) rest)) = Some (y, rest).
Proof.
  intros H. unfold re_Y. rewrite !pat2_pad2 by (Z.div_mod_to_equations; lia).
  f_equal. f_equal. Z.div_mod_to_equations. lia.
Qed.

Lemma re_m_pad2 m rest : 1 <= m <= 12 -> re_m (pad2 m rest) = Some (m, rest).
Proof.
  intros H. unfold re_m, alt. rewrite !pat2_pad2 by lia.
  destruct ((m / 10 =? 1) && (m mod 10 <=? 2)) eqn:E1; [done|].
  destruct ((m / 10 =? 0) && (1 <=? m mod 10)) eqn:E2; [done|].
  exfalso. Z.div_mod_to_equations. lia.
Qed.

Lemma re_d_pad2 d rest : 1 <= d <= 31 -> re_d (pad2 d rest) = Some (d, rest).
Proof.
  intros H. unfold re_d, alt. rewrite !pat2_pad2 by lia.
  destruct ((d / 10 =? 3) && (d mod 10 <=? 1)) eqn:E1; [done|].
  destruct ((1 <=? d / 10) && (d / 10 <=? 2)) eqn:E2; [done|].
  destruct ((d / 10 =? 0) && (1 <=? d mod 10)) eqn:E3; [done|].
  exfalso. Z.div_mod_to_equations. lia.
Qed.

Lemma valid_time_bounds t :
  valid_time t = true <-> 0 <= hour t <= 23 /\ 0 <= minute t <= 59.
Proof. unfold valid_time. rewrite !andb_true_iff, !Z.leb_le. lia. Qed.

Lemma days_in_month_le y m : days_in_month y m <= 31.
Proof.
  unfold days_in_month. repeat match goal with |- context [if ?b then _ else _] => destruct b end; lia.
Qed.

Lemma valid_date_bounds d :
  valid_date d = true ->
  1 <= d_year d <= 9999 /\ 1 <= d_month d <= 12 /\ 1 <= d_day d <= 31.
Proof.
  unfold valid_date. rewrite !andb_true_iff, !Z.leb_le.
  pose proof (days_in_month_le (d_year d) (d_month d)). lia.
Qed.

Lemma strptime_strftime_time t :
  valid_time t = true -> strptime_time (strftime_time t) = Some t.
Proof.
  intros H. apply valid_time_bounds in H as [Hh Hm].
  unfold strptime_time, strftime_time. rewrite re_H_pad2 by done.
  rewrite lit_String, re_M_pad2 by done. by destruct t.
Qed.

Lemma year_str_four y rest :
  1000 <= y -> year_str y rest = pad2 (y / 100) (pad2 (y mod 100) rest).
Proof.
  intros H. unfold year_str.
  destruct (Z.ltb_spec y 10); [lia|]. destruct (Z.ltb_spec y 100); [lia|].
  destruct (Z.ltb_spec y 1000); [lia|]. done.
Qed.

Lemma strptime_strftime_date d :
  valid_date d = true -> 1000 <= d_year d -> strptime_date (strftime_date d) = Some d.
Proof.
  intros H Hk. pose proof (valid_date_bounds d H) as (Hy & Hm & Hd).
  unfold strptime_date, strftime_date. rewrite year_str_four, re_Y_pad by lia.
  rewrite lit_String, re_m_pad2 by done. rewrite lit_String, re_d_pad2 by done.
  destruct d as [y m dd]. simpl in *. by rewrite H.
Qed.

(** A year below 1000 is written with fewer than four digits, and [%Y]
    finds the hyphen where it wants a digit. *)
Lemma re_Y_year_str_short y rest :
  1 <= y < 1000 -> re_Y (year_str y (String "-" rest)) = None.
Proof.
  intros H. unfold year_str.
  destruct (Z.ltb_spec y 10) as [H1|H1].
  { unfold re_Y, pat2. by rewrite digit_digit_char by lia. }
  destruct (Z.ltb_spec y 100) as [H2|H2].
  { unfold re_Y. rewrite pat2_pad2 by lia. by destruct rest. }
  destruct (Z.ltb_spec y 1000) as [H3|H3]; [|lia].
  unfold re_Y, pad2, pat2.
  rewrite !digit_digit_char by (Z.div_mod_to_equations; lia). done.
Qed.

Lemma strptime_strftime_short d :
  valid_date d = true -> d_year d < 1000 -> strptime_date (strftime_date d) = None.
Proof.
  intros H Hk. pose proof (valid_date_bounds d H) as (Hy & Hm & Hd).
  unfold strptime_date, strftime_date. by rewrite re_Y_year_str_short by lia.
Qed.

(** ** What [strptime] can return *)

Lemma re_H_range s h rest : re_H s = Some (h, rest) -> 0 <= h <= 23.
Proof.
  unfold re_H. intros H.
  apply alt_inv in H as [H|H]; [|apply alt_inv in H as [H|H]].
  - apply pat2_inv in H as (a & b & Ha & Hb & Hp & ->).
    apply andb_true_iff in Hp as [Hp1 Hp2]. lia.
  - apply pat2_inv in H as (a & b & Ha & Hb & Hp & ->). lia.
  - apply pat1_inv in H as [H _]. lia.
Qed.

Lemma re_M_range s m rest : re_M s = Some (m, rest) -> 0 <= m <= 59.
Proof.
  unfold re_M. intros H. apply alt_inv in H as [H|H].
  - apply pat2_inv in H as (a & b & Ha & Hb & Hp & ->). lia.
  - apply pat1_inv in H as [H _]. lia.
Qed.

Lemma strptime_time_valid s t : strptime_time s = Some t -> valid_time t = true.
Proof.
  unfold strptime_time. destruct (re_H s) as [[h s1]|] eqn:EH; [|done].
  destruct (lit ":" s1) as [s2|]; [|done].
  destruct (re_M s2) as [[m [|? ?]]|] eqn:EM; try done.
  intros [= <-]. apply valid_time_bounds. simpl.
  eauto using re_H_range, re_M_range.
Qed.

Lemma strptime_date_valid s d : strptime_date s = Some d -> valid_date d = true.
Proof.
  unfold strptime_date. destruct (re_Y s) as [[y s1]|]; [|done].
  destruct (lit "-" s1) as [s2|]; [|done].
  destruct (re_m s2) as [[m s3]|]; [|done].
  destruct (lit "-" s3) as [s4|]; [|done].
  destruct (re_d s4) as [[dd [|? ?]]|]; try done.
  destruct (valid_date _) eqn:E; [|done]. by intros [= <-].
Qed.

(** ** Minutes of the day *)

Lemma time_to_minutes_range t :
  valid_time t = true -> 0 <= _time_to_minutes t <= 1439.
Proof. intros H. apply valid_time_bounds in H. unfold _time_to_minutes. lia. Qed.

Lemma c_int_hour n :
  -2147483648 * 60 <= n < 2147483648 * 60 ->
  (n / 60 <? -2147483648) || (2147483647 <? n / 60) = false.
Proof.
  intros H. apply orb_false_iff. rewrite !Z.ltb_ge. Z.div_mod_to_equations. lia.
Qed.

Lemma minutes_to_time_to_minutes t :
  valid_time t = true -> _minutes_to_time (_time_to_minutes t) = Ok t.
Proof.
  intros H. pose proof H as Hv. apply valid_time_bounds in H as [Hh Hm].
  unfold _minutes_to_time. rewrite c_int_hour by (unfold _time_to_minutes; lia).
  unfold _time_to_minutes.
  replace ((hour t * 60 + minute t) / 60) with (hour t) by (Z.div_mod_to_equations; lia).
  replace ((hour t * 60 + minute t) mod 60) with (minute t) by (Z.div_mod_to_equations; lia).
  destruct t as [h m]. simpl in *. by rewrite Hv.
Qed.

Lemma minutes_to_time_ok n :
  0 <= n <= 1439 ->
  exists t, _minutes_to_time n = Ok t /\ valid_time t = true /\ _time_to_minutes t = n.
Proof.
  intros H. unfold _minutes_to_time. rewrite c_int_hour by lia. cbv zeta.
  assert (Hv : valid_time (mkTime (n / 60) (n mod 60)) = true).
  { apply valid_time_bounds. simpl. Z.div_mod_to_equations. lia. }
  rewrite Hv. eexists. split; [done|]. split; [done|].
  unfold _time_to_minutes. simpl. Z.div_mod_to_equations. lia.
Qed.

Lemma minutes_to_time_raises n :
  -2147483648 * 60 <= n < 0 \/ 1440 <= n < 2147483648 * 60 ->
  _minutes_to_time n = Raise ValueError_datetime.
Proof.
  intros H. unfold _minutes_to_time. rewrite c_int_hour by lia. cbv zeta.
  assert (Hv : valid_time (mkTime (n / 60) (n mod 60)) = false).
  { apply not_true_iff_false. rewrite valid_time_bounds. simpl.
    Z.div_mod_to_equations. lia. }
  by rewrite Hv.
Qed.

Lemma minutes_to_time_overflow n :
  n < -2147483648 * 60 \/ 2147483648 * 60 <= n ->
  _minutes_to_time n = Raise OverflowError.
Proof.
  intros H. unfold _minutes_to_time.
  assert (Hc : (n / 60 <? -2147483648) || (2147483647 <? n / 60) = true).
  { apply orb_true_iff. rewrite !Z.ltb_lt. Z.div_mod_to_equations. lia. }
  by rewrite Hc.
Qed.

(** The comparisons of times are those of their minutes. *)
Lemma time_ltb_minutes a b :
  valid_time a = true -> valid_time b = true ->
  time_ltb a b = (_time_to_minutes a <? _time_to_minutes b).
Proof.
  intros Ha Hb. apply valid_time_bounds in Ha, Hb.
  unfold time_ltb, _time_to_minutes.
  apply eq_true_iff_eq. rewrite orb_true_iff, andb_true_iff, !Z.ltb_lt, Z.eqb_eq. lia.
Qed.

Lemma time_leb_minutes a b :
  valid_time a = true -> valid_time b = true ->
  time_leb a b = (_time_to_minutes a <=? _time_to_minutes b).
Proof.
  intros Ha Hb. unfold time_leb. rewrite time_ltb_minutes by done.
  apply eq_true_iff_eq. rewrite negb_true_iff, Z.ltb_ge, Z.leb_le. done.
Qed.

(** [minutes_str] on the minutes of a time gives the time as [strftime]
    prints it, and parsing that gives the time back. *)
Lemma minutes_str_time t :
  valid_time t = true -> minutes_str (_time_to_minutes t) = Ok (strftime_time t).
Proof. intros H. unfold minutes_str. by rewrite minutes_to_time_to_minutes. Qed.

Lemma minutes_str_parse n :
  0 <= n <= 1439 ->
  exists str t, minutes_str n = Ok str /\ _parse_time str = Ok t /\
    valid_time t = true /\ _time_to_minutes t = n.
Proof.
  intros H. destruct (minutes_to_time_ok n H) as (t & Ht & Hv & Hm).
  exists (strftime_time t), t. unfold minutes_str, _parse_time. rewrite Ht. simpl.
  by rewrite strptime_strftime_time.
Qed.


(** * The schedule manager *)

(** ** Runs of monadic code *)

Lemma bind_Ok_inv {S A B} (m : M S A) (k : A -> M S B) s b s' :
  bind m k s = (Ok b, s') ->
  exists a s1, m s = (Ok a, s1) /\ k a s1 = (Ok b, s').
Proof.
  unfold bind. destruct (m s) as [[a| |] s1]; [|done..]. intros H. by exists a, s1.
Qed.

Lemma bind_run {S A B} (m : M S A) (k : A -> M S B) s a s1 :
  m s = (Ok a, s1) -> bind m k s = k a s1.
Proof. unfold bind. by intros ->. Qed.

Lemma bind_raise {S A B} (m : M S A) (k : A -> M S B) s e s1 :
  m s = (Raise e, s1) -> bind m k s = (Raise e, s1).
Proof. unfold bind. by intros ->. Qed.

Lemma manager_eta m :
  mkManager (days m) (timeslots m) (day_by_date m) (day_by_id m) (interval_trees m) = m.
Proof. by destruct m. Qed.

(** ** [from_dict] *)

Lemma res_bind_Ok_inv {A B} (r : res A) (k : A -> res B) b :
  res_bind r k = Ok b -> exists a, r = Ok a /\ k a = Ok b.
Proof. destruct r as [a| |]; simpl; [|done..]. intros H. by exists a. Qed.

Lemma get_item_cases {A} (o : option A) :
  (exists a, get_item o = Ok a) \/ get_item o = Raise KeyError.
Proof. destruct o; simpl; eauto. Qed.

Lemma or_ValueError_cases {A} (o : option A) :
  (exists a, or_ValueError o = Ok a) \/ or_ValueError o = Raise ValueError_datetime.
Proof. destruct o; simpl; eauto. Qed.

Ltac from_dict_step :=
  match goal with
  | |- context [res_bind (get_item ?o) _] =>
      destruct (get_item_cases o) as [[? ->]| ->]; simpl;
      [|right; eexists; split; [reflexivity|by left]]
  | |- context [res_bind (or_ValueError ?o) _] =>
      destruct (or_ValueError_cases o) as [[? ->]| ->]; simpl;
      [|right; eexists; split; [reflexivity|by right]]
  end.

Lemma Day_from_dict_cases data :
  (exists d, Day_from_dict data = Ok d) \/
  (exists e, Day_from_dict data = Raise e /\ from_dict_exn e).
Proof. unfold Day_from_dict. repeat from_dict_step. left. eauto. Qed.

Lemma TimeSlot_from_dict_cases data :
  (exists s, TimeSlot_from_dict data = Ok s) \/
  (exists e, TimeSlot_from_dict data = Raise e /\ from_dict_exn e).
Proof. unfold TimeSlot_from_dict. repeat from_dict_step. left. eauto. Qed.

Lemma from_dict_exn_caught e : from_dict_exn e -> is_KeyError_or_ValueError e = true.
Proof. by intros [-> | ->]. Qed.

(** ** List comprehensions *)

Lemma map_res_Ok {A B} (f : A -> res B) xs ys :
  map_res f xs = Ok ys <-> Forall2 (fun x y => f x = Ok y) xs ys.
Proof.
  revert ys. induction xs as [|x xs IH]; intros ys; simpl.
  - split; [intros [= <-]; constructor|by inversion 1].
  - split.
    + intros H. apply res_bind_Ok_inv in H as (y & Hy & H).
      apply res_bind_Ok_inv in H as (ys' & Hys & [= <-]).
      constructor; [done|by apply IH].
    + inversion 1 as [|? y ? ys' Hy Hys]; subst. rewrite Hy. simpl.
      apply IH in Hys. by rewrite Hys.
Qed.

Lemma map_res_malformed {A B} (f : A -> res B) (P : exn -> Prop) xs :
  (forall x, (exists y, f x = Ok y) \/ (exists e, f x = Raise e /\ P e)) ->
  Exists (malformed f) xs ->
  exists e, map_res f xs = Raise e /\ P e.
Proof.
  intros Hf. induction 1 as [x xs Hx|x xs Hxs IH]; simpl.
  - destruct (Hf x) as [[y Hy]|(e & He & HP)]; [by destruct (Hx y)|].
    rewrite He. simpl. eauto.
  - destruct (Hf x) as [[y Hy]|(e & He & HP)].
    + rewrite Hy. simpl. destruct IH as (e & -> & HP). simpl. eauto.
    + rewrite He. simpl. eauto.
Qed.

Lemma map_res_cases {A B} (f : A -> res B) (P : exn -> Prop) xs :
  (forall x, (exists y, f x = Ok y) \/ (exists e, f x = Raise e /\ P e)) ->
  (exists ys, map_res f xs = Ok ys) \/ (exists e, map_res f xs = Raise e /\ P e).
Proof.
  intros Hf. induction xs as [|x xs IH]; simpl; [left; eauto|].
  destruct (Hf x) as [[y ->]|(e & -> & HP)]; simpl; [|right; eauto].
  destruct IH as [[ys ->]|(e & -> & HP)]; simpl; [left|right]; eauto.
Qed.

Lemma map_res_ext {A B} (f g : A -> res B) xs :
  (forall x, f x = g x) -> map_res f xs = map_res g xs.
Proof. intros H. induction xs as [|x xs IH]; simpl; [done|]. by rewrite H, IH. Qed.

Lemma map_res_length {A B} (f : A -> res B) xs ys :
  map_res f xs = Ok ys -> length ys = length xs.
Proof. rewrite map_res_Ok. intros H. symmetry. by eapply Forall2_length. Qed.

(** ** [set_data] that fails in a record *)

Lemma set_data_bad_day rl fuel dd sd m :
  Exists (malformed Day_from_dict) dd ->
  set_data rl fuel dd sd m = (Raise ValueError_format, m).
Proof.
  intros H.
  destruct (map_res_malformed _ from_dict_exn dd Day_from_dict_cases H) as (e & He & HP).
  unfold set_data, except_format, bind, lift_res. rewrite He.
  by rewrite (from_dict_exn_caught e HP).
Qed.

Lemma set_data_bad_slot rl fuel dd sd ds m :
  map_res Day_from_dict dd = Ok ds ->
  Exists (malformed TimeSlot_from_dict) sd ->
  set_data rl fuel dd sd m =
    (Raise ValueError_format,
     mkManager ds (timeslots m) (day_by_date m) (day_by_id m) (interval_trees m)).
Proof.
  intros Hd H.
  destruct (map_res_malformed _ from_dict_exn sd TimeSlot_from_dict_cases H) as (e & He & HP).
  unfold set_data, except_format, bind, lift_res, set_days. rewrite Hd, He. simpl.
  by rewrite (from_dict_exn_caught e HP).
Qed.

(** ** [_build_indexes] *)

Lemma for_each_index_day : forall ds m,
  for_each index_day ds m =
    (Ok tt, mkManager (days m) (timeslots m)
              (foldl (fun acc d => <[date_key d := d]> acc) (day_by_date m) ds)
              (foldl (fun acc d => <[Day_id d := d]> acc) (day_by_id m) ds)
              (interval_trees m)).
Proof.
  induction ds as [|d ds IH]; intros m; simpl.
  - unfold ret. by rewrite manager_eta.
  - unfold bind at 1. unfold index_day at 1. rewrite IH. done.
Qed.

Lemma insert_all_app rl fuel : forall l1 l2 t,
  insert_all rl fuel (l1 ++ l2) t =
  bind (insert_all rl fuel l1) (fun _ => insert_all rl fuel l2) t.
Proof.
  induction l1 as [|[[s e] i] l1 IH]; intros l2 t; [reflexivity|].
  cbn [insert_all app]. unfold bind at 1 2 3.
  destruct (insert rl fuel s e i t) as [[[]| |] t1]; [|done..].
  rewrite IH. reflexivity.
Qed.

Lemma insert_all_snoc rl fuel l s e i t t1 t2 :
  insert_all rl fuel l t = (Ok tt, t1) ->
  insert rl fuel s e i t1 = (Ok tt, t2) ->
  insert_all rl fuel (l ++ [(s, e, i)]) t = (Ok tt, t2).
Proof.
  intros H1 H2. rewrite insert_all_app. rewrite (bind_run _ _ _ _ _ H1).
  simpl. by rewrite (bind_run _ _ _ _ _ H2).
Qed.

Lemma slots_of_snoc ids key pre s :
  slots_of ids key (pre ++ [s]) =
  slots_of ids key pre ++
    (if decide (slot_key ids s = Some key) then [slot_interval s] else []).
Proof.
  unfold slots_of. rewrite filter_app, fmap_app. f_equal.
  rewrite filter_cons, filter_nil. by destruct (decide _).
Qed.

Lemma index_slot_ok rl fuel ids pre s m m' :
  day_by_id m = ids ->
  trees_hold rl fuel ids (interval_trees m) pre ->
  index_slot rl fuel s m = (Ok tt, m') ->
  days m' = days m /\ timeslots m' = timeslots m /\
  day_by_date m' = day_by_date m /\ day_by_id m' = ids /\
  trees_hold rl fuel ids (interval_trees m') (pre ++ [s]).
Proof.
  intros Hids Hold Hrun. unfold index_slot in Hrun.
  rewrite (bind_run _ _ m (day_by_id m !! TimeSlot_day_id s) m) in Hrun by done.
  rewrite Hids in Hrun.
  destruct (ids !! TimeSlot_day_id s) as [day|] eqn:Eday.
  2: { injection Hrun as <-. do 4 (split; [done|]).
       intros key. rewrite slots_of_snoc.
       rewrite decide_False by (unfold slot_key; rewrite Eday; done).
       rewrite app_nil_r. apply Hold. }
  set (key0 := strftime_date (Day_date day)) in *.
  rewrite (bind_run _ _ m (bool_decide (is_Some (interval_trees m !! key0))) m) in Hrun by done.
  assert (Hk0 : slot_key ids s = Some key0) by (unfold slot_key; rewrite Eday; done).
  (* the tree of the date before the insertion *)
  assert (Hpre : exists t0 m1,
    (if bool_decide (is_Some (interval_trees m !! key0)) then ret tt
     else fun m => (Ok tt, set_trees (<[key0 := new_IntervalTree]> (interval_trees m)) m)) m
    = (Ok tt, m1) /\
    days m1 = days m /\ timeslots m1 = timeslots m /\ day_by_date m1 = day_by_date m /\
    day_by_id m1 = ids /\ interval_trees m1 = <[key0 := t0]> (interval_trees m) /\
    insert_all rl fuel (slots_of ids key0 pre) new_IntervalTree = (Ok tt, t0)).
  { pose proof (Hold key0) as Hk.
    destruct (interval_trees m !! key0) as [t0|] eqn:Et0.
    - rewrite bool_decide_true by eauto. exists t0, m. split; [done|].
      do 4 (split; [done|]). split; [by rewrite insert_id|apply Hk].
    - rewrite bool_decide_false by (intros [? ?]; done).
      exists new_IntervalTree, (set_trees (<[key0 := new_IntervalTree]> (interval_trees m)) m).
      split; [done|]. do 4 (split; [done|]). split; [done|]. by rewrite Hk. }
  destruct Hpre as (t0 & m1 & Hstep & Hd & Hts & Hdd & Hid & Htr & Hins).
  rewrite (bind_run _ _ _ _ _ Hstep) in Hrun.
  unfold with_tree in Hrun. rewrite Htr, lookup_insert_eq in Hrun.
  destruct (insert rl fuel _ _ _ t0) as [r t1] eqn:Einsert.
  injection Hrun as -> <-. simpl.
  do 4 (split; [done|]).
  intros key. rewrite slots_of_snoc, insert_insert_eq.
  destruct (decide (key = key0)) as [->|Hne].
  - rewrite lookup_insert_eq, decide_True by done.
    split; [by destruct (slots_of ids key0 pre)|].
    eapply insert_all_snoc; [exact Hins|exact Einsert].
  - rewrite lookup_insert_ne by done.
    rewrite decide_False by congruence. rewrite app_nil_r. apply Hold.
Qed.

Lemma for_each_index_slot rl fuel ids : forall ts pre m m',
  day_by_id m = ids ->
  trees_hold rl fuel ids (interval_trees m) pre ->
  for_each (index_slot rl fuel) ts m = (Ok tt, m') ->
  days m' = days m /\ timeslots m' = timeslots m /\
  day_by_date m' = day_by_date m /\ day_by_id m' = ids /\
  trees_hold rl fuel ids (interval_trees m') (pre ++ ts).
Proof.
  induction ts as [|s ts IH]; intros pre m m' Hids Hold Hrun; simpl in Hrun.
  - injection Hrun as <-. rewrite app_nil_r. done.
  - apply bind_Ok_inv in Hrun as ([] & m1 & H1 & H2).
    destruct (index_slot_ok rl fuel ids pre s m m1 Hids Hold H1)
      as (Hd & Ht & Hdd & Hid & Hold1).
    destruct (IH (pre ++ [s]) m1 m' Hid Hold1 H2) as (Hd' & Ht' & Hdd' & Hid' & Hold').
    rewrite <- app_assoc in Hold'. simpl in Hold'.
    repeat split; try congruence. exact Hold'.
Qed.

Lemma build_indexes_ok rl fuel m m' :
  _build_indexes rl fuel m = (Ok tt, m') ->
  days m' = days m /\ timeslots m' = timeslots m /\
  day_by_date m' = date_index (days m) /\ day_by_id m' = id_index (days m) /\
  trees_hold rl fuel (id_index (days m)) (interval_trees m') (timeslots m).
Proof.
  unfold _build_indexes. intros Hrun.
  apply bind_Ok_inv in Hrun as ([] & m1 & H1 & Hrun). injection H1 as <-.
  apply bind_Ok_inv in Hrun as (ds & m2 & H2 & Hrun). injection H2 as <- <-.
  apply bind_Ok_inv in Hrun as ([] & m3 & H3 & Hrun).
  rewrite for_each_index_day in H3. injection H3 as <-.
  apply bind_Ok_inv in Hrun as (ts & m4 & H4 & Hrun). injection H4 as <- <-.
  simpl in Hrun.
  eapply (for_each_index_slot rl fuel _ _ []) in Hrun; [|reflexivity|].
  - simpl in Hrun. exact Hrun.
  - intros key. simpl. by rewrite lookup_empty.
Qed.

(** ** [set_data] that returns *)

Lemma set_data_ok rl fuel dd sd m m' :
  set_data rl fuel dd sd m = (Ok tt, m') ->
  exists ds ts,
    map_res Day_from_dict dd = Ok ds /\ map_res TimeSlot_from_dict sd = Ok ts /\
    days m' = ds /\ timeslots m' = ts /\
    day_by_date m' = date_index ds /\ day_by_id m' = id_index ds /\
    trees_hold rl fuel (id_index ds) (interval_trees m') ts.
Proof.
  unfold set_data, except_format. intros Hrun.
  match type of Hrun with (match ?b m with _ => _ end) = _ => destruct (b m) as [r s'] eqn:Ebody end.
  destruct r as [[]|e|]; [|by destruct (is_KeyError_or_ValueError e)|done].
  injection Hrun as ->.
  apply bind_Ok_inv in Ebody as (ds & m1 & H1 & Ebody).
  unfold lift_res in H1. injection H1 as H1 <-.
  apply bind_Ok_inv in Ebody as ([] & m2 & H2 & Ebody). injection H2 as <-.
  apply bind_Ok_inv in Ebody as (ts & m3 & H3 & Ebody).
  unfold lift_res in H3. injection H3 as H3 <-.
  apply bind_Ok_inv in Ebody as ([] & m4 & H4 & Ebody). injection H4 as <-.
  apply build_indexes_ok in Ebody. simpl in Ebody.
  exists ds, ts. by destruct Ebody as (? & ? & ? & ? & ?).
Qed.

(** ** The state after a load *)

Lemma foldl_insert_lookup {K A} `{Countable K} (key : A -> K) :
  forall (xs : list A) (acc : gmap K A) k x,
  foldl (fun acc x => <[key x := x]> acc) acc xs !! k = Some x ->
  (x ∈ xs /\ key x = k) \/ acc !! k = Some x.
Proof.
  induction xs as [|y xs IH]; intros acc k x Hx; simpl in Hx; [by right|].
  apply IH in Hx as [[Hin Hk]|Hx].
  - left. split; [by right|done].
  - destruct (decide (key y = k)) as [<-|Hne].
    + rewrite lookup_insert_eq in Hx. injection Hx as <-. left. split; [by left|done].
    + rewrite lookup_insert_ne in Hx by done. by right.
Qed.

Lemma id_index_elem ds i d : id_index ds !! i = Some d -> d ∈ ds /\ Day_id d = i.
Proof.
  intros H. apply (foldl_insert_lookup Day_id) in H as [H|H]; [done|].
  by rewrite lookup_empty in H.
Qed.

Lemma date_index_elem ds k d : date_index ds !! k = Some d -> d ∈ ds /\ date_key d = k.
Proof.
  intros H. apply (foldl_insert_lookup date_key) in H as [H|H]; [done|].
  by rewrite lookup_empty in H.
Qed.

Lemma Day_from_dict_well_formed data d :
  Day_from_dict data = Ok d -> well_formed_day d.
Proof.
  unfold Day_from_dict. intros H.
  repeat (apply res_bind_Ok_inv in H as (? & ? & H)).
  injection H as <-. unfold well_formed_day. simpl.
  repeat match goal with
  | H : or_ValueError ?o = Ok _ |- _ =>
      destruct o eqn:?; simpl in H; [injection H as <-|done]
  end.
  repeat split; eauto using strptime_date_valid, strptime_time_valid.
Qed.

Lemma TimeSlot_from_dict_well_formed data s :
  TimeSlot_from_dict data = Ok s -> well_formed_slot s.
Proof.
  unfold TimeSlot_from_dict. intros H.
  repeat (apply res_bind_Ok_inv in H as (? & ? & H)).
  injection H as <-. unfold well_formed_slot. simpl.
  repeat match goal with
  | H : or_ValueError ?o = Ok _ |- _ =>
      destruct o eqn:?; simpl in H; [injection H as <-|done]
  end.
  split; eauto using strptime_time_valid.
Qed.

Lemma map_res_Forall {A B} (f : A -> res B) (P : B -> Prop) xs ys :
  (forall x y, f x = Ok y -> P y) -> map_res f xs = Ok ys -> Forall P ys.
Proof.
  intros Hf. rewrite map_res_Ok. induction 1; constructor; eauto.
Qed.

Lemma set_data_loaded rl fuel dd sd m m' :
  set_data rl fuel dd sd m = (Ok tt, m') -> loaded rl fuel m'.
Proof.
  intros H. apply set_data_ok in H as (ds & ts & Hd & Ht & <- & <- & Hdd & Hid & Htr).
  unfold loaded. split; [eapply map_res_Forall; [apply Day_from_dict_well_formed|done]|].
  split; [eapply map_res_Forall; [apply TimeSlot_from_dict_well_formed|done]|].
  done.
Qed.

(** ** Which keys have a tree *)

Lemma slots_of_elem ids key ts iv :
  iv ∈ slots_of ids key ts ->
  exists s, s ∈ ts /\ slot_key ids s = Some key /\ iv = slot_interval s.
Proof.
  unfold slots_of. rewrite list_elem_of_fmap. intros (s & -> & Hs).
  apply list_elem_of_filter in Hs as [Hk Hs]. by exists s.
Qed.

Lemma slots_of_length ids key ts : (length (slots_of ids key ts) <= length ts)%nat.
Proof. unfold slots_of. rewrite length_fmap. apply length_filter. Qed.

Lemma loaded_key_day rl fuel m key iv :
  loaded rl fuel m -> iv ∈ date_intervals m key ->
  exists day, day ∈ days m /\ key = date_key day.
Proof.
  intros (Hd & Ht & Hdd & Hid & Htr) Hiv. unfold date_intervals in Hiv.
  apply slots_of_elem in Hiv as (s & Hs & Hk & _).
  unfold slot_key in Hk. destruct (day_by_id m !! TimeSlot_day_id s) as [day|] eqn:E; [|done].
  injection Hk as <-. rewrite Hid in E. apply id_index_elem in E as [E _]. by exists day.
Qed.

(** A date string under which slots are filed is the text that [strftime]
    gives for the date it parses to. *)
Lemma loaded_key_normal rl fuel m key iv D :
  loaded rl fuel m -> iv ∈ date_intervals m key ->
  strptime_date key = Some D -> key = strftime_date D.
Proof.
  intros Hl Hiv HD. destruct (loaded_key_day _ _ _ _ _ Hl Hiv) as (day & Hday & ->).
  destruct Hl as (Hd & _). rewrite Forall_forall in Hd.
  destruct (Hd day Hday) as (Hv & _).
  unfold date_key in HD.
  destruct (Z.lt_ge_cases (d_year (Day_date day)) 1000) as [Hy|Hy].
  - by rewrite strptime_strftime_short in HD.
  - rewrite strptime_strftime_date in HD by done. injection HD as <-. done.
Qed.

Lemma loaded_interval_range rl fuel m key iv :
  loaded rl fuel m -> iv ∈ date_intervals m key ->
  0 <= fst (fst iv) <= 1439 /\ 0 <= snd (fst iv) <= 1439.
Proof.
  intros (_ & Ht & _) Hiv. unfold date_intervals in Hiv.
  apply slots_of_elem in Hiv as (s & Hs & _ & ->).
  rewrite Forall_forall in Ht. destruct (Ht s Hs) as [H1 H2].
  unfold slot_interval. simpl. split; by apply time_to_minutes_range.
Qed.

Lemma loaded_tree rl fuel m key :
  loaded rl fuel m ->
  match interval_trees m !! key with
  | Some t => date_intervals m key <> [] /\
              insert_all rl fuel (date_intervals m key) new_IntervalTree = (Ok tt, t)
  | None => date_intervals m key = []
  end.
Proof.
  intros (_ & _ & _ & Hid & Htr). unfold date_intervals. rewrite Hid. apply Htr.
Qed.

(** ** Calls on the tree of a date *)

Lemma with_tree_same {A} key (f : M IntervalTree A) m t r :
  interval_trees m !! key = Some t -> f t = (r, t) -> with_tree key f m = (r, m).
Proof.
  intros Ht Hf. unfold with_tree. rewrite Ht, Hf. unfold set_trees.
  rewrite insert_id by done. by rewrite manager_eta.
Qed.

Lemma tree_not_empty rl0 rl fuel ops t :
  insert_all rl0 fuel ops new_IntervalTree = (Ok tt, t) -> ops <> [] ->
  is_empty (S rl) t = (Ok false, t).
Proof.
  intros Hrun Hne. destruct (insert_all_new _ _ _ _ Hrun) as (tr & HR & _ & HP & _).
  rewrite (run_is_empty rl t tr _ ∅ HR).
  destruct tr; [|done]. simpl in HP. apply Permutation_nil in HP. done.
Qed.

Lemma log2_bound (n k rl : nat) :
  (n <= k)%nat -> (2 * Nat.log2 (k + 1) < rl)%nat -> (2 * Nat.log2 (n + 1) < rl)%nat.
Proof.
  intros Hn Hk. assert (Nat.log2 (n + 1) <= Nat.log2 (k + 1))%nat by (apply Nat.log2_le_mono; lia).
  lia.
Qed.

Lemma loaded_bound rl m key :
  (2 * Nat.log2 (length (timeslots m) + 1) < rl)%nat ->
  (2 * Nat.log2 (length (date_intervals m key) + 1) < rl)%nat.
Proof. apply log2_bound. apply slots_of_length. Qed.

Lemma sorted_nil : sorted [] = [].
Proof. reflexivity. Qed.

Lemma no_tree_or_empty_run rl fuel m key :
  loaded rl fuel m -> (date_intervals m key <> [] -> (0 < rl)%nat) ->
  no_tree_or_empty rl key m = (Ok (bool_decide (date_intervals m key = [])), m).
Proof.
  intros Hl Hrl. pose proof (loaded_tree rl fuel m key Hl) as Ht.
  unfold no_tree_or_empty. rewrite (bind_run _ _ m (interval_trees m !! key) m) by done.
  destruct (interval_trees m !! key) as [t|] eqn:E.
  - destruct Ht as [Hne Hins]. rewrite bool_decide_false by done.
    specialize (Hrl Hne). destruct rl as [|rl]; [lia|].
    eapply with_tree_same; [exact E|]. by eapply tree_not_empty.
  - by rewrite bool_decide_true.
Qed.

Lemma get_all_intervals_tree rl fuel m key :
  loaded rl fuel m -> (2 * Nat.log2 (length (timeslots m) + 1) < rl)%nat ->
  date_intervals m key <> [] ->
  with_tree key (get_all_intervals rl) m = (Ok (sorted (date_intervals m key)), m).
Proof.
  intros Hl Hrl Hne. pose proof (loaded_tree rl fuel m key Hl) as Ht.
  destruct (interval_trees m !! key) as [t|] eqn:E; [|done].
  destruct Ht as [_ Hins].
  eapply with_tree_same; [exact E|].
  destruct (get_all_intervals_run rl fuel _ t Hins (loaded_bound _ m key Hrl))
    as (tr & HP & _ & Hq & _).
  rewrite Hq. by rewrite (sorted_perm _ _ HP).
Qed.

Lemma find_overlapping_tree rl fuel m key s e :
  loaded rl fuel m -> (2 * Nat.log2 (length (timeslots m) + 1) < rl)%nat ->
  date_intervals m key <> [] ->
  exists ids, with_tree key (find_overlapping rl s e) m = (Ok ids, m) /\
    ids ≡ₚ brute_force (date_intervals m key) s e.
Proof.
  intros Hl Hrl Hne. pose proof (loaded_tree rl fuel m key Hl) as Ht.
  destruct (interval_trees m !! key) as [t|] eqn:E; [|done].
  destruct Ht as [_ Hins].
  destruct (find_overlapping_run rl fuel _ t s e Hins (loaded_bound _ m key Hrl))
    as (ids & Hq & HP).
  exists ids. split; [|done]. by eapply with_tree_same.
Qed.

(** ** The queries on a loaded manager *)

Lemma known_day_loaded rl fuel m D day :
  loaded rl fuel m -> day_by_date m !! strftime_date D = Some day ->
  days m <> [] /\ well_formed_day day.
Proof.
  intros (Hd & _ & Hdd & _) Hday. rewrite Hdd in Hday.
  apply date_index_elem in Hday as [Hin _].
  split; [by destruct (days m); [apply elem_of_nil in Hin|]|].
  rewrite Forall_forall in Hd. by apply Hd.
Qed.

Lemma get_busy_intervals_run rl fuel m date_str D day :
  loaded rl fuel m -> (date_intervals m date_str <> [] ->
   (2 * Nat.log2 (length (timeslots m) + 1) < rl)%nat) ->
  strptime_date date_str = Some D ->
  day_by_date m !! strftime_date D = Some day ->
  get_busy_intervals rl date_str m =
    (map_res (fun iv => pair_str (iv_range iv)) (sorted (date_intervals m date_str)), m).
Proof.
  intros Hl Hrl HD Hday.
  destruct (known_day_loaded _ _ _ _ _ Hl Hday) as [Hne _].
  unfold get_busy_intervals. rewrite (bind_run _ _ m (days m) m) by done.
  destruct (days m) as [|d0 ds]; [done|].
  unfold _parse_date. rewrite HD.
  rewrite (bind_run _ _ m D m) by done.
  rewrite (bind_run _ _ m (Some day) m) by (unfold _get_day_by_date, gets; by rewrite Hday).
  rewrite (bind_run _ _ _ _ _ (no_tree_or_empty_run rl fuel m date_str Hl
             (fun H => Nat.lt_lt_0 _ _ (Hrl H)))).
  destruct (decide (date_intervals m date_str = [])) as [Hnil|Hnn].
  - rewrite bool_decide_true by done. by rewrite Hnil, sorted_nil.
  - rewrite bool_decide_false by done.
    rewrite (bind_run _ _ _ _ _ (get_all_intervals_tree rl fuel m date_str Hl (Hrl Hnn) Hnn)).
    unfold lift_res. f_equal. apply map_res_ext. by intros [[s e] i].
Qed.

Lemma pair_str_times a b :
  valid_time a = true -> valid_time b = true ->
  pair_str (_time_to_minutes a, _time_to_minutes b) = Ok (strftime_time a, strftime_time b).
Proof. intros Ha Hb. unfold pair_str. simpl. by rewrite !minutes_str_time. Qed.

Lemma get_free_time_run rl fuel m date_str D day :
  loaded rl fuel m -> (date_intervals m date_str <> [] ->
   (2 * Nat.log2 (length (timeslots m) + 1) < rl)%nat) ->
  strptime_date date_str = Some D ->
  day_by_date m !! strftime_date D = Some day ->
  get_free_time rl date_str m = (map_res pair_str (free_minutes m date_str day), m).
Proof.
  intros Hl Hrl HD Hday.
  destruct (known_day_loaded _ _ _ _ _ Hl Hday) as [Hne (_ & Hs & He)].
  unfold get_free_time. rewrite (bind_run _ _ m (days m) m) by done.
  destruct (days m) as [|d0 ds]; [done|].
  unfold _parse_date. rewrite HD.
  rewrite (bind_run _ _ m D m) by done.
  rewrite (bind_run _ _ m (Some day) m) by (unfold _get_day_by_date, gets; by rewrite Hday).
  cbv zeta.
  rewrite (bind_run _ _ _ _ _ (no_tree_or_empty_run rl fuel m date_str Hl
             (fun H => Nat.lt_lt_0 _ _ (Hrl H)))).
  unfold free_minutes.
  destruct (decide (date_intervals m date_str = [])) as [Hnil|Hnn].
  - rewrite bool_decide_true by done. simpl map_res.
    rewrite pair_str_times by done. done.
  - rewrite bool_decide_false by done.
    rewrite (bind_run _ _ _ _ _ (get_all_intervals_tree rl fuel m date_str Hl (Hrl Hnn) Hnn)).
    unfold free_gaps.
    destruct (gaps_loop _ _ _) as [gaps cur]. done.
Qed.

Lemma is_time_available_run rl fuel m date_str st_str et_str D st et day :
  loaded rl fuel m -> (date_intervals m date_str <> [] ->
   (2 * Nat.log2 (length (timeslots m) + 1) < rl)%nat) ->
  strptime_date date_str = Some D ->
  strptime_time st_str = Some st -> strptime_time et_str = Some et ->
  time_ltb st et = true ->
  day_by_date m !! strftime_date D = Some day ->
  is_time_available rl date_str st_str et_str m =
    (Ok (negb (time_ltb st (Day_start day) || time_ltb (Day_end day) et) &&
         bool_decide (brute_force (date_intervals m date_str)
                        (_time_to_minutes st) (_time_to_minutes et) = [])), m).
Proof.
  intros Hl Hrl HD Hst Het Hlt Hday.
  destruct (known_day_loaded _ _ _ _ _ Hl Hday) as [Hne _].
  unfold is_time_available. rewrite (bind_run _ _ m (days m) m) by done.
  destruct (days m) as [|d0 ds]; [done|].
  unfold _parse_date, _parse_time. rewrite HD, Hst, Het.
  rewrite (bind_run _ _ m D m) by done.
  rewrite (bind_run _ _ m st m) by done.
  rewrite (bind_run _ _ m et m) by done.
  unfold time_leb. rewrite Hlt. cbn [negb].
  rewrite (bind_run _ _ m (Some day) m) by (unfold _get_day_by_date, gets; by rewrite Hday).
  destruct (time_ltb st (Day_start day) || time_ltb (Day_end day) et); [done|].
  cbn [negb andb].
  rewrite (bind_run _ _ _ _ _ (no_tree_or_empty_run rl fuel m date_str Hl
             (fun H => Nat.lt_lt_0 _ _ (Hrl H)))).
  destruct (decide (date_intervals m date_str = [])) as [Hnil|Hnn].
  - rewrite bool_decide_true by done. rewrite Hnil. done.
  - rewrite bool_decide_false by done.
    destruct (find_overlapping_tree rl fuel m date_str (_time_to_minutes st)
                (_time_to_minutes et) Hl (Hrl Hnn) Hnn) as (ids & Hq & HP).
    rewrite (bind_run _ _ _ _ _ Hq). unfold ret. f_equal. f_equal.
    apply Permutation_length in HP.
    destruct ids, (brute_force _ _ _); simpl in *; try done.
Qed.

(** ** The gaps between the intervals of a day *)

Lemma gaps_loop_acc : forall ivs cur acc,
  gaps_loop ivs cur acc =
  (acc ++ fst (gaps_loop ivs cur []), snd (gaps_loop ivs cur [])).
Proof.
  induction ivs as [|[[s e] i] ivs IH]; intros cur acc; simpl.
  - by rewrite app_nil_r.
  - rewrite IH. rewrite (IH _ (if cur <? s then [(cur, s)] else [])).
    simpl. destruct (cur <? s); simpl; [by rewrite <- app_assoc|done].
Qed.

Lemma gaps_loop_cons s e i ivs cur :
  gaps_loop ((s, e, i) :: ivs) cur [] =
  ((if cur <? s then [(cur, s)] else []) ++ fst (gaps_loop ivs (Z.max cur e) []),
   snd (gaps_loop ivs (Z.max cur e) [])).
Proof. simpl. by rewrite gaps_loop_acc. Qed.

(** Every gap starts at or after the current time and is not empty; the
    final current time is at or after every end. *)
Lemma gaps_loop_lower : forall ivs cur,
  cur <= snd (gaps_loop ivs cur []) /\
  (forall g, g ∈ fst (gaps_loop ivs cur []) -> cur <= fst g /\ fst g < snd g) /\
  (forall iv, iv ∈ ivs -> snd (fst iv) <= snd (gaps_loop ivs cur [])).
Proof.
  induction ivs as [|[[s e] i] ivs IH]; intros cur.
  - simpl. split; [lia|]. split; intros ? H; by apply elem_of_nil in H.
  - rewrite gaps_loop_cons. cbn [fst snd].
    destruct (IH (Z.max cur e)) as (H1 & H2 & H3).
    split; [lia|]. split.
    + intros g Hg. apply elem_of_app in Hg as [Hg|Hg].
      * destruct (cur <? s) eqn:E; [|by apply elem_of_nil in Hg].
        apply list_elem_of_singleton in Hg as ->. simpl. lia.
      * apply H2 in Hg. lia.
    + intros iv Hiv. apply elem_of_cons in Hiv as [->|Hiv]; [simpl; lia|by apply H3].
Qed.

(** No gap overlaps an interval, when the intervals come by ascending
    start. *)
Lemma gaps_loop_disjoint : forall ivs cur,
  StronglySorted (fun x y => k_start x <= k_start y) ivs ->
  forall g iv, g ∈ fst (gaps_loop ivs cur []) -> iv ∈ ivs ->
  ~ ranges_overlap (iv_range iv) g.
Proof.
  induction ivs as [|[[s e] i] ivs IH]; intros cur Hs g iv Hg Hiv.
  - by apply elem_of_nil in Hiv.
  - apply StronglySorted_inv in Hs as [Hs Hall]. rewrite Forall_forall in Hall.
    rewrite gaps_loop_cons in Hg. cbn [fst] in Hg.
    unfold ranges_overlap, iv_range. cbn [fst snd].
    apply elem_of_app in Hg as [Hg|Hg].
    + destruct (cur <? s) eqn:E; [|by apply elem_of_nil in Hg].
      apply list_elem_of_singleton in Hg as ->. cbn [fst snd].
      apply elem_of_cons in Hiv as [->|Hiv]; [simpl; lia|].
      apply Hall in Hiv. unfold k_start in Hiv. simpl in Hiv. lia.
    + apply elem_of_cons in Hiv as [->|Hiv].
      * destruct (gaps_loop_lower ivs (Z.max cur e)) as (_ & H2 & _).
        apply H2 in Hg. simpl. lia.
      * exact (IH _ Hs g iv Hg Hiv).
Qed.

(** Every minute between the current time and the final one is in a gap or
    in an interval. *)
Lemma gaps_loop_cover : forall ivs cur x,
  cur <= x < snd (gaps_loop ivs cur []) ->
  (exists iv, iv ∈ ivs /\ in_range (iv_range iv) x) \/
  (exists g, g ∈ fst (gaps_loop ivs cur []) /\ in_range g x).
Proof.
  induction ivs as [|[[s e] i] ivs IH]; intros cur x Hx.
  - simpl in Hx. lia.
  - rewrite gaps_loop_cons in *. cbn [fst snd] in *.
    destruct (Z_lt_le_dec x (Z.max cur e)) as [Hlt|Hge].
    + destruct (Z_lt_le_dec x s) as [Hxs|Hxs].
      * right. exists (cur, s). split; [|unfold in_range; simpl; lia].
        apply elem_of_app. left. rewrite (proj2 (Z.ltb_lt cur s)) by lia.
        by apply list_elem_of_singleton.
      * left. exists (s, e, i). split; [by left|]. unfold in_range, iv_range. simpl. lia.
    + destruct (IH (Z.max cur e) x ltac:(lia)) as [(iv & Hiv & Hin)|(g & Hg & Hin)].
      * left. exists iv. split; [by right|done].
      * right. exists g. split; [|done]. apply elem_of_app. by right.
Qed.

(** The ends of the gaps are starts of intervals. *)
Lemma gaps_loop_upper : forall ivs cur g,
  g ∈ fst (gaps_loop ivs cur []) -> exists iv, iv ∈ ivs /\ snd g = fst (fst iv).
Proof.
  induction ivs as [|[[s e] i] ivs IH]; intros cur g Hg.
  - by apply elem_of_nil in Hg.
  - rewrite gaps_loop_cons in Hg. cbn [fst] in Hg.
    apply elem_of_app in Hg as [Hg|Hg].
    + destruct (cur <? s); [|by apply elem_of_nil in Hg].
      apply list_elem_of_singleton in Hg as ->. exists (s, e, i). split; [by left|done].
    + destruct (IH _ _ Hg) as (iv & Hiv & Heq). exists iv. split; [by right|done].
Qed.

(** The starts of the gaps are the start of the day or ends of intervals. *)
Lemma gaps_loop_starts : forall ivs cur,
  (snd (gaps_loop ivs cur []) = cur \/
   exists iv, iv ∈ ivs /\ snd (gaps_loop ivs cur []) = snd (fst iv)) /\
  forall g, g ∈ fst (gaps_loop ivs cur []) ->
    fst g = cur \/ exists iv, iv ∈ ivs /\ fst g = snd (fst iv).
Proof.
  induction ivs as [|[[s e] i] ivs IH]; intros cur.
  - simpl. split; [by left|]. intros g Hg. by apply elem_of_nil in Hg.
  - rewrite gaps_loop_cons. cbn [fst snd].
    destruct (IH (Z.max cur e)) as [Hfin Hgaps].
    assert (Hmax : forall v, v = Z.max cur e ->
              v = cur \/ exists iv, iv ∈ (s, e, i) :: ivs /\ v = snd (fst iv)).
    { intros v ->. destruct (Z.max_spec cur e) as [[_ ->]|[_ ->]]; [|by left].
      right. exists (s, e, i). split; [by left|done]. }
    split.
    + destruct Hfin as [Hfin|(iv & Hiv & Hfin)]; [by apply Hmax|].
      right. exists iv. split; [by right|done].
    + intros g Hg. apply elem_of_app in Hg as [Hg|Hg].
      * destruct (cur <? s); [|by apply elem_of_nil in Hg].
        apply list_elem_of_singleton in Hg as ->. by left.
      * destruct (Hgaps g Hg) as [Hg'|(iv & Hiv & Hg')]; [by apply Hmax|].
        right. exists iv. split; [by right|done].
Qed.

(** *** [free_gaps] *)

Lemma free_gaps_elem ivs ds de g :
  g ∈ free_gaps ivs ds de <->
  g ∈ fst (gaps_loop ivs ds []) \/
  (g = (snd (gaps_loop ivs ds []), de) /\ snd (gaps_loop ivs ds []) < de).
Proof.
  unfold free_gaps. destruct (gaps_loop ivs ds []) as [gaps cur]. simpl.
  destruct (cur <? de) eqn:E.
  - rewrite elem_of_app, list_elem_of_singleton. apply Z.ltb_lt in E. naive_solver.
  - apply Z.ltb_ge in E. split; [by left|]. intros [H|[_ H]]; [done|lia].
Qed.

Lemma free_gaps_nonempty ivs ds de g :
  g ∈ free_gaps ivs ds de -> ds <= fst g /\ fst g < snd g.
Proof.
  rewrite free_gaps_elem. destruct (gaps_loop_lower ivs ds) as (H1 & H2 & _).
  intros [Hg|[-> Hlt]]; [by apply H2|simpl; lia].
Qed.

Lemma free_gaps_disjoint ivs ds de g iv :
  StronglySorted (fun x y => k_start x <= k_start y) ivs ->
  g ∈ free_gaps ivs ds de -> iv ∈ ivs -> ~ ranges_overlap (iv_range iv) g.
Proof.
  intros Hs. rewrite free_gaps_elem. intros [Hg|[-> Hlt]] Hiv.
  - by eapply gaps_loop_disjoint.
  - destruct (gaps_loop_lower ivs ds) as (_ & _ & H3). apply H3 in Hiv.
    unfold ranges_overlap, iv_range. simpl. lia.
Qed.

Lemma free_gaps_cover ivs ds de x :
  ds <= x < de ->
  (exists iv, iv ∈ ivs /\ in_range (iv_range iv) x) \/
  (exists g, g ∈ free_gaps ivs ds de /\ in_range g x).
Proof.
  intros Hx. destruct (Z_lt_le_dec x (snd (gaps_loop ivs ds []))) as [Hlt|Hge].
  - destruct (gaps_loop_cover ivs ds x ltac:(lia)) as [H|(g & Hg & Hin)]; [by left|].
    right. exists g. split; [|done]. apply free_gaps_elem. by left.
  - right. exists (snd (gaps_loop ivs ds []), de). split.
    + apply free_gaps_elem. right. split; [done|lia].
    + unfold in_range. simpl. lia.
Qed.

Lemma free_gaps_within ivs ds de g :
  (forall iv, iv ∈ ivs -> fst (fst iv) <= de) ->
  g ∈ free_gaps ivs ds de -> ds <= fst g /\ snd g <= de.
Proof.
  intros Hle Hg. split; [by eapply free_gaps_nonempty|].
  apply free_gaps_elem in Hg as [Hg|[-> _]]; [|simpl; lia].
  apply gaps_loop_upper in Hg as (iv & Hiv & ->). by apply Hle.
Qed.

(** The ends of the gaps are minutes of the day when those of the
    intervals and of the day are. *)
Lemma free_gaps_minutes ivs ds de g :
  0 <= ds <= 1439 -> 0 <= de <= 1439 ->
  (forall iv, iv ∈ ivs -> 0 <= fst (fst iv) <= 1439 /\ 0 <= snd (fst iv) <= 1439) ->
  g ∈ free_gaps ivs ds de -> 0 <= fst g <= 1439 /\ 0 <= snd g <= 1439.
Proof.
  intros Hds Hde Hiv Hg. destruct (gaps_loop_starts ivs ds) as [Hfin Hst].
  apply free_gaps_elem in Hg as [Hg|[-> _]].
  - split.
    + destruct (Hst g Hg) as [->|(iv & Hin & ->)]; [done|]. by apply Hiv.
    + apply gaps_loop_upper in Hg as (iv & Hin & ->). by apply Hiv.
  - simpl. split; [|done].
    destruct Hfin as [->|(iv & Hin & ->)]; [done|]. by apply Hiv.
Qed.

(** ** Ranges of minutes as text *)

Lemma pair_str_ok p :
  day_minutes p ->
  exists sa sb ta tb, pair_str p = Ok (sa, sb) /\
    minutes_str (fst p) = Ok sa /\ minutes_str (snd p) = Ok sb /\
    _parse_time sa = Ok ta /\ _time_to_minutes ta = fst p /\
    _parse_time sb = Ok tb /\ _time_to_minutes tb = snd p.
Proof.
  intros [Ha Hb].
  destruct (minutes_str_parse _ Ha) as (sa & ta & Hsa & Hpa & _ & Hma).
  destruct (minutes_str_parse _ Hb) as (sb & tb & Hsb & Hpb & _ & Hmb).
  exists sa, sb, ta, tb. unfold pair_str. rewrite Hsa, Hsb. done.
Qed.

Lemma map_res_pair_str ps :
  Forall day_minutes ps ->
  exists strs, map_res pair_str ps = Ok strs /\ Forall2 strs_of ps strs.
Proof.
  induction 1 as [|p ps Hp Hps (strs & IH & IH2)]; simpl.
  - exists []. split; [done|constructor].
  - destruct (pair_str_ok p Hp) as (sa & sb & _ & _ & Hq & _).
    rewrite Hq, IH. simpl. eexists. split; [done|]. by constructor.
Qed.

Lemma first_fit_spec d : forall gaps strs,
  Forall day_minutes gaps -> Forall2 strs_of gaps strs ->
  exists r, first_fit d strs = Ok r /\
    match first_gap d gaps with
    | Some g => exists s, minutes_str (fst g) = Ok s /\ r = Some s
    | None => r = None
    end.
Proof.
  intros gaps strs Hg H2. induction H2 as [|g [sa sb] gaps strs Hq H2 IH].
  - exists None. done.
  - apply Forall_cons in Hg as [Hg Hgs].
    destruct (pair_str_ok g Hg) as (sa' & sb' & ta & tb & Hq' & Hsa & _ & Hpa & Hma & Hpb & Hmb).
    unfold strs_of in Hq. rewrite Hq' in Hq. injection Hq as <- <-.
    cbn [first_fit]. rewrite Hpa, Hpb. cbn [res_bind]. rewrite Hma, Hmb.
    unfold first_gap. cbn [List.find].
    destruct (snd g - fst g >=? d) eqn:E.
    + exists (Some sa'). split; [done|]. by exists sa'.
    + exact (IH Hgs).
Qed.

(** The free ranges of a loaded day are made of minutes of the day. *)
Lemma free_minutes_day rl fuel m key day :
  loaded rl fuel m -> well_formed_day day ->
  Forall day_minutes (free_minutes m key day).
Proof.
  intros Hl (_ & Hs & He). apply time_to_minutes_range in Hs, He.
  unfold free_minutes. destruct (decide _) as [Hnil|Hne].
  - constructor; [done|constructor].
  - apply Forall_forall. intros g Hg.
    eapply free_gaps_minutes; [exact Hs|exact He| |exact Hg].
    intros iv Hiv. unfold sorted in Hiv. rewrite merge_sort_Permutation in Hiv.
    by eapply loaded_interval_range.
Qed.

Lemma date_intervals_minutes rl fuel m key :
  loaded rl fuel m ->
  Forall (fun iv => day_minutes (iv_range iv)) (sorted (date_intervals m key)).
Proof.
  intros Hl. apply Forall_forall. intros iv Hiv.
  unfold sorted in Hiv. rewrite merge_sort_Permutation in Hiv.
  by eapply loaded_interval_range.
Qed.

Lemma map_res_pair_str_iv ivs :
  Forall (fun iv => day_minutes (iv_range iv)) ivs ->
  exists strs, map_res (fun iv => pair_str (iv_range iv)) ivs = Ok strs /\
    Forall2 (fun iv q => strs_of (iv_range iv) q) ivs strs.
Proof.
  induction 1 as [|p ps Hp Hps (strs & IH & IH2)]; simpl.
  - exists []. split; [done|constructor].
  - destruct (pair_str_ok _ Hp) as (sa & sb & _ & _ & Hq & _).
    rewrite Hq, IH. simpl. eexists. split; [done|]. by constructor.
Qed.

(** A date string that is not what [strftime] prints has no slots filed
    under it. *)
Lemma raw_key_no_slots rl fuel m date_str D :
  loaded rl fuel m -> strptime_date date_str = Some D ->
  date_str <> strftime_date D -> date_intervals m date_str = [].
Proof.
  intros Hl HD Hne. destruct (date_intervals m date_str) as [|iv l] eqn:E; [done|].
  destruct Hne. eapply (loaded_key_normal rl fuel m date_str iv); [done| |done].
  rewrite E. by left.
Qed.

(** ** The dictionaries of days *)

Lemma foldl_insert_skip {K A} `{Countable K} (key : A -> K) :
  forall (xs : list A) (acc : gmap K A) k,
  (forall x, x ∈ xs -> key x <> k) ->
  foldl (fun acc x => <[key x := x]> acc) acc xs !! k = acc !! k.
Proof.
  induction xs as [|y xs IH]; intros acc k Hk; simpl; [done|].
  rewrite IH by (intros x Hx; apply Hk; by right).
  rewrite lookup_insert_ne; [done|]. apply Hk. by left.
Qed.

Lemma foldl_insert_last {K A} `{Countable K} (key : A -> K) (l1 l2 : list A) d
    (acc : gmap K A) :
  (forall x, x ∈ l2 -> key x <> key d) ->
  foldl (fun acc x => <[key x := x]> acc) acc (l1 ++ d :: l2) !! key d = Some d.
Proof.
  intros Hk. rewrite foldl_app. simpl. rewrite foldl_insert_skip by done.
  apply lookup_insert_eq.
Qed.

Lemma slots_of_empty key ts : slots_of ∅ key ts = [].
Proof.
  unfold slots_of. induction ts as [|s ts IH]; [done|].
  rewrite filter_cons. rewrite decide_False; [done|].
  unfold slot_key. by rewrite lookup_empty.
Qed.

Lemma brute_force_nil ops s e :
  brute_force ops s e = [] <->
  forall iv, iv ∈ ops -> snd (fst iv) <= s \/ fst (fst iv) >= e.
Proof.
  split.
  - intros Hnil [[s' e'] i] Hiv. simpl.
    destruct (decide (e' <= s \/ s' >= e)) as [|Hno]; [done|].
    assert (Hi : i ∈ brute_force ops s e) by (apply elem_of_brute_force; eauto).
    rewrite Hnil in Hi. by apply elem_of_nil in Hi.
  - intros Hall. destruct (brute_force ops s e) as [|i l] eqn:E; [done|].
    assert (Hi : i ∈ brute_force ops s e) by (rewrite E; by left).
    apply elem_of_brute_force in Hi as (s' & e' & Hin & Hno).
    destruct Hno. apply (Hall _ Hin).
Qed.

Lemma set_data_parsed rl fuel dd sd ds ts m :
  map_res Day_from_dict dd = Ok ds -> map_res TimeSlot_from_dict sd = Ok ts ->
  set_data rl fuel dd sd m =
  except_format
    (for_each index_day ds;;;
     ts' <- gets timeslots;;
     for_each (index_slot rl fuel) ts') (mkManager ds ts ∅ ∅ ∅).
Proof.
  intros Hd Ht. unfold set_data, except_format, _build_indexes, bind, lift_res.
  rewrite Hd, Ht. reflexivity.
Qed.


(** * Properties of the schedule manager *)

Lemma populated_ok :
  set_data 1000 1000 sample_days sample_timeslots new_ScheduleManager
  = (Ok tt, populated_schedule_manager).
Proof. unfold populated_schedule_manager. apply run_ok. vm_compute. reflexivity. Qed.

(** ** Dates and times as text *)

(** Printing a time of day and parsing the text gives the time back.  For
    a date the same holds from the year 1000 on; the year of an earlier date
    is printed with fewer than four digits, and [_parse_date] refuses the
    text. *)
Theorem strftime_strptime_round_trip d t :
  valid_date d = true -> valid_time t = true ->
  _parse_time (strftime_time t) = Ok t /\
  _parse_date (strftime_date d) =
    (if 1000 <=? d_year d then Ok d else Raise ValueError_date).
Proof.
  intros Hd Ht. unfold _parse_date, _parse_time.
  rewrite strptime_strftime_time by done. split; [done|].
  destruct (Z.leb_spec 1000 (d_year d)).
  - by rewrite strptime_strftime_date.
  - by rewrite strptime_strftime_short.
Qed.

Lemma strftime_strptime_round_trip_witness :
  _parse_time (strftime_time (mkTime 9 5)) = Ok (mkTime 9 5) /\
  _parse_date (strftime_date (mkDate 999 2 28)) =
    (if 1000 <=? d_year (mkDate 999 2 28) then Ok (mkDate 999 2 28)
     else Raise ValueError_date).
Proof. apply strftime_strptime_round_trip; reflexivity. Defined.

(** A time that [_parse_time] returns is a time of day: its minutes are in
    0..1439, [_minutes_to_time] turns them back into it, and parsing its
    printed form gives it again (so ["9:5"] and ["09:05"] are one time). *)
Theorem parse_time_normal_form s t :
  _parse_time s = Ok t ->
  0 <= hour t <= 23 /\ 0 <= minute t <= 59 /\
  0 <= _time_to_minutes t <= 1439 /\
  _minutes_to_time (_time_to_minutes t) = Ok t /\
  _parse_time (strftime_time t) = Ok t.
Proof.
  unfold _parse_time. destruct (strptime_time s) as [t'|] eqn:E; [|done].
  intros [= <-]. pose proof (strptime_time_valid _ _ E) as Hv.
  pose proof (proj1 (valid_time_bounds t') Hv) as [Hh Hm].
  split; [done|]. split; [done|]. split; [by apply time_to_minutes_range|].
  split; [by apply minutes_to_time_to_minutes|]. by rewrite strptime_strftime_time.
Qed.

Lemma parse_time_normal_form_witness :
  0 <= hour (mkTime 9 5) <= 23 /\ 0 <= minute (mkTime 9 5) <= 59 /\
  0 <= _time_to_minutes (mkTime 9 5) <= 1439 /\
  _minutes_to_time (_time_to_minutes (mkTime 9 5)) = Ok (mkTime 9 5) /\
  _parse_time (strftime_time (mkTime 9 5)) = Ok (mkTime 9 5).
Proof. apply (parse_time_normal_form "9:5"). reflexivity. Defined.

(** [_minutes_to_time] returns exactly on the minutes 0..1439 of a day,
    with the time of these minutes.  On any other number the constructor of
    [datetime.time] raises: [ValueError] while the hour [n // 60] fits a C
    [int] (from -2^31 to 2^31-1), and [OverflowError] beyond. *)
Theorem minutes_to_time_domain n :
  match _minutes_to_time n with
  | Ok t => 0 <= n <= 1439 /\ valid_time t = true /\ _time_to_minutes t = n
  | Raise e =>
      (e = ValueError_datetime /\
       (-2147483648 * 60 <= n < 0 \/ 1440 <= n < 2147483648 * 60)) \/
      (e = OverflowError /\ (n < -2147483648 * 60 \/ 2147483648 * 60 <= n))
  | OutOfFuel => False
  end.
Proof.
  destruct (Z_lt_le_dec n (-2147483648 * 60)) as [Hlow|Hlow].
  { rewrite minutes_to_time_overflow by lia. right. split; [done|lia]. }
  destruct (Z_lt_le_dec n 0) as [Hneg|Hpos].
  { rewrite minutes_to_time_raises by lia. left. split; [done|lia]. }
  destruct (Z_lt_le_dec n 1440) as [Hlt|Hge].
  { destruct (minutes_to_time_ok n ltac:(lia)) as (t & -> & Hv & Hm). split; [lia|done]. }
  destruct (Z_lt_le_dec n (2147483648 * 60)) as [Hhigh|Hhigh].
  - rewrite minutes_to_time_raises by lia. left. split; [done|lia].
  - rewrite minutes_to_time_overflow by lia. right. split; [done|lia].
Qed.

(** What [TimeSlot.from_dict] returns, [to_dict] writes in a form that
    [from_dict] reads back as the same record.  For a day that
    [Day.from_dict] returned the same holds from the year 1000 on; the date
    of an earlier day is written with fewer than four digits of the year,
    and [from_dict] raises the [ValueError] of [strptime] on it. *)
Theorem from_dict_to_dict_round_trip ddata d sdata s :
  Day_from_dict ddata = Ok d -> TimeSlot_from_dict sdata = Ok s ->
  TimeSlot_from_dict (TimeSlot_to_dict s) = Ok s /\
  Day_from_dict (Day_to_dict d) =
    (if 1000 <=? d_year (Day_date d) then Ok d else Raise ValueError_datetime).
Proof.
  intros Hd Hs. apply Day_from_dict_well_formed in Hd as (H1 & H2 & H3).
  apply TimeSlot_from_dict_well_formed in Hs as (H4 & H5).
  unfold Day_from_dict, Day_to_dict, TimeSlot_from_dict, TimeSlot_to_dict. simpl.
  rewrite !strptime_strftime_time by done. simpl. split; [by destruct s|].
  destruct (Z.leb_spec 1000 (d_year (Day_date d))).
  - rewrite strptime_strftime_date by done. simpl. by destruct d.
  - by rewrite strptime_strftime_short.
Qed.

Lemma from_dict_to_dict_round_trip_witness :
  TimeSlot_from_dict (TimeSlot_to_dict (mkTimeSlot 7 1 (mkTime 9 5) (mkTime 10 30)))
  = Ok (mkTimeSlot 7 1 (mkTime 9 5) (mkTime 10 30)) /\
  Day_from_dict (Day_to_dict (mkDay 1 (mkDate 2024 1 5) (mkTime 9 0) (mkTime 17 0)))
  = (if 1000 <=? d_year (Day_date (mkDay 1 (mkDate 2024 1 5) (mkTime 9 0) (mkTime 17 0)))
     then Ok (mkDay 1 (mkDate 2024 1 5) (mkTime 9 0) (mkTime 17 0))
     else Raise ValueError_datetime).
Proof.
  apply (from_dict_to_dict_round_trip
           (mkDayDict (Some 1) (Some "2024-1-5"%string) (Some "9:00"%string)
              (Some "17:00"%string))
           _
           (mkSlotDict (Some 7) (Some 1) (Some "9:5"%string) (Some "10:30"%string)));
    reflexivity.
Defined.

(** ** [set_data] *)

(** A batch with a day record that [Day.from_dict] refuses (a missing key,
    a date or time that does not parse) makes [set_data] raise the
    [ValueError] of the data format and leaves the manager as it was. *)
Theorem set_data_malformed_day rl fuel dd sd m :
  Exists (malformed Day_from_dict) dd ->
  set_data rl fuel dd sd m = (Raise ValueError_format, m).
Proof. apply set_data_bad_day. Qed.

Lemma set_data_malformed_day_witness :
  set_data 1000 1000
    [mkDayDict (Some 1) (Some "2024-02-30"%string) (Some "09:00"%string) (Some "17:00"%string)]
    sample_timeslots populated_schedule_manager
  = (Raise ValueError_format, populated_schedule_manager).
Proof.
  apply set_data_malformed_day. apply Exists_cons_hd. intros y. discriminate.
Defined.

(** A batch whose day records are all accepted and that has a slot record
    that [TimeSlot.from_dict] refuses makes [set_data] raise the
    [ValueError] of the data format after [self.days] was assigned: the
    list of days is the new one, and the slots, both dictionaries and the
    trees are the old ones. *)
Theorem set_data_malformed_slot rl fuel dd sd m :
  Forall (fun x => ~ malformed Day_from_dict x) dd ->
  Exists (malformed TimeSlot_from_dict) sd ->
  exists ds, map_res Day_from_dict dd = Ok ds /\
    set_data rl fuel dd sd m =
      (Raise ValueError_format,
       mkManager ds (timeslots m) (day_by_date m) (day_by_id m) (interval_trees m)).
Proof.
  intros Hd Hs.
  destruct (map_res_cases Day_from_dict from_dict_exn dd Day_from_dict_cases)
    as [[ds Hds]|(e & He & _)].
  - exists ds. split; [done|]. by apply set_data_bad_slot.
  - exfalso. clear Hs. induction dd as [|x dd IH]; [done|].
    apply Forall_cons in Hd as [Hx Hd]. simpl in He.
    destruct (Day_from_dict x) as [y| |] eqn:Ex; simpl in He.
    + destruct (map_res Day_from_dict dd) as [ys| |] eqn:Edd; simpl in He; try done.
      apply IH; [done|]. by injection He as <-.
    + apply Hx. intros y. congruence.
    + done.
Qed.

Lemma set_data_malformed_slot_witness :
  exists ds, map_res Day_from_dict
      [mkDayDict (Some 5) (Some "2024-03-01"%string) (Some "08:00"%string)
         (Some "12:00"%string)] = Ok ds /\
    set_data 1000 1000
      [mkDayDict (Some 5) (Some "2024-03-01"%string) (Some "08:00"%string)
         (Some "12:00"%string)]
      [mkSlotDict (Some 1) None (Some "09:00"%string) (Some "10:00"%string)]
      populated_schedule_manager
    = (Raise ValueError_format,
       mkManager ds (timeslots populated_schedule_manager)
         (day_by_date populated_schedule_manager) (day_by_id populated_schedule_manager)
         (interval_trees populated_schedule_manager)).
Proof.
  apply set_data_malformed_slot.
  - apply Forall_cons. split; [|constructor]. intros H. by eapply H.
  - apply Exists_cons_hd. intros y. discriminate.
Defined.

(** When both lists of records are accepted, what [set_data] does and the
    state it leaves do not depend on the state before: a load replaces the
    days, the slots, both dictionaries and the trees, and merges nothing. *)
Theorem set_data_forgets_prior_state rl fuel dd sd ds ts m m' :
  map_res Day_from_dict dd = Ok ds -> map_res TimeSlot_from_dict sd = Ok ts ->
  set_data rl fuel dd sd m = set_data rl fuel dd sd m'.
Proof.
  intros Hd Ht.
  by rewrite (set_data_parsed _ _ _ _ _ _ m Hd Ht), (set_data_parsed _ _ _ _ _ _ m' Hd Ht).
Qed.

Lemma set_data_forgets_prior_state_witness :
  set_data 1000 1000 sample_days sample_timeslots new_ScheduleManager
  = set_data 1000 1000 sample_days sample_timeslots populated_schedule_manager.
Proof.
  eapply set_data_forgets_prior_state; vm_compute; reflexivity.
Defined.

(** After a load that returned, [self.days] and [self.timeslots] are the
    parsed records in the order given; [day_by_date] and [day_by_id] map a
    date string or an id to the last day of the list that has it, and hold
    only days of the list. *)
Theorem set_data_indexes rl fuel dd sd m0 m :
  set_data rl fuel dd sd m0 = (Ok tt, m) ->
  map_res Day_from_dict dd = Ok (days m) /\
  map_res TimeSlot_from_dict sd = Ok (timeslots m) /\
  (forall l1 d l2, days m = l1 ++ d :: l2 ->
     ((forall d', d' ∈ l2 -> date_key d' <> date_key d) ->
      day_by_date m !! date_key d = Some d) /\
     ((forall d', d' ∈ l2 -> Day_id d' <> Day_id d) ->
      day_by_id m !! Day_id d = Some d)) /\
  (forall k d, day_by_date m !! k = Some d -> d ∈ days m /\ date_key d = k) /\
  (forall i d, day_by_id m !! i = Some d -> d ∈ days m /\ Day_id d = i).
Proof.
  intros H. apply set_data_ok in H as (ds & ts & Hd & Ht & <- & <- & Hdd & Hid & _).
  split; [done|]. split; [done|]. split.
  - intros l1 d l2 Hl. rewrite Hdd, Hid. unfold date_index, id_index. rewrite Hl.
    split; intros Hk; by apply foldl_insert_last.
  - rewrite Hdd, Hid. split; [apply date_index_elem|apply id_index_elem].
Qed.

Lemma set_data_indexes_witness :
  map_res Day_from_dict sample_days = Ok (days populated_schedule_manager) /\
  map_res TimeSlot_from_dict sample_timeslots = Ok (timeslots populated_schedule_manager) /\
  (forall l1 d l2, days populated_schedule_manager = l1 ++ d :: l2 ->
     ((forall d', d' ∈ l2 -> date_key d' <> date_key d) ->
      day_by_date populated_schedule_manager !! date_key d = Some d) /\
     ((forall d', d' ∈ l2 -> Day_id d' <> Day_id d) ->
      day_by_id populated_schedule_manager !! Day_id d = Some d)) /\
  (forall k d, day_by_date populated_schedule_manager !! k = Some d ->
     d ∈ days populated_schedule_manager /\ date_key d = k) /\
  (forall i d, day_by_id populated_schedule_manager !! i = Some d ->
     d ∈ days populated_schedule_manager /\ Day_id d = i).
Proof.
  apply (set_data_indexes 1000 1000 sample_days sample_timeslots new_ScheduleManager).
  exact populated_ok.
Defined.

(** After a load that returned, there is a tree for a date string exactly
    when a slot is filed under it (its [day_id] is the id of a day of that
    date), and the tree is the one that inserting the intervals of these
    slots, in the order of the list, into a new tree gives; slots whose
    [day_id] is no day's are in no tree. *)
Theorem set_data_trees rl fuel dd sd m0 m key :
  set_data rl fuel dd sd m0 = (Ok tt, m) ->
  match interval_trees m !! key with
  | Some t =>
      date_intervals m key <> [] /\
      insert_all rl fuel (date_intervals m key) new_IntervalTree = (Ok tt, t)
  | None => date_intervals m key = []
  end.
Proof. intros H. apply (loaded_tree rl fuel). by eapply set_data_loaded. Qed.

Lemma set_data_trees_witness :
  match interval_trees populated_schedule_manager !! "2024-01-15"%string with
  | Some t =>
      date_intervals populated_schedule_manager "2024-01-15" <> [] /\
      insert_all 1000 1000 (date_intervals populated_schedule_manager "2024-01-15")
        new_IntervalTree = (Ok tt, t)
  | None => date_intervals populated_schedule_manager "2024-01-15" = []
  end.
Proof.
  apply (set_data_trees 1000 1000 sample_days sample_timeslots new_ScheduleManager).
  exact populated_ok.
Defined.

(** ** Queries before a load, and after a load of no days *)

(** A load with an empty list of days returns whenever the slot records
    are accepted, files no slot, and leaves a manager that answers every
    query with the [RuntimeError] of data not loaded, as a new manager
    does. *)
Theorem empty_days_not_loaded rl fuel sd m0 m date_str st_str et_str d :
  set_data rl fuel [] sd m0 = (Ok tt, m) ->
  days m = [] /\ interval_trees m = ∅ /\
  get_busy_intervals rl date_str m = (Raise RuntimeError_not_loaded, m) /\
  get_free_time rl date_str m = (Raise RuntimeError_not_loaded, m) /\
  is_time_available rl date_str st_str et_str m = (Raise RuntimeError_not_loaded, m) /\
  (0 < d -> find_free_slot rl date_str d m = (Raise RuntimeError_not_loaded, m)).
Proof.
  intros H. pose proof (set_data_loaded _ _ _ _ _ _ H) as Hl.
  apply set_data_ok in H as (ds & ts & Hd & Ht & Hds & Hts & Hdd & Hid & Htr).
  simpl in Hd. injection Hd as <-.
  assert (Hno : interval_trees m = ∅).
  { apply map_eq. intros key. rewrite lookup_empty. specialize (Htr key).
    destruct (interval_trees m !! key); [|done].
    destruct Htr as [Hne _]. destruct Hne. apply slots_of_empty. }
  split; [done|]. split; [done|].
  unfold get_busy_intervals, get_free_time, is_time_available, find_free_slot.
  rewrite !(bind_run _ _ m (days m) m) by done. rewrite Hds.
  split; [done|]. split; [done|]. split; [done|].
  intros Hpos. rewrite (proj2 (Z.leb_gt d 0)) by lia.
  unfold get_free_time. rewrite (bind_raise _ _ m RuntimeError_not_loaded m); [done|].
  rewrite (bind_run _ _ m (days m) m) by done. by rewrite Hds.
Qed.

Lemma empty_days_not_loaded_witness :
  days (snd (set_data 1000 1000 [] sample_timeslots populated_schedule_manager)) = [] /\
  interval_trees (snd (set_data 1000 1000 [] sample_timeslots populated_schedule_manager))
  = ∅ /\
  get_busy_intervals 1000 "2024-01-15"
    (snd (set_data 1000 1000 [] sample_timeslots populated_schedule_manager))
  = (Raise RuntimeError_not_loaded,
     snd (set_data 1000 1000 [] sample_timeslots populated_schedule_manager)) /\
  get_free_time 1000 "2024-01-15"
    (snd (set_data 1000 1000 [] sample_timeslots populated_schedule_manager))
  = (Raise RuntimeError_not_loaded,
     snd (set_data 1000 1000 [] sample_timeslots populated_schedule_manager)) /\
  is_time_available 1000 "2024-01-15" "09:00" "10:00"
    (snd (set_data 1000 1000 [] sample_timeslots populated_schedule_manager))
  = (Raise RuntimeError_not_loaded,
     snd (set_data 1000 1000 [] sample_timeslots populated_schedule_manager)) /\
  (0 < 30 ->
   find_free_slot 1000 "2024-01-15" 30
     (snd (set_data 1000 1000 [] sample_timeslots populated_schedule_manager))
   = (Raise RuntimeError_not_loaded,
      snd (set_data 1000 1000 [] sample_timeslots populated_schedule_manager))).
Proof.
  apply (empty_days_not_loaded 1000 1000 sample_timeslots populated_schedule_manager).
  apply run_ok. vm_compute. reflexivity.
Defined.

(** [find_free_slot] with a duration that is not positive raises the
    [ValueError] of the duration before it looks at anything else: in every
    state, loaded or not, and for every date string. *)
Theorem find_free_slot_bad_duration rl date_str d m :
  d <= 0 -> find_free_slot rl date_str d m = (Raise ValueError_duration, m).
Proof. intros H. unfold find_free_slot. by rewrite (proj2 (Z.leb_le d 0)). Qed.

Lemma find_free_slot_bad_duration_witness :
  find_free_slot 1000 "not a date" 0 new_ScheduleManager
  = (Raise ValueError_duration, new_ScheduleManager).
Proof. apply find_free_slot_bad_duration. lia. Defined.

(** On a manager that has days, [is_time_available] with a date and times
    that parse and a start that is not before the end raises the
    [ValueError] of the order, whether the date is that of a day or not. *)
Theorem is_time_available_order rl m date_str st_str et_str D st et :
  days m <> [] ->
  strptime_date date_str = Some D ->
  strptime_time st_str = Some st -> strptime_time et_str = Some et ->
  time_ltb st et = false ->
  is_time_available rl date_str st_str et_str m = (Raise ValueError_order, m).
Proof.
  intros Hne HD Hst Het Hlt. unfold is_time_available.
  rewrite (bind_run _ _ m (days m) m) by done.
  destruct (days m) as [|d0 ds]; [done|].
  unfold _parse_date, _parse_time. rewrite HD, Hst, Het.
  rewrite (bind_run _ _ m D m) by done.
  rewrite (bind_run _ _ m st m) by done.
  rewrite (bind_run _ _ m et m) by done.
  unfold time_leb. by rewrite Hlt.
Qed.

Lemma is_time_available_order_witness :
  is_time_available 1000 "2030-12-31" "12:00" "12:00" populated_schedule_manager
  = (Raise ValueError_order, populated_schedule_manager).
Proof.
  eapply is_time_available_order; try reflexivity.
  assert (H : days populated_schedule_manager
            = [mkDay 1 (mkDate 2024 1 15) (mkTime 9 0) (mkTime 17 0);
               mkDay 2 (mkDate 2024 1 16) (mkTime 10 0) (mkTime 18 0)])
    by (vm_compute; reflexivity).
  rewrite H. discriminate.
Defined.

(** ** Queries on a loaded manager *)

(** [get_busy_intervals] returns the intervals of the slots filed under
    the date string, in ascending order of (start, end, id), each as the
    pair of its start and end printed as [HH:MM]; the manager is left as it
    was. *)
Theorem busy_intervals_of_slots rl fuel dd sd m0 m date_str D day :
  set_data rl fuel dd sd m0 = (Ok tt, m) ->
  (2 * Nat.log2 (length (timeslots m) + 1) < rl)%nat ->
  strptime_date date_str = Some D ->
  day_by_date m !! strftime_date D = Some day ->
  exists strs, get_busy_intervals rl date_str m = (Ok strs, m) /\
    Forall2 (fun iv q => strs_of (iv_range iv) q) (sorted (date_intervals m date_str)) strs /\
    StronglySorted tuple_le (sorted (date_intervals m date_str)) /\
    sorted (date_intervals m date_str) ≡ₚ date_intervals m date_str.
Proof.
  intros Hset Hrl HD Hday. pose proof (set_data_loaded _ _ _ _ _ _ Hset) as Hl.
  rewrite (get_busy_intervals_run rl fuel m date_str D day Hl (fun _ => Hrl) HD Hday).
  destruct (map_res_pair_str_iv _ (date_intervals_minutes rl fuel m date_str Hl))
    as (strs & Hs & H2).
  exists strs. rewrite Hs. split; [done|]. split; [done|].
  split; [apply StronglySorted_merge_sort; apply _|apply merge_sort_Permutation].
Qed.

Lemma busy_intervals_of_slots_witness :
  exists strs,
    get_busy_intervals 1000 "2024-01-15" populated_schedule_manager
    = (Ok strs, populated_schedule_manager) /\
    Forall2 (fun iv q => strs_of (iv_range iv) q)
      (sorted (date_intervals populated_schedule_manager "2024-01-15")) strs /\
    StronglySorted tuple_le (sorted (date_intervals populated_schedule_manager "2024-01-15")) /\
    sorted (date_intervals populated_schedule_manager "2024-01-15")
    ≡ₚ date_intervals populated_schedule_manager "2024-01-15".
Proof.
  apply (busy_intervals_of_slots 1000 1000 sample_days sample_timeslots new_ScheduleManager
           _ _ (mkDate 2024 1 15) (mkDay 1 (mkDate 2024 1 15) (mkTime 9 0) (mkTime 17 0))).
  - exact populated_ok.
  - vm_compute. lia.
  - reflexivity.
  - vm_compute. reflexivity.
Defined.

(** [is_time_available], for a date of a day and times that parse with the
    start before the end, returns -- leaving the manager as it was -- true
    exactly when the range is within the working hours of the day and no
    slot filed under the date string overlaps it, ranges being half-open. *)
Theorem is_time_available_iff rl fuel dd sd m0 m date_str st_str et_str D st et day :
  set_data rl fuel dd sd m0 = (Ok tt, m) ->
  (2 * Nat.log2 (length (timeslots m) + 1) < rl)%nat ->
  strptime_date date_str = Some D ->
  strptime_time st_str = Some st -> strptime_time et_str = Some et ->
  time_ltb st et = true ->
  day_by_date m !! strftime_date D = Some day ->
  exists b, is_time_available rl date_str st_str et_str m = (Ok b, m) /\
    (b = true <->
     time_leb (Day_start day) st = true /\ time_leb et (Day_end day) = true /\
     forall slot, slot ∈ timeslots m -> slot_key (day_by_id m) slot = Some date_str ->
       _time_to_minutes (TimeSlot_end slot) <= _time_to_minutes st \/
       _time_to_minutes et <= _time_to_minutes (TimeSlot_start slot)).
Proof.
  intros Hset Hrl HD Hst Het Hlt Hday. pose proof (set_data_loaded _ _ _ _ _ _ Hset) as Hl.
  eexists. split.
  { exact (is_time_available_run rl fuel m date_str st_str et_str D st et day
             Hl (fun _ => Hrl) HD Hst Het Hlt Hday). }
  rewrite andb_true_iff, negb_true_iff, orb_false_iff, bool_decide_eq_true.
  unfold time_leb. rewrite !negb_true_iff, brute_force_nil.
  split.
  - intros [[H1 H2] Hno]. split; [done|]. split; [done|].
    intros slot Hin Hkey.
    assert (Hiv : slot_interval slot ∈ date_intervals m date_str).
    { unfold date_intervals, slots_of. apply list_elem_of_fmap. exists slot.
      split; [done|]. by apply list_elem_of_filter. }
    apply Hno in Hiv. simpl in Hiv. lia.
  - intros (H1 & H2 & Hno). split; [done|].
    intros iv Hiv. apply slots_of_elem in Hiv as (slot & Hin & Hkey & ->).
    specialize (Hno slot Hin Hkey). simpl. lia.
Qed.

Lemma is_time_available_iff_witness :
  exists b,
    is_time_available 1000 "2024-01-15" "10:00" "11:00" populated_schedule_manager
    = (Ok b, populated_schedule_manager) /\
    (b = true <->
     time_leb (Day_start (mkDay 1 (mkDate 2024 1 15) (mkTime 9 0) (mkTime 17 0)))
       (mkTime 10 0) = true /\
     time_leb (mkTime 11 0)
       (Day_end (mkDay 1 (mkDate 2024 1 15) (mkTime 9 0) (mkTime 17 0))) = true /\
     forall slot, slot ∈ timeslots populated_schedule_manager ->
       slot_key (day_by_id populated_schedule_manager) slot = Some "2024-01-15"%string ->
       _time_to_minutes (TimeSlot_end slot) <= _time_to_minutes (mkTime 10 0) \/
       _time_to_minutes (mkTime 11 0) <= _time_to_minutes (TimeSlot_start slot)).
Proof.
  apply (is_time_available_iff 1000 1000 sample_days sample_timeslots new_ScheduleManager
           _ _ _ _ (mkDate 2024 1 15)).
  - exact populated_ok.
  - vm_compute. lia.
  - reflexivity.
  - reflexivity.
  - reflexivity.
  - reflexivity.
  - vm_compute. reflexivity.
Defined.

(** The day is looked up under the date printed as [YYYY-MM-DD], the tree
    under the date string as it was given.  For a date string that parses
    and is not in that form (["2024-1-15"]), no tree is found: the day has
    no busy interval, is free as a whole, and every range within its
    working hours is available, whatever slots are loaded for the date. *)
Theorem unpadded_date_sees_no_slots rl fuel dd sd m0 m date_str D day :
  set_data rl fuel dd sd m0 = (Ok tt, m) ->
  strptime_date date_str = Some D ->
  date_str <> strftime_date D ->
  day_by_date m !! strftime_date D = Some day ->
  get_busy_intervals rl date_str m = (Ok [], m) /\
  get_free_time rl date_str m =
    (Ok [(strftime_time (Day_start day), strftime_time (Day_end day))], m) /\
  forall st_str et_str st et,
    strptime_time st_str = Some st -> strptime_time et_str = Some et ->
    time_ltb st et = true ->
    time_leb (Day_start day) st = true -> time_leb et (Day_end day) = true ->
    is_time_available rl date_str st_str et_str m = (Ok true, m).
Proof.
  intros Hset HD Hne Hday. pose proof (set_data_loaded _ _ _ _ _ _ Hset) as Hl.
  pose proof (raw_key_no_slots rl fuel m date_str D Hl HD Hne) as Hnil.
  destruct (known_day_loaded _ _ _ _ _ Hl Hday) as [_ (_ & Hs & He)].
  assert (Hrl : date_intervals m date_str <> [] ->
                (2 * Nat.log2 (length (timeslots m) + 1) < rl)%nat) by done.
  split; [|split].
  - rewrite (get_busy_intervals_run rl fuel m date_str D day Hl Hrl HD Hday).
    by rewrite Hnil.
  - rewrite (get_free_time_run rl fuel m date_str D day Hl Hrl HD Hday).
    unfold free_minutes. rewrite decide_True by done. simpl.
    by rewrite pair_str_times.
  - intros st_str et_str st et Hst Het Hlt H1 H2.
    rewrite (is_time_available_run rl fuel m date_str st_str et_str D st et day
               Hl Hrl HD Hst Het Hlt Hday).
    unfold time_leb in H1, H2. apply negb_true_iff in H1, H2. rewrite H1, H2, Hnil.
    done.
Qed.

Lemma unpadded_date_sees_no_slots_witness :
  get_busy_intervals 1000 "2024-1-15" populated_schedule_manager
  = (Ok [], populated_schedule_manager) /\
  get_free_time 1000 "2024-1-15" populated_schedule_manager =
    (Ok [(strftime_time (Day_start (mkDay 1 (mkDate 2024 1 15) (mkTime 9 0) (mkTime 17 0))),
          strftime_time (Day_end (mkDay 1 (mkDate 2024 1 15) (mkTime 9 0) (mkTime 17 0))))],
     populated_schedule_manager) /\
  forall st_str et_str st et,
    strptime_time st_str = Some st -> strptime_time et_str = Some et ->
    time_ltb st et = true ->
    time_leb (Day_start (mkDay 1 (mkDate 2024 1 15) (mkTime 9 0) (mkTime 17 0))) st = true ->
    time_leb et (Day_end (mkDay 1 (mkDate 2024 1 15) (mkTime 9 0) (mkTime 17 0))) = true ->
    is_time_available 1000 "2024-1-15" st_str et_str populated_schedule_manager
    = (Ok true, populated_schedule_manager).
Proof.
  apply (unpadded_date_sees_no_slots 1000 1000 sample_days sample_timeslots
           new_ScheduleManager _ _ (mkDate 2024 1 15)).
  - exact populated_ok.
  - reflexivity.
  - discriminate.
  - vm_compute. reflexivity.
Defined.

(** The free ranges that [get_free_time] returns for a date of a day, read
    as half-open ranges of minutes: none of them overlaps a busy interval
    of the date; none starts before the start of the day; together with the
    busy intervals they cover every minute from the start of the day to its
    end.  They end at or before the end of the day if every busy interval
    starts at or before it -- a slot that starts after the end of the day
    makes a free range that goes beyond it. *)
Theorem free_time_complements_busy rl fuel dd sd m0 m date_str D day :
  set_data rl fuel dd sd m0 = (Ok tt, m) ->
  (2 * Nat.log2 (length (timeslots m) + 1) < rl)%nat ->
  strptime_date date_str = Some D ->
  day_by_date m !! strftime_date D = Some day ->
  exists strs, get_free_time rl date_str m = (Ok strs, m) /\
    Forall2 strs_of (free_minutes m date_str day) strs /\
    Forall day_minutes (free_minutes m date_str day) /\
    (forall g iv, g ∈ free_minutes m date_str day -> iv ∈ date_intervals m date_str ->
       ~ ranges_overlap (iv_range iv) g) /\
    (forall g, g ∈ free_minutes m date_str day -> _time_to_minutes (Day_start day) <= fst g) /\
    (forall x, _time_to_minutes (Day_start day) <= x < _time_to_minutes (Day_end day) ->
       (exists iv, iv ∈ date_intervals m date_str /\ in_range (iv_range iv) x) \/
       (exists g, g ∈ free_minutes m date_str day /\ in_range g x)) /\
    ((forall iv, iv ∈ date_intervals m date_str ->
        fst (fst iv) <= _time_to_minutes (Day_end day)) ->
     forall g, g ∈ free_minutes m date_str day -> snd g <= _time_to_minutes (Day_end day)).
Proof.
  intros Hset Hrl HD Hday. pose proof (set_data_loaded _ _ _ _ _ _ Hset) as Hl.
  destruct (known_day_loaded _ _ _ _ _ Hl Hday) as [_ Hwf].
  pose proof (free_minutes_day rl fuel m date_str day Hl Hwf) as Hmin.
  rewrite (get_free_time_run rl fuel m date_str D day Hl (fun _ => Hrl) HD Hday).
  destruct (map_res_pair_str _ Hmin) as (strs & Hs & H2).
  exists strs. rewrite Hs. split; [done|]. split; [done|]. split; [done|].
  assert (Hsorted : StronglySorted (fun x y => k_start x <= k_start y)
                      (sorted (date_intervals m date_str))).
  { apply sorted_by_start. apply StronglySorted_merge_sort; apply _. }
  assert (Hperm : forall iv, iv ∈ sorted (date_intervals m date_str) <->
                             iv ∈ date_intervals m date_str).
  { intros iv. unfold sorted. by rewrite merge_sort_Permutation. }
  unfold free_minutes. destruct (decide (date_intervals m date_str = [])) as [Hnil|Hne].
  - rewrite Hnil. split; [intros g iv _ Hiv; by apply elem_of_nil in Hiv|].
    split; [intros g Hg; apply list_elem_of_singleton in Hg as ->; simpl; lia|].
    split.
    + intros x Hx. right. eexists. split; [by apply list_elem_of_singleton|done].
    + intros _ g Hg. apply list_elem_of_singleton in Hg as ->. simpl. lia.
  - split; [intros g iv Hg Hiv; apply Hperm in Hiv; by eapply free_gaps_disjoint|].
    split; [intros g Hg; by eapply free_gaps_nonempty|].
    split.
    + intros x Hx.
      destruct (free_gaps_cover (sorted (date_intervals m date_str)) _ _ x Hx)
        as [(iv & Hiv & Hin)|H]; [|by right].
      left. exists iv. split; [by apply Hperm|done].
    + intros Hle g Hg. eapply free_gaps_within; [|exact Hg].
      intros iv Hiv. apply Hle. by apply Hperm.
Qed.

Lemma free_time_complements_busy_witness :
  exists strs,
    get_free_time 1000 "2024-01-15" populated_schedule_manager
    = (Ok strs, populated_schedule_manager) /\
    Forall2 strs_of
      (free_minutes populated_schedule_manager "2024-01-15"
         (mkDay 1 (mkDate 2024 1 15) (mkTime 9 0) (mkTime 17 0))) strs /\
    Forall day_minutes
      (free_minutes populated_schedule_manager "2024-01-15"
         (mkDay 1 (mkDate 2024 1 15) (mkTime 9 0) (mkTime 17 0))) /\
    (forall g iv,
       g ∈ free_minutes populated_schedule_manager "2024-01-15"
             (mkDay 1 (mkDate 2024 1 15) (mkTime 9 0) (mkTime 17 0)) ->
       iv ∈ date_intervals populated_schedule_manager "2024-01-15" ->
       ~ ranges_overlap (iv_range iv) g) /\
    (forall g,
       g ∈ free_minutes populated_schedule_manager "2024-01-15"
             (mkDay 1 (mkDate 2024 1 15) (mkTime 9 0) (mkTime 17 0)) ->
       _time_to_minutes (Day_start (mkDay 1 (mkDate 2024 1 15) (mkTime 9 0) (mkTime 17 0)))
       <= fst g) /\
    (forall x,
       _time_to_minutes (Day_start (mkDay 1 (mkDate 2024 1 15) (mkTime 9 0) (mkTime 17 0)))
       <= x <
       _time_to_minutes (Day_end (mkDay 1 (mkDate 2024 1 15) (mkTime 9 0) (mkTime 17 0))) ->
       (exists iv, iv ∈ date_intervals populated_schedule_manager "2024-01-15" /\
                   in_range (iv_range iv) x) \/
       (exists g,
          g ∈ free_minutes populated_schedule_manager "2024-01-15"
                (mkDay 1 (mkDate 2024 1 15) (mkTime 9 0) (mkTime 17 0)) /\
          in_range g x)) /\
    ((forall iv, iv ∈ date_intervals populated_schedule_manager "2024-01-15" ->
        fst (fst iv)
        <= _time_to_minutes (Day_end (mkDay 1 (mkDate 2024 1 15) (mkTime 9 0) (mkTime 17 0)))) ->
     forall g,
       g ∈ free_minutes populated_schedule_manager "2024-01-15"
             (mkDay 1 (mkDate 2024 1 15) (mkTime 9 0) (mkTime 17 0)) ->
       snd g
       <= _time_to_minutes (Day_end (mkDay 1 (mkDate 2024 1 15) (mkTime 9 0) (mkTime 17 0)))).
Proof.
  apply (free_time_complements_busy 1000 1000 sample_days sample_timeslots
           new_ScheduleManager _ _ (mkDate 2024 1 15)).
  - exact populated_ok.
  - vm_compute. lia.
  - reflexivity.
  - vm_compute. reflexivity.
Defined.

(** [find_free_slot] with a positive duration, for a date of a day, returns
    the start, printed as [HH:MM], of the first free range of the date that
    lasts at least the duration, and [None] when no single free range does;
    the manager is left as it was. *)
Theorem find_free_slot_first_fit rl fuel dd sd m0 m date_str D day d :
  set_data rl fuel dd sd m0 = (Ok tt, m) ->
  (2 * Nat.log2 (length (timeslots m) + 1) < rl)%nat ->
  strptime_date date_str = Some D ->
  day_by_date m !! strftime_date D = Some day ->
  0 < d ->
  exists r, find_free_slot rl date_str d m = (Ok r, m) /\
    match first_gap d (free_minutes m date_str day) with
    | Some g => exists s, minutes_str (fst g) = Ok s /\ r = Some s
    | None => r = None
    end.
Proof.
  intros Hset Hrl HD Hday Hd. pose proof (set_data_loaded _ _ _ _ _ _ Hset) as Hl.
  destruct (known_day_loaded _ _ _ _ _ Hl Hday) as [_ Hwf].
  pose proof (free_minutes_day rl fuel m date_str day Hl Hwf) as Hmin.
  destruct (map_res_pair_str _ Hmin) as (strs & Hs & H2).
  destruct (first_fit_spec d _ _ Hmin H2) as (r & Hr & Hspec).
  exists r. split; [|done].
  unfold find_free_slot. rewrite (proj2 (Z.leb_gt d 0)) by lia.
  erewrite bind_run.
  2: { rewrite (get_free_time_run rl fuel m date_str D day Hl (fun _ => Hrl) HD Hday).
       by rewrite Hs. }
  unfold lift_res. by rewrite Hr.
Qed.

Lemma find_free_slot_first_fit_witness :
  exists r,
    find_free_slot 1000 "2024-01-15" 120 populated_schedule_manager
    = (Ok r, populated_schedule_manager) /\
    match first_gap 120
            (free_minutes populated_schedule_manager "2024-01-15"
               (mkDay 1 (mkDate 2024 1 15) (mkTime 9 0) (mkTime 17 0))) with
    | Some g => exists s, minutes_str (fst g) = Ok s /\ r = Some s
    | None => r = None
    end.
Proof.
  apply (find_free_slot_first_fit 1000 1000 sample_days sample_timeslots
           new_ScheduleManager _ _ (mkDate 2024 1 15)).
  - exact populated_ok.
  - vm_compute. lia.
  - reflexivity.
  - vm_compute. reflexivity.
  - lia.
Defined.


(** * More properties of the interval tree *)

(** After insertions that returned, the objects linked from the root form
    a red-black tree -- the root is black, no red object has a red child,
    every path to the sentinel has the same number of black objects -- that
    is a search tree by start, with the cached maxima right, and holds
    exactly the inserted intervals; with [n] intervals its height is at
    most [2 * log2 (n + 1)]. *)
Theorem insert_all_red_black rl fuel ops t :
  insert_all rl fuel ops new_IntervalTree = (Ok tt, t) ->
  exists tr, Rep t tr (Z.of_nat (length ops)) ∅ /\
    rb tr /\ t_color tr = BLACK /\ bst tr /\ mx_ok tr /\ elems tr ≡ₚ ops /\
    (height tr <= 2 * Nat.log2 (length ops + 1))%nat.
Proof.
  intros Hrun. destruct (insert_all_new _ _ _ _ Hrun) as (tr & HR & ([H1 H2] & H3 & H4) & HP & Hh).
  exists tr. done.
Qed.

Lemma insert_all_red_black_witness :
  exists tr,
    Rep (snd (insert_all 10 10 [(1, 5, 1); (3, 8, 2); (10, 12, 3)] new_IntervalTree)) tr
      (Z.of_nat (length [(1, 5, 1); (3, 8, 2); (10, 12, 3)])) ∅ /\
    rb tr /\ t_color tr = BLACK /\ bst tr /\ mx_ok tr /\
    elems tr ≡ₚ [(1, 5, 1); (3, 8, 2); (10, 12, 3)] /\
    (height tr <= 2 * Nat.log2 (length [(1, 5, 1); (3, 8, 2); (10, 12, 3)] + 1))%nat.
Proof.
  apply (insert_all_red_black 10 10). apply run_ok. vm_compute. reflexivity.
Defined.

(** After insertions that returned, [size] is the number of insertions,
    and [is_empty] returns true exactly when there was none. *)
Theorem size_counts_inserts rl fuel ops t :
  insert_all rl fuel ops new_IntervalTree = (Ok tt, t) ->
  (0 < rl)%nat ->
  size t = Z.of_nat (length ops) /\
  is_empty rl t = (Ok (bool_decide (ops = [])), t).
Proof.
  intros Hrun Hrl. destruct (insert_all_new _ _ _ _ Hrun) as (tr & HR & _ & HP & _).
  split; [apply HR|]. destruct rl as [|rl]; [lia|].
  rewrite (run_is_empty rl t tr _ ∅ HR). f_equal. f_equal.
  destruct tr as [|c l a k m r]; simpl in *.
  - apply Permutation_nil in HP. subst. done.
  - destruct ops as [|o ops]; [|done]. symmetry in HP. apply Permutation_nil in HP.
    by destruct (elems l).
Qed.

Lemma size_counts_inserts_witness :
  size (snd (insert_all 10 10 [(1, 5, 1); (3, 8, 2)] new_IntervalTree))
  = Z.of_nat (length [(1, 5, 1); (3, 8, 2)]) /\
  is_empty 10 (snd (insert_all 10 10 [(1, 5, 1); (3, 8, 2)] new_IntervalTree))
  = (Ok (bool_decide ([(1, 5, 1); (3, 8, 2)] = [])),
     snd (insert_all 10 10 [(1, 5, 1); (3, 8, 2)] new_IntervalTree)).
Proof.
  apply (size_counts_inserts 10 10).
  - apply run_ok. vm_compute. reflexivity.
  - lia.
Defined.

(** The traversal [inorder] of [get_all_intervals] meets the stored
    intervals by ascending start already: the call of [sorted] on its
    result only reorders intervals of equal start. *)
Theorem inorder_by_start rl fuel ops t :
  insert_all rl fuel ops new_IntervalTree = (Ok tt, t) ->
  (2 * Nat.log2 (length ops + 1) < rl)%nat ->
  exists l, inorder rl rl (root t) [] t = (Ok l, t) /\ l ≡ₚ ops /\
    StronglySorted (fun x y => k_start x <= k_start y) l.
Proof.
  intros Hrun Hrl.
  destruct (get_all_intervals_run rl fuel ops t Hrun Hrl) as (tr & HP & Hb & _ & Hin & Hroot).
  exists (elems tr). split; [|split; [done|exact Hb]].
  rewrite Hroot. destruct tr as [|c l a k m r]; [|exact Hin].
  destruct rl as [|rl]; [lia|]. reflexivity.
Qed.

Lemma inorder_by_start_witness :
  exists l,
    inorder 10 10
      (root (snd (insert_all 10 10 [(5, 10, 1); (5, 7, 2); (2, 8, 3)] new_IntervalTree))) []
      (snd (insert_all 10 10 [(5, 10, 1); (5, 7, 2); (2, 8, 3)] new_IntervalTree))
    = (Ok l, snd (insert_all 10 10 [(5, 10, 1); (5, 7, 2); (2, 8, 3)] new_IntervalTree)) /\
    l ≡ₚ [(5, 10, 1); (5, 7, 2); (2, 8, 3)] /\
    StronglySorted (fun x y => k_start x <= k_start y) l.
Proof.
  apply (inorder_by_start 10 10).
  - apply run_ok. vm_compute. reflexivity.
  - vm_compute. lia.
Defined.

(** For an interval and a query range that are not empty, [overlaps_with]
    is true exactly when the two half-open ranges have a point in
    common. *)
Theorem overlaps_with_common_point n s e :
  start n < end_ n -> s < e ->
  (overlaps_with n s e = true <-> exists x, start n <= x < end_ n /\ s <= x < e).
Proof.
  intros Hn Hq. unfold overlaps_with.
  rewrite negb_true_iff, orb_false_iff, Z.leb_gt, Z.geb_leb, Z.leb_gt. split.
  - intros [H1 H2]. exists (Z.max (start n) s). lia.
  - intros (x & H1 & H2). lia.
Qed.

Lemma overlaps_with_common_point_witness :
  overlaps_with (new_IntervalNode 10 20 1 20 RED) 15 30 = true <->
  exists x, start (new_IntervalNode 10 20 1 20 RED) <= x < end_ (new_IntervalNode 10 20 1 20 RED)
            /\ 15 <= x < 30.
Proof. apply overlaps_with_common_point; simpl; lia. Defined.


(** * Equal intervals: the comparison that does not end *)

(** Two different objects [y] and [s] with equal numbers, whose left
    children are two different objects with equal numbers and no children,
    each pointing back to its parent: [y == s] compares the left children,
    which compares their parents, [y] and [s] again. *)
Lemma node_eq_cycle h y s b b' ny ns nb nb' :
  y <> s -> b <> b' ->
  h !! y = Some ny -> h !! s = Some ns -> h !! b = Some nb -> h !! b' = Some nb' ->
  start ny = start ns -> end_ ny = end_ ns -> slot_id ny = slot_id ns ->
  max_end ny = max_end ns ->
  left ny = Some b -> left ns = Some b' ->
  start nb = start nb' -> end_ nb = end_ nb' -> slot_id nb = slot_id nb' ->
  max_end nb = max_end nb' ->
  left nb = Some nil -> left nb' = Some nil ->
  right nb = Some nil -> right nb' = Some nil ->
  parent nb = Some y -> parent nb' = Some s ->
  forall rl, node_eq rl h y s = Raise RecursionError /\
             node_eq rl h b b' = Raise RecursionError.
Proof.
  intros Hys Hbb Hy Hs Hb Hb' E1 E2 E3 E4 Hl Hl' F1 F2 F3 F4 L1 L2 R1 R2 P1 P2.
  induction rl as [|rl [IH1 IH2]].
  - simpl. by rewrite !decide_False.
  - split.
    + cbn [node_eq]. rewrite decide_False by done. rewrite Hy, Hs. cbn [default from_option id]. unfold id.
      rewrite E1, E2, E3, E4, !Z.eqb_refl. cbn [negb].
      rewrite Hl, Hl'. by rewrite IH2.
    + cbn [node_eq]. rewrite decide_False by done. rewrite Hb, Hb'. cbn [default from_option id]. unfold id.
      rewrite F1, F2, F3, F4, !Z.eqb_refl. cbn [negb].
      rewrite L1, L2, R1, R2, P1, P2.
      assert (Hnn : node_eq rl h nil nil = Ok true).
      { by destruct rl. }
      rewrite Hnn. by rewrite IH1.
Qed.

(** The test [y == y.parent.right] of [_right_rotate] when it does not
    end. *)
Lemma wp_link_loop rl t p np x y s (Q : unit -> IntervalTree -> Prop) :
  nodes t !! nil = Some nil_node -> nodes t !! p = Some np ->
  is_Some (left np) -> p <> nil -> right np = Some s ->
  node_eq rl (nodes t) y s = Raise RecursionError ->
  wp (at_root <- (if is_None (Some p) then ret true else py_eq rl (Some p) (Some nil));;
      if at_root then set_root x
      else
        ypr <- rd right (Some p);;
        is_right <- py_eq rl (Some y) ypr;;
        if is_right then wr (set_right x) (Some p) else wr (set_left x) (Some p)) Q t.
Proof.
  intros Hnil Hp Hl Hp0 Hr Hloop. cbn [is_None].
  apply wp_bind. eapply wp_py_eq_nil_raw; [exact Hnil|exact Hp|exact Hl|exact Hp0|].
  cbv beta iota.
  apply wp_bind. unfold wp at 1, rd, node_at. rewrite Hp. simpl. rewrite Hr.
  unfold wp, bind, py_eq, lift, ref_eq. by rewrite Hloop.
Qed.

(** [_right_rotate(y)] where [y] is the left child of its parent, and the
    right child of the parent has the numbers of [y] and a left child with
    the numbers of the right child of the left child of [y], both without
    children: the call does not return. *)
Lemma wp_right_rotate_loop rl t ctx be cf p kp mp cs cb' b' s rs ctx' c al x kx mx c' cb b
    kb mb y ky my ga n ext (Q : unit -> IntervalTree -> Prop) :
  ctx = F L cf p kp mp (T cs (T cb' E b' kb mb E) s ky my rs) :: ctx' ->
  be = T cb E b kb mb E ->
  Rep t (plug ctx (T c (T c' al x kx mx be) y ky my ga)) n ext ->
  wp (_right_rotate rl (Some y)) Q t.
Proof.
  intros Ectx Ebe HR.
  pose proof HR as HR0. apply Rep_plug in HR0. simpl in HR0.
  destruct HR0 as (Hnil & (Hy & (Hx & Hal & Hbe) & Hga) & Hc &
    (Hy0 & Hyl & Hyga & Hdlg & (Hx0 & Hxal & Hxbe & Hdab & Hwal & Hwbe) & Hwga) &
    Hwc & Hd & Hlt & Hroot & Hsz & Hext).
  pose proof (root_addr_sub be) as Hrbe. pose proof (par_addr_sub ctx) as Hpsub.
  assert (Hxy : x ≠ y) by (clear -Hyl; set_solver).
  assert (Hxb : x ∉ root_addr be) by (clear -Hxbe Hrbe; set_solver).
  assert (Hyb : y ∉ root_addr be) by (clear -Hyl Hrbe; set_solver).
  assert (Hxp : x ∉ addrs_ctx ctx) by (clear -Hd; set_solver).
  assert (Hyp : y ∉ addrs_ctx ctx) by (clear -Hd; set_solver).
  assert (Hbep : addrs be ## addrs_ctx ctx) by (clear -Hd; set_solver).
  assert (Hnd : NoDup [x; y]) by (by apply NoDup_2).
  remember (nodes t) as h0 eqn:Eh.
  remember (next t) as n0 eqn:Hn. remember (root t) as r0 eqn:Hr.
  remember (size t) as s0 eqn:Hs. symmetry in Hn, Hr, Hs.
  assert (Hh : nodes t = over h0
            [(x, node_of c' al kx mx be (Some y));
             (y, node_of c (T c' al x kx mx be) ky my ga (ctx_par ctx))]).
  { rewrite <- Eh. symmetry. apply over_id. intros a nd Ha.
    repeat (apply elem_of_cons in Ha as [Ha|Ha]; [injection Ha as -> ->; done|]).
    by apply elem_of_nil in Ha. }
  revert Hh Hn Hr Hs. generalize t at 1 2 3 4 5 as tc. intros tc Hh Hn Hr Hs.
  unfold _right_rotate. simpl is_None. cbv iota.
  apply wp_bind. raw_rd Hh Hnd. simpl.
  apply wp_bind. raw_rd Hh Hnd. simpl.
  apply wp_bind. raw_rd Hh Hnd. simpl.
  apply wp_bind. raw_wr_step Hh Hnd Hn Hr Hs.
  apply wp_bind. raw_rd Hh Hnd. simpl.
  apply wp_bind_assoc. apply wp_bind.
  eapply (wp_reparent rl _ be (Some x) y).
  { cells_out Hh. exact Hnil. }
  { eapply rep_frame; [|exact Hbe]. intros a Ha. cells_out Hh. done. }
  { exact Hwbe. }
  intros t1 Hh1 Hn1 Hr1 Hs1.
  rewrite Hh, reparent_store_over in Hh1
    by (intros a Ha; simpl; rewrite !not_elem_of_cons; repeat split;
        [intros ->; done|intros ->; done|apply not_elem_of_nil]).
  rewrite Hn in Hn1. rewrite Hr in Hr1. rewrite Hs in Hs1.
  clear t0 Hh Hn Hr Hs.
  set (h1 := reparent_store be y h0) in *.
  apply wp_bind. raw_rd Hh1 Hnd. simpl.
  apply wp_bind. raw_wr_step Hh1 Hnd Hn1 Hr1 Hs1.
  apply wp_bind. raw_rd Hh1 Hnd. simpl.
  (* the test that does not end *)
  apply wp_bind_assoc. apply wp_bind.
  subst ctx. simpl in Hc. destruct Hc as (Hp & (Hs' & (Hb' & _ & _) & Hrs) & Hc').
  simpl in Hwc. destruct Hwc as (Hp0 & Hpsp & Hpc & Hdsc & (Hs0 & _) & Hwc').
  rewrite Ebe in Hd, Hxbe, Hyl, Hwbe. simpl in Hd, Hxbe, Hyl, Hwbe.
  assert (Hys : y <> s) by addr_ne.
  assert (Hyb' : y <> b') by addr_ne.
  assert (Hbb : b <> b') by addr_ne.
  assert (Hbs : b <> s) by addr_ne.
  assert (Hbp : b <> p) by addr_ne.
  assert (Hyp' : y <> p) by addr_ne.
  assert (Hxs : x <> s) by addr_ne.
  assert (Hxb' : x <> b') by addr_ne.
  assert (Hxp' : x <> p) by addr_ne.
  assert (Hbx : b <> x) by addr_ne.
  assert (Hby : b <> y) by addr_ne.
  assert (Hb0 : b <> nil) by (clear -Hwbe; tauto).
  match type of Hh1 with nodes ?tt = _ => rename tt into tf end.
  assert (Hout : forall a, a <> x -> a <> y -> nodes tf !! a = h1 !! a).
  { intros a H1 H2. rewrite Hh1. apply over_lookup_out.
    simpl. rewrite !not_elem_of_cons. repeat split; try done. apply not_elem_of_nil. }
  assert (Hbase : forall a, a <> b -> h1 !! a = h0 !! a).
  { intros a Ha. unfold h1. rewrite Ebe. simpl. by apply lookup_insert_ne. }
  eapply (wp_link_loop rl _ p _ _ y s).
  - rewrite Hout, Hbase by done. exact Hnil.
  - rewrite Hout, Hbase by done. exact Hp.
  - simpl. eauto.
  - exact Hp0.
  - reflexivity.
  - eapply (node_eq_cycle _ y s b b').
    + exact Hys.
    + exact Hbb.
    + cells_in Hh1 Hnd.
    + rewrite Hout, Hbase by done. exact Hs'.
    + rewrite Hout by done. unfold h1. rewrite Ebe. simpl. apply lookup_insert_eq.
    + rewrite Hout, Hbase by done. exact Hb'.
    + reflexivity.
    + reflexivity.
    + reflexivity.
    + reflexivity.
    + by rewrite Ebe.
    + reflexivity.
    + reflexivity.
    + reflexivity.
    + reflexivity.
    + reflexivity.
    + reflexivity.
    + reflexivity.
    + reflexivity.
    + reflexivity.
    + reflexivity.
    + reflexivity.
Qed.

Lemma wp_bind_False {S A B} (m : M S A) (k : A -> M S B) (Q : B -> S -> Prop) s :
  wp m (fun _ _ => False) s -> wp (bind m k) Q s.
Proof. unfold wp, bind. destruct (m s) as [[a| |] s1]; done. Qed.

(** One pass through the loop body with a red uncle on the right: the
    parent and the uncle become black, the grandparent red, and it is the
    next [node]. *)
Lemma wp_fixup_body_recolor rl t dp p kp mp sp g kg mg sg ctx2 ln a kn mn rn n ext
    (Q : ref -> IntervalTree -> Prop) :
  Rep t (plug (F dp RED p kp mp sp :: F L BLACK g kg mg sg :: ctx2) (T RED ln a kn mn rn))
    n ext ->
  t_color sg = RED ->
  (forall t', Rep t' (plug ctx2 (recolor (F dp RED p kp mp sp) (F L BLACK g kg mg sg)
                                   (T RED ln a kn mn rn))) n ext ->
     Q (Some g) t') ->
  wp (fixup_body rl (Some a)) Q t.
Proof.
  intros HR Hsg HQ.
  set (sub := T RED ln a kn mn rn) in *.
  set (fp := F dp RED p kp mp sp) in *.
  unfold fixup_body.
  apply wp_bind. eapply (wp_rd_focus _ _ (fp :: F L BLACK g kg mg sg :: ctx2)); [exact HR|].
  cbn [parent node_of ctx_par f_addr fp].
  apply wp_bind. eapply (wp_rd_frame _ _ fp (F L BLACK g kg mg sg :: ctx2) sub); [exact HR|].
  cbn [parent frame_node f_dir fp ctx_par f_addr is_None].
  assert (Hpar : parent (frame_node fp (root_ref sub) (Some g)) = Some g)
    by (unfold fp; destruct dp; reflexivity).
  rewrite Hpar. cbn [is_None].
  set (fg := F L BLACK g kg mg sg) in *.
  apply wp_bind. apply wp_bind.
  eapply (wp_rd_frame _ _ fg ctx2 (fill fp sub)); [exact HR|]. simpl.
  rewrite root_ref_fill. apply wp_py_eq_refl.
  apply wp_bind. eapply (wp_rd_frame _ _ fg ctx2 (fill fp sub)); [exact HR|]. simpl.
  apply wp_bind.
  apply (wp_mono _ (fun b t' => t' = t /\ b = Color_eqb (t_color sg) RED)).
  { destruct (is_Some_root_ref sg) as [u Hu]. rewrite Hu. simpl. rewrite <- Hu.
    apply wp_bind.
    eapply (wp_rd_color_root _ (swap fg (fill fp sub) :: ctx2) sg).
    { rewrite (plug_swap fg). exact HR. }
    by apply wp_ret. }
  intros b t' [-> ->]. rewrite Hsg. simpl.
  apply wp_bind.
  eapply (wp_wr_frame_color BLACK _ fp (fg :: ctx2) sub); [exact HR|].
  intros t1 HR1.
  apply wp_bind.
  eapply (wp_wr_sib_color BLACK _ fg ctx2 (fill (f_paint BLACK fp) sub)); [exact HR1| |].
  { simpl. by destruct sg. }
  intros t2 HR2.
  apply wp_bind. apply wp_bind.
  eapply (wp_rd_focus _ _ (f_paint BLACK fp :: f_paint_sib BLACK fg :: ctx2)); [exact HR2|].
  cbn [parent node_of ctx_par f_addr f_paint fp].
  eapply (wp_rd_frame _ _ (f_paint BLACK fp) (f_paint_sib BLACK fg :: ctx2) sub); [exact HR2|].
  assert (Hpar' : parent (frame_node (f_paint BLACK fp) (root_ref sub)
                     (ctx_par (f_paint_sib BLACK fg :: ctx2))) = Some g)
    by (unfold fp; destruct dp; reflexivity).
  rewrite Hpar'. cbn [is_None].
  apply wp_bind.
  eapply (wp_wr_frame_color RED _ (f_paint_sib BLACK fg) ctx2 (fill (f_paint BLACK fp) sub));
    [exact HR2|].
  intros t3 HR3. apply wp_ret. apply HQ. exact HR3.
Qed.

(** One pass through the loop body with a black uncle on the right and
    [node] a left child, when the rotation at the grandparent does not
    return. *)
Lemma wp_fixup_body_rotate_loop rl t p kp mp sp g kg mg sg ctx2 ln a kn mn rn n ext
    (Q : ref -> IntervalTree -> Prop) :
  Rep t (plug (F L RED p kp mp sp :: F L BLACK g kg mg sg :: ctx2) (T RED ln a kn mn rn))
    n ext ->
  t_color sg = BLACK ->
  ~ (ln = E /\ rn = E /\ twin_tree RED kn mn sp) ->
  (forall t', Rep t' (plug ctx2 (T RED (T BLACK (T RED ln a kn mn rn) p kp mp sp) g kg mg sg))
                n ext ->
     wp (_right_rotate rl (Some g)) (fun _ _ => False) t') ->
  wp (fixup_body rl (Some a)) Q t.
Proof.
  intros HR Hsg Htw Hrot.
  set (sub := T RED ln a kn mn rn) in *.
  set (fp := F L RED p kp mp sp) in *.
  unfold fixup_body.
  apply wp_bind. eapply (wp_rd_focus _ _ (fp :: F L BLACK g kg mg sg :: ctx2)); [exact HR|].
  cbn [parent node_of ctx_par f_addr fp].
  apply wp_bind. eapply (wp_rd_frame _ _ fp (F L BLACK g kg mg sg :: ctx2) sub); [exact HR|].
  cbn [parent frame_node f_dir fp ctx_par f_addr is_None].
  set (fg := F L BLACK g kg mg sg) in *.
  apply wp_bind. apply wp_bind.
  eapply (wp_rd_frame _ _ fg ctx2 (fill fp sub)); [exact HR|]. simpl.
  rewrite ?root_ref_fill. apply wp_py_eq_refl.
  apply wp_bind. eapply (wp_rd_frame _ _ fg ctx2 (fill fp sub)); [exact HR|]. simpl.
  apply wp_bind.
  apply (wp_mono _ (fun b t' => t' = t /\ b = Color_eqb (t_color sg) RED)).
  { destruct (is_Some_root_ref sg) as [u Hu]. rewrite Hu. simpl. rewrite <- Hu.
    apply wp_bind.
    eapply (wp_rd_color_root _ (swap fg (fill fp sub) :: ctx2) sg).
    { rewrite (plug_swap fg). exact HR. }
    by apply wp_ret. }
  intros b t' [-> ->]. rewrite Hsg. simpl.
  apply wp_bind. apply wp_bind.
  eapply (wp_rd_focus _ _ (fp :: fg :: ctx2)); [exact HR|].
  cbn [parent node_of ctx_par f_addr fp].
  eapply (wp_rd_frame _ _ fp (fg :: ctx2) sub); [exact HR|]. simpl.
  apply wp_bind.
  eapply (wp_py_eq_sib rl _ fp (fg :: ctx2)); [exact HR|exact Htw|].
  apply wp_bind. apply wp_ret.
  apply wp_bind. eapply (wp_rd_focus _ _ (fp :: fg :: ctx2)); [exact HR|]. simpl.
  apply wp_bind. apply wp_bind.
  eapply (wp_wr_frame_color BLACK _ fp (fg :: ctx2) sub); [exact HR|].
  intros t1 HR1.
  apply wp_bind.
  eapply (wp_rd_frame _ _ (f_paint BLACK fp) (fg :: ctx2) sub); [exact HR1|]. simpl.
  apply wp_bind.
  eapply (wp_wr_frame_color RED _ fg ctx2 (fill (f_paint BLACK fp) sub)); [exact HR1|].
  intros t2 HR2. eapply wp_mono; [apply Hrot; exact HR2|]. by intros ? ? [].
Qed.

(** [insert] up to the call of [_insert_fixup]: the new object is linked
    below the last object of the descent, and the maxima above it are
    refreshed. *)
Lemma wp_insert_prefix rl fuel t tr n s e i (Q : unit -> IntervalTree -> Prop) :
  Rep t tr n ∅ ->
  (forall t', Rep t' (plug (refresh_ctx (descend_abs s tr []) (leaf (next t) (s, e, i)))
                        (leaf (next t) (s, e, i))) n ∅ ->
     wp (_insert_fixup rl fuel (Some (next t));;; incr_size) Q t') ->
  wp (insert rl fuel s e i) Q t.
Proof.
  intros HR HQ. unfold insert.
  set (a := next t) in *. set (k := (s, e, i)) in *.
  apply wp_bind. eapply wp_alloc; [exact HR|]. fold a. intros t1 HR1 _.
  apply wp_bind. eapply wp_wr_ext; [exact HR1|apply lookup_insert_eq|].
  clear t1 HR1. intros t1 HR1. rewrite insert_insert_eq in HR1.
  apply wp_bind. eapply wp_wr_ext; [exact HR1|apply lookup_insert_eq|].
  clear t1 HR1. intros t1 HR1. rewrite insert_insert_eq in HR1.
  apply wp_bind. eapply wp_wr_ext; [exact HR1|apply lookup_insert_eq|].
  clear t1 HR1. intros t1 HR1. rewrite insert_insert_eq in HR1.
  assert (Hnew : set_parent (Some nil) (set_right (Some nil) (set_left (Some nil)
                   (new_IntervalNode s e i e RED))) = node_of RED E k e E (Some nil)).
  { unfold new_IntervalNode, node_of. simpl. by destruct (e =? 0). }
  rewrite Hnew in HR1. clear Hnew.
  apply wp_bind. eapply wp_get_root; [exact HR1|].
  apply wp_bind.
  eapply (wp_descend_root rl fuel _ tr n _ a); [apply lookup_insert_eq|exact HR1|].
  simpl start. change (k_start k) with s.
  set (ctx := descend_abs s tr []) in *.
  assert (Hpath : path_ok s ctx) by (apply descend_path_ok; constructor).
  clear t1 HR1. intros t1 HR1.
  apply wp_bind. eapply wp_wr_ext; [exact HR1|apply lookup_insert_eq|].
  clear t1 HR1. intros t1 HR1. rewrite insert_insert_eq in HR1.
  change (set_parent (ctx_par ctx) (node_of RED E k e E (Some nil)))
    with (node_of RED E k e E (ctx_par ctx)) in HR1.
  assert (Hlinked : wp
    (at_root <- (b <- py_eq rl (ctx_par ctx) (Some nil);;
                 if b then ret true else ret (is_None (ctx_par ctx)));;
     if at_root then set_root (Some a)
     else
       ns <- rd start (Some a);;
       ps <- rd start (ctx_par ctx);;
       if ns <=? ps then wr (set_left (Some a)) (ctx_par ctx)
       else wr (set_right (Some a)) (ctx_par ctx))
    (fun _ t' => Rep t' (plug ctx (leaf a k)) n ∅) t1).
  { destruct ctx as [|f ctx'] eqn:Ectx.
    - simpl. apply wp_bind. apply wp_bind. apply wp_py_eq_refl. apply wp_ret.
      eapply wp_link_root; [exact HR1|apply lookup_insert_eq|].
      intros t' HR'. rewrite delete_insert_eq, delete_empty in HR'. exact HR'.
    - simpl ctx_par. apply wp_bind. apply wp_bind.
      destruct (fill_T f E) as (l & r & Hf & _).
      assert (HR1' : Rep t1 (plug ctx' (T (f_color f) l (f_addr f) (f_key f) (f_max f) r))
                       n (<[a:=node_of RED E k e E (Some (f_addr f))]> ∅)).
      { rewrite <- Hf. exact HR1. }
      eapply wp_py_eq_nil; [exact HR1'|]. apply wp_ret. simpl.
      apply wp_bind. eapply wp_rd_ext; [exact HR1|apply lookup_insert_eq|]. simpl.
      apply wp_bind. eapply wp_rd_focus; [exact HR1'|]. simpl.
      change (k_start k) with s.
      apply Forall_cons in Hpath as [Hdir _].
      assert (Hw : (if s <=? k_start (f_key f)
                    then wr (set_left (Some a)) (Some (f_addr f))
                    else wr (set_right (Some a)) (Some (f_addr f))) =
                   wr (match f_dir f with
                       | L => set_left (Some a)
                       | R => set_right (Some a)
                       end) (Some (f_addr f))).
      { rewrite Hdir. by destruct (s <=? k_start (f_key f)). }
      rewrite Hw.
      eapply (wp_link_new _ f ctx' a k e); [exact HR1|apply lookup_insert_eq|].
      intros t' HR'. rewrite delete_insert_eq, delete_empty in HR'. exact HR'. }
  apply wp_bind_assoc. apply wp_bind. eapply wp_mono; [exact Hlinked|]. clear HR1 Hlinked.
  clear t1. intros [] t1 HR1.
  apply wp_bind.
  eapply (wp_update_ancestors rl fuel n ∅ _ ctx (leaf a k)); [exact HR1|reflexivity|].
  change (upd (leaf a k)) with (leaf a k).
  clear t1 HR1. intros t1 HR1. apply HQ. exact HR1.
Qed.

(** ** The twelfth insertion of the same interval *)

Ltac same_key_eval H :=
  repeat (progress (unfold ins in H; cbn -[Z.leb Z.max] in H;
                    unfold k_start, k_end, upd_m, opt_max, leaf, f_upd in H;
                    cbn -[Z.leb Z.max] in H; rewrite ?Z.leb_refl, ?Z.max_id in H)).

(** On the tree that eleven insertions of one interval build, the
    insertion of the same interval does not return: the recolouring at the
    new object moves [node] to its grandparent, the right rotation that
    follows compares the rotated object with its sibling, and this
    comparison does not end. *)
Lemma twelfth_insert_loops rl fuel t s e i a1 a2 a3 a4 a5 a6 a7 a8 a9 a10 a11
    (Q : unit -> IntervalTree -> Prop) :
  Rep t (ins_all E [a1; a2; a3; a4; a5; a6; a7; a8; a9; a10; a11] (replicate 11 (s, e, i)))
    11 ∅ ->
  wp (insert rl fuel s e i) Q t.
Proof.
  intros HR. cbn [replicate ins_all] in HR. same_key_eval HR.
  eapply wp_insert_prefix; [exact HR|]. intros t1 HR1.
  set (a12 := next t) in *. clearbody a12. clear t HR.
  match type of HR1 with Rep _ (plug ?c _) _ _ => remember c as ctx eqn:Ectx in HR1 end.
  same_key_eval Ectx. subst ctx.
  apply wp_bind. unfold _insert_fixup. cbn [is_None]. apply wp_bind.
  assert (Hcond1 : forall (Q' : bool -> IntervalTree -> Prop),
            Q' true t1 -> wp (fixup_cond rl (Some a12)) Q' t1).
  { intros Q' HQ'.
    eapply (wp_fixup_cond rl t1 _ (T RED E a12 (s, e, i) e E)); [exact HR1|done|exact HQ']. }
  destruct fuel as [|fuel]; cbn [fixup_loop]; apply wp_bind; apply Hcond1;
    [apply wp_out_of_fuel|].
  apply wp_bind.
  eapply wp_fixup_body_recolor; [exact HR1|reflexivity|].
  clear Hcond1. intros t2 HR2. unfold recolor in HR2.
  cbn [fill f_paint f_paint_sib f_dir f_color f_addr f_key f_max f_sib paint] in HR2.
  assert (Hcond2 : forall (Q' : bool -> IntervalTree -> Prop),
            Q' true t2 -> wp (fixup_cond rl (Some a10)) Q' t2).
  { intros Q' HQ'.
    eapply (wp_fixup_cond rl t2
              [F L RED a8 (s, e, i) e (T BLACK E a7 (s, e, i) e E);
               F L BLACK a6 (s, e, i) e (T BLACK E a5 (s, e, i) e E);
               F L BLACK a4 (s, e, i) e
                 (T BLACK (T BLACK E a3 (s, e, i) e E) a2 (s, e, i) e
                    (T BLACK E a1 (s, e, i) e E))]
              (T RED (T BLACK (T RED E a12 (s, e, i) e E) a11 (s, e, i) e E) a10 (s, e, i) e
                 (T BLACK E a9 (s, e, i) e E)));
      [exact HR2|done|exact HQ']. }
  destruct fuel as [|fuel]; cbn [fixup_loop]; apply wp_bind; apply Hcond2;
    [apply wp_out_of_fuel|].
  apply wp_bind.
  eapply (wp_fixup_body_rotate_loop rl t2 a8 (s, e, i) e (T BLACK E a7 (s, e, i) e E)
            a6 (s, e, i) e (T BLACK E a5 (s, e, i) e E)
            [F L BLACK a4 (s, e, i) e
               (T BLACK (T BLACK E a3 (s, e, i) e E) a2 (s, e, i) e
                  (T BLACK E a1 (s, e, i) e E))]);
    [exact HR2|reflexivity|by intros [? _]|].
  intros t3 HR3.
  eapply wp_right_rotate_loop; [reflexivity|reflexivity|exact HR3].
Qed.


(** * Twelve insertions of one interval *)

(** Inserting the same interval [(s, e, i)] twelve times into a new tree
    never completes, whatever the interval, the recursion limit and the
    fuel of the loops: in the twelfth call the [==] that [@dataclass]
    generated for [IntervalNode] is applied, in [_right_rotate], to two
    different objects with equal numbers whose children have equal numbers
    too, and goes from the children back to these objects through
    [parent].  With the recursion limit 1000 of CPython the eleven first
    calls of [insert(5, 5, 1)] return and the twelfth raises
    [RecursionError]. *)
Theorem identical_inserts_do_not_return rl fuel s e i :
  match fst (insert_all rl fuel (replicate 12 (s, e, i)) new_IntervalTree) with
  | Ok _ => False
  | Raise _ | OutOfFuel => True
  end /\
  fst (insert_all 1000 1000 (replicate 11 (5, 5, 1)) new_IntervalTree) = Ok tt /\
  fst (insert_all 1000 1000 (replicate 12 (5, 5, 1)) new_IntervalTree)
  = Raise RecursionError.
Proof.
  split; [|split; vm_compute; reflexivity].
  change (replicate 12 (s, e, i)) with (replicate 11 (s, e, i) ++ [(s, e, i)]).
  rewrite insert_all_app. unfold bind at 1.
  destruct (insert_all rl fuel (replicate 11 (s, e, i)) new_IntervalTree)
    as [[[]| |] t11] eqn:E11; [|done..].
  destruct (insert_all_Rep rl fuel _ _ E 0 t11 Rep_new (proj1 Inv_E) E11)
    as (adrs & Hlen & HR).
  do 11 (destruct adrs as [|? adrs]; [discriminate Hlen|]).
  destruct adrs; [|discriminate Hlen].
  change (0 + Z.of_nat (length (replicate 11 (s, e, i)))) with 11 in HR.
  pose proof (twelfth_insert_loops rl fuel t11 s e i _ _ _ _ _ _ _ _ _ _ _
                (fun _ _ => False) HR) as Hwp.
  unfold wp in Hwp. cbn [insert_all]. unfold bind.
  destruct (insert rl fuel s e i t11) as [[[]| |] t12]; done.
Qed.


(** * Insertions that return

    The lemmas on the code of [insert] once more, for runs that return:
    the recursion limit is at least one, the loops have fuel for the
    height of the tree, and no two stored intervals are the same triple,
    so that [==] tells two objects apart at their numbers. *)

Lemma twp_ret {S A} (a : A) (Q : A -> S -> Prop) s : Q a s -> twp (ret a) Q s.
Proof. done. Qed.

Lemma twp_bind {S A B} (m : M S A) (k : A -> M S B) (Q : B -> S -> Prop) s :
  twp m (fun a s' => twp (k a) Q s') s -> twp (bind m k) Q s.
Proof. unfold twp, bind. destruct (m s) as [[a| |] s']; auto. Qed.

Lemma twp_mono {S A} (m : M S A) (Q Q' : A -> S -> Prop) s :
  twp m Q s -> (forall a s', Q a s' -> Q' a s') -> twp m Q' s.
Proof. unfold twp. destruct (m s) as [[a| |] s']; auto. Qed.

Lemma twp_run {S A} (m : M S A) (Q : A -> S -> Prop) s :
  twp m Q s -> exists a s', m s = (Ok a, s') /\ Q a s'.
Proof. unfold twp. destruct (m s) as [[a| |] s']; [eauto|done..]. Qed.

Lemma node_key_node_of c l k m r par : node_key (node_of c l k m r par) = k.
Proof. by destruct k as [[? ?] ?]. Qed.


Lemma NoDup_plug_sub ctx t : NoDup (elems (plug ctx t)) -> NoDup (elems t).
Proof.
  rewrite elems_plug. intros H. apply NoDup_app in H as (_ & _ & H).
  by apply NoDup_app in H as (H & _).
Qed.

Lemma sib_key_NoDup f ctx sub k :
  NoDup (elems (plug (f :: ctx) sub)) -> k ∈ elems sub ->
  match f_sib f with T _ _ _ ks _ _ => k <> ks | E => True end.
Proof.
  intros H Hk. simpl in H. apply NoDup_plug_sub in H. rewrite elems_fill in H.
  destruct (f_sib f) as [|cs ls s ks ms rs]; [done|]. intros ->.
  destruct (f_dir f); simpl in H.
  - apply NoDup_app in H as (_ & H & _). apply (H _ Hk). set_solver.
  - apply NoDup_app in H as (_ & H & _). apply (H ks); set_solver.
Qed.

Lemma diff_key_NoDup d ctx sub k :
  NoDup (elems (plug ctx sub)) -> k ∈ elems sub -> diff_key d ctx k.
Proof.
  intros H Hk. destruct ctx as [|f ctx]; [done|]. simpl. intros _.
  pose proof (sib_key_NoDup f ctx sub k H Hk) as H'.
  destruct (f_sib f); [done|]. congruence.
Qed.

Lemma length_refresh_ctx ctx : forall sub, length (refresh_ctx ctx sub) = length ctx.
Proof. induction ctx as [|f ctx IH]; intros sub; simpl; [done|]. by rewrite IH. Qed.

Lemma length_descend_abs s : forall sub ctx,
  (length (descend_abs s sub ctx) <= length ctx + height sub)%nat.
Proof.
  induction sub as [|c l IHl b k m r IHr]; intros ctx; simpl; [lia|].
  destruct (s <=? k_start k).
  - etrans; [apply IHl|]. simpl. lia.
  - etrans; [apply IHr|]. simpl. lia.
Qed.

Lemma twp_rd_focus {A} (f : IntervalNode -> A) t ctx c l a k m r n ext Q :
  Rep t (plug ctx (T c l a k m r)) n ext ->
  Q (f (node_of c l k m r (ctx_par ctx))) t ->
  twp (rd f (Some a)) Q t.
Proof.
  intros HR HQ. unfold twp, rd, node_at. by rewrite (Rep_focus _ _ _ _ _ _ _ _ _ _ HR).
Qed.

Lemma twp_wr_focus (u : IntervalNode -> IntervalNode) c' m' t ctx c l a k m r n ext Q :
  Rep t (plug ctx (T c l a k m r)) n ext ->
  u (node_of c l k m r (ctx_par ctx)) = node_of c' l k m' r (ctx_par ctx) ->
  (forall t', Rep t' (plug ctx (T c' l a k m' r)) n ext -> Q tt t') ->
  twp (wr u (Some a)) Q t.
Proof.
  intros HR Hu HQ. unfold twp, wr, node_at.
  rewrite (Rep_focus _ _ _ _ _ _ _ _ _ _ HR). simpl. apply HQ.
  apply Rep_plug in HR. apply Rep_plug. simpl in *.
  destruct HR as (Hnil & (Ha & Hl & Hr) & Hc & (Ha0 & Hal & Har & Hlr & Hwl & Hwr) & Hwc & Hd & Hnext & Hroot & Hsz & Hext).
  rewrite Hu.
  split; [rewrite lookup_insert_ne; done|].
  split; [split; [by rewrite lookup_insert_eq|split]|].
  - eapply rep_frame; [|done]. intros b Hb. rewrite lookup_insert_ne; [done|set_solver].
  - eapply rep_frame; [|done]. intros b Hb. rewrite lookup_insert_ne; [done|set_solver].
  - split; [eapply repc_frame; [|done]; intros b Hb; rewrite lookup_insert_ne; [done|set_solver]|].
    do 6 (split; [done|]).
    intros b nd Hb. destruct (Hext b nd Hb) as (H1 & H2 & H3 & H4).
    split; [|done]. rewrite lookup_insert_ne; [done|set_solver].
Qed.

Lemma twp_py_eq_refl rl p (Q : bool -> IntervalTree -> Prop) t :
  Q true t -> twp (py_eq (S rl) p p) Q t.
Proof.
  intros HQ. unfold twp, py_eq, lift, ref_eq. destruct p as [a|]; [|done].
  by rewrite node_eq_refl.
Qed.

Lemma twp_py_eq_nil rl t ctx c l a k m r n ext (Q : bool -> IntervalTree -> Prop) :
  Rep t (plug ctx (T c l a k m r)) n ext ->
  Q false t ->
  twp (py_eq (S rl) (Some a) (Some nil)) Q t.
Proof.
  intros HR HQ. unfold twp, py_eq, lift, ref_eq.
  pose proof (Rep_focus _ _ _ _ _ _ _ _ _ _ HR) as Ha.
  apply Rep_plug in HR. simpl in HR.
  destruct HR as (Hnil & _ & _ & (Ha0 & _) & _).
  erewrite node_eq_nil_r; eauto. simpl. destruct l; eauto.
Qed.

Lemma twp_py_ne_nil rl t ctx c l a k m r n ext (Q : bool -> IntervalTree -> Prop) :
  Rep t (plug ctx (T c l a k m r)) n ext ->
  Q true t ->
  twp (py_ne (S rl) (Some a) (Some nil)) Q t.
Proof.
  intros HR HQ. unfold py_ne. apply twp_bind. eapply twp_py_eq_nil; eauto.
Qed.

Lemma twp_is_real rl t ctx sub n ext (Q : bool -> IntervalTree -> Prop) :
  Rep t (plug ctx sub) n ext ->
  Q (is_T sub) t ->
  twp (is_real (S rl) (root_ref sub)) Q t.
Proof.
  intros HR HQ. unfold is_real. destruct sub as [|c l a k m r]; simpl.
  - unfold py_ne. apply twp_bind. by apply twp_py_eq_refl.
  - eapply twp_py_ne_nil; eauto.
Qed.

Lemma twp_get_root t tr n ext (Q : ref -> IntervalTree -> Prop) :
  Rep t tr n ext -> Q (root_of tr) t -> twp get_root Q t.
Proof. intros (_ & _ & _ & _ & Hr & _) HQ. unfold twp, get_root. by rewrite Hr. Qed.

Lemma twp_update_max_end rl t ctx sub n ext (Q : unit -> IntervalTree -> Prop) :
  Rep t (plug ctx sub) n ext ->
  (forall t', Rep t' (plug ctx (upd sub)) n ext -> Q tt t') ->
  twp (_update_max_end (S rl) (root_ref sub)) Q t.
Proof.
  intros HR HQ. unfold _update_max_end.
  destruct sub as [|c l a k m r]; simpl.
  { apply twp_bind. apply twp_py_eq_refl. by apply HQ. }
  apply twp_bind. eapply twp_py_eq_nil; [exact HR|].
  apply twp_bind. eapply twp_rd_focus; [exact HR|].
  apply twp_bind. eapply (twp_wr_focus _ c (k_end k)); [exact HR|reflexivity|].
  clear t HR. intros t HR. simpl.
  apply twp_bind. eapply twp_rd_focus; [exact HR|]. simpl.
  (* the left child *)
  apply twp_bind.
  apply (twp_mono _ (fun b t' => t' = t /\ b = is_T l)).
  { destruct l as [|cl ll al kl ml rl']; simpl.
    - unfold py_ne. apply twp_bind. by apply twp_py_eq_refl.
    - eapply (twp_py_ne_nil _ _ (F L c a k (k_end k) r :: ctx)); [exact HR|done]. }
  intros b t' [-> ->].
  apply twp_bind.
  apply (twp_mono _ (fun _ t' => Rep t' (plug ctx (T c l a k (opt_max (k_end k) l) r)) n ext)).
  { destruct l as [|cl ll al kl ml rl']; simpl.
    - by apply twp_ret.
    - apply twp_bind. eapply twp_rd_focus; [exact HR|]. simpl.
      apply twp_bind. eapply (twp_rd_focus _ _ (F L c a k (k_end k) r :: ctx)); [exact HR|]. simpl.
      eapply (twp_wr_focus _ c (Z.max (k_end k) ml)); [exact HR|reflexivity|]. auto. }
  clear t HR. intros _ t HR.
  (* the right child *)
  apply twp_bind. eapply twp_rd_focus; [exact HR|]. simpl.
  apply twp_bind.
  apply (twp_mono _ (fun b t' => t' = t /\ b = is_T r)).
  { destruct r as [|cr lr ar kr mr rr]; simpl.
    - unfold py_ne. apply twp_bind. by apply twp_py_eq_refl.
    - eapply (twp_py_ne_nil _ _ (F R c a k (opt_max (k_end k) l) l :: ctx)); [exact HR|done]. }
  intros b t' [-> ->].
  destruct r as [|cr lr ar kr mr rr]; simpl.
  - apply twp_ret. by apply HQ.
  - apply twp_bind. eapply twp_rd_focus; [exact HR|]. simpl.
    apply twp_bind. eapply (twp_rd_focus _ _ (F R c a k (opt_max (k_end k) l) l :: ctx)); [exact HR|]. simpl.
    eapply (twp_wr_focus _ c (Z.max (opt_max (k_end k) l) mr)); [exact HR|reflexivity|]. auto.
Qed.

Lemma twp_rd_raw {A} (f : IntervalNode -> A) t h0 cs i a nd Q :
  nodes t = over h0 cs -> NoDup cs.*1 -> cs !! i = Some (a, nd) ->
  Q (f nd) t ->
  twp (rd f (Some a)) Q t.
Proof.
  intros Hh Hnd Hi HQ. unfold twp, rd, node_at.
  rewrite Hh. erewrite over_lookup_in; eauto.
Qed.

Lemma twp_wr_raw (u : IntervalNode -> IntervalNode) t h0 cs i a nd Q :
  nodes t = over h0 cs -> NoDup cs.*1 -> cs !! i = Some (a, nd) ->
  (forall t', nodes t' = over h0 (<[i := (a, u nd)]> cs) ->
     next t' = next t -> root t' = root t -> size t' = size t -> Q tt t') ->
  twp (wr u (Some a)) Q t.
Proof.
  intros Hh Hnd Hi HQ. unfold twp, wr, node_at.
  rewrite Hh. erewrite over_lookup_in; eauto. simpl.
  apply HQ; simpl; auto. by eapply over_insert.
Qed.

Lemma twp_set_root p t (Q : unit -> IntervalTree -> Prop) :
  (forall t', nodes t' = nodes t -> next t' = next t -> root t' = p ->
     size t' = size t -> Q tt t') ->
  twp (set_root p) Q t.
Proof. intros HQ. unfold twp, set_root. by apply HQ. Qed.

Lemma twp_py_eq_nil_raw rl t a na (Q : bool -> IntervalTree -> Prop) :
  nodes t !! nil = Some nil_node -> nodes t !! a = Some na ->
  is_Some (left na) -> a ≠ nil ->
  Q false t ->
  twp (py_eq (S rl) (Some a) (Some nil)) Q t.
Proof.
  intros Hnil Ha Hl Hne HQ. unfold twp, py_eq, lift, ref_eq.
  by erewrite node_eq_nil_r.
Qed.

Lemma twp_py_eq_diff_raw rl t a b na nb (Q : bool -> IntervalTree -> Prop) :
  nodes t !! nil = Some nil_node ->
  a ≠ b -> nodes t !! a = Some na -> nodes t !! b = Some nb ->
  child_ok (nodes t) a (left na) -> child_ok (nodes t) a (right na) ->
  child_ok (nodes t) b (left nb) -> child_ok (nodes t) b (right nb) ->
  node_key na <> node_key nb ->
  Q false t ->
  twp (py_eq (S rl) (Some a) (Some b)) Q t.
Proof.
  intros Hnil Hab Ha Hb H1 H2 H3 H4 Hk HQ. unfold twp, py_eq, lift, ref_eq.
  cbn [node_eq]. rewrite decide_False by done. rewrite Ha, Hb.
  cbn [default from_option id]. unfold id.
  destruct (start na =? start nb) eqn:E1; [|done].
  destruct (end_ na =? end_ nb) eqn:E2; [|done].
  destruct (slot_id na =? slot_id nb) eqn:E3; [|done].
  destruct Hk. unfold node_key. apply Z.eqb_eq in E1, E2, E3. congruence.
Qed.

Ltac traw_rd Hh Hnd :=
  first [ eapply (twp_rd_raw _ _ _ _ 0%nat); [exact Hh|exact Hnd|reflexivity|]
        | eapply (twp_rd_raw _ _ _ _ 1%nat); [exact Hh|exact Hnd|reflexivity|] ].

Ltac traw_wr Hh Hnd :=
  first [ eapply (twp_wr_raw _ _ _ _ 0%nat); [exact Hh|exact Hnd|reflexivity|]
        | eapply (twp_wr_raw _ _ _ _ 1%nat); [exact Hh|exact Hnd|reflexivity|] ].

Ltac traw_wr_step Hh Hnd Hn Hr Hs :=
  traw_wr Hh Hnd;
  let t' := fresh "t" in
  let Hh' := fresh "Hh" in
  let Hn' := fresh "Hn" in
  let Hr' := fresh "Hr" in
  let Hs' := fresh "Hs" in
  intros t' Hh' Hn' Hr' Hs';
  rewrite Hn in Hn'; rewrite Hr in Hr'; rewrite Hs in Hs';
  clear Hh Hn Hr Hs;
  rename Hh' into Hh; rename Hn' into Hn; rename Hr' into Hr; rename Hs' into Hs;
  simpl in Hh.

Lemma twp_reparent rl t s par np (Q : unit -> IntervalTree -> Prop) :
  nodes t !! nil = Some nil_node -> rep (nodes t) s par -> wf s ->
  (forall t', nodes t' = reparent_store s np (nodes t) ->
     next t' = next t -> root t' = root t -> size t' = size t -> Q tt t') ->
  twp (c <- py_ne (S rl) (root_ref s) (Some nil);;
      if c then wr (set_parent (Some np)) (root_ref s) else ret tt) Q t.
Proof.
  intros Hnil Hrep Hwf HQ. destruct s as [|c l a k m r]; simpl in *.
  - apply twp_bind. unfold py_ne. apply twp_bind. apply twp_py_eq_refl.
    apply twp_ret. simpl. apply twp_ret. destruct t. by apply HQ.
  - destruct Hrep as (Ha & _). destruct Hwf as (Ha0 & _).
    apply twp_bind. unfold py_ne. apply twp_bind.
    eapply twp_py_eq_nil_raw; [exact Hnil|exact Ha|apply is_Some_root_ref|done|].
    apply twp_ret. simpl.
    unfold twp, wr, node_at. rewrite Ha. simpl. by apply HQ.
Qed.

Lemma twp_link_parent rl (first : dir) t ctx x y nx (Q : unit -> IntervalTree -> Prop) :
  nodes t !! nil = Some nil_node ->
  repc (nodes t) ctx (Some x) -> wf_ctx ctx -> x ∉ addrs_ctx ctx -> x ≠ nil ->
  nodes t !! x = Some nx ->
  child_ok (nodes t) x (left nx) -> child_ok (nodes t) x (right nx) ->
  (forall f ctx' c l s k m r, ctx = f :: ctx' -> f_dir f ≠ first ->
     f_sib f = T c l s k m r -> node_key nx <> k) ->
  (forall t', nodes t' = link_store ctx (Some y) (nodes t) ->
     next t' = next t ->
     root t' = match ctx with [] => Some y | _ => root t end ->
     size t' = size t -> Q tt t') ->
  twp (at_root <- (if is_None (ctx_par ctx) then ret true
                  else py_eq (S rl) (ctx_par ctx) (Some nil));;
      if at_root then set_root (Some y)
      else
        match first with
        | L =>
            xpl <- rd left (ctx_par ctx);;
            is_left <- py_eq (S rl) (Some x) xpl;;
            if is_left then wr (set_left (Some y)) (ctx_par ctx)
            else wr (set_right (Some y)) (ctx_par ctx)
        | R =>
            xpr <- rd right (ctx_par ctx);;
            is_right <- py_eq (S rl) (Some x) xpr;;
            if is_right then wr (set_right (Some y)) (ctx_par ctx)
            else wr (set_left (Some y)) (ctx_par ctx)
        end) Q t.
Proof.
  intros Hnil Hc Hwc Hxc Hx0 Hx Hcl Hcr Htw HQ.
  destruct ctx as [|[d cf p kp mp sp] ctx']; simpl in *.
  { apply twp_bind. apply twp_py_eq_refl. apply twp_set_root. intros. by apply HQ. }
  destruct Hc as (Hp & Hsp & Hc'). destruct Hwc as (Hp0 & Hpsp & Hpc & Hdsc & Hwsp & Hwc').
  assert (Hxp : x ≠ p) by (clear -Hxc; set_solver).
  assert (Hxs : x ∉ addrs sp) by (clear -Hxc; set_solver).
  apply twp_bind.
  eapply twp_py_eq_nil_raw; [exact Hnil|exact Hp| |done|].
  { destruct d; simpl; eauto using is_Some_root_ref. }
  (* the comparison of [x] with the child of the parent on the other side *)
  assert (Hsib : twp (py_eq (S rl) (Some x) (root_ref sp)) (fun b t' => t' = t /\ b = false) t
                 \/ d = first).
  { assert (Hdec : d = first \/ d ≠ first) by (destruct d, first; auto; right; congruence).
    destruct Hdec as [|Hne]; [by right|left].
    destruct sp as [|cs ls s ks ms rs]; simpl.
    - eapply twp_py_eq_nil_raw; [exact Hnil|exact Hx| |done|done].
      clear -Hcl. destruct (left nx); simpl in *; [eauto|done].
    - simpl in Hsp. destruct Hsp as (Hs & Hls & Hrs).
      eapply twp_py_eq_diff_raw; [exact Hnil| |exact Hx|exact Hs|exact Hcl|exact Hcr| | | |done].
      + clear -Hxs. simpl in Hxs. set_solver.
      + simpl. by apply child_ok_root.
      + simpl. by apply child_ok_root.
      + rewrite node_key_node_of. eapply (Htw _ _ cs ls s ks ms rs); eauto. }
  assert (Hfin : forall u, u (frame_node (F d cf p kp mp sp) (Some x) (ctx_par ctx'))
                   = frame_node (F d cf p kp mp sp) (Some y) (ctx_par ctx') ->
                 twp (wr u (Some p)) Q t).
  { intros u Hu. unfold twp, wr, node_at. rewrite Hp. simpl. rewrite Hu. by apply HQ. }
  destruct first, d; simpl.
  - apply twp_bind. unfold twp at 1, rd, node_at. rewrite Hp. simpl.
    apply twp_bind. apply twp_py_eq_refl. by apply Hfin.
  - destruct Hsib as [Hsib|]; [|done].
    apply twp_bind. unfold twp at 1, rd, node_at. rewrite Hp. simpl.
    apply twp_bind. eapply twp_mono; [exact Hsib|]. intros b t' [-> ->]. by apply Hfin.
  - destruct Hsib as [Hsib|]; [|done].
    apply twp_bind. unfold twp at 1, rd, node_at. rewrite Hp. simpl.
    apply twp_bind. eapply twp_mono; [exact Hsib|]. intros b t' [-> ->]. by apply Hfin.
  - apply twp_bind. unfold twp at 1, rd, node_at. rewrite Hp. simpl.
    apply twp_bind. apply twp_py_eq_refl. by apply Hfin.
Qed.

Lemma twp_bind_assoc {S A B C} (m : M S A) (k : A -> M S B) (k' : B -> M S C) Q s :
  twp (bind (bind m k) k') Q s -> twp (bind m (fun a => bind (k a) k')) Q s.
Proof.
  unfold twp, bind. destruct (m s) as [[a| |] s1]; auto.
Qed.

Lemma twp_left_rotate rl t ctx c al x kx mx c' be y ky my ga n ext
    (Q : unit -> IntervalTree -> Prop) :
  Rep t (plug ctx (T c al x kx mx (T c' be y ky my ga))) n ext ->
  diff_key R ctx kx ->
  (forall t', Rep t' (plug ctx (rotL (T c al x kx mx (T c' be y ky my ga)))) n ext ->
     Q tt t') ->
  twp (_left_rotate (S rl) (Some x)) Q t.
Proof.
  intros HR Htw HQ.
  pose proof HR as HR0. apply Rep_plug in HR0. simpl in HR0.
  destruct HR0 as (Hnil & (Hx & Hal & Hy & Hbe & Hga) & Hc &
    (Hx0 & Hxal & Hxr & Hdal & Hwal & Hy0 & Hybe & Hyga & Hdbg & Hwbe & Hwga) &
    Hwc & Hd & Hlt & Hroot & Hsz & Hext).
  pose proof (root_addr_sub be) as Hrbe. pose proof (par_addr_sub ctx) as Hpsub.
  assert (Hxy : x ≠ y) by addr_ne.
  assert (Hxb : x ∉ root_addr be) by (clear -Hxr Hrbe; set_solver).
  assert (Hyb : y ∉ root_addr be) by (clear -Hybe Hrbe; set_solver).
  assert (Hxp : x ∉ addrs_ctx ctx) by (clear -Hd; set_solver).
  assert (Hyp : y ∉ addrs_ctx ctx) by (clear -Hd; set_solver).
  assert (Halp : addrs al ## addrs_ctx ctx) by (clear -Hd; set_solver).
  assert (Hbep : addrs be ## addrs_ctx ctx) by (clear -Hd; set_solver).
  assert (Hgap : addrs ga ## addrs_ctx ctx) by (clear -Hd; set_solver).
  assert (Halb : addrs al ## addrs be) by (clear -Hdal; set_solver).
  assert (Halg : addrs al ## addrs ga) by (clear -Hdal; set_solver).
  assert (Hnd : NoDup [x; y]) by (by apply NoDup_2).
  remember (nodes t) as h0 eqn:Eh.
  remember (next t) as n0 eqn:Hn. remember (root t) as r0 eqn:Hr.
  remember (size t) as s0 eqn:Hs. symmetry in Hn, Hr, Hs.
  pose proof Hn as Hn0. pose proof Hr as Hr0. pose proof Hs as Hs0.
  assert (Hh : nodes t = over h0
            [(x, node_of c al kx mx (T c' be y ky my ga) (ctx_par ctx));
             (y, node_of c' be ky my ga (Some x))]).
  { rewrite <- Eh. symmetry. apply over_id. intros a nd Ha.
    repeat (apply elem_of_cons in Ha as [Ha|Ha]; [injection Ha as -> ->; done|]).
    by apply elem_of_nil in Ha. }
  revert Hh Hn Hr Hs. generalize t at 1 2 3 4 5 as tc. intros tc Hh Hn Hr Hs.
  unfold _left_rotate. simpl is_None. cbv iota.
  apply twp_bind. traw_rd Hh Hnd. simpl.
  apply twp_bind. traw_rd Hh Hnd. simpl.
  apply twp_bind. traw_rd Hh Hnd. simpl.
  apply twp_bind. traw_wr_step Hh Hnd Hn Hr Hs.
  apply twp_bind. traw_rd Hh Hnd. simpl.
  (* the subtree that changes sides *)
  apply twp_bind_assoc. apply twp_bind.
  eapply (twp_reparent rl _ be (Some y) x).
  { cells_out Hh. exact Hnil. }
  { eapply rep_frame; [|exact Hbe]. intros a Ha. cells_out Hh. done. }
  { exact Hwbe. }
  intros t1 Hh1 Hn1 Hr1 Hs1.
  rewrite Hh, reparent_store_over in Hh1
    by (intros a Ha; simpl; rewrite !not_elem_of_cons; repeat split;
        [intros ->; done|intros ->; done|apply not_elem_of_nil]).
  rewrite Hn in Hn1. rewrite Hr in Hr1. rewrite Hs in Hs1.
  clear t0 Hh Hn Hr Hs.
  set (h1 := reparent_store be x h0) in *.
  apply twp_bind. traw_rd Hh1 Hnd. simpl.
  apply twp_bind. traw_wr_step Hh1 Hnd Hn1 Hr1 Hs1.
  apply twp_bind. traw_rd Hh1 Hnd. simpl.
  (* the link from the parent *)
  apply twp_bind_assoc. apply twp_bind.
  eapply (twp_link_parent rl L _ ctx x y).
  { cells_out Hh1. unfold h1. rewrite reparent_store_ne; [exact Hnil|].
    clear -Hwbe. destruct be; simpl in *; [set_solver|]. destruct Hwbe. set_solver. }
  { eapply repc_frame; [|exact Hc]. intros a Ha. cells_out Hh1.
    unfold h1. apply reparent_store_ne. clear -Ha Hbep Hrbe. set_solver. }
  { exact Hwc. }
  { exact Hxp. }
  { exact Hx0. }
  { cells_in Hh1 Hnd. }
  { simpl. apply child_ok_root. eapply rep_frame; [|exact Hal].
    intros a Ha. cells_out Hh1. unfold h1. apply reparent_store_ne.
    clear -Ha Halb Hrbe. set_solver. }
  { simpl. apply child_ok_root. eapply rep_frame; [|apply (rep_reparent_store h0 be (Some y) x Hwbe Hbe)].
    intros a Ha. cells_out Hh1. done. }
  { intros f ctx' cs ls s ks ms rs -> Hdir Hsib.
    simpl in Htw. rewrite Hsib in Htw. simpl. intros E.
    apply Htw; [destruct (f_dir f); congruence|]. rewrite <- E.
    unfold node_key. simpl. by destruct kx as [[? ?] ?]. }
  intros t2 Hh2 Hn2 Hr2 Hs2.
  rewrite Hh1, link_store_over in Hh2
    by (intros f ctx' ->; simpl in *; rewrite !not_elem_of_cons; repeat split;
        [clear -Hxp; set_solver|clear -Hyp; set_solver|apply not_elem_of_nil]).
  rewrite Hn1 in Hn2. rewrite Hr1 in Hr2. rewrite Hs1 in Hs2.
  clear t0 Hh1 Hn1 Hr1 Hs1.
  set (h2 := link_store ctx (Some y) h1) in *.
  apply twp_bind. traw_wr_step Hh2 Hnd Hn2 Hr2 Hs2.
  apply twp_bind. traw_wr_step Hh2 Hnd Hn2 Hr2 Hs2.
  match type of Hh2 with nodes ?tt = _ => rename tt into tf end.
  assert (Hout : forall a, a ≠ x -> a ≠ y -> a ∉ root_addr be -> a ∉ par_addr ctx ->
            nodes tf !! a = h0 !! a).
  { intros a Hax Hay Hab Hap. cells_out Hh2. unfold h2, h1.
    by rewrite link_store_ne, reparent_store_ne. }
  assert (Hout1 : forall a, a ≠ x -> a ≠ y -> a ∉ par_addr ctx ->
            nodes tf !! a = h1 !! a).
  { intros a Hax Hay Hap. cells_out Hh2. unfold h2. by rewrite link_store_ne. }
  assert (HR' : Rep tf (plug ctx (T c' (T c al x kx mx be) y ky my ga)) n ext).
  { eapply (Rep_rot_intro t tf _ _ _ ({[x]} ∪ {[y]} ∪ root_addr be ∪ par_addr ctx));
      [exact HR|..].
    - apply addrs_rotL.
    - apply wf_rotL. simpl. repeat split; assumption.
    - simpl. fold (par_addr ctx). clear -Hrbe. set_solver.
    - simpl. split; [cells_in Hh2 Hnd|]. split; [split; [cells_in Hh2 Hnd|split]|].
      + eapply rep_frame; [|exact Hal]. intros a Ha. apply Hout.
        * addr_ne.
        * clear -Ha Hdal. set_solver.
        * clear -Ha Halb Hrbe. set_solver.
        * clear -Ha Halp Hpsub. set_solver.
      + eapply rep_frame; [|apply (rep_reparent_store h0 be (Some y) x Hwbe Hbe)].
        intros a Ha. apply Hout1.
        * clear -Ha Hxr. set_solver.
        * addr_ne.
        * clear -Ha Hbep Hpsub. set_solver.
      + eapply rep_frame; [|exact Hga]. intros a Ha. apply Hout.
        * clear -Ha Hxr. set_solver.
        * addr_ne.
        * clear -Ha Hdbg Hrbe. set_solver.
        * clear -Ha Hgap Hpsub. set_solver.
    - destruct ctx as [|f ctx']; simpl in *; [congruence|].
      split; [|congruence].
      rewrite Hh2, over_lookup_out
        by (simpl; rewrite !not_elem_of_cons; repeat split;
            [clear -Hxp; set_solver|clear -Hyp; set_solver|apply not_elem_of_nil]).
      unfold h2. simpl. by rewrite lookup_insert_eq.
    - intros a Ha. rewrite <- Eh. apply Hout; clear -Ha; set_solver.
    - congruence.
    - congruence. }
  apply twp_bind.
  eapply (twp_update_max_end rl _ (F L c' y ky my ga :: ctx) (T c al x kx mx be)); [exact HR'|].
  intros t6 HR6.
  eapply (twp_update_max_end rl _ ctx (T c' (upd (T c al x kx mx be)) y ky my ga)); [exact HR6|].
  intros t7 HR7. apply HQ. exact HR7.
Qed.

Lemma twp_right_rotate rl t ctx c al x kx mx c' be y ky my ga n ext
    (Q : unit -> IntervalTree -> Prop) :
  Rep t (plug ctx (T c (T c' al x kx mx be) y ky my ga)) n ext ->
  diff_key L ctx ky ->
  (forall t', Rep t' (plug ctx (rotR (T c (T c' al x kx mx be) y ky my ga))) n ext ->
     Q tt t') ->
  twp (_right_rotate (S rl) (Some y)) Q t.
Proof.
  intros HR Htw HQ.
  pose proof HR as HR0. apply Rep_plug in HR0. simpl in HR0.
  destruct HR0 as (Hnil & (Hy & (Hx & Hal & Hbe) & Hga) & Hc &
    (Hy0 & Hyl & Hyga & Hdlg & (Hx0 & Hxal & Hxbe & Hdab & Hwal & Hwbe) & Hwga) &
    Hwc & Hd & Hlt & Hroot & Hsz & Hext).
  pose proof (root_addr_sub be) as Hrbe. pose proof (par_addr_sub ctx) as Hpsub.
  assert (Hxy : x ≠ y) by (clear -Hyl; set_solver).
  assert (Hxb : x ∉ root_addr be) by (clear -Hxbe Hrbe; set_solver).
  assert (Hyb : y ∉ root_addr be) by (clear -Hyl Hrbe; set_solver).
  assert (Hxp : x ∉ addrs_ctx ctx) by (clear -Hd; set_solver).
  assert (Hyp : y ∉ addrs_ctx ctx) by (clear -Hd; set_solver).
  assert (Halp : addrs al ## addrs_ctx ctx) by (clear -Hd; set_solver).
  assert (Hbep : addrs be ## addrs_ctx ctx) by (clear -Hd; set_solver).
  assert (Hgap : addrs ga ## addrs_ctx ctx) by (clear -Hd; set_solver).
  assert (Hbeg : addrs be ## addrs ga) by (clear -Hdlg; set_solver).
  assert (Halg : addrs al ## addrs ga) by (clear -Hdlg; set_solver).
  assert (Hyal : y ∉ addrs al) by (clear -Hyl; set_solver).
  assert (Hybe : y ∉ addrs be) by (clear -Hyl; set_solver).
  assert (Hxga : x ∉ addrs ga) by (clear -Hdlg; set_solver).
  assert (Hnd : NoDup [x; y]) by (by apply NoDup_2).
  remember (nodes t) as h0 eqn:Eh.
  remember (next t) as n0 eqn:Hn. remember (root t) as r0 eqn:Hr.
  remember (size t) as s0 eqn:Hs. symmetry in Hn, Hr, Hs.
  pose proof Hn as Hn0. pose proof Hr as Hr0. pose proof Hs as Hs0.
  assert (Hh : nodes t = over h0
            [(x, node_of c' al kx mx be (Some y));
             (y, node_of c (T c' al x kx mx be) ky my ga (ctx_par ctx))]).
  { rewrite <- Eh. symmetry. apply over_id. intros a nd Ha.
    repeat (apply elem_of_cons in Ha as [Ha|Ha]; [injection Ha as -> ->; done|]).
    by apply elem_of_nil in Ha. }
  revert Hh Hn Hr Hs. generalize t at 1 2 3 4 5 as tc. intros tc Hh Hn Hr Hs.
  unfold _right_rotate. simpl is_None. cbv iota.
  apply twp_bind. traw_rd Hh Hnd. simpl.
  apply twp_bind. traw_rd Hh Hnd. simpl.
  apply twp_bind. traw_rd Hh Hnd. simpl.
  apply twp_bind. traw_wr_step Hh Hnd Hn Hr Hs.
  apply twp_bind. traw_rd Hh Hnd. simpl.
  (* the subtree that changes sides *)
  apply twp_bind_assoc. apply twp_bind.
  eapply (twp_reparent rl _ be (Some x) y).
  { cells_out Hh. exact Hnil. }
  { eapply rep_frame; [|exact Hbe]. intros a Ha. cells_out Hh. done. }
  { exact Hwbe. }
  intros t1 Hh1 Hn1 Hr1 Hs1.
  rewrite Hh, reparent_store_over in Hh1
    by (intros a Ha; simpl; rewrite !not_elem_of_cons; repeat split;
        [intros ->; done|intros ->; done|apply not_elem_of_nil]).
  rewrite Hn in Hn1. rewrite Hr in Hr1. rewrite Hs in Hs1.
  clear t0 Hh Hn Hr Hs.
  set (h1 := reparent_store be y h0) in *.
  apply twp_bind. traw_rd Hh1 Hnd. simpl.
  apply twp_bind. traw_wr_step Hh1 Hnd Hn1 Hr1 Hs1.
  apply twp_bind. traw_rd Hh1 Hnd. simpl.
  (* the link from the parent *)
  apply twp_bind_assoc. apply twp_bind.
  eapply (twp_link_parent rl R _ ctx y x).
  { cells_out Hh1. unfold h1. rewrite reparent_store_ne; [exact Hnil|].
    clear -Hwbe. destruct be; simpl in *; [set_solver|]. destruct Hwbe. set_solver. }
  { eapply repc_frame; [|exact Hc]. intros a Ha. cells_out Hh1.
    unfold h1. apply reparent_store_ne. clear -Ha Hbep Hrbe. set_solver. }
  { exact Hwc. }
  { exact Hyp. }
  { exact Hy0. }
  { cells_in Hh1 Hnd. }
  { simpl. apply child_ok_root.
    eapply rep_frame; [|apply (rep_reparent_store h0 be (Some x) y Hwbe Hbe)].
    intros a Ha. cells_out Hh1. done. }
  { simpl. apply child_ok_root. eapply rep_frame; [|exact Hga].
    intros a Ha. cells_out Hh1. unfold h1. apply reparent_store_ne.
    clear -Ha Hbeg Hrbe. set_solver. }
  { intros f ctx' cs ls s ks ms rs -> Hdir Hsib.
    simpl in Htw. rewrite Hsib in Htw. simpl. intros E.
    apply Htw; [destruct (f_dir f); congruence|]. rewrite <- E.
    unfold node_key. simpl. by destruct ky as [[? ?] ?]. }
  intros t2 Hh2 Hn2 Hr2 Hs2.
  rewrite Hh1, link_store_over in Hh2
    by (intros f ctx' ->; simpl in *; rewrite !not_elem_of_cons; repeat split;
        [clear -Hxp; set_solver|clear -Hyp; set_solver|apply not_elem_of_nil]).
  rewrite Hn1 in Hn2. rewrite Hr1 in Hr2. rewrite Hs1 in Hs2.
  clear t0 Hh1 Hn1 Hr1 Hs1.
  set (h2 := link_store ctx (Some x) h1) in *.
  apply twp_bind. traw_wr_step Hh2 Hnd Hn2 Hr2 Hs2.
  apply twp_bind. traw_wr_step Hh2 Hnd Hn2 Hr2 Hs2.
  match type of Hh2 with nodes ?tt = _ => rename tt into tf end.
  assert (Hout : forall a, a ≠ x -> a ≠ y -> a ∉ root_addr be -> a ∉ par_addr ctx ->
            nodes tf !! a = h0 !! a).
  { intros a Hax Hay Hab Hap. cells_out Hh2. unfold h2, h1.
    by rewrite link_store_ne, reparent_store_ne. }
  assert (Hout1 : forall a, a ≠ x -> a ≠ y -> a ∉ par_addr ctx ->
            nodes tf !! a = h1 !! a).
  { intros a Hax Hay Hap. cells_out Hh2. unfold h2. by rewrite link_store_ne. }
  assert (HR' : Rep tf (plug ctx (T c' al x kx mx (T c be y ky my ga))) n ext).
  { eapply (Rep_rot_intro t tf _ _ _ ({[x]} ∪ {[y]} ∪ root_addr be ∪ par_addr ctx));
      [exact HR|..].
    - apply addrs_rotR.
    - apply wf_rotR. simpl. repeat split; assumption.
    - simpl. fold (par_addr ctx). clear -Hrbe. set_solver.
    - simpl. split; [cells_in Hh2 Hnd|]. split; [|split; [cells_in Hh2 Hnd|split]].
      + eapply rep_frame; [|exact Hal]. intros a Ha. apply Hout.
        * addr_ne.
        * addr_ne.
        * clear -Ha Hdab Hrbe. set_solver.
        * clear -Ha Halp Hpsub. set_solver.
      + eapply rep_frame; [|apply (rep_reparent_store h0 be (Some x) y Hwbe Hbe)].
        intros a Ha. apply Hout1.
        * addr_ne.
        * addr_ne.
        * clear -Ha Hbep Hpsub. set_solver.
      + eapply rep_frame; [|exact Hga]. intros a Ha. apply Hout.
        * addr_ne.
        * addr_ne.
        * clear -Ha Hbeg Hrbe. set_solver.
        * clear -Ha Hgap Hpsub. set_solver.
    - destruct ctx as [|f ctx']; simpl in *; [congruence|].
      split; [|congruence].
      rewrite Hh2, over_lookup_out
        by (simpl; rewrite !not_elem_of_cons; repeat split;
            [clear -Hxp; set_solver|clear -Hyp; set_solver|apply not_elem_of_nil]).
      unfold h2. simpl. by rewrite lookup_insert_eq.
    - intros a Ha. rewrite <- Eh. apply Hout; clear -Ha; set_solver.
    - congruence.
    - congruence. }
  apply twp_bind.
  eapply (twp_update_max_end rl _ (F R c' x kx mx al :: ctx) (T c be y ky my ga)); [exact HR'|].
  intros t6 HR6.
  eapply (twp_update_max_end rl _ ctx (T c' al x kx mx (upd (T c be y ky my ga)))); [exact HR6|].
  intros t7 HR7. apply HQ. exact HR7.
Qed.

Lemma twp_rd_frame {A} (fn : IntervalNode -> A) t f ctx sub n ext Q :
  Rep t (plug (f :: ctx) sub) n ext ->
  Q (fn (frame_node f (root_ref sub) (ctx_par ctx))) t ->
  twp (rd fn (Some (f_addr f))) Q t.
Proof.
  intros HR HQ. simpl in HR. destruct (fill_T f sub) as (l & r & Hf & Hn).
  rewrite Hf in HR. rewrite Hn in HQ. eapply twp_rd_focus; eauto.
Qed.

Lemma twp_wr_frame_color c' t f ctx sub n ext (Q : unit -> IntervalTree -> Prop) :
  Rep t (plug (f :: ctx) sub) n ext ->
  (forall t', Rep t' (plug (f_paint c' f :: ctx) sub) n ext -> Q tt t') ->
  twp (wr (set_color c') (Some (f_addr f))) Q t.
Proof.
  intros HR HQ. simpl in *. destruct f as [[] c a k m s]; simpl in *.
  - eapply (twp_wr_focus _ c' m); [exact HR|reflexivity|]. exact HQ.
  - eapply (twp_wr_focus _ c' m); [exact HR|reflexivity|]. exact HQ.
Qed.

Lemma twp_wr_root_color c' t ctx sub n ext (Q : unit -> IntervalTree -> Prop) :
  Rep t (plug ctx sub) n ext -> is_T sub = true ->
  (forall t', Rep t' (plug ctx (paint c' sub)) n ext -> Q tt t') ->
  twp (wr (set_color c') (root_ref sub)) Q t.
Proof.
  intros HR HT HQ. destruct sub as [|c l a k m r]; [done|]. simpl.
  eapply (twp_wr_focus _ c' m); [exact HR|reflexivity|]. exact HQ.
Qed.

Lemma twp_wr_sib_color c' t f ctx sub n ext (Q : unit -> IntervalTree -> Prop) :
  Rep t (plug (f :: ctx) sub) n ext -> is_T (f_sib f) = true ->
  (forall t', Rep t' (plug (f_paint_sib c' f :: ctx) sub) n ext -> Q tt t') ->
  twp (wr (set_color c') (root_ref (f_sib f))) Q t.
Proof.
  intros HR HT HQ. rewrite <- plug_swap in HR.
  eapply twp_wr_root_color; [exact HR|exact HT|].
  intros t' HR'. apply HQ.
  change (paint c' (f_sib f)) with (f_sib (f_paint_sib c' f)) in HR'.
  change (swap f sub) with (swap (f_paint_sib c' f) sub) in HR'.
  by rewrite plug_swap in HR'.
Qed.

Lemma twp_rd_color_root t ctx sub n ext (Q : Color -> IntervalTree -> Prop) :
  Rep t (plug ctx sub) n ext ->
  Q (t_color sub) t ->
  twp (rd color (root_ref sub)) Q t.
Proof.
  intros HR HQ. destruct sub as [|c l a k m r]; simpl in *.
  - destruct HR as (Hnil & _). unfold twp, rd, node_at. by rewrite Hnil.
  - eapply twp_rd_focus; eauto.
Qed.

Lemma twp_py_eq_sib rl t f ctx c l a k m r n ext (Q : bool -> IntervalTree -> Prop) :
  Rep t (plug (f :: ctx) (T c l a k m r)) n ext ->
  match f_sib f with T _ _ _ ks _ _ => k <> ks | E => True end ->
  Q false t ->
  twp (py_eq (S rl) (Some a) (root_ref (f_sib f))) Q t.
Proof.
  intros HR Htw HQ.
  pose proof HR as HR0. apply Rep_plug in HR0. simpl in HR0.
  destruct HR0 as (Hnil & (Ha & Hl & Hr) & (Hf & Hsib & Hc) & (Ha0 & Hal & Har & Hdlr & Hwl & Hwr) &
    (Hf0 & Hfs & Hfc & Hdsc & Hws & Hwc) & Hd & _).
  destruct (f_sib f) as [|cs ls s ks ms rs] eqn:Es; simpl.
  - eapply twp_py_eq_nil; eauto.
  - simpl in Hsib. destruct Hsib as (Hs & Hls & Hrs).
    simpl in Hws. destruct Hws as (Hs0 & Hsl & Hsr & Hdls & Hwls & Hwrs).
    eapply twp_py_eq_diff_raw; [exact Hnil| |exact Ha|exact Hs| | | | | |exact HQ].
    + clear -Hd. simpl in Hd. set_solver.
    + simpl. by apply child_ok_root.
    + simpl. by apply child_ok_root.
    + simpl. by apply child_ok_root.
    + simpl. by apply child_ok_root.
    + rewrite !node_key_node_of. exact Htw.
Qed.

Lemma twp_fixup_cond rl t ctx sub n ext (Q : bool -> IntervalTree -> Prop) :
  Rep t (plug ctx sub) n ext -> is_T sub = true ->
  Q (top_red ctx) t ->
  twp (fixup_cond (S rl) (root_ref sub)) Q t.
Proof.
  intros HR HT HQ. destruct sub as [|cn ln a kn mn rn]; [done|]. simpl.
  unfold fixup_cond.
  apply twp_bind. eapply twp_rd_focus; [exact HR|]. simpl.
  destruct ctx as [|f ctx']; simpl.
  - apply twp_bind. unfold py_ne. apply twp_bind. apply twp_py_eq_refl.
    apply twp_ret. simpl. by apply twp_ret.
  - apply twp_bind. unfold py_ne. apply twp_bind.
    simpl in HR. destruct (fill_T f (T cn ln a kn mn rn)) as (l & r & Hf & Hn).
    rewrite Hf in HR.
    eapply twp_py_eq_nil; [exact HR|]. apply twp_ret. simpl.
    apply twp_bind. eapply twp_rd_focus; [exact HR|]. simpl. by apply twp_ret.
Qed.

Lemma twp_fixup_body rl t fp fg ctx2 cn ln a kn mn rn n ext
    (Q : ref -> IntervalTree -> Prop) :
  Rep t (plug (fp :: fg :: ctx2) (T cn ln a kn mn rn)) n ext ->
  f_color fp = RED ->
  fix_inv (fp :: fg :: ctx2) (T cn ln a kn mn rn) ->
  NoDup (elems (plug (fp :: fg :: ctx2) (T cn ln a kn mn rn))) ->
  (forall t' ctx' sub', Rep t' (plug ctx' sub') n ext -> is_T sub' = true ->
     fixup ctx' sub' = fixup (fp :: fg :: ctx2) (T cn ln a kn mn rn) ->
     (fix_inv ctx' sub' \/ top_red ctx' = false) ->
     (top_red ctx' = true -> (length ctx' <= length ctx2)%nat) ->
     Q (root_ref sub') t') ->
  twp (fixup_body (S rl) (Some a)) Q t.
Proof.
  intros HR Hred Hinv Hnd HQ.
  pose proof Hinv as (Hc & Hrb & Hrs & Hbs & Hcs & Hru & Hbu & Hcg & Hctx).
  simpl in Hc. subst cn. rewrite Hred in Hcs, Hbu, Hcg, Hctx. simpl in Hbu, Hctx.
  specialize (Hcs eq_refl).
  assert (Hg : f_color fg = BLACK).
  { destruct (f_color fg); [|done]. destruct Hcg; done. }
  rewrite Hg in Hctx. simpl in Hctx.
  assert (Hbh2 : match ctx2 with f :: _ => bh (f_sib f) ≠ 0%nat | [] => True end).
  { destruct ctx2 as [|fgg ctx3]; [done|]. simpl in Hctx. destruct Hctx as (_ & -> & _). lia. }
  destruct fp as [dp cp p kp mp sp], fg as [dg cg g kg mg sg].
  simpl in Hred, Hg, Hrs, Hbs, Hcs, Hru, Hbu. subst cp cg.
  set (sub := T RED ln a kn mn rn) in *.
  set (fp := F dp RED p kp mp sp) in *.
  remember (fixup (fp :: F dg BLACK g kg mg sg :: ctx2) sub) as target eqn:Etarget.
  unfold fixup_body.
  apply twp_bind. eapply (twp_rd_focus _ _ (fp :: F dg BLACK g kg mg sg :: ctx2)); [exact HR|].
  cbn [parent node_of ctx_par f_addr fp].
  apply twp_bind. eapply (twp_rd_frame _ _ fp (F dg BLACK g kg mg sg :: ctx2) sub); [exact HR|].
  cbn [parent frame_node f_dir fp ctx_par f_addr is_None].
  assert (Hpar : parent (frame_node fp (root_ref sub) (Some g)) = Some g)
    by (unfold fp; destruct dp; reflexivity).
  rewrite Hpar. cbn [is_None].
  destruct dg.
  - (* the parent is the left child of the grandparent *)
    set (fg := F L BLACK g kg mg sg) in *.
    apply twp_bind. apply twp_bind.
    eapply (twp_rd_frame _ _ fg ctx2 (fill fp sub)); [exact HR|]. simpl.
    rewrite root_ref_fill. apply twp_py_eq_refl.
    apply twp_bind. eapply (twp_rd_frame _ _ fg ctx2 (fill fp sub)); [exact HR|]. simpl.
    apply twp_bind.
    apply (twp_mono _ (fun b t' => t' = t /\ b = Color_eqb (t_color sg) RED)).
    { destruct (is_Some_root_ref sg) as [u Hu]. rewrite Hu. simpl. rewrite <- Hu.
      apply twp_bind.
      eapply (twp_rd_color_root _ (swap fg (fill fp sub) :: ctx2) sg).
      { rewrite (plug_swap fg). exact HR. }
      by apply twp_ret. }
    intros b t' [-> ->].
    destruct (t_color sg) eqn:Hsg; simpl.
    + (* red uncle *)
      apply twp_bind.
      eapply (twp_wr_frame_color BLACK _ fp (fg :: ctx2) sub); [exact HR|].
      intros t1 HR1.
      apply twp_bind.
      eapply (twp_wr_sib_color BLACK _ fg ctx2 (fill (f_paint BLACK fp) sub)); [exact HR1| |].
      { simpl. by destruct sg. }
      intros t2 HR2.
      apply twp_bind. apply twp_bind.
      eapply (twp_rd_focus _ _ (f_paint BLACK fp :: f_paint_sib BLACK fg :: ctx2)); [exact HR2|].
      cbn [parent node_of ctx_par f_addr f_paint fp].
      eapply (twp_rd_frame _ _ (f_paint BLACK fp) (f_paint_sib BLACK fg :: ctx2) sub); [exact HR2|].
      assert (Hpar' : parent (frame_node (f_paint BLACK fp) (root_ref sub)
                         (ctx_par (f_paint_sib BLACK fg :: ctx2))) = Some g)
        by (unfold fp; destruct dp; reflexivity).
      rewrite Hpar'. cbn [is_None].
      apply twp_bind.
      eapply (twp_wr_frame_color RED _ (f_paint_sib BLACK fg) ctx2 (fill (f_paint BLACK fp) sub));
        [exact HR2|].
      intros t3 HR3. apply twp_ret.
      change (Some g) with (root_ref (recolor fp fg sub)).
      apply (HQ t3 ctx2 (recolor fp fg sub)).
      * exact HR3.
      * reflexivity.
      * rewrite Etarget. simpl. by rewrite Hsg.
      * left. by apply fix_inv_recolor.
      * done.
    + (* black uncle *)
      apply twp_bind. apply twp_bind.
      eapply (twp_rd_focus _ _ (fp :: fg :: ctx2)); [exact HR|].
      cbn [parent node_of ctx_par f_addr fp].
      eapply (twp_rd_frame _ _ fp (fg :: ctx2) sub); [exact HR|].
      destruct dp; simpl.
      * (* the node is a left child: one rotation *)
        apply twp_bind.
        eapply (twp_py_eq_sib rl _ fp (fg :: ctx2)); [exact HR| |].
        { apply (sib_key_NoDup fp (fg :: ctx2) sub kn Hnd). unfold sub. simpl. set_solver. }
        apply twp_bind. apply twp_ret.
        apply twp_bind. eapply (twp_rd_focus _ _ (fp :: fg :: ctx2)); [exact HR|]. simpl.
        apply twp_bind. apply twp_bind.
        eapply (twp_wr_frame_color BLACK _ fp (fg :: ctx2) sub); [exact HR|].
        intros t1 HR1.
        apply twp_bind.
        eapply (twp_rd_frame _ _ (f_paint BLACK fp) (fg :: ctx2) sub); [exact HR1|]. simpl.
        apply twp_bind.
        eapply (twp_wr_frame_color RED _ fg ctx2 (fill (f_paint BLACK fp) sub)); [exact HR1|].
        intros t2 HR2.
        eapply (twp_right_rotate rl _ ctx2 RED sub p kp mp BLACK sp g kg mg sg); [exact HR2| |].
        { apply (diff_key_NoDup _ ctx2 (fill fg (fill fp sub))); [exact Hnd|].
          rewrite elems_fill. unfold fg. simpl. set_solver. }
        intros t3 HR3. apply twp_ret.
        change (Some a) with (root_ref sub).
        apply (HQ t3 (F L BLACK p kp (upd_m kp sub (upd (T RED sp g kg mg sg)))
                        (upd (T RED sp g kg mg sg)) :: ctx2) sub).
        -- exact HR3.
        -- reflexivity.
        -- rewrite Etarget. rewrite fixup_top_black by reflexivity.
           simpl. by rewrite Hsg.
        -- by right.
        -- done.
      * (* the node is a right child: two rotations *)
        apply twp_bind. apply twp_py_eq_refl.
        apply twp_bind. apply twp_bind.
        eapply (twp_rd_focus _ _ (fp :: fg :: ctx2)); [exact HR|]. simpl.
        apply twp_bind.
        eapply (twp_left_rotate rl _ (fg :: ctx2) RED sp p kp mp RED ln a kn mn rn); [exact HR| |].
        { intros Hd. discriminate Hd. }
        intros t1 HR1. apply twp_ret.
        set (p1 := upd (T RED sp p kp mp ln)) in *.
        set (mn1 := upd_m kn p1 rn) in *.
        apply twp_bind.
        eapply (twp_rd_focus _ _ (F L RED a kn mn1 rn :: fg :: ctx2) RED sp p kp (upd_m kp sp ln) ln);
          [exact HR1|]. simpl.
        apply twp_bind. apply twp_bind.
        eapply (twp_wr_focus _ BLACK mn1 _ (fg :: ctx2) RED p1 a kn mn1 rn); [exact HR1|reflexivity|].
        intros t2 HR2.
        apply twp_bind.
        eapply (twp_rd_focus _ _ (fg :: ctx2) BLACK p1 a kn mn1 rn); [exact HR2|]. simpl.
        apply twp_bind.
        eapply (twp_wr_frame_color RED _ fg ctx2 (T BLACK p1 a kn mn1 rn)); [exact HR2|].
        intros t3 HR3.
        eapply (twp_right_rotate rl _ ctx2 RED p1 a kn mn1 BLACK rn g kg mg sg); [exact HR3| |].
        { apply (diff_key_NoDup _ ctx2 (fill fg (fill fp sub))); [exact Hnd|].
          rewrite elems_fill. unfold fg. simpl. set_solver. }
        intros t4 HR4. apply twp_ret.
        change (Some p) with (root_ref p1).
        apply (HQ t4 (F L BLACK a kn (upd_m kn p1 (upd (T RED rn g kg mg sg)))
                        (upd (T RED rn g kg mg sg)) :: ctx2) p1).
        -- exact HR4.
        -- reflexivity.
        -- rewrite Etarget. rewrite fixup_top_black by reflexivity.
           simpl. by rewrite Hsg.
        -- by right.
        -- done.
  - (* the parent is the right child of the grandparent *)
    set (fg := F R BLACK g kg mg sg) in *.
    apply twp_bind. apply twp_bind.
    eapply (twp_rd_frame _ _ fg ctx2 (fill fp sub)); [exact HR|]. simpl.
    apply (twp_mono _ (fun b t' => t' = t /\ b = false)).
    { destruct dp.
      - eapply (twp_py_eq_sib rl _ fg ctx2 RED sub p kp mp sp); [exact HR| |done].
        apply (sib_key_NoDup fg ctx2 (fill fp sub) kp Hnd).
        rewrite elems_fill. unfold fp. simpl. set_solver.
      - eapply (twp_py_eq_sib rl _ fg ctx2 RED sp p kp mp sub); [exact HR| |done].
        apply (sib_key_NoDup fg ctx2 (fill fp sub) kp Hnd).
        rewrite elems_fill. unfold fp. simpl. set_solver. }
    intros b t' [-> ->].
    apply twp_bind. eapply (twp_rd_frame _ _ fg ctx2 (fill fp sub)); [exact HR|]. simpl.
    apply twp_bind.
    apply (twp_mono _ (fun b t' => t' = t /\ b = Color_eqb (t_color sg) RED)).
    { destruct (is_Some_root_ref sg) as [u Hu]. rewrite Hu. simpl. rewrite <- Hu.
      apply twp_bind.
      eapply (twp_rd_color_root _ (swap fg (fill fp sub) :: ctx2) sg).
      { rewrite (plug_swap fg). exact HR. }
      by apply twp_ret. }
    intros b t' [-> ->].
    destruct (t_color sg) eqn:Hsg; simpl.
    + (* red uncle *)
      apply twp_bind.
      eapply (twp_wr_frame_color BLACK _ fp (fg :: ctx2) sub); [exact HR|].
      intros t1 HR1.
      apply twp_bind.
      eapply (twp_wr_sib_color BLACK _ fg ctx2 (fill (f_paint BLACK fp) sub)); [exact HR1| |].
      { simpl. by destruct sg. }
      intros t2 HR2.
      apply twp_bind. apply twp_bind.
      eapply (twp_rd_focus _ _ (f_paint BLACK fp :: f_paint_sib BLACK fg :: ctx2)); [exact HR2|].
      cbn [parent node_of ctx_par f_addr f_paint fp].
      eapply (twp_rd_frame _ _ (f_paint BLACK fp) (f_paint_sib BLACK fg :: ctx2) sub); [exact HR2|].
      assert (Hpar' : parent (frame_node (f_paint BLACK fp) (root_ref sub)
                         (ctx_par (f_paint_sib BLACK fg :: ctx2))) = Some g)
        by (unfold fp; destruct dp; reflexivity).
      rewrite Hpar'. cbn [is_None].
      apply twp_bind.
      eapply (twp_wr_frame_color RED _ (f_paint_sib BLACK fg) ctx2 (fill (f_paint BLACK fp) sub));
        [exact HR2|].
      intros t3 HR3. apply twp_ret.
      change (Some g) with (root_ref (recolor fp fg sub)).
      apply (HQ t3 ctx2 (recolor fp fg sub)).
      * exact HR3.
      * reflexivity.
      * rewrite Etarget. simpl. by rewrite Hsg.
      * left. by apply fix_inv_recolor.
      * done.
    + (* black uncle *)
      apply twp_bind. apply twp_bind.
      eapply (twp_rd_focus _ _ (fp :: fg :: ctx2)); [exact HR|].
      cbn [parent node_of ctx_par f_addr fp].
      eapply (twp_rd_frame _ _ fp (fg :: ctx2) sub); [exact HR|].
      destruct dp; simpl.
      * (* the node is a left child: two rotations *)
        apply twp_bind. apply twp_py_eq_refl.
        apply twp_bind. apply twp_bind.
        eapply (twp_rd_focus _ _ (fp :: fg :: ctx2)); [exact HR|]. simpl.
        apply twp_bind.
        eapply (twp_right_rotate rl _ (fg :: ctx2) RED ln a kn mn RED rn p kp mp sp); [exact HR| |].
        { intros Hd. discriminate Hd. }
        intros t1 HR1. apply twp_ret.
        set (p1 := upd (T RED rn p kp mp sp)) in *.
        set (mn1 := upd_m kn ln p1) in *.
        apply twp_bind.
        eapply (twp_rd_focus _ _ (F R RED a kn mn1 ln :: fg :: ctx2) RED rn p kp (upd_m kp rn sp) sp);
          [exact HR1|]. simpl.
        apply twp_bind. apply twp_bind.
        eapply (twp_wr_focus _ BLACK mn1 _ (fg :: ctx2) RED ln a kn mn1 p1); [exact HR1|reflexivity|].
        intros t2 HR2.
        apply twp_bind.
        eapply (twp_rd_focus _ _ (fg :: ctx2) BLACK ln a kn mn1 p1); [exact HR2|]. simpl.
        apply twp_bind.
        eapply (twp_wr_frame_color RED _ fg ctx2 (T BLACK ln a kn mn1 p1)); [exact HR2|].
        intros t3 HR3.
        eapply (twp_left_rotate rl _ ctx2 RED sg g kg mg BLACK ln a kn mn1 p1); [exact HR3| |].
        { apply (diff_key_NoDup _ ctx2 (fill fg (fill fp sub))); [exact Hnd|].
          rewrite elems_fill. unfold fg. simpl. set_solver. }
        intros t4 HR4. apply twp_ret.
        change (Some p) with (root_ref p1).
        apply (HQ t4 (F R BLACK a kn (upd_m kn (upd (T RED sg g kg mg ln)) p1)
                        (upd (T RED sg g kg mg ln)) :: ctx2) p1).
        -- exact HR4.
        -- reflexivity.
        -- rewrite Etarget. rewrite fixup_top_black by reflexivity.
           simpl. by rewrite Hsg.
        -- by right.
        -- done.
      * (* the node is a right child: one rotation *)
        apply twp_bind.
        eapply (twp_py_eq_sib rl _ fp (fg :: ctx2)); [exact HR| |].
        { apply (sib_key_NoDup fp (fg :: ctx2) sub kn Hnd). unfold sub. simpl. set_solver. }
        apply twp_bind. apply twp_ret.
        apply twp_bind. eapply (twp_rd_focus _ _ (fp :: fg :: ctx2)); [exact HR|]. simpl.
        apply twp_bind. apply twp_bind.
        eapply (twp_wr_frame_color BLACK _ fp (fg :: ctx2) sub); [exact HR|].
        intros t1 HR1.
        apply twp_bind.
        eapply (twp_rd_frame _ _ (f_paint BLACK fp) (fg :: ctx2) sub); [exact HR1|]. simpl.
        apply twp_bind.
        eapply (twp_wr_frame_color RED _ fg ctx2 (fill (f_paint BLACK fp) sub)); [exact HR1|].
        intros t2 HR2.
        eapply (twp_left_rotate rl _ ctx2 RED sg g kg mg BLACK sp p kp mp sub); [exact HR2| |].
        { apply (diff_key_NoDup _ ctx2 (fill fg (fill fp sub))); [exact Hnd|].
          rewrite elems_fill. unfold fg. simpl. set_solver. }
        intros t3 HR3. apply twp_ret.
        change (Some a) with (root_ref sub).
        apply (HQ t3 (F R BLACK p kp (upd_m kp (upd (T RED sg g kg mg sp)) sub)
                        (upd (T RED sg g kg mg sp)) :: ctx2) sub).
        -- exact HR3.
        -- reflexivity.
        -- rewrite Etarget. rewrite fixup_top_black by reflexivity.
           simpl. by rewrite Hsg.
        -- by right.
        -- done.
Qed.

Lemma twp_fixup_loop rl fuel n ext (Q : unit -> IntervalTree -> Prop) :
  forall t ctx sub,
  Rep t (plug ctx sub) n ext -> is_T sub = true ->
  (fix_inv ctx sub \/ top_red ctx = false) ->
  NoDup (elems (plug ctx sub)) ->
  (top_red ctx = true -> (length ctx <= 2 * fuel + 1)%nat) ->
  (forall t', Rep t' (fixup ctx sub) n ext -> Q tt t') ->
  twp (fixup_loop (S rl) fuel (root_ref sub)) Q t.
Proof.
  induction fuel as [|fuel IH]; intros t ctx sub HR HT Hinv Hnd Hlen HQ.
  - simpl. apply twp_bind. eapply twp_fixup_cond; [exact HR|exact HT|].
    destruct (top_red ctx) eqn:Htop.
    { exfalso. destruct Hinv as [Hinv|Hinv]; [|congruence].
      first [pose proof (Hlen Htop) as Hl | pose proof (Hlen eq_refl) as Hl].
      destruct ctx as [|fp [|fg ctx2]]; [done| |simpl in Hl; lia].
      simpl in Htop. apply Color_eqb_eq in Htop.
      destruct Hinv as (_ & _ & _ & _ & _ & Hbad). simpl in Hbad. congruence. }
    apply twp_ret. apply HQ. by rewrite fixup_top_black.
  - simpl. apply twp_bind. eapply twp_fixup_cond; [exact HR|exact HT|].
    destruct (top_red ctx) eqn:Htop.
    2: { apply twp_ret. apply HQ. by rewrite fixup_top_black. }
    first [pose proof (Hlen Htop) as Hl | pose proof (Hlen eq_refl) as Hl].
    destruct Hinv as [Hinv|Hinv]; [|congruence].
    destruct ctx as [|fp rest]; [done|]. simpl in Htop.
    apply Color_eqb_eq in Htop.
    destruct rest as [|fg ctx2].
    { destruct Hinv as (_ & _ & _ & _ & _ & Hbad). simpl in Hbad. congruence. }
    destruct sub as [|cn ln a kn mn rn]; [done|].
    apply twp_bind. eapply twp_fixup_body; [exact HR|exact Htop|exact Hinv|exact Hnd|].
    intros t' ctx' sub' HR' HT' Hfix Hinv' Hlen'.
    eapply IH; [exact HR'|exact HT'|exact Hinv'| | |].
    + rewrite <- elems_fixup, Hfix, elems_fixup. exact Hnd.
    + intros Ht. specialize (Hlen' Ht). simpl in Hl. lia.
    + intros t'' HR''. apply HQ. by rewrite <- Hfix.
Qed.

Lemma twp_insert_fixup rl fuel t ctx sub n ext (Q : unit -> IntervalTree -> Prop) :
  Rep t (plug ctx sub) n ext -> is_T sub = true ->
  fix_inv ctx sub ->
  NoDup (elems (plug ctx sub)) ->
  (length ctx <= 2 * fuel + 1)%nat ->
  (forall t', Rep t' (paint BLACK (fixup ctx sub)) n ext -> Q tt t') ->
  twp (_insert_fixup (S rl) fuel (root_ref sub)) Q t.
Proof.
  intros HR HT Hinv Hnd Hlen HQ. unfold _insert_fixup.
  destruct (is_Some_root_ref sub) as [a Ha]. rewrite Ha. simpl. rewrite <- Ha.
  apply twp_bind. eapply twp_fixup_loop; [exact HR|exact HT|by left|exact Hnd|done|].
  intros t1 HR1.
  apply twp_bind. eapply twp_get_root; [exact HR1|].
  pose proof (is_T_fixup ctx sub HT) as HT1.
  destruct (fixup ctx sub) as [|c l r k m rr] eqn:Efix; [done|]. simpl.
  eapply (twp_wr_focus _ BLACK m _ []); [exact HR1|reflexivity|]. exact HQ.
Qed.

Lemma twp_rd_ext {A} (fn : IntervalNode -> A) t tr n ext a nd Q :
  Rep t tr n ext -> ext !! a = Some nd ->
  Q (fn nd) t ->
  twp (rd fn (Some a)) Q t.
Proof.
  intros (_ & _ & _ & _ & _ & _ & Hext) Ha HQ.
  destruct (Hext a nd Ha) as (Hn & _). unfold twp, rd, node_at. by rewrite Hn.
Qed.

Lemma twp_wr_ext (u : IntervalNode -> IntervalNode) t tr n ext a nd
    (Q : unit -> IntervalTree -> Prop) :
  Rep t tr n ext -> ext !! a = Some nd ->
  (forall t', Rep t' tr n (<[a := u nd]> ext) -> Q tt t') ->
  twp (wr u (Some a)) Q t.
Proof.
  intros (Hnil & Hrep & Hwf & Hlt & Hroot & Hsz & Hext) Ha HQ.
  destruct (Hext a nd Ha) as (Hn & Hnot & Ha0 & Halt).
  unfold twp, wr, node_at. rewrite Hn. simpl. apply HQ.
  unfold Rep. simpl. split; [by rewrite lookup_insert_ne|].
  split.
  { eapply rep_frame; [|exact Hrep]. intros b Hb. rewrite lookup_insert_ne; [done|].
    intros ->. done. }
  do 4 (split; [done|]).
  intros b nd' Hb. destruct (decide (a = b)) as [->|Hne].
  - rewrite lookup_insert_eq in Hb. injection Hb as <-.
    by rewrite lookup_insert_eq.
  - rewrite lookup_insert_ne in Hb by done. rewrite lookup_insert_ne by done.
    by apply Hext.
Qed.

Lemma twp_alloc nd t tr n ext (Q : ref -> IntervalTree -> Prop) :
  Rep t tr n ext ->
  (forall t', Rep t' tr n (<[next t := nd]> ext) -> ext !! next t = None ->
     Q (Some (next t)) t') ->
  twp (alloc nd) Q t.
Proof.
  intros (Hnil & Hrep & Hwf & Hlt & Hroot & (Hsz & Hpos) & Hext) HQ.
  unfold twp, alloc.
  assert (Hfresh : ext !! next t = None).
  { destruct (ext !! next t) as [nd'|] eqn:E; [|done].
    destruct (Hext _ _ E) as (_ & _ & _ & Hbad). lia. }
  apply HQ; [|exact Hfresh].
  unfold Rep. simpl. split; [rewrite lookup_insert_ne; [done|unfold nil in *; lia]|].
  split.
  { eapply rep_frame; [|exact Hrep]. intros b Hb. rewrite lookup_insert_ne; [done|].
    apply Hlt in Hb. lia. }
  split; [done|]. split; [intros b Hb; apply Hlt in Hb; lia|].
  split; [done|]. split; [split; [done|lia]|].
  intros b nd' Hb. destruct (decide (next t = b)) as [<-|Hne].
  - rewrite lookup_insert_eq in Hb. injection Hb as <-.
    rewrite lookup_insert_eq. repeat split; [|unfold nil in *; lia|lia].
    intros Hin. apply Hlt in Hin. lia.
  - rewrite lookup_insert_ne in Hb by done. rewrite lookup_insert_ne by done.
    destruct (Hext b nd' Hb) as (? & ? & ? & ?). repeat split; auto; lia.
Qed.

Lemma twp_descend rl fuel n ext a nd (Q : ref -> IntervalTree -> Prop) :
  ext !! a = Some nd ->
  forall sub ctx t,
  Rep t (plug ctx sub) n ext ->
  (height sub <= fuel)%nat ->
  (forall t', Rep t' (plug (descend_abs (start nd) sub ctx) E) n ext ->
     Q (ctx_par (descend_abs (start nd) sub ctx)) t') ->
  twp (descend (S rl) fuel (Some a) (root_ref sub) (ctx_par ctx)) Q t.
Proof.
  intros Ha. induction fuel as [|fuel IH]; intros sub ctx t HR Hh HQ.
  - simpl. apply twp_bind. eapply twp_is_real; [exact HR|].
    destruct sub; simpl; [|simpl in Hh; lia]. apply twp_ret. by apply HQ.
  - simpl. apply twp_bind. eapply twp_is_real; [exact HR|].
    destruct sub as [|c l b k m r]; simpl.
    { apply twp_ret. by apply HQ. }
    apply twp_bind.
    eapply (twp_update_max_end rl _ ctx (T c l b k m r)); [exact HR|].
    intros t1 HR1. simpl in HR1.
    apply twp_bind. eapply twp_rd_ext; [exact HR1|exact Ha|].
    apply twp_bind. eapply twp_rd_focus; [exact HR1|]. simpl.
    apply twp_bind. simpl in HQ.
    destruct (start nd <=? k_start k) eqn:Hcmp.
    + eapply twp_rd_focus; [exact HR1|]. simpl.
      apply (IH l (F L c b k (upd_m k l r) r :: ctx)); [exact HR1|simpl in Hh; lia|exact HQ].
    + eapply twp_rd_focus; [exact HR1|]. simpl.
      apply (IH r (F R c b k (upd_m k l r) l :: ctx)); [exact HR1|simpl in Hh; lia|exact HQ].
Qed.

Lemma twp_link_new t f ctx a k m n ext (Q : unit -> IntervalTree -> Prop) :
  Rep t (plug (f :: ctx) E) n ext ->
  ext !! a = Some (node_of RED E k m E (Some (f_addr f))) ->
  (forall t', Rep t' (plug (f :: ctx) (T RED E a k m E)) n (delete a ext) -> Q tt t') ->
  twp (wr (match f_dir f with
          | L => set_left (Some a)
          | R => set_right (Some a)
          end) (Some (f_addr f))) Q t.
Proof.
  intros HR Ha HQ. apply Rep_plug in HR.
  destruct HR as (Hnil & _ & (Hf & Hsib & Hc) & _ & Hwc & _ & Hlt & Hroot & Hsz & Hext).
  pose proof Hwc as (Hf0 & Hfs & Hfc & Hdsc & Hws & Hwc').
  destruct (Hext a _ Ha) as (Hna & Hnot & Ha0 & Halt).
  simpl in Hnot.
  assert (Hap : a ≠ f_addr f) by (clear -Hnot; set_solver).
  unfold twp, wr, node_at. rewrite Hf. simpl. apply HQ.
  apply Rep_plug. simpl.
  assert (Hrec : match f_dir f with
                 | L => set_left (Some a)
                 | R => set_right (Some a)
                 end (frame_node f (Some nil) (ctx_par ctx)) =
                 frame_node f (Some a) (ctx_par ctx)).
  { unfold frame_node. destruct (f_dir f); reflexivity. }
  rewrite Hrec.
  split; [by rewrite lookup_insert_ne|].
  split; [split; [by rewrite lookup_insert_ne|done]|].
  split; [split; [by rewrite lookup_insert_eq|split]|].
  { eapply rep_frame; [|exact Hsib]. intros b Hb. rewrite lookup_insert_ne; [done|].
    intros <-. done. }
  { eapply repc_frame; [|exact Hc]. intros b Hb. rewrite lookup_insert_ne; [done|].
    intros <-. done. }
  split; [repeat split; auto; set_solver|].
  split; [done|].
  split; [clear -Hnot; set_solver|].
  split.
  { intros b Hb. apply elem_of_union in Hb as [Hb|Hb]; [|apply Hlt; set_solver].
    assert (b = a) as -> by (clear -Hb; set_solver). done. }
  split; [done|]. split; [done|].
  intros b nd Hb. apply lookup_delete_Some in Hb as [Hne Hb].
  destruct (Hext b nd Hb) as (H1 & H2 & H3 & H4). simpl in H2.
  split; [|split; [clear -H2 Hne; set_solver|done]].
  rewrite lookup_insert_ne; [done|]. clear -H2. set_solver.
Qed.

Lemma twp_link_root t a k m n ext (Q : unit -> IntervalTree -> Prop) :
  Rep t E n ext ->
  ext !! a = Some (node_of RED E k m E (Some nil)) ->
  (forall t', Rep t' (T RED E a k m E) n (delete a ext) -> Q tt t') ->
  twp (set_root (Some a)) Q t.
Proof.
  intros (Hnil & _ & _ & _ & _ & Hsz & Hext) Ha HQ.
  destruct (Hext a _ Ha) as (Hna & Hnot & Ha0 & Halt).
  unfold twp, set_root. apply HQ. unfold Rep. simpl.
  split; [done|]. split; [done|].
  split; [repeat split; auto; set_solver|].
  split; [intros b Hb; assert (b = a) as -> by (clear -Hb; set_solver); done|].
  split; [done|]. split; [done|].
  intros b nd Hb. apply lookup_delete_Some in Hb as [Hne Hb].
  destruct (Hext b nd Hb) as (H1 & H2 & H3 & H4).
  repeat split; auto. clear -Hne. set_solver.
Qed.

Lemma twp_update_ancestors_nil rl fuel t tr n ext (Q : unit -> IntervalTree -> Prop) :
  Rep t tr n ext -> Q tt t -> twp (update_ancestors (S rl) fuel (Some nil)) Q t.
Proof.
  intros HR HQ.
  destruct fuel; simpl; (apply twp_bind; unfold is_real; simpl; unfold py_ne;
    apply twp_bind; apply twp_py_eq_refl; apply twp_ret; simpl; by apply twp_ret).
Qed.

Lemma twp_update_ancestors rl fuel n ext (Q : unit -> IntervalTree -> Prop) :
  forall ctx sub t,
  Rep t (plug ctx sub) n ext -> is_T sub = true ->
  (length ctx < fuel)%nat ->
  (forall t', Rep t' (plug (refresh_ctx ctx (upd sub)) (upd sub)) n ext -> Q tt t') ->
  twp (update_ancestors (S rl) fuel (root_ref sub)) Q t.
Proof.
  induction fuel as [|fuel IH]; intros ctx sub t HR HT Hlen HQ.
  - lia.
  - simpl. apply twp_bind. eapply twp_is_real; [exact HR|]. rewrite HT.
    apply twp_bind. eapply twp_update_max_end; [exact HR|].
    intros t1 HR1.
    apply twp_bind.
    destruct sub as [|c l a k m r]; [done|].
    eapply twp_rd_focus; [exact HR1|]. simpl.
    destruct ctx as [|f ctx'].
    + simpl. eapply twp_update_ancestors_nil; [exact HR1|]. by apply HQ.
    + simpl ctx_par. rewrite <- (root_ref_fill f (upd (T c l a k m r))).
      apply (IH ctx' (fill f (upd (T c l a k m r))));
        [exact HR1|apply is_T_fill|simpl in Hlen; lia|].
      intros t2 HR2. apply HQ. simpl refresh_ctx. simpl plug.
      rewrite fill_f_upd. exact HR2.
Qed.

Lemma twp_descend_root rl fuel t tr n ext a nd (Q : ref -> IntervalTree -> Prop) :
  ext !! a = Some nd ->
  Rep t tr n ext ->
  (height tr <= fuel)%nat ->
  (forall t', Rep t' (plug (descend_abs (start nd) tr []) E) n ext ->
     Q (ctx_par (descend_abs (start nd) tr [])) t') ->
  twp (descend (S rl) fuel (Some a) (root_of tr) (Some nil)) Q t.
Proof.
  intros Ha HR Hh HQ. destruct tr as [|c l b k m r].
  - simpl. destruct fuel; simpl; (apply twp_bind; apply twp_ret; apply twp_ret; by apply HQ).
  - apply (twp_descend rl fuel n ext a nd Q Ha (T c l b k m r) []); [exact HR|exact Hh|exact HQ].
Qed.

Lemma twp_incr_size t tr n ext (Q : unit -> IntervalTree -> Prop) :
  Rep t tr n ext ->
  (forall t', Rep t' tr (n + 1) ext -> Q tt t') ->
  twp incr_size Q t.
Proof.
  intros (Hnil & Hrep & Hwf & Hlt & Hroot & (Hsz & Hpos) & Hext) HQ.
  unfold twp, incr_size. apply HQ. unfold Rep. simpl.
  do 5 (split; [done|]). split; [split; [lia|done]|done].
Qed.

Lemma twp_insert rl fuel t tr n s e i (Q : unit -> IntervalTree -> Prop) :
  Rep t tr n ∅ ->
  fix_inv (refresh_ctx (descend_abs s tr []) (leaf (next t) (s, e, i)))
          (leaf (next t) (s, e, i)) ->
  NoDup ((s, e, i) :: elems tr) ->
  (height tr < fuel)%nat ->
  (forall t', Rep t' (ins tr (next t) (s, e, i)) (n + 1) ∅ -> Q tt t') ->
  twp (insert (S rl) fuel s e i) Q t.
Proof.
  intros HR Hinv Hnd Hh HQ. unfold insert.
  set (a := next t) in *. set (k := (s, e, i)) in *.
  apply twp_bind. eapply twp_alloc; [exact HR|]. fold a. intros t1 HR1 _.
  apply twp_bind. eapply twp_wr_ext; [exact HR1|apply lookup_insert_eq|].
  clear t1 HR1. intros t1 HR1. rewrite insert_insert_eq in HR1.
  apply twp_bind. eapply twp_wr_ext; [exact HR1|apply lookup_insert_eq|].
  clear t1 HR1. intros t1 HR1. rewrite insert_insert_eq in HR1.
  apply twp_bind. eapply twp_wr_ext; [exact HR1|apply lookup_insert_eq|].
  clear t1 HR1. intros t1 HR1. rewrite insert_insert_eq in HR1.
  assert (Hnew : set_parent (Some nil) (set_right (Some nil) (set_left (Some nil)
                   (new_IntervalNode s e i e RED))) = node_of RED E k e E (Some nil)).
  { unfold new_IntervalNode, node_of. simpl. by destruct (e =? 0). }
  rewrite Hnew in HR1. clear Hnew.
  apply twp_bind. eapply twp_get_root; [exact HR1|].
  apply twp_bind.
  eapply (twp_descend_root rl fuel _ tr n _ a); [apply lookup_insert_eq|exact HR1|lia|].
  simpl start. change (k_start k) with s.
  set (ctx := descend_abs s tr []) in *.
  assert (Hpath : path_ok s ctx) by (apply descend_path_ok; constructor).
  clear t1 HR1. intros t1 HR1.
  apply twp_bind. eapply twp_wr_ext; [exact HR1|apply lookup_insert_eq|].
  clear t1 HR1. intros t1 HR1. rewrite insert_insert_eq in HR1.
  change (set_parent (ctx_par ctx) (node_of RED E k e E (Some nil)))
    with (node_of RED E k e E (ctx_par ctx)) in HR1.
  assert (Hlinked : twp
    (at_root <- (b <- py_eq (S rl) (ctx_par ctx) (Some nil);;
                 if b then ret true else ret (is_None (ctx_par ctx)));;
     if at_root then set_root (Some a)
     else
       ns <- rd start (Some a);;
       ps <- rd start (ctx_par ctx);;
       if ns <=? ps then wr (set_left (Some a)) (ctx_par ctx)
       else wr (set_right (Some a)) (ctx_par ctx))
    (fun _ t' => Rep t' (plug ctx (leaf a k)) n ∅) t1).
  { destruct ctx as [|f ctx'] eqn:Ectx.
    - simpl. apply twp_bind. apply twp_bind. apply twp_py_eq_refl. apply twp_ret.
      eapply twp_link_root; [exact HR1|apply lookup_insert_eq|].
      intros t' HR'. rewrite delete_insert_eq, delete_empty in HR'. exact HR'.
    - simpl ctx_par. apply twp_bind. apply twp_bind.
      destruct (fill_T f E) as (l & r & Hf & _).
      assert (HR1' : Rep t1 (plug ctx' (T (f_color f) l (f_addr f) (f_key f) (f_max f) r))
                       n (<[a:=node_of RED E k e E (Some (f_addr f))]> ∅)).
      { rewrite <- Hf. exact HR1. }
      eapply twp_py_eq_nil; [exact HR1'|]. apply twp_ret. simpl.
      apply twp_bind. eapply twp_rd_ext; [exact HR1|apply lookup_insert_eq|]. simpl.
      apply twp_bind. eapply twp_rd_focus; [exact HR1'|]. simpl.
      change (k_start k) with s.
      apply Forall_cons in Hpath as [Hdir _].
      assert (Hw : (if s <=? k_start (f_key f)
                    then wr (set_left (Some a)) (Some (f_addr f))
                    else wr (set_right (Some a)) (Some (f_addr f))) =
                   wr (match f_dir f with
                       | L => set_left (Some a)
                       | R => set_right (Some a)
                       end) (Some (f_addr f))).
      { rewrite Hdir. by destruct (s <=? k_start (f_key f)). }
      rewrite Hw.
      eapply (twp_link_new _ f ctx' a k e); [exact HR1|apply lookup_insert_eq|].
      intros t' HR'. rewrite delete_insert_eq, delete_empty in HR'. exact HR'. }
  apply twp_bind_assoc. apply twp_bind. eapply twp_mono; [exact Hlinked|]. clear HR1 Hlinked.
  clear t1. intros [] t1 HR1.
  apply twp_bind.
  eapply (twp_update_ancestors rl fuel n ∅ _ ctx (leaf a k)); [exact HR1|reflexivity| |].
  { pose proof (length_descend_abs s tr []) as Hl. fold ctx in Hl. simpl in Hl. lia. }
  change (upd (leaf a k)) with (leaf a k).
  clear t1 HR1. intros t1 HR1.
  apply twp_bind.
  eapply (twp_insert_fixup rl fuel _ (refresh_ctx ctx (leaf a k)) (leaf a k));
    [exact HR1|reflexivity|exact Hinv| | |].
  { rewrite <- elems_fixup, <- (elems_paint BLACK).
    change (NoDup (elems (ins tr a k))). by rewrite elems_ins_perm. }
  { rewrite length_refresh_ctx.
    pose proof (length_descend_abs s tr []) as Hl. fold ctx in Hl. simpl in Hl. lia. }
  clear t1 HR1. intros t1 HR1.
  eapply twp_incr_size; [exact HR1|]. exact HQ.
Qed.

(** ** Sequences of insertions that return *)

Lemma twp_insert_all rl fuel : forall ops t tr n,
  Rep t tr n ∅ -> rbt tr ->
  NoDup (ops ++ elems tr) ->
  (2 * Nat.log2 (length ops + length (elems tr) + 1) < fuel)%nat ->
  twp (insert_all (S rl) fuel ops) (fun _ _ => True) t.
Proof.
  induction ops as [|[[s e] i] ops IH]; intros t tr n HR Hrb Hnd Hf.
  - by apply twp_ret.
  - cbn [insert_all]. apply twp_bind.
    simpl in Hnd. apply NoDup_cons in Hnd as [Hk Hnd].
    apply (twp_insert rl fuel t tr n s e i); [exact HR|by apply fix_inv_leaf| | |].
    + apply NoDup_cons. split; [clear -Hk; set_solver|].
      by apply NoDup_app in Hnd as (_ & _ & ?).
    + eapply Nat.le_lt_trans; [apply (rbt_height tr Hrb)|].
      eapply Nat.le_lt_trans; [|exact Hf].
      apply Nat.mul_le_mono_l, Nat.log2_le_mono. simpl. lia.
    + intros t' HR'. eapply IH; [exact HR'|by apply ins_rbt| |].
      * rewrite elems_ins_perm, <- Permutation_middle. by apply NoDup_cons.
      * rewrite (Permutation_length (elems_ins_perm _ _ _)).
        eapply Nat.le_lt_trans; [|exact Hf].
        apply Nat.mul_le_mono_l, Nat.log2_le_mono. simpl. lia.
Qed.

Lemma insert_all_returns rl fuel ops :
  NoDup ops -> (2 * Nat.log2 (length ops + 1) < fuel)%nat ->
  exists t, insert_all (S rl) fuel ops new_IntervalTree = (Ok tt, t).
Proof.
  intros Hnd Hf.
  destruct (twp_run _ _ _ (twp_insert_all rl fuel ops _ E 0 Rep_new (proj1 Inv_E)
    ltac:(by rewrite app_nil_r) ltac:(simpl; by rewrite Nat.add_0_r)))
    as ([] & t & Hrun & _).
  by exists t.
Qed.

(** One more insertion into a tree that insertions built. *)
Lemma insert_after_returns rl0 fuel0 rl fuel ops t0 s e i :
  insert_all rl0 fuel0 ops new_IntervalTree = (Ok tt, t0) ->
  NoDup (ops ++ [(s, e, i)]) ->
  (2 * Nat.log2 (length ops + 1) < fuel)%nat ->
  exists t1, insert (S rl) fuel s e i t0 = (Ok tt, t1).
Proof.
  intros Hrun Hnd Hf.
  destruct (insert_all_new _ _ _ _ Hrun) as (tr & HR & HI & HP & Hh).
  assert (Htw : twp (insert (S rl) fuel s e i) (fun _ _ => True) t0).
  { eapply twp_insert; [exact HR|apply fix_inv_leaf, HI| | |done].
    - rewrite HP. apply NoDup_app in Hnd as (Hn1 & Hn2 & _).
      apply NoDup_cons. split; [|done]. intros Hin. apply (Hn2 _ Hin). set_solver.
    - lia. }
  apply twp_run in Htw as ([] & t1 & H1 & _). by exists t1.
Qed.


(** * Loads that return *)

Lemma slots_of_sublist ids key ts : slots_of ids key ts `sublist_of` slot_interval <$> ts.
Proof. unfold slots_of. apply fmap_sublist, sublist_filter. Qed.

Lemma index_slot_returns rl fuel ids pre s m :
  day_by_id m = ids ->
  trees_hold (S rl) fuel ids (interval_trees m) pre ->
  NoDup (slot_interval <$> pre ++ [s]) ->
  (2 * Nat.log2 (length pre + 1) < fuel)%nat ->
  exists m', index_slot (S rl) fuel s m = (Ok tt, m').
Proof.
  intros Hids Hold Hnd Hf. unfold index_slot.
  rewrite (bind_run _ _ m (day_by_id m !! TimeSlot_day_id s) m) by done.
  rewrite Hids.
  destruct (ids !! TimeSlot_day_id s) as [day|] eqn:Eday; [|by exists m].
  set (key0 := strftime_date (Day_date day)).
  rewrite (bind_run _ _ m (bool_decide (is_Some (interval_trees m !! key0))) m) by done.
  assert (Hk0 : slot_key ids s = Some key0) by (unfold slot_key; rewrite Eday; done).
  assert (Hpre : exists t0 m1,
    (if bool_decide (is_Some (interval_trees m !! key0)) then ret tt
     else fun m => (Ok tt, set_trees (<[key0 := new_IntervalTree]> (interval_trees m)) m)) m
    = (Ok tt, m1) /\
    interval_trees m1 = <[key0 := t0]> (interval_trees m) /\
    insert_all (S rl) fuel (slots_of ids key0 pre) new_IntervalTree = (Ok tt, t0)).
  { pose proof (Hold key0) as Hk.
    destruct (interval_trees m !! key0) as [t0|] eqn:Et0.
    - rewrite bool_decide_true by eauto. exists t0, m. split; [done|].
      split; [by rewrite insert_id|apply Hk].
    - rewrite bool_decide_false by (intros [? ?]; done).
      exists new_IntervalTree, (set_trees (<[key0 := new_IntervalTree]> (interval_trees m)) m).
      split; [done|]. split; [done|]. by rewrite Hk. }
  destruct Hpre as (t0 & m1 & Hstep & Htr & Hins).
  rewrite (bind_run _ _ _ _ _ Hstep).
  unfold with_tree. rewrite Htr, lookup_insert_eq.
  destruct (insert_after_returns _ _ rl fuel _ _
              (_time_to_minutes (TimeSlot_start s)) (_time_to_minutes (TimeSlot_end s))
              (TimeSlot_id s) Hins) as (t1 & H1).
  - eapply sublist_NoDup; [exact Hnd|].
    pose proof (slots_of_sublist ids key0 (pre ++ [s])) as Hsub.
    rewrite slots_of_snoc, decide_True in Hsub by done. exact Hsub.
  - eapply Nat.le_lt_trans; [|exact Hf].
    apply Nat.mul_le_mono_l, Nat.log2_le_mono.
    pose proof (slots_of_length ids key0 pre). lia.
  - rewrite H1. eauto.
Qed.

Lemma for_each_index_slot_returns rl fuel ids : forall ts pre m,
  day_by_id m = ids ->
  trees_hold (S rl) fuel ids (interval_trees m) pre ->
  NoDup (slot_interval <$> pre ++ ts) ->
  (2 * Nat.log2 (length (pre ++ ts) + 1) < fuel)%nat ->
  exists m', for_each (index_slot (S rl) fuel) ts m = (Ok tt, m').
Proof.
  induction ts as [|s ts IH]; intros pre m Hids Hold Hnd Hf; simpl.
  - by exists m.
  - replace (pre ++ s :: ts) with ((pre ++ [s]) ++ ts) in Hnd, Hf by by rewrite <- app_assoc.
    destruct (index_slot_returns rl fuel ids pre s m Hids Hold) as (m1 & H1).
    { rewrite fmap_app in Hnd. by apply NoDup_app in Hnd as (Hnd & _). }
    { eapply Nat.le_lt_trans; [|exact Hf].
      apply Nat.mul_le_mono_l, Nat.log2_le_mono. rewrite !length_app. simpl. lia. }
    rewrite (bind_run _ _ _ _ _ H1).
    destruct (index_slot_ok _ _ ids pre s m m1 Hids Hold H1) as (_ & _ & _ & Hid & Hold1).
    exact (IH (pre ++ [s]) m1 Hid Hold1 Hnd Hf).
Qed.

(** A load returns when every record is accepted and no two slots have the
    same start, end and id: each insertion into the tree of a date then
    finds, at every comparison of two nodes, three numbers that tell them
    apart.  The loops of [insert] need fuel for the height of a tree of all
    the slots. *)
Theorem set_data_returns rl fuel dd sd ds ts m :
  map_res Day_from_dict dd = Ok ds ->
  map_res TimeSlot_from_dict sd = Ok ts ->
  NoDup (slot_interval <$> ts) ->
  (2 * Nat.log2 (length ts + 1) < fuel)%nat ->
  fst (set_data (S rl) fuel dd sd m) = Ok tt.
Proof.
  intros Hd Ht Hnd Hf. rewrite (set_data_parsed _ _ _ _ _ _ _ Hd Ht).
  unfold except_format.
  rewrite (bind_run _ _ _ _ _ (for_each_index_day ds _)). cbn [days timeslots].
  rewrite (bind_run _ _ _ ts _) by done.
  match goal with
  | |- context [for_each _ ts ?m0] =>
      destruct (for_each_index_slot_returns rl fuel (day_by_id m0) ts [] m0 eq_refl)
        as (m' & Hrun); [|exact Hnd|exact Hf|]
  end.
  - intros key. simpl. by rewrite lookup_empty.
  - by rewrite Hrun.
Qed.

Lemma set_data_returns_witness :
  fst (set_data 1 8 sample_days sample_timeslots new_ScheduleManager) = Ok tt.
Proof.
  eapply (set_data_returns 0 8 sample_days sample_timeslots).
  - vm_compute. reflexivity.
  - vm_compute. reflexivity.
  - vm_compute. repeat constructor; set_solver.
  - vm_compute. lia.
Defined.

(** * Insertions that return *)

(** Inserting intervals no two of which have the same start, end and id
    into a new tree returns, whatever the recursion limit (at least one
    call of [__eq__] deep): the comparisons of nodes in the rotations are
    settled by the three numbers and never follow the links.  The loops of
    [insert] need fuel for the height of the tree, which stays within twice
    the logarithm of the number of intervals. *)
Theorem distinct_inserts_return rl fuel ops :
  NoDup ops ->
  (2 * Nat.log2 (length ops + 1) < fuel)%nat ->
  fst (insert_all (S rl) fuel ops new_IntervalTree) = Ok tt.
Proof.
  intros Hnd Hf. destruct (insert_all_returns rl fuel ops Hnd Hf) as (t & ->). done.
Qed.

Lemma distinct_inserts_return_witness :
  fst (insert_all 1 7 [(5, 5, 1); (5, 5, 2); (0, 9, 1); (5, 9, 1); (5, 5, 3)]
         new_IntervalTree) = Ok tt.
Proof.
  apply (distinct_inserts_return 0 7).
  - repeat constructor; set_solver.
  - vm_compute. lia.
Defined.

(** * The overlap test of the records *)

(** [TimeSlot.overlaps_with] compares times of day where the tree compares
    minutes: for slots with times of day, it answers as
    [IntervalNode.overlaps_with] does on the node under which the first slot
    is indexed and the minutes of the second, it does not depend on the
    order of the two slots, and a slot of positive duration overlaps with
    itself while one of no duration does not. *)
Theorem slot_overlap_agrees_with_tree s o m c :
  well_formed_slot s -> well_formed_slot o ->
  TimeSlot_overlaps_with s o =
    overlaps_with
      (new_IntervalNode (_time_to_minutes (TimeSlot_start s))
         (_time_to_minutes (TimeSlot_end s)) (TimeSlot_id s) m c)
      (_time_to_minutes (TimeSlot_start o)) (_time_to_minutes (TimeSlot_end o)) /\
  TimeSlot_overlaps_with s o = TimeSlot_overlaps_with o s /\
  (TimeSlot_overlaps_with s s = true <-> 0 < TimeSlot_duration_minutes s).
Proof.
  intros [Hs1 Hs2] [Ho1 Ho2]. unfold TimeSlot_overlaps_with, overlaps_with.
  rewrite !time_leb_minutes by done. cbn [start end_ new_IntervalNode].
  split; [by rewrite Z.geb_leb|]. split; [by rewrite orb_comm|].
  rewrite orb_diag, negb_true_iff, Z.leb_gt.
  unfold TimeSlot_duration_minutes, _time_to_minutes. lia.
Qed.

Lemma slot_overlap_agrees_with_tree_witness :
  TimeSlot_overlaps_with (mkTimeSlot 1 1 (mkTime 9 0) (mkTime 10 30))
    (mkTimeSlot 2 1 (mkTime 10 0) (mkTime 11 0)) =
    overlaps_with (new_IntervalNode 540 630 1 0 RED) 600 660 /\
  TimeSlot_overlaps_with (mkTimeSlot 1 1 (mkTime 9 0) (mkTime 10 30))
    (mkTimeSlot 2 1 (mkTime 10 0) (mkTime 11 0)) =
    TimeSlot_overlaps_with (mkTimeSlot 2 1 (mkTime 10 0) (mkTime 11 0))
      (mkTimeSlot 1 1 (mkTime 9 0) (mkTime 10 30)) /\
  (TimeSlot_overlaps_with (mkTimeSlot 1 1 (mkTime 9 0) (mkTime 10 30))
     (mkTimeSlot 1 1 (mkTime 9 0) (mkTime 10 30)) = true <->
   0 < TimeSlot_duration_minutes (mkTimeSlot 1 1 (mkTime 9 0) (mkTime 10 30))).
Proof.
  apply (slot_overlap_agrees_with_tree
           (mkTimeSlot 1 1 (mkTime 9 0) (mkTime 10 30))
           (mkTimeSlot 2 1 (mkTime 10 0) (mkTime 11 0)) 0 RED);
    split; reflexivity.
Defined.

